(** * stashlist-demo: the baseline skip list and the adaptive stash list

    A shallow embedding of [skiplist/skiplist.go] (package skiplist) and of the
    adaptive variant (package stashlist), with the properties of the
    specification stated over it.

    Memory model.  Go elements are heap objects reached through pointers and
    never freed while referenced, so the heap is an append-only [list Element]
    and a [*Element] is an index into it ([None] is the nil pointer).  A
    [*elementNode] is either the node embedded in the list header ([Head]) or
    the node embedded in an element ([Elem a]).  Every loop of the source
    whose trip count depends on the links takes a [fuel] argument; a run that
    exhausts it yields [OutOfFuel]. *)

From Stdlib Require Import ZArith String Ascii Lia Bool Sorted.
From Stdlib Require Import Strings.Byte.
From Stdlib Require Import OrderedTypeEx.
From stdpp Require Import base tactics option list sorting sets.

Local Open Scope Z_scope.
Local Open Scope nat_scope.

(** ** Results of a call: a value, a Go panic, or fuel exhaustion *)

Inductive Res (A : Type) : Type :=
| Ok (a : A)
| Panic (msg : string)
| OutOfFuel.
Arguments Ok {A} a.
Arguments Panic {A} msg.
Arguments OutOfFuel {A}.

#[global] Instance Res_ret : MRet Res := fun A a => Ok a.
#[global] Instance Res_bind : MBind Res := fun A B f m =>
  match m with
  | Ok a => f a
  | Panic msg => Panic msg
  | OutOfFuel => OutOfFuel
  end.

Definition index_out_of_range : string := "index out of range"%string.
Definition nil_dereference : string :=
  "invalid memory address or nil pointer dereference"%string.

(** [l[i]] on a Go slice. *)
Definition idx {A} (l : list A) (i : nat) : Res A :=
  match l !! i with
  | Some x => Ok x
  | None => Panic index_out_of_range
  end.

(** [l[i] = x] on a Go slice. *)
Definition store {A} (l : list A) (i : nat) (x : A) : Res (list A) :=
  if decide (i < length l) then Ok (<[i:=x]> l) else Panic index_out_of_range.

(** The same two operations at a Go [int] index, which may be negative. *)
Definition idxZ {A} (l : list A) (i : Z) : Res A :=
  if decide (0 <= i)%Z then idx l (Z.to_nat i) else Panic index_out_of_range.

Definition storeZ {A} (l : list A) (i : Z) (x : A) : Res (list A) :=
  if decide (0 <= i)%Z then store l (Z.to_nat i) x else Panic index_out_of_range.

(** [for i := 0; i < n; i++ { body }] over a threaded state. *)
Fixpoint for_up {St} (n : nat) (i : nat) (body : nat -> St -> Res St) (s : St) : Res St :=
  match n with
  | 0 => Ok s
  | S n' => s' ← body i s; for_up n' (S i) body s'
  end.

Abbreviation addr := nat (only parsing).

(** A [*elementNode]. *)
Inductive nodeRef : Type :=
| Head
| Elem (a : addr).

#[global] Instance nodeRef_eq_dec : EqDecision nodeRef.
Proof. solve_decision. Defined.

(** ** Keys: Go strings, compared bytewise *)

Definition key_lt (a b : string) : bool := String.ltb a b.
Definition key_le (a b : string) : bool := String.leb a b.

(** ** The level-probability model

    [float64] values are kept symbolic: the model never computes with them,
    it only stores them and compares the random draw against table entries.
    A draw [r] of [randLevel] is represented by its comparison function
    [fun x => r < x]. *)

Inductive float64 : Type :=
| F_of_Z (z : Z)
| F_E
| F_div (a b : float64)
| F_pow (a b : float64).

Definition draw := float64 -> bool.

Definition DefaultMaxLevel : Z := 18.
Definition DefaultProbability : float64 := F_div (F_of_Z 1) F_E.

Fixpoint probabilityTable_from (n : nat) (i : Z) (probability : float64)
    (table : list float64) : list float64 :=
  match n with
  | 0 => table
  | S n' =>
      let prob := F_pow probability (F_of_Z (i - 1)) in
      probabilityTable_from n' (i + 1)%Z probability (table ++ [prob])
  end.

(** [for i := 1; i <= MaxLevel; i++ { table = append(table, Pow(p, i-1)) }] *)
Definition probabilityTable (probability : float64) (MaxLevel : nat) : list float64 :=
  probabilityTable_from MaxLevel 1%Z probability [].

(** [level = 1; for level < maxLevel && r < probTable[level] { level++ }];
    [gap] is [maxLevel - level], so the first conjunct fails exactly at 0. *)
Fixpoint randLevel_from (gap : nat) (level : nat) (probTable : list float64)
    (r : draw) : Res nat :=
  match gap with
  | 0 => Ok level
  | S gap' =>
      p ← idx probTable level;
      if r p then randLevel_from gap' (S level) probTable r else Ok level
  end.

Definition randLevel_of (maxLevel : nat) (probTable : list float64) (r : draw) : Res nat :=
  randLevel_from (maxLevel - 1) 1 probTable r.

(** A draw that lands between the table entries [n] and [n - 1] of a table
    built by [probabilityTable]: the level loop stops at [n]. *)
Definition draw_for (n : nat) : draw := fun x =>
  match x with
  | F_pow _ (F_of_Z j) => (j <? Z.of_nat n)%Z
  | _ => false
  end.


(** ** Linked segments *)

Fixpoint lastRef (r : nodeRef) (l : list nat) : nodeRef :=
  match l with
  | [] => r
  | a :: l' => lastRef (Elem a) l'
  end.

Definition hd_or (l : list nat) (tl : option nat) : option nat :=
  match l with
  | [] => tl
  | a :: _ => Some a
  end.

(** [lseg f r l tl]: following the links [f] from node [r] visits exactly the
    elements [l] and then reaches [tl]. *)
Fixpoint lseg (f : nodeRef -> Res (option nat)) (r : nodeRef) (l : list nat)
    (tl : option nat) : Prop :=
  match l with
  | [] => f r = Ok tl
  | a :: l' => f r = Ok (Some a) /\ lseg f (Elem a) l' tl
  end.

(** * The baseline skip list (package skiplist) *)

Module SkipList.

Record elementNode : Type := mkNode {
  next : list (option addr)
}.

Record Element : Type := mkElement {
  enode : elementNode;
  key : string;
  value : list byte
}.

(** The header.  [lnode] is the embedded [elementNode] (the head sentinel);
    the random source is not part of the state, each [Add] receives its
    draw.  [heap] is the store the [*Element] pointers point into. *)
Record SkipList : Type := mkList {
  lnode : elementNode;
  maxLevel : nat;
  Length : Z;
  probability : float64;
  probTable : list float64;
  prevNodesCache : list (option nodeRef);
  heap : list Element
}.

Definition set_lnode (s : SkipList) (n : elementNode) : SkipList :=
  mkList n (maxLevel s) (Length s) (probability s) (probTable s)
         (prevNodesCache s) (heap s).

Definition set_heap (s : SkipList) (h : list Element) : SkipList :=
  mkList (lnode s) (maxLevel s) (Length s) (probability s) (probTable s)
         (prevNodesCache s) h.

Definition set_cache (s : SkipList) (c : list (option nodeRef)) : SkipList :=
  mkList (lnode s) (maxLevel s) (Length s) (probability s) (probTable s)
         c (heap s).

Definition set_Length (s : SkipList) (n : Z) : SkipList :=
  mkList (lnode s) (maxLevel s) n (probability s) (probTable s)
         (prevNodesCache s) (heap s).

(** *** Pointer accesses *)

Definition getElement (s : SkipList) (a : addr) : Res Element :=
  match heap s !! a with
  | Some e => Ok e
  | None => Panic nil_dereference
  end.

Definition deref (p : option nodeRef) : Res nodeRef :=
  match p with
  | Some r => Ok r
  | None => Panic nil_dereference
  end.

Definition getNode (s : SkipList) (r : nodeRef) : Res elementNode :=
  match r with
  | Head => Ok (lnode s)
  | Elem a => e ← getElement s a; Ok (enode e)
  end.

Definition setNode (s : SkipList) (r : nodeRef) (n : elementNode) : Res SkipList :=
  match r with
  | Head => Ok (set_lnode s n)
  | Elem a =>
      e ← getElement s a;
      Ok (set_heap s (<[a := mkElement n (key e) (value e)]> (heap s)))
  end.

(** [r.next[i]] *)
Definition slot (s : SkipList) (r : nodeRef) (i : nat) : Res (option addr) :=
  n ← getNode s r; idx (next n) i.

(** [r.next[i] = v] *)
Definition setSlot (s : SkipList) (r : nodeRef) (i : nat) (v : option addr)
    : Res SkipList :=
  n ← getNode s r;
  nx ← store (next n) i v;
  setNode s r (mkNode nx).

(** [element.value = v] *)
Definition setValue (s : SkipList) (a : addr) (v : list byte) : Res SkipList :=
  e ← getElement s a;
  Ok (set_heap s (<[a := mkElement (enode e) (key e) v]> (heap s))).

(** *** The search *)

(** [for next != nil && key > next.key { prev = &next.elementNode; next = next.next[i] }] *)
Fixpoint advance (fuel : nat) (s : SkipList) (k : string) (i : nat)
    (prev : nodeRef) (nxt : option addr) : Res (nodeRef * option addr) :=
  match fuel with
  | 0 => OutOfFuel
  | S fuel' =>
      match nxt with
      | None => Ok (prev, nxt)
      | Some a =>
          e ← getElement s a;
          if key_lt (key e) k
          then nx ← idx (next (enode e)) i; advance fuel' s k i (Elem a) nx
          else Ok (prev, nxt)
      end
  end.

(** The level loop of [Get]: [n] levels remain, the next one is [n - 1]. *)
Fixpoint search_levels (fuel : nat) (s : SkipList) (k : string) (n : nat)
    (prev : nodeRef) (nxt : option addr) : Res (nodeRef * option addr) :=
  match n with
  | 0 => Ok (prev, nxt)
  | S i =>
      nx ← slot s prev i;
      '(prev', nxt') ← advance fuel s k i prev nx;
      search_levels fuel s k i prev' nxt'
  end.

(** The level loop of [getPrevElementNodes], which also records [prevs[i]]. *)
Fixpoint descend (fuel : nat) (s : SkipList) (k : string) (n : nat)
    (prev : nodeRef) (nxt : option addr) (prevs : list (option nodeRef))
    : Res (list (option nodeRef)) :=
  match n with
  | 0 => Ok prevs
  | S i =>
      nx ← slot s prev i;
      '(prev', nxt') ← advance fuel s k i prev nx;
      prevs' ← store prevs i (Some prev');
      descend fuel s k i prev' nxt' prevs'
  end.

(** [prevs] aliases [list.prevNodesCache]: the cache holds the result. *)
Definition getPrevElementNodes (fuel : nat) (k : string) (s : SkipList)
    : Res (list (option nodeRef) * SkipList) :=
  prevs ← descend fuel s k (maxLevel s) Head None (prevNodesCache s);
  Ok (prevs, set_cache s prevs).

Definition randLevel (s : SkipList) (r : draw) : Res nat :=
  randLevel_of (maxLevel s) (probTable s) r.

(** *** Add *)

(** One round of [for i := range element.next]. *)
Definition link_level (prevs : list (option nodeRef)) (a : addr) (i : nat)
    (s : SkipList) : Res SkipList :=
  p ← idx prevs i;
  p ← deref p;
  nx ← slot s p i;
  s ← setSlot s (Elem a) i nx;
  setSlot s p i (Some a).

(** The path of [Add] that creates an element. *)
Definition Add_new (prevs : list (option nodeRef)) (k : string) (v : list byte)
    (r : draw) (s : SkipList) : Res SkipList :=
  lvl ← randLevel s r;
  let a := length (heap s) in
  let s := set_heap s (heap s ++ [mkElement (mkNode (replicate lvl None)) k v]) in
  s ← for_up lvl 0 (link_level prevs a) s;
  Ok (set_Length s (Length s + 1)).

Definition Add (fuel : nat) (k : string) (v : list byte) (r : draw) (s : SkipList)
    : Res SkipList :=
  '(prevs, s) ← getPrevElementNodes fuel k s;
  p0 ← idx prevs 0;
  p0 ← deref p0;
  element ← slot s p0 0;
  match element with
  | Some a =>
      e ← getElement s a;
      if key_le (key e) k then setValue s a v else Add_new prevs k v r s
  | None => Add_new prevs k v r s
  end.

(** *** Get.  A nil [[]byte] result is the empty list. *)

Definition Get (fuel : nat) (k : string) (s : SkipList) : Res (list byte * bool) :=
  '(_, nxt) ← search_levels fuel s k (maxLevel s) Head None;
  match nxt with
  | Some a =>
      e ← getElement s a;
      if key_le (key e) k then Ok (value e, true) else Ok ([], false)
  | None => Ok ([], false)
  end.

(** *** Remove *)

(** One round of [for k, v := range element.next { prevs[k].next[k] = v }]. *)
Definition unlink_level (prevs : list (option nodeRef)) (a : addr) (j : nat)
    (s : SkipList) : Res SkipList :=
  v ← slot s (Elem a) j;
  p ← idx prevs j;
  p ← deref p;
  setSlot s p j v.

Definition Remove (fuel : nat) (k : string) (s : SkipList)
    : Res (option addr * SkipList) :=
  '(prevs, s) ← getPrevElementNodes fuel k s;
  p0 ← idx prevs 0;
  p0 ← deref p0;
  element ← slot s p0 0;
  match element with
  | Some a =>
      e ← getElement s a;
      if key_le (key e) k then
        s ← for_up (length (next (enode e))) 0 (unlink_level prevs a) s;
        Ok (Some a, set_Length s (Length s - 1))
      else Ok (None, s)
  | None => Ok (None, s)
  end.

(** *** Configuration *)

Definition SetProbability (newProbability : float64) (s : SkipList) : SkipList :=
  mkList (lnode s) (maxLevel s) (Length s) newProbability
         (probabilityTable newProbability (maxLevel s))
         (prevNodesCache s) (heap s).

Definition panic_maxLevel : string :=
  "maxLevel for a SkipList must be a positive integer <= 64"%string.

Definition NewWithMaxLevel (maxLevel : Z) : Res SkipList :=
  if ((maxLevel <? 1) || (maxLevel >? 64))%Z then Panic panic_maxLevel
  else
    let n := Z.to_nat maxLevel in
    Ok (mkList (mkNode (replicate n None)) n 0%Z DefaultProbability
               (probabilityTable DefaultProbability n) (replicate n None) []).

Definition NewSkipList : Res SkipList := NewWithMaxLevel DefaultMaxLevel.

(** [Front] and [Element.Next]: the level-0 iteration. *)
Definition Front (s : SkipList) : Res (option addr) := slot s Head 0.
Definition Next (s : SkipList) (a : addr) : Res (option addr) := slot s (Elem a) 0.

(** *** Operation sequences *)

Inductive Op : Type :=
| OpAdd (k : string) (v : list byte) (r : draw)
| OpGet (k : string)
| OpRemove (k : string)
| OpSetProbability (p : float64).

Inductive Out : Type :=
| OutAdd
| OutGet (v : list byte) (found : bool)
| OutRemove (removed : option addr)
| OutSet.

Definition exec (fuel : nat) (op : Op) (s : SkipList) : Res (Out * SkipList) :=
  match op with
  | OpAdd k v r => s' ← Add fuel k v r s; Ok (OutAdd, s')
  | OpGet k => '(v, b) ← Get fuel k s; Ok (OutGet v b, s)
  | OpRemove k => '(x, s') ← Remove fuel k s; Ok (OutRemove x, s')
  | OpSetProbability p => Ok (OutSet, SetProbability p s)
  end.

(** Enough fuel for every loop over a heap without cycles. *)
Definition fuel_of (s : SkipList) : nat := S (length (heap s)).

Fixpoint run (ops : list Op) (s : SkipList) : Res SkipList :=
  match ops with
  | [] => Ok s
  | op :: ops' => '(_, s') ← exec (fuel_of s) op s; run ops' s'
  end.

(** The states a program can reach through the public API. *)
Inductive reachable : SkipList -> Prop :=
| reach_new m s : NewWithMaxLevel m = Ok s -> reachable s
| reach_step s fuel op out s' :
    reachable s -> exec fuel op s = Ok (out, s') -> reachable s'.

(** The elements linked at level [i], in link order from the head. *)
Fixpoint walk (fuel : nat) (s : SkipList) (i : nat) (cur : option addr)
    : Res (list addr) :=
  match cur with
  | None => Ok []
  | Some a =>
      match fuel with
      | 0 => OutOfFuel
      | S fuel' =>
          nx ← slot s (Elem a) i;
          l ← walk fuel' s i nx;
          Ok (a :: l)
      end
  end.

Definition chain (s : SkipList) (i : nat) : Res (list addr) :=
  h ← slot s Head i; walk (fuel_of s) s i h.

Definition keyOf (s : SkipList) (a : addr) : string :=
  match heap s !! a with Some e => key e | None => EmptyString end.

Definition heightOf (s : SkipList) (a : addr) : nat :=
  match heap s !! a with Some e => length (next (enode e)) | None => 0 end.


(** *** Specification vocabulary *)

(** What no link update changes. *)
Record same_frame (s s' : SkipList) : Prop := {
  sf_maxLevel : maxLevel s' = maxLevel s;
  sf_Length : Length s' = Length s;
  sf_probability : probability s' = probability s;
  sf_probTable : probTable s' = probTable s;
  sf_cache : prevNodesCache s' = prevNodesCache s;
  sf_heap_length : length (heap s') = length (heap s);
  sf_head_height : length (next (lnode s')) = length (next (lnode s));
  sf_key : forall a, keyOf s' a = keyOf s a;
  sf_height : forall a, heightOf s' a = heightOf s a;
  sf_value : forall a, value <$> (heap s' !! a) = value <$> (heap s !! a)
}.

(** ** The representation invariant *)

Definition links (s : SkipList) (i : nat) : nodeRef -> Res (option nat) :=
  fun r => slot s r i.

(** The elements of [L] that take part in level [i]. *)
Definition level_of (s : SkipList) (i : nat) (L : list nat) : list nat :=
  filter (fun a => i < heightOf s a) L.

(** The node after which a key greater than those of [L1] is spliced in at
    level [i]. *)
Definition predAt (s : SkipList) (L1 : list nat) (i : nat) : nodeRef :=
  lastRef Head (level_of s i L1).

Definition sorted_keys (s : SkipList) (L : list nat) : Prop :=
  StronglySorted (fun a b => key_lt (keyOf s a) (keyOf s b) = true) L.

(** [Rep s L]: the list [L] of addresses is the level-0 chain of [s], in
    strictly increasing key order, and level [i] links exactly the elements
    of [L] whose [next] array is longer than [i]. *)
Record Rep (s : SkipList) (L : list nat) : Prop := {
  rep_max : 1 <= maxLevel s;
  rep_head : length (next (lnode s)) = maxLevel s;
  rep_cache : length (prevNodesCache s) = maxLevel s;
  rep_tbl : length (probTable s) = maxLevel s;
  rep_elems : forall a, a ∈ L -> a < length (heap s) /\ 1 <= heightOf s a <= maxLevel s;
  rep_sorted : sorted_keys s L;
  rep_links : forall i, i < maxLevel s -> lseg (links s i) Head (level_of s i L) None;
  rep_len : Length s = Z.of_nat (length L)
}.

(** A key splits a sorted chain in two. *)
Definition splits (s : SkipList) (k : string) (L L1 L2 : list nat) : Prop :=
  L = L1 ++ L2 /\
  (forall a, a ∈ L1 -> key_lt (keyOf s a) k = true) /\
  (forall a, a ∈ L2 -> key_lt (keyOf s a) k = false).

(** ** The abstract content of a list *)

Definition valueOf (s : SkipList) (a : nat) : list Byte.byte :=
  match heap s !! a with Some e => value e | None => [] end.

Fixpoint find_key (s : SkipList) (k : string) (L : list nat) : option nat :=
  match L with
  | [] => None
  | a :: L' => if String.eqb (keyOf s a) k then Some a else find_key s k L'
  end.

(** The value bound to [k], if any. *)
Definition content (s : SkipList) (L : list nat) (k : string) : option (list Byte.byte) :=
  valueOf s <$> find_key s k L.

(** The three outcomes of the match test on the candidate. *)
Inductive candidate_case (s : SkipList) (k : string) (L1 L2 : list nat) : Prop :=
| cand_hit c L2' :
    L2 = c :: L2' -> keyOf s c = k -> key_le (keyOf s c) k = true ->
    (forall a, a ∈ L2' -> key_lt k (keyOf s a) = true) ->
    candidate_case s k L1 L2
| cand_miss :
    (forall a, a ∈ L2 -> key_lt k (keyOf s a) = true) ->
    (forall c L2', L2 = c :: L2' -> key_le (keyOf s c) k = false) ->
    candidate_case s k L1 L2.

(** ** Allocation *)

Definition valid (s : SkipList) (r : nodeRef) : Prop :=
  match r with Head => True | Elem a => a < length (heap s) end.

Definition alloc (s : SkipList) (e0 : Element) : SkipList :=
  set_heap s (heap s ++ [e0]).

(** What [Add] leaves as it was, for the elements already there. *)
Definition Add_frame (s s' : SkipList) : Prop :=
  maxLevel s' = maxLevel s /\ probability s' = probability s /\
  forall a, a < length (heap s) ->
    keyOf s' a = keyOf s a /\ heightOf s' a = heightOf s a.

(** [Add] binds [k] to [v] and leaves the other keys alone.  When [k] is
    present the chain and the count stay; when it is absent one element is
    created, with as many links as the level drawn. *)
Definition Add_post (s : SkipList) (k : string) (v : list Byte.byte) (r : draw)
    (L : list nat) (s' : SkipList) (L' : list nat) : Prop :=
  Rep s' L' /\ Add_frame s s' /\
  (forall k', content s' L' k' = if String.eqb k' k then Some v else content s L k') /\
  match find_key s k L with
  | Some c =>
      L' = L /\ Length s' = Length s /\ length (heap s') = length (heap s)
  | None =>
      exists L1 L2 lvl,
        L = L1 ++ L2 /\ L' = L1 ++ length (heap s) :: L2 /\
        Length s' = (Length s + 1)%Z /\ length (heap s') = S (length (heap s)) /\
        randLevel s r = Ok lvl /\ heightOf s' (length (heap s)) = lvl /\
        keyOf s' (length (heap s)) = k
  end.

(** [Remove] unbinds [k] and leaves the other keys alone.  On a miss nothing
    but the scratch cache changes.  On a hit the element [c] leaves the chain,
    the count drops by one, and the only links rewritten are those of its
    recorded predecessors (the cache holds them), one per level of [c], which
    take over the link of [c] at that level. *)
Definition Remove_post (s : SkipList) (k : string) (L : list nat)
    (res : option nat) (s' : SkipList) (L' : list nat) : Prop :=
  Rep s' L' /\ res = find_key s k L /\
  maxLevel s' = maxLevel s /\ probability s' = probability s /\
  length (heap s') = length (heap s) /\
  (forall a, keyOf s' a = keyOf s a /\ heightOf s' a = heightOf s a /\
             valueOf s' a = valueOf s a) /\
  (forall k', content s' L' k' = if String.eqb k' k then None else content s L k') /\
  match find_key s k L with
  | Some c =>
      exists L1 L2,
        L = L1 ++ c :: L2 /\ L' = L1 ++ L2 /\ Length s' = (Length s - 1)%Z /\
        (forall j, j < maxLevel s ->
           prevNodesCache s' !! j = Some (Some (predAt s L1 j))) /\
        forall r j, slot s' r j =
          if decide (j < heightOf s c /\ r = predAt s L1 j) then slot s (Elem c) j
          else slot s r j
  | None =>
      L' = L /\ lnode s' = lnode s /\ heap s' = heap s /\ Length s' = Length s
  end.

(** The node [r] is the head or holds a key below [k]. *)
Definition before_key (s : SkipList) (k : string) (r : nodeRef) : Prop :=
  match r with
  | Head => True
  | Elem a => exists e, heap s !! a = Some e /\ key_lt (key e) k = true
  end.

(** The candidate [c] is nil or holds a key not below [k]. *)
Definition not_before (s : SkipList) (k : string) (c : option nat) : Prop :=
  match c with
  | None => True
  | Some a => exists e, heap s !! a = Some e /\ key_lt (key e) k = false
  end.

(** The map a sequence of calls builds, key by key. *)
Definition abs_step (op : Op) (m : string -> option (list Byte.byte)) (k' : string)
    : option (list Byte.byte) :=
  match op with
  | OpAdd k v _ => if String.eqb k' k then Some v else m k'
  | OpRemove k => if String.eqb k' k then None else m k'
  | OpGet _ | OpSetProbability _ => m k'
  end.

Fixpoint abs_run (ops : list Op) (m : string -> option (list Byte.byte))
    : string -> option (list Byte.byte) :=
  match ops with
  | [] => m
  | op :: ops' => abs_run ops' (abs_step op m)
  end.

(** The call writes the binding of [k]: an [Add] or a [Remove] of that key. *)
Definition writes (k : string) (op : Op) : Prop :=
  match op with
  | OpAdd k' _ _ | OpRemove k' => k' = k
  | OpGet _ | OpSetProbability _ => False
  end.

(** The number of chain elements that hold the key [k]. *)
Fixpoint count_key (s : SkipList) (k : string) (L : list nat) : nat :=
  match L with
  | [] => 0
  | a :: L' => (if String.eqb (keyOf s a) k then 1 else 0) + count_key s k L'
  end.


End SkipList.
(** * The adaptive stash list (package stashlist) *)

Module StashList.

Record elementNode : Type := mkNode {
  next : list (option addr);
  level : Z;
  visited : bool
}.

Record Element : Type := mkElement {
  enode : elementNode;
  key : string;
  value : list byte
}.

Record StashList : Type := mkList {
  lnode : elementNode;
  maxLevel : nat;
  Length : Z;
  probability : float64;
  probTable : list float64;
  prevNodesCache : list (option nodeRef);
  heap : list Element
}.

Definition set_lnode (s : StashList) (n : elementNode) : StashList :=
  mkList n (maxLevel s) (Length s) (probability s) (probTable s)
         (prevNodesCache s) (heap s).

Definition set_heap (s : StashList) (h : list Element) : StashList :=
  mkList (lnode s) (maxLevel s) (Length s) (probability s) (probTable s)
         (prevNodesCache s) h.

Definition set_cache (s : StashList) (c : list (option nodeRef)) : StashList :=
  mkList (lnode s) (maxLevel s) (Length s) (probability s) (probTable s)
         c (heap s).

Definition set_Length (s : StashList) (n : Z) : StashList :=
  mkList (lnode s) (maxLevel s) n (probability s) (probTable s)
         (prevNodesCache s) (heap s).

(** *** Pointer accesses *)

Definition getElement (s : StashList) (a : addr) : Res Element :=
  match heap s !! a with
  | Some e => Ok e
  | None => Panic nil_dereference
  end.

Definition deref (p : option nodeRef) : Res nodeRef :=
  match p with
  | Some r => Ok r
  | None => Panic nil_dereference
  end.

Definition getNode (s : StashList) (r : nodeRef) : Res elementNode :=
  match r with
  | Head => Ok (lnode s)
  | Elem a => e ← getElement s a; Ok (enode e)
  end.

Definition setNode (s : StashList) (r : nodeRef) (n : elementNode) : Res StashList :=
  match r with
  | Head => Ok (set_lnode s n)
  | Elem a =>
      e ← getElement s a;
      Ok (set_heap s (<[a := mkElement n (key e) (value e)]> (heap s)))
  end.

(** [r.next[i]] *)
Definition slot (s : StashList) (r : nodeRef) (i : nat) : Res (option addr) :=
  n ← getNode s r; idx (next n) i.

(** [r.next[i] = v] *)
Definition setSlot (s : StashList) (r : nodeRef) (i : nat) (v : option addr)
    : Res StashList :=
  n ← getNode s r;
  nx ← store (next n) i v;
  setNode s r (mkNode nx (level n) (visited n)).

(** [r.level = l] *)
Definition setLevel (s : StashList) (r : nodeRef) (l : Z) : Res StashList :=
  n ← getNode s r;
  setNode s r (mkNode (next n) l (visited n)).

(** [r.visited = b] *)
Definition setVisited (s : StashList) (r : nodeRef) (b : bool) : Res StashList :=
  n ← getNode s r;
  setNode s r (mkNode (next n) (level n) b).

(** [element.value = v] *)
Definition setValue (s : StashList) (a : addr) (v : list byte) : Res StashList :=
  e ← getElement s a;
  Ok (set_heap s (<[a := mkElement (enode e) (key e) v]> (heap s))).

(** *** The search of [Get]: no demotion *)

Fixpoint advance (fuel : nat) (s : StashList) (k : string) (i : nat)
    (prev : nodeRef) (nxt : option addr) : Res (nodeRef * option addr) :=
  match fuel with
  | 0 => OutOfFuel
  | S fuel' =>
      match nxt with
      | None => Ok (prev, nxt)
      | Some a =>
          e ← getElement s a;
          if key_lt (key e) k
          then nx ← idx (next (enode e)) i; advance fuel' s k i (Elem a) nx
          else Ok (prev, nxt)
      end
  end.

Fixpoint search_levels (fuel : nat) (s : StashList) (k : string) (n : nat)
    (prev : nodeRef) (nxt : option addr) : Res (nodeRef * option addr) :=
  match n with
  | 0 => Ok (prev, nxt)
  | S i =>
      nx ← slot s prev i;
      '(prev', nxt') ← advance fuel s k i prev nx;
      search_levels fuel s k i prev' nxt'
  end.

(** *** The search of [getPrevElementNodes]: demotes on the way *)

(** The result of an inner loop: the state (changed by a demotion), [prev]
    and [next]. *)
Definition scan : Type := StashList * nodeRef * option addr.

(** [if i > 0 && next != nil && key == next.key && prev.visited == false] *)
Definition demote_test (s : StashList) (k : string) (i : nat) (prev : nodeRef)
    (nxt : option addr) : Res bool :=
  if decide (0 < i) then
    match nxt with
    | None => Ok false
    | Some b =>
        eb ← getElement s b;
        if String.eqb k (key eb) then
          n ← getNode s prev; Ok (negb (visited n))
        else Ok false
    end
  else Ok false.

(** [before.next[i] = next; prev.next[i] = nil; prev.level = prev.level - 1] *)
Definition demote (s : StashList) (i : nat) (before prev : nodeRef)
    (nxt : option addr) : Res StashList :=
  s ← setSlot s before i nxt;
  s ← setSlot s prev i None;
  n ← getNode s prev;
  setLevel s prev (level n - 1).

Fixpoint advance_demote (fuel : nat) (s : StashList) (k : string) (i : nat)
    (prev : nodeRef) (nxt : option addr) : Res scan :=
  match fuel with
  | 0 => OutOfFuel
  | S fuel' =>
      match nxt with
      | None => Ok (s, prev, nxt)
      | Some a =>
          e ← getElement s a;
          if key_lt (key e) k then
            let before := prev in
            let prev := Elem a in
            nxt ← idx (next (enode e)) i;
            d ← demote_test s k i prev nxt;
            if d : bool then
              s ← demote s i before prev nxt;
              Ok (s, prev, nxt)
            else advance_demote fuel' s k i prev nxt
          else Ok (s, prev, nxt)
      end
  end.

Fixpoint descend (fuel : nat) (s : StashList) (k : string) (n : nat)
    (prev : nodeRef) (nxt : option addr) (prevs : list (option nodeRef))
    : Res (list (option nodeRef) * StashList) :=
  match n with
  | 0 => Ok (prevs, s)
  | S i =>
      nx ← slot s prev i;
      '(s, prev', nxt') ← advance_demote fuel s k i prev nx;
      prevs' ← store prevs i (Some prev');
      descend fuel s k i prev' nxt' prevs'
  end.

Definition getPrevElementNodes (fuel : nat) (k : string) (s : StashList)
    : Res (list (option nodeRef) * StashList) :=
  '(prevs, s) ← descend fuel s k (maxLevel s) Head None (prevNodesCache s);
  Ok (prevs, set_cache s prevs).

Definition randLevel (s : StashList) (r : draw) : Res nat :=
  randLevel_of (maxLevel s) (probTable s) r.

(** *** Add *)

(** The promotion block of [Add], entered when [element.visited] is set. *)
Definition promote (prevs : list (option nodeRef)) (a : addr) (s : StashList)
    : Res StashList :=
  e ← getElement s a;
  let lvl := level (enode e) in
  if decide (lvl < Z.of_nat (maxLevel s))%Z then
    p ← idxZ prevs lvl;
    if decide (p = Some Head) then Ok s
    else
      p ← deref p;
      nx ← slot s p (Z.to_nat lvl);
      s ← setSlot s (Elem a) (Z.to_nat lvl) nx;
      s ← setSlot s p (Z.to_nat lvl) (Some a);
      n ← getNode s p;
      s ← (if visited n then setVisited s p false else Ok s);
      setLevel s (Elem a) (lvl + 1)
  else Ok s.

(** The path of [Add] that finds the key. *)
Definition Add_hit (prevs : list (option nodeRef)) (a : addr) (v : list byte)
    (s : StashList) : Res StashList :=
  e ← getElement s a;
  s ← (if visited (enode e) then promote prevs a s
       else setVisited s (Elem a) true);
  setValue s a v.

Definition link_level (prevs : list (option nodeRef)) (a : addr) (i : nat)
    (s : StashList) : Res StashList :=
  p ← idx prevs i;
  p ← deref p;
  nx ← slot s p i;
  s ← setSlot s (Elem a) i nx;
  setSlot s p i (Some a).

(** The path of [Add] that creates an element. *)
Definition Add_new (prevs : list (option nodeRef)) (k : string) (v : list byte)
    (r : draw) (s : StashList) : Res StashList :=
  lvl ← randLevel s r;
  let a := length (heap s) in
  let n := mkNode (replicate (maxLevel s) None) (Z.of_nat lvl) false in
  let n := if decide (lvl = 1) then mkNode (next n) (level n) true else n in
  let s := set_heap s (heap s ++ [mkElement n k v]) in
  s ← for_up lvl 0 (link_level prevs a) s;
  Ok (set_Length s (Length s + 1)).

Definition Add (fuel : nat) (k : string) (v : list byte) (r : draw) (s : StashList)
    : Res StashList :=
  '(prevs, s) ← getPrevElementNodes fuel k s;
  p0 ← idx prevs 0;
  p0 ← deref p0;
  element ← slot s p0 0;
  match element with
  | Some a =>
      e ← getElement s a;
      if key_le (key e) k then Add_hit prevs a v s else Add_new prevs k v r s
  | None => Add_new prevs k v r s
  end.

(** *** Get.  A nil [[]byte] result is the empty list. *)

Definition Get (fuel : nat) (k : string) (s : StashList)
    : Res (list byte * bool * StashList) :=
  '(_, nxt) ← search_levels fuel s k (maxLevel s) Head None;
  match nxt with
  | Some a =>
      e ← getElement s a;
      if key_le (key e) k then
        s ← (if visited (enode e) then Ok s else setVisited s (Elem a) true);
        Ok (value e, true, s)
      else Ok ([], false, s)
  | None => Ok ([], false, s)
  end.

(** *** Remove *)

Definition unlink_level (prevs : list (option nodeRef)) (a : addr) (j : nat)
    (s : StashList) : Res StashList :=
  v ← slot s (Elem a) j;
  p ← idx prevs j;
  p ← deref p;
  setSlot s p j v.

Definition Remove (fuel : nat) (k : string) (s : StashList)
    : Res (option addr * StashList) :=
  '(prevs, s) ← getPrevElementNodes fuel k s;
  p0 ← idx prevs 0;
  p0 ← deref p0;
  element ← slot s p0 0;
  match element with
  | Some a =>
      e ← getElement s a;
      if key_le (key e) k then
        s ← for_up (length (next (enode e))) 0 (unlink_level prevs a) s;
        Ok (Some a, set_Length s (Length s - 1))
      else Ok (None, s)
  | None => Ok (None, s)
  end.

(** *** Configuration *)

Definition SetProbability (newProbability : float64) (s : StashList) : StashList :=
  mkList (lnode s) (maxLevel s) (Length s) newProbability
         (probabilityTable newProbability (maxLevel s))
         (prevNodesCache s) (heap s).

Definition panic_maxLevel : string :=
  "maxLevel for a StashList must be a positive integer <= 64"%string.

Definition NewWithMaxLevel (maxLevel : Z) : Res StashList :=
  if ((maxLevel <? 1) || (maxLevel >? 64))%Z then Panic panic_maxLevel
  else
    let n := Z.to_nat maxLevel in
    Ok (mkList (mkNode (replicate n None) maxLevel false) n 0%Z DefaultProbability
               (probabilityTable DefaultProbability n) (replicate n None) []).

Definition NewStashList : Res StashList := NewWithMaxLevel DefaultMaxLevel.

Definition Front (s : StashList) : Res (option addr) := slot s Head 0.
Definition Next (s : StashList) (a : addr) : Res (option addr) := slot s (Elem a) 0.

(** *** Operation sequences *)

Inductive Op : Type :=
| OpAdd (k : string) (v : list byte) (r : draw)
| OpGet (k : string)
| OpRemove (k : string)
| OpSetProbability (p : float64).

Inductive Out : Type :=
| OutAdd
| OutGet (v : list byte) (found : bool)
| OutRemove (removed : option addr)
| OutSet.

Definition exec (fuel : nat) (op : Op) (s : StashList) : Res (Out * StashList) :=
  match op with
  | OpAdd k v r => s' ← Add fuel k v r s; Ok (OutAdd, s')
  | OpGet k => '(v, b, s') ← Get fuel k s; Ok (OutGet v b, s')
  | OpRemove k => '(x, s') ← Remove fuel k s; Ok (OutRemove x, s')
  | OpSetProbability p => Ok (OutSet, SetProbability p s)
  end.

Definition fuel_of (s : StashList) : nat := S (length (heap s)).

Fixpoint run (ops : list Op) (s : StashList) : Res StashList :=
  match ops with
  | [] => Ok s
  | op :: ops' => '(_, s') ← exec (fuel_of s) op s; run ops' s'
  end.

Inductive reachable : StashList -> Prop :=
| reach_new m s : NewWithMaxLevel m = Ok s -> reachable s
| reach_step s fuel op out s' :
    reachable s -> exec fuel op s = Ok (out, s') -> reachable s'.

Fixpoint walk (fuel : nat) (s : StashList) (i : nat) (cur : option addr)
    : Res (list addr) :=
  match cur with
  | None => Ok []
  | Some a =>
      match fuel with
      | 0 => OutOfFuel
      | S fuel' =>
          nx ← slot s (Elem a) i;
          l ← walk fuel' s i nx;
          Ok (a :: l)
      end
  end.

Definition chain (s : StashList) (i : nat) : Res (list addr) :=
  h ← slot s Head i; walk (fuel_of s) s i h.

Definition keyOf (s : StashList) (a : addr) : string :=
  match heap s !! a with Some e => key e | None => EmptyString end.


(** *** Specification vocabulary *)

(** The node [r] is the head or holds a key below [k]. *)
Definition before_key (s : StashList) (k : string) (r : nodeRef) : Prop :=
  match r with
  | Head => True
  | Elem a => exists e, heap s !! a = Some e /\ key_lt (key e) k = true
  end.

(** The candidate [c] is nil or holds a key not below [k]. *)
Definition not_before (s : StashList) (k : string) (c : option nat) : Prop :=
  match c with
  | None => True
  | Some a => exists e, heap s !! a = Some e /\ key_lt (key e) k = false
  end.

(** What a descent may change of a node: its links and, downwards, its level. *)
Definition node_desc (n n' : elementNode) : Prop :=
  (level n' <= level n)%Z /\ visited n' = visited n /\
  length (next n') = length (next n).

(** What a link update changes of a node: its links alone. *)
Definition node_links (n n' : elementNode) : Prop :=
  level n' = level n /\ visited n' = visited n /\
  length (next n') = length (next n).

(** What [Add] on a present key may change besides: the visited flags. *)
Definition node_keep (n n' : elementNode) : Prop :=
  level n' = level n /\ length (next n') = length (next n).

(** [evolves R s s']: the same elements with the same keys, each node changed
    within [R], under the same configuration. *)
Record evolves (R : elementNode -> elementNode -> Prop) (s s' : StashList) : Prop := {
  ev_maxLevel : maxLevel s' = maxLevel s;
  ev_probability : probability s' = probability s;
  ev_probTable : probTable s' = probTable s;
  ev_heap_length : length (heap s') = length (heap s);
  ev_head : R (lnode s) (lnode s');
  ev_elem : forall a e, heap s !! a = Some e ->
      exists e', heap s' !! a = Some e' /\ key e' = key e /\ R (enode e) (enode e')
}.

(** The bounds every reachable state keeps. *)
Record Inv (s : StashList) : Prop := {
  inv_max : 1 <= maxLevel s;
  inv_head : length (next (lnode s)) = maxLevel s;
  inv_tbl : length (probTable s) = maxLevel s;
  inv_elem : forall a e, heap s !! a = Some e ->
      (level (enode e) <= Z.of_nat (maxLevel s))%Z /\
      length (next (enode e)) = maxLevel s
}.

(** What a call of [Add] on a present key does to the levels: all stay,
    except that of the matched element [a], which may grow by one, and only
    when [a] was already marked visited. *)
Definition levels_step (a : nat) (s s' : StashList) : Prop :=
  forall b eb, heap s !! b = Some eb ->
    exists eb', heap s' !! b = Some eb' /\ key eb' = key eb /\
      (level (enode eb') = level (enode eb) \/
       (b = a /\ visited (enode eb) = true /\
        level (enode eb') = (level (enode eb) + 1)%Z)).

(** [Get] changes nothing but the visited flag of the element it returns. *)
Definition mark_visited (s : StashList) (a : nat) (e : Element) : StashList :=
  set_heap s (<[a := mkElement (mkNode (next (enode e)) (level (enode e)) true)
                               (key e) (value e)]> (heap s)).

End StashList.
Definition b1 : list byte := [x31].
Definition b2 : list byte := [x32].
Definition b3 : list byte := [x33].
Definition b4 : list byte := [x34].
Definition b5 : list byte := [x35].
Definition b9 : list byte := [x39].



(** * Whole runs *)

(** A list built by [NewWithMaxLevel m] and then driven through [ops]. *)
Definition sk_run_from (m : Z) (ops : list SkipList.Op) : Res SkipList.SkipList :=
  s ← SkipList.NewWithMaxLevel m; SkipList.run ops s.

Definition st_run_from (m : Z) (ops : list StashList.Op) : Res StashList.StashList :=
  s ← StashList.NewWithMaxLevel m; StashList.run ops s.

(** * Concrete lists *)

Definition force {A} (d : A) (r : Res A) : A :=
  match r with
  | Ok a => a
  | _ => d
  end.

Definition sk_none : SkipList.SkipList :=
  SkipList.mkList (SkipList.mkNode []) 0 0%Z DefaultProbability [] [] [].

Definition st_none : StashList.StashList :=
  StashList.mkList (StashList.mkNode [] 0%Z false) 0 0%Z DefaultProbability [] [] [].

(** The scenario of the specification: five insertions into a baseline list
    of four levels. *)
Definition sk_five_ops : list SkipList.Op :=
  [SkipList.OpAdd "10" b1 (draw_for 2); SkipList.OpAdd "60" b2 (draw_for 1);
   SkipList.OpAdd "30" b3 (draw_for 3); SkipList.OpAdd "20" b4 (draw_for 1);
   SkipList.OpAdd "90" b5 (draw_for 4)].

Definition sk_five : SkipList.SkipList :=
  Eval vm_compute in force sk_none (sk_run_from 4 sk_five_ops).

(** An adaptive list of two levels holding "1" and "2", both drawn at level 2. *)
Definition st_two_ops : list StashList.Op :=
  [StashList.OpAdd "1" b1 (draw_for 2); StashList.OpAdd "2" b2 (draw_for 2)].

Definition st_two : StashList.StashList :=
  Eval vm_compute in force st_none (st_run_from 2 st_two_ops).

(** The same list after [Remove "2"]. *)
Definition st_ghost_ops : list StashList.Op :=
  st_two_ops ++ [StashList.OpRemove "2"].

Definition st_ghost : StashList.StashList :=
  Eval vm_compute in force st_none (st_run_from 2 st_ghost_ops).

(** An adaptive list holding "1" (drawn at level 2) and "2" (drawn at level 1). *)
Definition st_low_ops : list StashList.Op :=
  [StashList.OpAdd "1" b1 (draw_for 2); StashList.OpAdd "2" b2 (draw_for 1)].

Definition st_low : StashList.StashList :=
  Eval vm_compute in force st_none (st_run_from 2 st_low_ops).

Definition st_low_hit : StashList.StashList :=
  Eval vm_compute in
    force st_none (StashList.Add 3 "2" b9 (draw_for 1) st_low).

(** An adaptive list of two levels holding "1" alone, drawn at level 1. *)
Definition st_one : StashList.StashList :=
  Eval vm_compute in
    force st_none (st_run_from 2 [StashList.OpAdd "1" b1 (draw_for 1)]).

(** The list that loses a key: "1" and "2" at level 2, "2" removed, "3"
    added at level 1, "1" removed. *)
Definition st_mid_ops : list StashList.Op :=
  st_ghost_ops ++ [StashList.OpAdd "3" b3 (draw_for 1)].

Definition st_mid : StashList.StashList :=
  Eval vm_compute in force st_none (st_run_from 2 st_mid_ops).

Definition st_lost_ops : list StashList.Op :=
  st_mid_ops ++ [StashList.OpRemove "1"].

Definition st_lost : StashList.StashList :=
  Eval vm_compute in force st_none (st_run_from 2 st_lost_ops).

(** The list that comes to hold a key twice: "1" and "2" at level 2, "2"
    removed, "3" added at level 2; then "3" is added two more times. *)
Definition st_dup0_ops : list StashList.Op :=
  st_ghost_ops ++ [StashList.OpAdd "3" b3 (draw_for 2)].

Definition st_dup0 : StashList.StashList :=
  Eval vm_compute in force st_none (st_run_from 2 st_dup0_ops).

Definition st_dup1 : StashList.StashList :=
  Eval vm_compute in
    force st_none (StashList.Add (StashList.fuel_of st_dup0) "3" b4 (draw_for 1) st_dup0).

Definition st_dup2 : StashList.StashList :=
  Eval vm_compute in
    force st_none (StashList.Add (StashList.fuel_of st_dup1) "3" b5 (draw_for 1) st_dup1).

(** The list on which a second [Remove "2"] still restructures: "1" and "2"
    at level 2, "2" removed, "0" added at level 2. *)
Definition st_again_ops : list StashList.Op :=
  st_ghost_ops ++ [StashList.OpAdd "0" b3 (draw_for 2)].

Definition st_again : StashList.StashList :=
  Eval vm_compute in force st_none (st_run_from 2 st_again_ops).

Definition st_again_miss : StashList.StashList :=
  Eval vm_compute in
    match StashList.Remove (StashList.fuel_of st_again) "2" st_again with
    | Ok (_, s) => s
    | _ => st_none
    end.

(** The list on which a search spins: on three levels, "1", "4" and "2" at
    level 3, "3" at level 2, "2" removed, "1" read, "4" removed, and "3"
    added two more times. *)
Definition st_loop_ops : list StashList.Op :=
  [StashList.OpAdd "1" b1 (draw_for 3); StashList.OpAdd "4" b2 (draw_for 3);
   StashList.OpAdd "2" b3 (draw_for 3); StashList.OpAdd "3" b4 (draw_for 2);
   StashList.OpRemove "2"; StashList.OpGet "1"; StashList.OpRemove "4";
   StashList.OpAdd "3" b5 (draw_for 1); StashList.OpAdd "3" b9 (draw_for 1)].

Definition st_loop : StashList.StashList :=
  Eval vm_compute in force st_none (st_run_from 3 st_loop_ops).

(** * The properties of the specification *)

(** [Remove] on the baseline list.  [L] is the level-0 chain.  A miss means
    that no element of the chain holds [k], and nothing but the scratch cache
    changed.  A hit returns an element [a] of the chain that holds [k]; the
    count drops by one; every level loses [a] and nothing else; and the links
    rewritten are those of the recorded predecessors below the height of [a],
    each taking over the link of [a] at its level. *)
Definition sk_Remove_ok (s : SkipList.SkipList) (k : string) (fuel : nat) : Prop :=
  exists L res s',
    SkipList.chain s 0 = Ok L /\
    SkipList.Remove fuel k s = Ok (res, s') /\
    match res with
    | None =>
        (forall a, a ∈ L -> SkipList.keyOf s a <> k) /\
        SkipList.lnode s' = SkipList.lnode s /\
        SkipList.heap s' = SkipList.heap s /\
        SkipList.Length s' = SkipList.Length s
    | Some a =>
        a ∈ L /\ SkipList.keyOf s a = k /\
        SkipList.Length s' = (SkipList.Length s - 1)%Z /\
        (forall i, i < SkipList.maxLevel s -> exists Li,
            SkipList.chain s i = Ok Li /\
            SkipList.chain s' i = Ok (filter (fun x => x <> a) Li)) /\
        (forall r j, SkipList.slot s' r j =
           if decide (j < SkipList.heightOf s a /\
                      SkipList.prevNodesCache s' !! j = Some (Some r))
           then SkipList.slot s (Elem a) j else SkipList.slot s r j)
    end.

(** The elements that a search of the adaptive list can come to: those that
    the head links at some level, and those that such an element links at
    some level. *)
Inductive st_linked (s : StashList.StashList) : nat -> Prop :=
| st_linked_head i a :
    StashList.slot s Head i = Ok (Some a) -> st_linked s a
| st_linked_next b i a :
    st_linked s b -> StashList.slot s (Elem b) i = Ok (Some a) -> st_linked s a.

(** A node that a search can stand on: the head or a linked element. *)
Definition st_on_path (s : StashList.StashList) (r : nodeRef) : Prop :=
  match r with
  | Head => True
  | Elem a => st_linked s a
  end.

(** What holds of every [Remove] on the adaptive list that returns: the
    count drops by one exactly when an element is returned, and that element
    holds [k]; when no linked element holds [k], the call finds nothing and
    changes the scratch cache only. *)
Definition st_Remove_safe (s : StashList.StashList) (k : string)
    (res : option nat) (s' : StashList.StashList) : Prop :=
  match res with
  | None => StashList.Length s' = StashList.Length s
  | Some a =>
      StashList.Length s' = (StashList.Length s - 1)%Z /\
      exists e, StashList.heap s !! a = Some e /\ StashList.key e = k
  end /\
  ((forall a, st_linked s a -> StashList.keyOf s a <> k) ->
   res = None /\ exists c, s' = StashList.set_cache s c).

(** A [Remove] that finds nothing leaves the head, the elements and the
    count as they were. *)
Definition st_Remove_miss_keeps (s : StashList.StashList) (k : string) (fuel : nat) : Prop :=
  forall s', StashList.Remove fuel k s = Ok (None, s') ->
    StashList.lnode s' = StashList.lnode s /\
    StashList.heap s' = StashList.heap s /\
    StashList.Length s' = StashList.Length s.


(** The levels of a baseline list: each is sorted by strictly increasing key,
    and each level above the bottom is a subsequence of the level below. *)
Definition sk_levels_ok (s : SkipList.SkipList) : Prop :=
  forall i, i < SkipList.maxLevel s ->
    exists Li, SkipList.chain s i = Ok Li /\ SkipList.sorted_keys s Li /\
      forall j, i = S j -> exists Lj, SkipList.chain s j = Ok Lj /\ Li `sublist_of` Lj.

(** The count of a baseline list is the number of elements of the bottom
    chain. *)
Definition sk_count_ok (s : SkipList.SkipList) : Prop :=
  exists L, SkipList.chain s 0 = Ok L /\ SkipList.Length s = Z.of_nat (length L).

(** An element of a baseline list is linked into level [i] exactly when its
    [next] array is longer than [i]; the array has between 1 and [maxLevel]
    entries. *)
Definition sk_linked_by_height (s : SkipList.SkipList) : Prop :=
  exists L0, SkipList.chain s 0 = Ok L0 /\
    (forall a, a ∈ L0 -> 1 <= SkipList.heightOf s a <= SkipList.maxLevel s) /\
    forall i, i < SkipList.maxLevel s ->
      exists Li, SkipList.chain s i = Ok Li /\
        forall a, a ∈ Li <-> a ∈ L0 /\ i < SkipList.heightOf s a.

(** What [Get] on the adaptive list leaves as it was: the head, the
    configuration, the count, and of every element its links, level, key and
    value. *)
Definition st_Get_frame (s s' : StashList.StashList) : Prop :=
  StashList.lnode s' = StashList.lnode s /\
  StashList.maxLevel s' = StashList.maxLevel s /\
  StashList.Length s' = StashList.Length s /\
  StashList.prevNodesCache s' = StashList.prevNodesCache s /\
  length (StashList.heap s') = length (StashList.heap s) /\
  forall a e, StashList.heap s !! a = Some e ->
    exists e', StashList.heap s' !! a = Some e' /\
      StashList.next (StashList.enode e') = StashList.next (StashList.enode e) /\
      StashList.level (StashList.enode e') = StashList.level (StashList.enode e) /\
      StashList.key e' = StashList.key e /\ StashList.value e' = StashList.value e.

(** A [Get] that changes a link or a level. *)
Definition st_Get_restructures (s : StashList.StashList) (fuel : nat) (k : string) : Prop :=
  exists v b s',
    StashList.Get fuel k s = Ok (v, b, s') /\
    (StashList.next (StashList.lnode s') <> StashList.next (StashList.lnode s) \/
     exists a e e',
       StashList.heap s !! a = Some e /\ StashList.heap s' !! a = Some e' /\
       (StashList.next (StashList.enode e') <> StashList.next (StashList.enode e) \/
        StashList.level (StashList.enode e') <> StashList.level (StashList.enode e))).

(** The candidate of a descent on the baseline list: the successor at level
    0 of the recorded predecessor [prevs[0]].  The predecessor holds a key
    below [k] (or is the head), the candidate does not, so the match test of
    the source on it is the same as equality of keys. *)
Definition sk_candidate_exact (k : string) (prevs : list (option nodeRef))
    (s1 : SkipList.SkipList) : Prop :=
  exists p0 c,
    prevs !! 0 = Some (Some p0) /\ SkipList.before_key s1 k p0 /\
    SkipList.slot s1 p0 0 = Ok c /\
    match c with
    | None => True
    | Some a =>
        exists e, SkipList.heap s1 !! a = Some e /\
          key_lt (SkipList.key e) k = false /\
          (key_le (SkipList.key e) k = true <-> SkipList.key e = k)
    end.


(** On a reachable baseline list the candidate is the first element of the
    bottom chain whose key is not below [k]. *)
Definition sk_candidate_first (s : SkipList.SkipList) (k : string) (fuel : nat) : Prop :=
  exists L1 L2 prevs p0,
    SkipList.chain s 0 = Ok (L1 ++ L2) /\
    (forall a, a ∈ L1 -> key_lt (SkipList.keyOf s a) k = true) /\
    (forall a, a ∈ L2 -> key_lt (SkipList.keyOf s a) k = false) /\
    SkipList.getPrevElementNodes fuel k s = Ok (prevs, SkipList.set_cache s prevs) /\
    prevs !! 0 = Some (Some p0) /\ SkipList.slot s p0 0 = Ok (hd_or L2 None).

(** The same for the adaptive list, whose descent may change the state. *)
Definition st_candidate_first (s : StashList.StashList) (k : string) (fuel : nat) : Prop :=
  exists L1 L2 prevs s1 p0,
    StashList.chain s 0 = Ok (L1 ++ L2) /\
    (forall a, a ∈ L1 -> key_lt (StashList.keyOf s a) k = true) /\
    (forall a, a ∈ L2 -> key_lt (StashList.keyOf s a) k = false) /\
    StashList.getPrevElementNodes fuel k s = Ok (prevs, s1) /\
    prevs !! 0 = Some (Some p0) /\ StashList.slot s1 p0 0 = Ok (hd_or L2 None).

(** An element that holds [k] and that some level of the adaptive list links
    is the candidate of the descent for [k]. *)
Definition st_candidate_finds (s : StashList.StashList) (k : string) (fuel : nat) : Prop :=
  forall i Li a,
    i < StashList.maxLevel s -> StashList.chain s i = Ok Li -> a ∈ Li ->
    StashList.keyOf s a = k ->
    exists prevs s1 p0,
      StashList.getPrevElementNodes fuel k s = Ok (prevs, s1) /\
      prevs !! 0 = Some (Some p0) /\ StashList.slot s1 p0 0 = Ok (Some a).

(** A freshly built list. *)
Definition sk_fresh (m : Z) (s : SkipList.SkipList) : Prop :=
  SkipList.maxLevel s = Z.to_nat m /\ SkipList.probability s = DefaultProbability /\
  SkipList.probTable s = probabilityTable DefaultProbability (Z.to_nat m) /\
  SkipList.Length s = 0%Z /\ SkipList.heap s = [] /\
  SkipList.next (SkipList.lnode s) = replicate (Z.to_nat m) None.

Definition st_fresh (m : Z) (s : StashList.StashList) : Prop :=
  StashList.maxLevel s = Z.to_nat m /\ StashList.probability s = DefaultProbability /\
  StashList.probTable s = probabilityTable DefaultProbability (Z.to_nat m) /\
  StashList.Length s = 0%Z /\ StashList.heap s = [] /\
  StashList.next (StashList.lnode s) = replicate (Z.to_nat m) None.

(** A call on the adaptive list that does not return, whatever the fuel. *)
Definition st_never_returns (s : StashList.StashList) (op : StashList.Op) : Prop :=
  forall fuel, StashList.exec fuel op s = OutOfFuel.

(** The removed element is on no level of the list that [Remove] leaves. *)
Definition st_Remove_unlinks (s : StashList.StashList) (k : string) (fuel : nat) : Prop :=
  forall a s', StashList.Remove fuel k s = Ok (Some a, s') ->
    forall i Li, i < StashList.maxLevel s -> StashList.chain s' i = Ok Li -> a ∉ Li.

(** Neighbours of a level are in key order, and whatever a level above the
    bottom links is linked by the level below it. *)
Definition st_levels_ok (s : StashList.StashList) : Prop :=
  forall i, i < StashList.maxLevel s ->
    exists Li, StashList.chain s i = Ok Li /\
      (forall n a b, Li !! n = Some a -> Li !! S n = Some b ->
         key_le (StashList.keyOf s a) (StashList.keyOf s b) = true) /\
      forall j, i = S j -> exists Lj, StashList.chain s j = Ok Lj /\
        forall a, a ∈ Li -> a ∈ Lj.

(** The level rules of the adaptive list in state [s]: no level is above
    [maxLevel]; a call raises the level of an element only if it is an [Add]
    of that element's key that finds the element marked visited, and then by
    one; an [Add] that creates an element marks it visited exactly when its
    drawn level is 1. *)
Definition st_level_rules (s : StashList.StashList) : Prop :=
  (forall a e, StashList.heap s !! a = Some e ->
     (StashList.level (StashList.enode e) <= Z.of_nat (StashList.maxLevel s))%Z) /\
  (forall fuel op out s' a e e',
     StashList.exec fuel op s = Ok (out, s') ->
     StashList.heap s !! a = Some e -> StashList.heap s' !! a = Some e' ->
     (StashList.level (StashList.enode e) < StashList.level (StashList.enode e'))%Z ->
     exists v r, op = StashList.OpAdd (StashList.key e) v r /\
       StashList.visited (StashList.enode e) = true /\
       StashList.level (StashList.enode e') = (StashList.level (StashList.enode e) + 1)%Z) /\
  (forall fuel k v r s',
     StashList.Add fuel k v r s = Ok s' ->
     length (StashList.heap s') = S (length (StashList.heap s)) ->
     exists lvl e',
       StashList.randLevel s r = Ok lvl /\
       StashList.heap s' !! length (StashList.heap s) = Some e' /\
       StashList.key e' = k /\
       StashList.level (StashList.enode e') = Z.of_nat lvl /\
       (StashList.visited (StashList.enode e') = true <-> lvl = 1)).

(** The level of the element at address [a], if there is one. *)
Definition st_level_at (s : StashList.StashList) (a : nat) : option Z :=
  (fun e => StashList.level (StashList.enode e)) <$> StashList.heap s !! a.

Definition st_visited_at (s : StashList.StashList) (a : nat) : option bool :=
  (fun e => StashList.visited (StashList.enode e)) <$> StashList.heap s !! a.

(** The result of [Get] on the adaptive list. *)
Definition st_Get_ok (s : StashList.StashList) (k : string) (v : list Byte.byte)
    (b : bool) (s' : StashList.StashList) : Prop :=
  st_Get_frame s s' /\
  (b = false -> v = [] /\ s' = s) /\
  (b = true -> exists a e,
     StashList.heap s !! a = Some e /\ StashList.key e = k /\
     v = StashList.value e /\ st_visited_at s' a = Some true /\
     forall c, c <> a -> StashList.heap s' !! c = StashList.heap s !! c).

(** In the adaptive list every [next] array has [maxLevel] entries, whatever
    the level of the element. *)
Definition st_arrays_full (s : StashList.StashList) : Prop :=
  forall a e, StashList.heap s !! a = Some e ->
    length (StashList.next (StashList.enode e)) = StashList.maxLevel s /\
    (StashList.level (StashList.enode e) <= Z.of_nat (StashList.maxLevel s))%Z.

(** The [next] array of every element is as long as the element's level. *)
Definition st_array_is_level (s : StashList.StashList) : Prop :=
  forall a e, StashList.heap s !! a = Some e ->
    Z.of_nat (length (StashList.next (StashList.enode e))) =
    StashList.level (StashList.enode e).

(** The calls on key [k] of the baseline list in state [s] match on equality
    of keys. *)
Definition sk_match_exact (s : SkipList.SkipList) (k : string) : Prop :=
  (forall fuel prevs s1,
     SkipList.getPrevElementNodes fuel k s = Ok (prevs, s1) ->
     sk_candidate_exact k prevs s1) /\
  (forall fuel v b,
     SkipList.Get fuel k s = Ok (v, b) ->
     if b then exists a e, SkipList.heap s !! a = Some e /\ SkipList.key e = k /\
                           v = SkipList.value e
     else v = []) /\
  (forall fuel v b,
     SkipList.Get fuel k s = Ok (v, b) ->
     (forall a e, SkipList.heap s !! a = Some e -> SkipList.key e <> k) -> b = false) /\
  (forall fuel a s',
     SkipList.Remove fuel k s = Ok (Some a, s') ->
     exists e, SkipList.heap s !! a = Some e /\ SkipList.key e = k) /\
  (forall fuel v r s',
     SkipList.Add fuel k v r s = Ok s' ->
     length (SkipList.heap s') = length (SkipList.heap s) ->
     exists a e, SkipList.heap s !! a = Some e /\ SkipList.key e = k).


(** Construction with [maxLevel = m]: a panic outside 1..64, a fresh list
    inside. *)
Definition construction_ok (m : Z) : Prop :=
  ((m < 1 \/ 64 < m)%Z ->
   SkipList.NewWithMaxLevel m = Panic SkipList.panic_maxLevel /\
   StashList.NewWithMaxLevel m = Panic StashList.panic_maxLevel) /\
  ((1 <= m <= 64)%Z ->
   exists s t,
     SkipList.NewWithMaxLevel m = Ok s /\ sk_fresh m s /\
     StashList.NewWithMaxLevel m = Ok t /\ st_fresh m t).

(** A key added to a baseline list and not written since is found with the
    value given. *)
Definition sk_round_trip (s : SkipList.SkipList) (k : string) (v : list Byte.byte)
    (r : draw) (ops : list SkipList.Op) : Prop :=
  exists s1 s2,
    SkipList.Add (SkipList.fuel_of s) k v r s = Ok s1 /\
    SkipList.run ops s1 = Ok s2 /\
    SkipList.Get (SkipList.fuel_of s2) k s2 = Ok (v, true).

(** Two [Add]s of one key to a baseline list leave one element under the key,
    holding the second value, and the second [Add] creates nothing. *)
Definition sk_add_twice_ok (s : SkipList.SkipList) (k : string)
    (v1 v2 : list Byte.byte) (r1 r2 : draw) : Prop :=
  exists s1 s2 L,
    SkipList.Add (SkipList.fuel_of s) k v1 r1 s = Ok s1 /\
    SkipList.Add (SkipList.fuel_of s1) k v2 r2 s1 = Ok s2 /\
    SkipList.chain s2 0 = Ok L /\
    SkipList.count_key s2 k L = 1 /\
    SkipList.Get (SkipList.fuel_of s2) k s2 = Ok (v2, true) /\
    SkipList.Length s2 = SkipList.Length s1 /\
    length (SkipList.heap s2) = length (SkipList.heap s1).

(** Every call on a baseline list in state [s] returns within the fuel
    [fuel_of s], and leaves a reachable state. *)
Definition sk_call_returns (s : SkipList.SkipList) (op : SkipList.Op) : Prop :=
  exists out s', SkipList.exec (SkipList.fuel_of s) op s = Ok (out, s') /\
                 SkipList.reachable s'.

(** [randLevel] returns a level from 1 to [maxLevel], whatever the draw. *)
Definition sk_randLevel_ok (s : SkipList.SkipList) (r : draw) : Prop :=
  exists lvl, SkipList.randLevel s r = Ok lvl /\ 1 <= lvl <= SkipList.maxLevel s.

Definition st_randLevel_ok (s : StashList.StashList) (r : draw) : Prop :=
  exists lvl, StashList.randLevel s r = Ok lvl /\ 1 <= lvl <= StashList.maxLevel s.

(** * Further properties of the baseline list *)

(** ** Iteration

    [for c := list.Front(); c != nil; c = c.Next()] visits the elements of
    [L]: [Front] gives the first, [Next] the one after, [nil] after the
    last.  The keys increase strictly along [L], [Length] is the number of
    elements visited, and [Get] finds exactly the keys of [L]. *)
Definition sk_iteration_ok (s : SkipList.SkipList) : Prop :=
  exists L,
    SkipList.Front s = Ok (head L) /\
    (forall i a, L !! i = Some a -> SkipList.Next s a = Ok (L !! S i)) /\
    SkipList.sorted_keys s L /\
    SkipList.Length s = Z.of_nat (length L) /\
    forall k, SkipList.Get (SkipList.fuel_of s) k s =
      Ok (match SkipList.find_key s k L with
          | Some a => (SkipList.valueOf s a, true)
          | None => ([], false)
          end).

(** ** The list as a map *)

(** The answer of [Get] for a key bound, or not, in a map. *)
Definition get_answer (b : option (list Byte.byte)) : list Byte.byte * bool :=
  match b with
  | Some v => (v, true)
  | None => ([], false)
  end.

Definition no_binding : string -> option (list Byte.byte) := fun _ => None.

(** A new list driven through [ops] answers [Get] as the map that [ops]
    builds from the empty map. *)
Definition sk_is_map (m : Z) (ops : list SkipList.Op) : Prop :=
  exists s,
    sk_run_from m ops = Ok s /\
    forall k, SkipList.Get (SkipList.fuel_of s) k s =
              Ok (get_answer (SkipList.abs_run ops no_binding k)).

(** The keys that [ops] adds, and among them those still bound at the end. *)
Definition added_keys (ops : list SkipList.Op) : list string :=
  omap (fun op => match op with
                  | SkipList.OpAdd k _ _ => Some k
                  | _ => None
                  end) ops.

#[global] Instance string_eq_dec : EqDecision string := String.string_dec.

Definition bound_keys (ops : list SkipList.Op) : list string :=
  filter (fun k => is_Some (SkipList.abs_run ops no_binding k))
         (remove_dups (added_keys ops)).

Definition sk_length_counts (m : Z) (ops : list SkipList.Op) : Prop :=
  exists s, sk_run_from m ops = Ok s /\
            SkipList.Length s = Z.of_nat (length (bound_keys ops)).

(** ** What [Remove] returns *)

(** [Remove k] returns an element exactly when [Get k] finds one, and then
    the element returned holds [k] and the value [Get] gives; it keeps its
    key, its value and its links; afterwards [Get k] finds nothing and the
    other keys answer as before. *)
Definition sk_Remove_returns (s : SkipList.SkipList) (k : string) : Prop :=
  exists res s',
    SkipList.Remove (SkipList.fuel_of s) k s = Ok (res, s') /\
    SkipList.Get (SkipList.fuel_of s) k s =
      Ok (match res with
          | Some a => (SkipList.valueOf s a, true)
          | None => ([], false)
          end) /\
    (forall a, res = Some a ->
       SkipList.keyOf s a = k /\
       SkipList.heap s' !! a = SkipList.heap s !! a) /\
    SkipList.Get (SkipList.fuel_of s') k s' = Ok ([], false) /\
    (forall k', k' <> k ->
       SkipList.Get (SkipList.fuel_of s') k' s' = SkipList.Get (SkipList.fuel_of s) k' s) /\
    SkipList.Length s' =
      (SkipList.Length s - match res with Some _ => 1 | None => 0 end)%Z.

(** ** Levels and probabilities *)

(** The level that the loop of [randLevel] stops at, for a table of the
    powers of [p]: the draw is below each of [p^1 .. p^(lvl-1)], and not
    below [p^lvl] unless [lvl] is the cap [m]. *)
Definition level_drawn (m : nat) (p : float64) (r : draw) (lvl : nat) : Prop :=
  1 <= lvl <= m /\
  (forall i, 1 <= i < lvl -> r (F_pow p (F_of_Z (Z.of_nat i))) = true) /\
  (lvl < m -> r (F_pow p (F_of_Z (Z.of_nat lvl))) = false).

Definition sk_randLevel_exact (s : SkipList.SkipList) : Prop :=
  SkipList.probTable s =
    probabilityTable (SkipList.probability s) (SkipList.maxLevel s) /\
  forall r lvl,
    SkipList.randLevel s r = Ok lvl <->
    level_drawn (SkipList.maxLevel s) (SkipList.probability s) r lvl.

Definition st_randLevel_exact (s : StashList.StashList) : Prop :=
  StashList.probTable s =
    probabilityTable (StashList.probability s) (StashList.maxLevel s) /\
  forall r lvl,
    StashList.randLevel s r = Ok lvl <->
    level_drawn (StashList.maxLevel s) (StashList.probability s) r lvl.

(** [SetProbability p] installs [p] and its table and leaves the data
    alone: the levels, the count and every answer of [Get] are as before. *)
Definition sk_SetProbability_ok (s : SkipList.SkipList) (p : float64) : Prop :=
  let s' := SkipList.SetProbability p s in
  SkipList.reachable s' /\
  SkipList.probability s' = p /\
  (forall i, i < SkipList.maxLevel s ->
     SkipList.probTable s' !! i = Some (F_pow p (F_of_Z (Z.of_nat i)))) /\
  length (SkipList.probTable s') = SkipList.maxLevel s /\
  SkipList.Length s' = SkipList.Length s /\
  (forall i, SkipList.chain s' i = SkipList.chain s i) /\
  (forall fuel k, SkipList.Get fuel k s' = SkipList.Get fuel k s).

(** The configuration of a list: what [SetProbability] sets and no other
    call touches. *)
Definition sk_cfg (s : SkipList.SkipList) : nat * float64 * list float64 :=
  (SkipList.maxLevel s, SkipList.probability s, SkipList.probTable s).

Definition st_cfg (s : StashList.StashList) : nat * float64 * list float64 :=
  (StashList.maxLevel s, StashList.probability s, StashList.probTable s).

(** * The sanity check of the tests (skiplist_test.go)

    [t.Fatal] and [t.Fatalf] end the test; the formatted part of a message
    is left out. *)

Module SkipListTest.
Import SkipList.

Inductive verdict : Type :=
| Pass
| Fatal (msg : string).

Definition msg_first_level : string :=
  "first node's level must be no less than current level"%string.
Definition msg_order : string :=
  "next key value must be greater than prev key value."%string.
Definition msg_node_level : string :=
  "node's level must be no less than current level."%string.
Definition msg_len : string :=
  "list len must match the level 0 nodes count."%string.

(** [for next.next[k] != nil { ...; next = next.next[k]; cnt++ }] *)
Fixpoint sanity_walk (fuel : nat) (s : SkipList) (k : nat) (next : addr) (cnt : Z)
    : Res (verdict * Z) :=
  match fuel with
  | 0 => OutOfFuel
  | S fuel' =>
      e ← getElement s next;
      nx ← idx (SkipList.next (enode e)) k;
      match nx with
      | None => Ok (Pass, cnt)
      | Some b =>
          eb ← getElement s b;
          if negb (key_le (key e) (key eb)) then Ok (Fatal msg_order, cnt)
          else if decide (length (SkipList.next (enode e)) < k)
               then Ok (Fatal msg_node_level, cnt)
               else sanity_walk fuel' s k b (cnt + 1)
      end
  end.

(** The body of [for k, v := range list.next]. *)
Definition sanity_level (fuel : nat) (s : SkipList) (k : nat) (v : option addr)
    : Res verdict :=
  match v with
  | None => Ok Pass
  | Some a =>
      e ← getElement s a;
      if decide (length (SkipList.next (enode e)) < k) then Ok (Fatal msg_first_level)
      else
        '(r, cnt) ← sanity_walk fuel s k a 1;
        match r with
        | Fatal m => Ok (Fatal m)
        | Pass =>
            if decide (k = 0) then
              if decide (cnt <> Length s) then Ok (Fatal msg_len) else Ok Pass
            else Ok Pass
        end
  end.

Fixpoint sanity_levels (fuel : nat) (s : SkipList) (k : nat) (vs : list (option addr))
    : Res verdict :=
  match vs with
  | [] => Ok Pass
  | v :: vs' =>
      r ← sanity_level fuel s k v;
      match r with
      | Pass => sanity_levels fuel s (S k) vs'
      | Fatal m => Ok (Fatal m)
      end
  end.

Definition checkSanity (fuel : nat) (s : SkipList) : Res verdict :=
  sanity_levels fuel s 0 (SkipList.next (lnode s)).

End SkipListTest.

(** * Keys and values of the benchmarks (package util)

    Go's [int] is taken to be 64 bits wide.  [fmt.Sprintf] with the verb
    [%07d] is modelled by the loop of the integer formatter of package fmt:
    the digits are produced from the right, padded on the left with zeros to
    the width (one less when a sign follows), and the sign is put in front. *)

Module Util.

Definition MinInt : Z := (- 2 ^ 63)%Z.
Definition MaxInt : Z := (2 ^ 63 - 1)%Z.

Definition digit (d : Z) : ascii := ascii_of_nat (48 + Z.to_nat d).

(** [for u >= 10 { next := u / 10; buf[i] = '0' + u - next*10; u = next }],
    then the last digit; a [uint64] has at most 20 digits. *)
Fixpoint digits_acc (fuel : nat) (u : Z) (acc : list ascii) : list ascii :=
  match fuel with
  | 0 => acc
  | S fuel' =>
      if (10 <=? u)%Z then digits_acc fuel' (u / 10) (digit (u mod 10) :: acc)
      else digit u :: acc
  end.

Definition digits (u : Z) : list ascii := digits_acc 20 u [].

(** [fmt.Sprintf("%07d", n)] *)
Definition Sprintf_07d (n : Z) : list ascii :=
  let negative := (n <? 0)%Z in
  let ds := digits (Z.abs n) in
  let prec := if negative then 6 else 7 in
  let ds := replicate (prec - length ds) "0"%char ++ ds in
  if negative then "-"%char :: ds else ds.

Definition key_prefix : list ascii := list_ascii_of_string "key_".

(** [if len(key) > 64 { key = key[:64] } else { key += string(make([]byte, 64-len(key))) }] *)
Definition fixed64 (key : list ascii) : list ascii :=
  if decide (64 < length key) then take 64 key
  else key ++ replicate (64 - length key) zero.

Definition GetKey (n : Z) : list Byte.byte :=
  byte_of_ascii <$> (key_prefix ++ Sprintf_07d n).

Definition GetFixedLengthKey (n : Z) : string :=
  string_of_list_ascii (fixed64 (key_prefix ++ Sprintf_07d n)).

Definition GetFixedLengthValue (n : Z) : list Byte.byte :=
  byte_of_ascii <$> fixed64 (key_prefix ++ Sprintf_07d n).

(** What [crypto/rand.Read] does with a buffer: it fills it, or fails. *)
Inductive entropy : Type :=
| Filled (bytes : nat -> Byte.byte)
| Failed (err : string).

Definition makeslice_len : string := "makeslice: len out of range"%string.

(** [GetValue]: the value and the error returned. *)
Definition GetValue (n : Z) (src : entropy) : Res (list Byte.byte * option string) :=
  if (n <? 0)%Z then Panic makeslice_len
  else match src with
       | Failed err => Ok ([], Some err)
       | Filled bytes => Ok (bytes <$> seq 0 (Z.to_nat n), None)
       end.

End Util.

(** The number that a string of decimal digits denotes, read from the left
    with [acc] for the digits already read. *)
Fixpoint decimal_value (acc : Z) (l : list ascii) : Z :=
  match l with
  | [] => acc
  | c :: l' => decimal_value (acc * 10 + (Z.of_nat (nat_of_ascii c) - 48)) l'
  end.

Definition is_digit (c : ascii) : Prop := 48 <= nat_of_ascii c <= 57.

(** The keys of the benchmarks: 64 bytes each, [GetKey] padded with NUL,
    distinct for distinct numbers, and ordered as the numbers from 0 up to
    9999999. *)
Definition util_keys_ok (m n : Z) : Prop :=
  String.length (Util.GetFixedLengthKey n) = 64 /\
  length (Util.GetFixedLengthValue n) = 64 /\
  Util.GetFixedLengthValue n =
    list_byte_of_string (Util.GetFixedLengthKey n) /\
  ((Util.MinInt <= n <= Util.MaxInt)%Z ->
   Util.GetFixedLengthValue n =
     Util.GetKey n ++ replicate (64 - length (Util.GetKey n)) Byte.x00) /\
  ((Util.MinInt <= m <= Util.MaxInt)%Z -> (Util.MinInt <= n <= Util.MaxInt)%Z ->
   Util.GetFixedLengthKey m = Util.GetFixedLengthKey n -> m = n) /\
  ((0 <= m < 10000000)%Z -> (0 <= n < 10000000)%Z ->
   (key_lt (Util.GetFixedLengthKey m) (Util.GetFixedLengthKey n) = true <-> (m < n)%Z)).

(** The number that a formatted integer denotes: a sign, then digits. *)
Definition signed_value (l : list ascii) : Z :=
  match l with
  | "-"%char :: t => (- decimal_value 0 t)%Z
  | _ => decimal_value 0 l
  end.

(** * The adaptive list while nothing is removed

    An adaptive element takes part in the levels below its [level] field;
    cutting every [next] array down to that many entries gives a baseline
    list.  A run of [Add], [Get] and [SetProbability] keeps this baseline
    image well formed. *)

Definition erase_node (n : StashList.elementNode) : SkipList.elementNode :=
  SkipList.mkNode (take (Z.to_nat (StashList.level n)) (StashList.next n)).

Definition erase_elem (e : StashList.Element) : SkipList.Element :=
  SkipList.mkElement (erase_node (StashList.enode e)) (StashList.key e)
                     (StashList.value e).

Definition erase (s : StashList.StashList) : SkipList.SkipList :=
  SkipList.mkList (SkipList.mkNode (StashList.next (StashList.lnode s)))
    (StashList.maxLevel s) (StashList.Length s) (StashList.probability s)
    (StashList.probTable s) (StashList.prevNodesCache s)
    (erase_elem <$> StashList.heap s).

Definition st_links (s : StashList.StashList) (i : nat) : nodeRef -> Res (option nat) :=
  fun r => StashList.slot s r i.

Definition st_visitedOf (s : StashList.StashList) (a : nat) : bool :=
  match StashList.heap s !! a with
  | Some e => StashList.visited (StashList.enode e)
  | None => false
  end.

(** The number of levels an element takes part in. *)
Definition st_levelOf (s : StashList.StashList) (a : nat) : nat :=
  SkipList.heightOf (erase s) a.

(** [StRep s L]: the baseline image of [s] is represented by the chain [L],
    the bounds of [Inv] hold, and every element created is on [L]. *)
Record StRep (s : StashList.StashList) (L : list nat) : Prop := {
  strep_rep : SkipList.Rep (erase s) L;
  strep_inv : StashList.Inv s;
  strep_all : forall a, a < length (StashList.heap s) -> a ∈ L
}.

(** Whether the walk of level [i] through [B] (keys below [k]) up to [C]
    (keys not below) ends with a demotion: it made a step, the node after it
    holds [k], and the node stepped onto last is not marked visited. *)
Definition demotes (s : StashList.StashList) (k : string) (i : nat)
    (B C : list nat) : bool :=
  match last B, C with
  | Some d, c :: _ =>
      bool_decide (0 < i) && String.eqb k (StashList.keyOf s c) &&
      negb (st_visitedOf s d)
  | _, _ => false
  end.

(** Sequences of calls without [Remove]. *)
Definition is_Remove (op : StashList.Op) : bool :=
  match op with
  | StashList.OpRemove _ => true
  | _ => false
  end.

Definition no_Remove (ops : list StashList.Op) : bool :=
  forallb (fun op => negb (is_Remove op)) ops.

(** The map that a sequence of calls on the adaptive list builds. *)
Definition st_abs_step (op : StashList.Op) (m : string -> option (list Byte.byte))
    (k' : string) : option (list Byte.byte) :=
  match op with
  | StashList.OpAdd k v _ => if String.eqb k' k then Some v else m k'
  | StashList.OpRemove k => if String.eqb k' k then None else m k'
  | StashList.OpGet _ | StashList.OpSetProbability _ => m k'
  end.

Fixpoint st_abs_run (ops : list StashList.Op) (m : string -> option (list Byte.byte))
    : string -> option (list Byte.byte) :=
  match ops with
  | [] => m
  | op :: ops' => st_abs_run ops' (st_abs_step op m)
  end.

(** The entry [i] of the [next] array of [r] is one that the image keeps. *)
Definition st_reach (s : StashList.StashList) (r : nodeRef) (i : nat) : Prop :=
  match r with
  | Head => i < length (StashList.next (StashList.lnode s))
  | Elem a => i < st_levelOf s a
  end.

#[global] Instance st_reach_dec s r i : Decision (st_reach s r i) :=
  match r with
  | Head => decide (i < length (StashList.next (StashList.lnode s)))
  | Elem a => decide (i < st_levelOf s a)
  end.

(** The raw entry [j] of the [next] array of element [a]. *)
Definition st_raw (s : StashList.StashList) (a : nat) (j : nat) : Res (option nat) :=
  match StashList.heap s !! a with
  | Some e => idx (StashList.next (StashList.enode e)) j
  | None => Panic nil_dereference
  end.

Definition st_valueOf (s : StashList.StashList) (a : nat) : list Byte.byte :=
  match StashList.heap s !! a with
  | Some e => StashList.value e
  | None => []
  end.

(** The [level] field of element [a]. *)
Definition st_levelField (s : StashList.StashList) (a : nat) : Z :=
  match StashList.heap s !! a with
  | Some e => StashList.level (StashList.enode e)
  | None => 0
  end.

(** What a link or level update leaves as it was. *)
Record st_same (s s' : StashList.StashList) : Prop := {
  ss_cfg : st_cfg s' = st_cfg s;
  ss_Length : StashList.Length s' = StashList.Length s;
  ss_cache : StashList.prevNodesCache s' = StashList.prevNodesCache s;
  ss_heap : length (StashList.heap s') = length (StashList.heap s);
  ss_head : length (StashList.next (StashList.lnode s')) =
            length (StashList.next (StashList.lnode s));
  ss_key : forall a, StashList.keyOf s' a = StashList.keyOf s a;
  ss_value : forall a, st_valueOf s' a = st_valueOf s a;
  ss_len : forall a e e', StashList.heap s !! a = Some e -> StashList.heap s' !! a = Some e' ->
           length (StashList.next (StashList.enode e')) =
           length (StashList.next (StashList.enode e))
}.

(** The node [r] is the head or an element there is. *)
Definition st_valid (s : StashList.StashList) (r : nodeRef) : Prop :=
  match r with
  | Head => True
  | Elem a => a < length (StashList.heap s)
  end.

(** The descent arrives at level [i] on the node [P]: the elements of [L1]
    that level [i] links after [P] have level [i + 1] exactly. *)
Definition st_arrives (s : StashList.StashList) (L1 : list nat) (i : nat)
    (P : nodeRef) : Prop :=
  exists A B, SkipList.level_of (erase s) i L1 = A ++ B /\ P = lastRef Head A /\
    forall b, b ∈ B -> st_levelOf s b = S i.

(** What a descent for a key held at level [hb] may do to the levels: it
    lowers those of elements of [L1], from no higher than [hb]. *)
Definition st_lowers (s s' : StashList.StashList) (L1 : list nat) (hb : nat) : Prop :=
  forall a, st_levelOf s' a = st_levelOf s a \/
            (a ∈ L1 /\ st_levelOf s' a < st_levelOf s a <= hb).

(** More precisely, with [n] levels to go from the node [P]: a level drops
    by one, and only that of an unvisited element of [L1] of level at most
    [n], which is not [P] if its level is [n]. *)
Definition st_demoted (s s' : StashList.StashList) (L1 : list nat) (hb n : nat)
    (P : nodeRef) : Prop :=
  forall a, st_levelOf s' a = st_levelOf s a \/
    (a ∈ L1 /\ S (st_levelOf s' a) = st_levelOf s a /\ st_levelOf s a <= n /\
     st_levelOf s a <= hb /\ (st_levelOf s a = n -> Elem a <> P) /\
     st_visitedOf s a = false).

(** ** What the adaptive list guarantees while nothing is removed *)

(** A new adaptive list driven through [ops] answers [Get] as the map that
    [ops] builds from the empty map. *)
Definition st_is_map (m : Z) (ops : list StashList.Op) : Prop :=
  exists s,
    st_run_from m ops = Ok s /\
    forall k, exists s',
      StashList.Get (StashList.fuel_of s) k s =
        Ok (get_answer (st_abs_run ops no_binding k), s').

Definition st_added_keys (ops : list StashList.Op) : list string :=
  omap (fun op => match op with
                  | StashList.OpAdd k _ _ => Some k
                  | _ => None
                  end) ops.

(** [Length] and the number of elements created are both the number of
    distinct keys added. *)
Definition st_length_counts (m : Z) (ops : list StashList.Op) : Prop :=
  exists s,
    st_run_from m ops = Ok s /\
    StashList.Length s = Z.of_nat (length (remove_dups (st_added_keys ops))) /\
    length (StashList.heap s) = length (remove_dups (st_added_keys ops)).

(** The [level] field says which levels link an element: the bottom chain
    [L0] holds every element created, in strictly increasing key order, and
    level [i] links, in the same order, those whose [level] is above [i]. *)
Definition st_linked_by_level (s : StashList.StashList) : Prop :=
  exists L0,
    StashList.chain s 0 = Ok L0 /\
    StronglySorted (fun a b => key_lt (StashList.keyOf s a) (StashList.keyOf s b) = true) L0 /\
    (forall a, a < length (StashList.heap s) -> a ∈ L0) /\
    (forall a e, StashList.heap s !! a = Some e ->
       (1 <= StashList.level (StashList.enode e) <= Z.of_nat (StashList.maxLevel s))%Z) /\
    forall i, i < StashList.maxLevel s ->
      exists Li, StashList.chain s i = Ok Li /\ Li `sublist_of` L0 /\
        forall a e, StashList.heap s !! a = Some e ->
          (a ∈ Li <-> (Z.of_nat i < StashList.level (StashList.enode e))%Z).

(** Iterating with [Front] and [Next] visits the chain [L], in strictly
    increasing key order; [Length] is its length, and [Get] finds the keys
    of [L], with the values stored there, and no other key. *)
Definition st_iteration_ok (s : StashList.StashList) : Prop :=
  exists L,
    StashList.Front s = Ok (head L) /\
    (forall i a, L !! i = Some a -> StashList.Next s a = Ok (L !! S i)) /\
    StronglySorted (fun a b => key_lt (StashList.keyOf s a) (StashList.keyOf s b) = true) L /\
    StashList.Length s = Z.of_nat (length L) /\
    (forall a e, a ∈ L -> StashList.heap s !! a = Some e ->
       exists s', StashList.Get (StashList.fuel_of s) (StashList.key e) s =
                  Ok (StashList.value e, true, s')) /\
    (forall k, (forall a, a ∈ L -> StashList.keyOf s a <> k) ->
       exists s', StashList.Get (StashList.fuel_of s) k s = Ok ([], false, s')).

(** What the search of [Add] and [Remove] does for the key [k]: it returns
    the predecessors and caches them; it keeps the count, the settings and
    the keys, values and visited flags of the elements; it leaves a level as
    it is or lowers it by one, and lowers only that of an unvisited element
    with a key below [k], when an element of at least that level holds [k];
    if no element holds [k] it changes no node.  The levels stay well formed
    and [Get] answers as before. *)
Definition st_descent_ok (s : StashList.StashList) (k : string) : Prop :=
  exists prevs s',
    StashList.getPrevElementNodes (StashList.fuel_of s) k s = Ok (prevs, s') /\
    StashList.prevNodesCache s' = prevs /\ length prevs = StashList.maxLevel s /\
    StashList.Length s' = StashList.Length s /\ st_cfg s' = st_cfg s /\
    length (StashList.heap s') = length (StashList.heap s) /\
    (forall a e, StashList.heap s !! a = Some e ->
       exists e', StashList.heap s' !! a = Some e' /\
         StashList.key e' = StashList.key e /\ StashList.value e' = StashList.value e /\
         StashList.visited (StashList.enode e') = StashList.visited (StashList.enode e) /\
         (StashList.level (StashList.enode e') = StashList.level (StashList.enode e) \/
          (StashList.level (StashList.enode e') =
             StashList.level (StashList.enode e) - 1)%Z /\
          StashList.visited (StashList.enode e) = false /\
          key_lt (StashList.key e) k = true /\
          exists c ec, StashList.heap s !! c = Some ec /\ StashList.key ec = k /\
            (StashList.level (StashList.enode e) <=
             StashList.level (StashList.enode ec))%Z)) /\
    ((forall a e, StashList.heap s !! a = Some e -> StashList.key e <> k) ->
       StashList.lnode s' = StashList.lnode s /\ StashList.heap s' = StashList.heap s) /\
    st_linked_by_level s' /\
    forall k', exists v b s1 s2,
      StashList.Get (StashList.fuel_of s) k' s = Ok (v, b, s1) /\
      StashList.Get (StashList.fuel_of s') k' s' = Ok (v, b, s2).
(** * Filling the lists of the benchmarks (package stashlist, set-up)

    [initSkiplist] and [initStashlist] leave the list in a package variable;
    here they return it.  A round of their loop takes two things from
    outside: what [rand.Read] does for [util.GetValue], and the draw of
    [randLevel] in case [Add] creates an element. *)

Module Bench.

Record round : Type := mkRound {
  bytes_read : Util.entropy;
  level_draw : draw
}.

(** [val, err := util.GetValue(64); if err != nil { panic(err) }] *)
Definition value_or_panic (src : Util.entropy) : Res (list Byte.byte) :=
  '(val, err) ← Util.GetValue 64 src;
  match err with
  | Some e => Panic e
  | None => Ok val
  end.

Definition skiplist_round (rounds : nat -> round) (n : nat) (l : SkipList.SkipList)
    : Res SkipList.SkipList :=
  let key := Util.GetFixedLengthKey (Z.of_nat n) in
  val ← value_or_panic (bytes_read (rounds n));
  SkipList.Add (SkipList.fuel_of l) key val (level_draw (rounds n)) l.

(** [l = skiplist.NewSkipList(); for n := 0; n < num; n++ { ... l.Add(key, val) }] *)
Definition initSkiplist (num : Z) (rounds : nat -> round) : Res SkipList.SkipList :=
  l ← SkipList.NewSkipList;
  for_up (Z.to_nat num) 0 (skiplist_round rounds) l.

Definition stashlist_round (rounds : nat -> round) (n : nat) (l : StashList.StashList)
    : Res StashList.StashList :=
  let key := Util.GetFixedLengthKey (Z.of_nat n) in
  val ← value_or_panic (bytes_read (rounds n));
  StashList.Add (StashList.fuel_of l) key val (level_draw (rounds n)) l.

(** [myList = NewStashList(); for n := 0; n < num; n++ { ... myList.Add(key, val) }] *)
Definition initStashlist (num : Z) (rounds : nat -> round) : Res StashList.StashList :=
  l ← StashList.NewStashList;
  for_up (Z.to_nat num) 0 (stashlist_round rounds) l.

End Bench.

(** The value that round [rd] stores: the 64 bytes read. *)
Definition round_value (rd : Bench.round) : list Byte.byte :=
  match Bench.bytes_read rd with
  | Util.Filled b => b <$> seq 0 64
  | Util.Failed _ => []
  end.

(** The error of the first of the rounds [i .. i + n - 1] whose read fails. *)
Fixpoint first_failure (rounds : nat -> Bench.round) (i n : nat) : option string :=
  match n with
  | 0 => None
  | S n' =>
      match Bench.bytes_read (rounds i) with
      | Util.Failed err => Some err
      | Util.Filled _ => first_failure rounds (S i) n'
      end
  end.

(** [initSkiplist num] panics with the error of the first failing read; if
    no read fails it returns a list of [num] elements (none if [num] is
    negative) in which [Get] finds the key of each round, with the bytes
    read in that round, and no other key. *)
Definition initSkiplist_ok (num : Z) (rounds : nat -> Bench.round) : Prop :=
  match first_failure rounds 0 (Z.to_nat num) with
  | Some err => Bench.initSkiplist num rounds = Panic err
  | None =>
      exists l, Bench.initSkiplist num rounds = Ok l /\
        SkipList.Length l = Z.max 0 num /\
        (forall n, (0 <= n < num)%Z ->
           SkipList.Get (SkipList.fuel_of l) (Util.GetFixedLengthKey n) l =
             Ok (round_value (rounds (Z.to_nat n)), true)) /\
        (forall k, (forall n, (0 <= n < num)%Z -> k <> Util.GetFixedLengthKey n) ->
           SkipList.Get (SkipList.fuel_of l) k l = Ok ([], false))
  end.

Definition initStashlist_ok (num : Z) (rounds : nat -> Bench.round) : Prop :=
  match first_failure rounds 0 (Z.to_nat num) with
  | Some err => Bench.initStashlist num rounds = Panic err
  | None =>
      exists l, Bench.initStashlist num rounds = Ok l /\
        StashList.Length l = Z.max 0 num /\
        (forall n, (0 <= n < num)%Z ->
           exists l', StashList.Get (StashList.fuel_of l) (Util.GetFixedLengthKey n) l =
             Ok (round_value (rounds (Z.to_nat n)), true, l')) /\
        (forall k, (forall n, (0 <= n < num)%Z -> k <> Util.GetFixedLengthKey n) ->
           exists l', StashList.Get (StashList.fuel_of l) k l = Ok ([], false, l'))
  end.

(** The calls that the rounds [i .. i + n - 1] make. *)
Definition sk_round_ops (rounds : nat -> Bench.round) (i n : nat) : list SkipList.Op :=
  (fun j => SkipList.OpAdd (Util.GetFixedLengthKey (Z.of_nat j)) (round_value (rounds j))
                           (Bench.level_draw (rounds j))) <$> seq i n.

Definition st_round_ops (rounds : nat -> Bench.round) (i n : nat) : list StashList.Op :=
  (fun j => StashList.OpAdd (Util.GetFixedLengthKey (Z.of_nat j)) (round_value (rounds j))
                            (Bench.level_draw (rounds j))) <$> seq i n.
(** * Facts shared by both variants *)

Section ResFacts.
Context {A B : Type}.

Lemma bind_Ok (m : Res A) (f : A -> Res B) (b : B) :
    (m ≫= f) = Ok b <-> exists a, m = Ok a /\ f a = Ok b.
  Proof.
    destruct m as [a| |]; simpl; split.
    - intros H; exists a; auto.
    - intros (a' & Ha & Hf); injection Ha as ->; exact Hf.
    - discriminate.
    - intros (a' & Ha & _); discriminate.
    - discriminate.
    - intros (a' & Ha & _); discriminate.
  Qed.

Lemma bind_Ok_l (m : Res A) (f : A -> Res B) (a : A) :
    m = Ok a -> (m ≫= f) = f a.
  Proof. intros ->; reflexivity. Qed.
End ResFacts.

(** Break every monadic bind of a hypothesis that returned [Ok]. *)
Ltac res_inv :=
  repeat match goal with
  | H : (_ ≫= _) = Ok _ |- _ =>
      let x := fresh "x" in
      let Hx := fresh "Hx" in
      apply bind_Ok in H as (x & Hx & H);
      repeat match type of x with
             | (_ * _)%type => destruct x as [x ?]
             end;
      simpl in H
  | H : Ok _ = Ok _ |- _ => injection H as H; subst
  | H : Panic _ = Ok _ |- _ => discriminate H
  | H : OutOfFuel = Ok _ |- _ => discriminate H
  | H : mret _ = Ok _ |- _ => injection H as H; subst
  end.

Section SliceFacts.
Context {A : Type}.
  Implicit Types (l : list A) (i j : nat) (x : A).

Lemma idx_Ok l i x : idx l i = Ok x <-> l !! i = Some x.
  Proof.
    unfold idx; destruct (l !! i); split; intros H; try discriminate; congruence.
  Qed.

Lemma idx_lt l i x : idx l i = Ok x -> i < length l.
  Proof. intros H%idx_Ok. eapply lookup_lt_Some; eauto. Qed.

Lemma idx_in_range l i : i < length l -> exists x, idx l i = Ok x.
  Proof.
    intros H. destruct (lookup_lt_is_Some_2 l i H) as [x Hx].
    exists x. by apply idx_Ok.
  Qed.

Lemma store_Ok l i x l' :
    store l i x = Ok l' <-> i < length l /\ l' = <[i:=x]> l.
  Proof.
    unfold store; destruct (decide (i < length l)); split.
    - intros [= <-]; auto.
    - intros [_ ->]; reflexivity.
    - discriminate.
    - intros [? _]; lia.
  Qed.

Lemma store_length l i x l' : store l i x = Ok l' -> length l' = length l.
  Proof. intros (_ & ->)%store_Ok. apply length_insert. Qed.

Lemma store_idx l i x l' j :
    store l i x = Ok l' ->
    idx l' j = if decide (i = j) then Ok x else idx l j.
  Proof.
    intros (Hi & ->)%store_Ok. unfold idx. destruct (decide (i = j)) as [->|Hne].
    - by rewrite list_lookup_insert_eq.
    - by rewrite list_lookup_insert_ne.
  Qed.
End SliceFacts.

(** The order on keys is a strict total order. *)
Section KeyOrder.
  Implicit Types (a b c : string).

Lemma key_lt_spec a b : key_lt a b = true <-> String.compare a b = Lt.
  Proof. unfold key_lt, String.ltb. destruct (String.compare a b); split; congruence. Qed.

Lemma key_le_spec a b : key_le a b = true <-> String.compare a b <> Gt.
  Proof. unfold key_le, String.leb. destruct (String.compare a b); split; congruence. Qed.

Lemma compare_refl a : String.compare a a = Eq.
  Proof.
    pose proof (String.compare_antisym a a) as H.
    destruct (String.compare a a); simpl in H; congruence.
  Qed.

Lemma key_lt_irrefl a : key_lt a a = false.
  Proof.
    destruct (key_lt a a) eqn:H; [|reflexivity].
    apply key_lt_spec in H. rewrite compare_refl in H. discriminate.
  Qed.

Lemma key_lt_trans a b c : key_lt a b = true -> key_lt b c = true -> key_lt a c = true.
  Proof.
    rewrite !key_lt_spec. intros H1 H2.
    apply String_as_OT.cmp_lt. apply String_as_OT.cmp_lt in H1, H2.
    eapply String_as_OT.lt_trans; eauto.
  Qed.

Lemma key_lt_ne a b : key_lt a b = true -> a <> b.
  Proof. intros H ->. rewrite key_lt_irrefl in H. discriminate. Qed.

  (** The match test of the source, after a level-0 scan stopped at [a]:
      [a <= k] is then the same as [a = k]. *)
Lemma match_test_eq a k : key_lt a k = false -> (key_le a k = true <-> a = k).
  Proof.
    intros Hlt. split.
    - intros Hle. apply key_le_spec in Hle. apply String.compare_eq_iff.
      destruct (String.compare a k) eqn:E; [reflexivity| |congruence].
      assert (key_lt a k = true) by (by apply key_lt_spec). congruence.
    - intros ->. apply key_le_spec. rewrite compare_refl. discriminate.
  Qed.

Lemma key_lt_total a b : key_lt a b = false -> a <> b -> key_lt b a = true.
  Proof.
    intros Hlt Hne. apply key_lt_spec. rewrite String.compare_antisym.
    destruct (String.compare a b) eqn:E; simpl.
    - exfalso. apply Hne. by apply String.compare_eq_iff.
    - assert (key_lt a b = true) by (by apply key_lt_spec). congruence.
    - reflexivity.
  Qed.

Lemma key_lt_asym a b : key_lt a b = true -> key_lt b a = false.
  Proof.
    intros H. destruct (key_lt b a) eqn:E; [|reflexivity].
    pose proof (key_lt_trans _ _ _ H E) as H'. rewrite key_lt_irrefl in H'. discriminate.
  Qed.

Lemma key_ge_trans a b k : key_lt a k = false -> key_lt a b = true -> key_lt b k = false.
  Proof.
    intros H1 H2. destruct (key_lt b k) eqn:E; [|reflexivity].
    pose proof (key_lt_trans _ _ _ H2 E). congruence.
  Qed.
End KeyOrder.

(** Probability tables and level draws. *)
Section LevelModel.
Lemma probabilityTable_from_length n i p table :
    length (probabilityTable_from n i p table) = length table + n.
  Proof.
    revert i table. induction n as [|n IH]; intros i table; simpl; [lia|].
    rewrite IH, length_app. simpl. lia.
  Qed.

Lemma probabilityTable_length p n : length (probabilityTable p n) = n.
  Proof. unfold probabilityTable. by rewrite probabilityTable_from_length. Qed.

Lemma randLevel_from_bounds gap level tbl r lvl :
    randLevel_from gap level tbl r = Ok lvl -> level <= lvl <= level + gap.
  Proof.
    revert level. induction gap as [|gap IH]; intros level H; simpl in H.
    - injection H as <-. lia.
    - res_inv. destruct (r x).
      + apply IH in H. lia.
      + injection H as <-. lia.
  Qed.

Lemma randLevel_from_total gap level tbl r :
    level + gap <= length tbl -> exists lvl, randLevel_from gap level tbl r = Ok lvl.
  Proof.
    revert level. induction gap as [|gap IH]; intros level H; simpl.
    - eauto.
    - destruct (idx_in_range tbl level ltac:(lia)) as [p Hp]. rewrite Hp. simpl.
      destruct (r p); [apply IH; lia | eauto].
  Qed.

Lemma randLevel_of_bounds m tbl r lvl :
    1 <= m -> randLevel_of m tbl r = Ok lvl -> 1 <= lvl <= m.
  Proof. intros Hm H%randLevel_from_bounds. lia. Qed.

Lemma randLevel_of_total m tbl r :
    1 <= m -> length tbl = m -> exists lvl, randLevel_of m tbl r = Ok lvl.
  Proof. intros Hm Hl. apply randLevel_from_total. lia. Qed.
End LevelModel.

(** Linked segments. *)
Section Lseg.
  Implicit Types (f g : nodeRef -> Res (option nat)) (r : nodeRef) (l X Y : list nat).

Lemma lastRef_app r X Y : lastRef r (X ++ Y) = lastRef (lastRef r X) Y.
  Proof. revert r. induction X as [|x X IH]; intros r; simpl; auto. Qed.

Lemma lastRef_snoc r X a : lastRef r (X ++ [a]) = Elem a.
  Proof. by rewrite lastRef_app. Qed.

Lemma lastRef_cases r X : (X = [] /\ lastRef r X = r) \/ (exists a, a ∈ X /\ lastRef r X = Elem a).
  Proof.
    destruct X as [|x X _] using rev_ind; [by left|right].
    exists x. split; [set_solver|apply lastRef_snoc].
  Qed.

Lemma lseg_hd f r l tl : lseg f r l tl -> f r = Ok (hd_or l tl).
  Proof. destruct l; simpl; tauto. Qed.

Lemma lastRef_elem r X : lastRef r X ∈ r :: (Elem <$> X).
  Proof.
    destruct (lastRef_cases r X) as [[_ ->]|(a & Ha & ->)]; [set_solver|].
    apply list_elem_of_further, list_elem_of_fmap. eauto.
  Qed.

  (** Only the links of the nodes on the segment matter. *)
Lemma lseg_ext f g r r' l tl :
    g r' = f r -> (forall a, a ∈ l -> g (Elem a) = f (Elem a)) ->
    lseg f r l tl -> lseg g r' l tl.
  Proof.
    revert r r'. induction l as [|a l IH]; intros r r' Hr Hl; simpl.
    - congruence.
    - intros [H1 H2]. split; [congruence|].
      apply (IH (Elem a)); auto; [apply Hl|intros b Hb; apply Hl]; set_solver.
  Qed.

Lemma lseg_app_r f r X Y tl : lseg f r (X ++ Y) tl -> lseg f (lastRef r X) Y tl.
  Proof. revert r. induction X as [|x X IH]; intros r; simpl; [auto|]. intros [_ H]. auto. Qed.

Lemma lseg_app_l f r X Y tl : lseg f r (X ++ Y) tl -> lseg f r X (hd_or Y tl).
  Proof.
    revert r. induction X as [|x X IH]; intros r; simpl.
    - apply lseg_hd.
    - intros [H1 H2]. auto.
  Qed.

Lemma lseg_app f r X Y tl :
    lseg f r X (hd_or Y tl) -> lseg f (lastRef r X) Y tl -> lseg f r (X ++ Y) tl.
  Proof.
    revert r. induction X as [|x X IH]; intros r; simpl; [auto|].
    intros [H1 H2] H3. auto.
  Qed.

  (** Splicing [n] in after [lastRef r X]. *)
Lemma lseg_insert f g r X Y tl n :
    lseg f r (X ++ Y) tl ->
    NoDup (r :: (Elem <$> (X ++ Y))) ->
    Elem n <> r -> n ∉ X ++ Y ->
    g (lastRef r X) = Ok (Some n) ->
    g (Elem n) = f (lastRef r X) ->
    (forall x, x <> lastRef r X -> x <> Elem n -> g x = f x) ->
    lseg g r (X ++ n :: Y) tl.
  Proof.
    revert r. induction X as [|x X IH]; intros r Hseg Hnd Hnr Hn Hp Hq Hother; simpl in *.
    - split; [done|]. eapply lseg_ext; [exact Hq| |exact Hseg].
      intros a Ha. apply Hother.
      + intros <-. apply NoDup_cons in Hnd as [Hnd _]. apply Hnd.
        apply list_elem_of_fmap. eauto.
      + intros [= ->]. done.
    - destruct Hseg as [H1 H2]. apply NoDup_cons in Hnd as [Hr Hnd]. split.
      + rewrite Hother; [done| |congruence].
        intros ->. apply Hr. pose proof (lastRef_elem (Elem x) X) as Hl.
        rewrite fmap_app. set_solver.
      + apply IH; auto.
        * intros [= ->]. set_solver.
        * set_solver.
  Qed.

  (** Unlinking [a], the successor of [lastRef r X]. *)
Lemma lseg_remove f g r X Y tl a :
    lseg f r (X ++ a :: Y) tl ->
    NoDup (r :: (Elem <$> (X ++ a :: Y))) ->
    g (lastRef r X) = f (Elem a) ->
    (forall x, x <> lastRef r X -> g x = f x) ->
    lseg g r (X ++ Y) tl.
  Proof.
    revert r. induction X as [|x X IH]; intros r Hseg Hnd Hp Hother; simpl in *.
    - destruct Hseg as [H1 H2]. eapply lseg_ext; [exact Hp| |exact H2].
      intros b Hb. apply Hother. intros <-.
      apply NoDup_cons in Hnd as [Hnd _]. apply Hnd.
      apply list_elem_of_further, list_elem_of_fmap. eauto.
    - destruct Hseg as [H1 H2]. apply NoDup_cons in Hnd as [Hr Hnd]. split.
      + rewrite Hother; [done|].
        intros ->. apply Hr. pose proof (lastRef_elem (Elem x) X) as Hl.
        rewrite fmap_app. set_solver.
      + apply IH; auto.
  Qed.

End Lseg.


Lemma filter_ext_in {A} (P Q : A -> Prop) `{!forall a, Decision (P a)}
    `{!forall a, Decision (Q a)} (l : list A) :
  (forall a, a ∈ l -> (P a <-> Q a)) -> filter P l = filter Q l.
Proof.
  induction l as [|x l IH]; intros Hpq; [done|].
  rewrite !filter_cons. rewrite IH by (intros a Ha; apply Hpq; set_solver).
  pose proof (Hpq x ltac:(set_solver)) as Hx.
  destruct (decide (P x)) as [Hp|Hp], (decide (Q x)) as [Hq|Hq]; tauto || done.
Qed.


(** * The baseline skip list: invariant and operations *)

Module SkipListFacts.
Import SkipList.

(** ** Reads after writes *)

Lemma getElement_Ok s a e : getElement s a = Ok e <-> heap s !! a = Some e.
Proof. unfold getElement. destruct (heap s !! a); split; intros H; try discriminate; congruence. Qed.

Lemma getNode_setNode s r n s' r' :
  setNode s r n = Ok s' ->
  getNode s' r' = if decide (r = r') then Ok n else getNode s r'.
Proof.
  destruct r as [|a]; simpl; intros H; res_inv.
  - destruct r'; [reflexivity|].
    destruct (decide (Head = Elem a)); [discriminate|reflexivity].
  - apply getElement_Ok in Hx. destruct r' as [|a'].
    + destruct (decide (Elem a = Head)); [discriminate|reflexivity].
    + simpl. unfold getElement; simpl.
      destruct (decide (Elem a = Elem a')) as [[= <-]|Hne].
      * rewrite list_lookup_insert_eq by (eapply lookup_lt_Some; eauto). reflexivity.
      * rewrite list_lookup_insert_ne by congruence. reflexivity.
Qed.

Lemma slot_setSlot s r i v s' r' j :
  setSlot s r i v = Ok s' ->
  slot s' r' j = if decide (r = r' /\ i = j) then Ok v else slot s r' j.
Proof.
  unfold setSlot, slot. intros H. res_inv.
  rewrite (getNode_setNode _ _ _ _ r' H).
  destruct (decide (r = r')) as [<-|Hne].
  - rewrite Hx. simpl. rewrite (store_idx _ _ _ _ j Hx0).
    destruct (decide (i = j)); destruct (decide (r = r /\ i = j)); try reflexivity; tauto.
  - destruct (decide (r = r' /\ i = j)); [tauto|reflexivity].
Qed.


Lemma same_frame_refl s : same_frame s s.
Proof. by constructor. Qed.

Lemma same_frame_trans s1 s2 s3 : same_frame s1 s2 -> same_frame s2 s3 -> same_frame s1 s3.
Proof.
  intros [] []. constructor; congruence.
Qed.

Lemma setSlot_frame s r i v s' : setSlot s r i v = Ok s' -> same_frame s s'.
Proof.
  unfold setSlot. intros H.
  apply bind_Ok in H as (n & Hn & H). apply bind_Ok in H as (nx & Hnx & H).
  apply store_Ok in Hnx as [Hi ->].
  destruct r as [|a]; simpl in *.
  - injection Hn as <-. injection H as <-.
    constructor; simpl; try reflexivity. by rewrite length_insert.
  - apply bind_Ok in Hn as (e & He & Hn). injection Hn as <-.
    rewrite He in H. simpl in H. injection H as <-.
    apply getElement_Ok in He. rename He into Hx1.
    constructor; simpl; try reflexivity.
    + by rewrite length_insert.
    + intros a'. unfold keyOf; simpl. destruct (decide (a = a')) as [<-|].
      * rewrite list_lookup_insert_eq by (eapply lookup_lt_Some; eauto). by rewrite Hx1.
      * by rewrite list_lookup_insert_ne.
    + intros a'. unfold heightOf; simpl. destruct (decide (a = a')) as [<-|].
      * rewrite list_lookup_insert_eq by (eapply lookup_lt_Some; eauto).
        rewrite Hx1. simpl. by rewrite length_insert.
      * by rewrite list_lookup_insert_ne.
    + intros a'. destruct (decide (a = a')) as [<-|].
      * rewrite list_lookup_insert_eq by (eapply lookup_lt_Some; eauto). by rewrite Hx1.
      * by rewrite list_lookup_insert_ne.
Qed.

Lemma setSlot_total s r i v :
  (match r with Head => i < length (next (lnode s)) | Elem a => i < heightOf s a end) ->
  exists s', setSlot s r i v = Ok s'.
Proof.
  unfold setSlot, heightOf. destruct r as [|a]; simpl.
  - intros Hi. unfold store. rewrite decide_True by done. simpl. eauto.
  - unfold getElement. destruct (heap s !! a) as [e|] eqn:He; [|lia].
    intros Hi. simpl. unfold store. rewrite decide_True by done. simpl. eauto.
Qed.


Section Search.
Variables (s : SkipList) (k : string).

Lemma slot_Elem a i :
    slot s (Elem a) i = (e ← getElement s a; idx (next (enode e)) i).
  Proof. unfold slot; simpl. destruct (getElement s a); reflexivity. Qed.

Lemma slot_Elem_Ok a i v :
    slot s (Elem a) i = Ok v ->
    exists e, heap s !! a = Some e /\ idx (next (enode e)) i = Ok v.
  Proof.
    rewrite slot_Elem. intros H. apply bind_Ok in H as (e & He & H).
    apply getElement_Ok in He. eauto.
  Qed.

Lemma advance_spec i C : forall B r fuel,
    lseg (links s i) r (B ++ C) None ->
    (forall b, b ∈ B -> key_lt (keyOf s b) k = true) ->
    (forall c, c ∈ C -> key_lt (keyOf s c) k = false) ->
    length B < fuel ->
    advance fuel s k i r (hd_or (B ++ C) None) = Ok (lastRef r B, hd_or C None).
  Proof.
    induction B as [|b B IH]; intros r fuel Hseg HB HC Hfuel;
      (destruct fuel as [|fuel]; [simpl in Hfuel; lia|]); simpl in *.
    - destruct C as [|c C]; simpl in *; [reflexivity|].
      destruct Hseg as [_ Hseg]. apply lseg_hd in Hseg.
      apply slot_Elem_Ok in Hseg as (e & He & _).
      unfold getElement. rewrite He. simpl.
      specialize (HC c ltac:(set_solver)). unfold keyOf in HC. rewrite He in HC.
      by rewrite HC.
    - destruct Hseg as [_ Hseg]. pose proof (lseg_hd _ _ _ _ Hseg) as Hhd.
      apply slot_Elem_Ok in Hhd as (e & He & Hnx).
      unfold getElement. rewrite He. simpl.
      specialize (HB b ltac:(set_solver)) as Hb. unfold keyOf in Hb. rewrite He in Hb.
      rewrite Hb, Hnx. simpl. apply IH; auto; [|lia].
      intros b' Hb'. apply HB. set_solver.
  Qed.
End Search.

(** Level [S i] is a sub-chain of level [i] that ends no later. *)
Lemma level_of_split s i r l :
  exists A B, level_of s i l = A ++ B /\
              lastRef r A = lastRef r (level_of s (S i) l).
Proof.
  unfold level_of. induction l as [|x l IH] using rev_ind.
  - exists [], []. auto.
  - destruct IH as (A & B & HAB & Hlast). rewrite !filter_app.
    destruct (decide (S i < heightOf s x)) as [Hx|Hx].
    + exists (filter (fun a => i < heightOf s a) l ++ [x]), [].
      rewrite (filter_cons_True _ x) by lia.
      rewrite (filter_cons_True _ x) by done. simpl.
      rewrite app_nil_r. split; [done|]. by rewrite !lastRef_snoc.
    + rewrite (filter_cons_False (fun a => S i < heightOf s a) x) by done.
      simpl. rewrite app_nil_r.
      destruct (decide (i < heightOf s x)) as [Hx'|Hx'].
      * exists A, (B ++ [x]). rewrite (filter_cons_True _ x) by done. simpl.
        rewrite HAB. by rewrite <- app_assoc.
      * exists A, B. rewrite (filter_cons_False _ x) by done. simpl.
        by rewrite app_nil_r.
Qed.

Lemma sorted_keys_NoDup s L : sorted_keys s L -> NoDup L.
Proof.
  unfold sorted_keys. induction 1 as [|a l Hs IH Hall]; constructor; auto.
  intros Hin. rewrite Forall_forall in Hall. specialize (Hall a Hin).
  rewrite key_lt_irrefl in Hall. discriminate.
Qed.

Lemma NoDup_nodes (L : list nat) : NoDup L -> NoDup (Head :: (Elem <$> L)).
Proof.
  intros H. constructor.
  - intros (a & Ha & _)%list_elem_of_fmap. discriminate.
  - apply NoDup_fmap_2; [|done]. intros ? ? [= ->]. done.
Qed.

Lemma Rep_NoDup s L : Rep s L -> NoDup L.
Proof. intros H. eapply sorted_keys_NoDup, H. Qed.

Lemma Rep_length s L : Rep s L -> length L <= length (heap s).
Proof.
  intros H. pose proof (Rep_NoDup _ _ H) as Hnd.
  assert (L ⊆ seq 0 (length (heap s))) as Hsub.
  { intros a Ha. apply elem_of_seq. apply H in Ha. lia. }
  pose proof (submseteq_length L (seq 0 (length (heap s)))
                (NoDup_submseteq _ _ Hnd Hsub)) as Hl.
  by rewrite length_seq in Hl.
Qed.

Lemma level_of_zero s L : Rep s L -> forall X, X ⊆ L -> level_of s 0 X = X.
Proof.
  intros H X HX. unfold level_of. induction X as [|x X IH]; [done|].
  rewrite filter_cons_True.
  - f_equal. apply IH. set_solver.
  - apply H. set_solver.
Qed.

Lemma level_of_top s L : Rep s L -> forall X, X ⊆ L -> level_of s (maxLevel s) X = [].
Proof.
  intros H X HX. unfold level_of. induction X as [|x X IH]; [done|].
  rewrite filter_cons_False.
  - apply IH. set_solver.
  - assert (heightOf s x <= maxLevel s) by (apply H; set_solver). lia.
Qed.

(** One level of the descent, for a key that splits the chain into [L1]
    (smaller keys) and [L2]. *)
Lemma level_step s L L1 L2 k i fuel :
  Rep s L -> L = L1 ++ L2 ->
  (forall a, a ∈ L1 -> key_lt (keyOf s a) k = true) ->
  (forall a, a ∈ L2 -> key_lt (keyOf s a) k = false) ->
  i < maxLevel s -> length L < fuel ->
  exists nx, slot s (predAt s L1 (S i)) i = Ok nx /\
    advance fuel s k i (predAt s L1 (S i)) nx
      = Ok (predAt s L1 i, hd_or (level_of s i L2) None).
Proof.
  intros HRep -> H1 H2 Hi Hfuel.
  pose proof (rep_links _ _ HRep i Hi) as Hseg.
  unfold level_of in Hseg. rewrite filter_app in Hseg. fold (level_of s i L1) in Hseg.
  fold (level_of s i L2) in Hseg.
  destruct (level_of_split s i Head L1) as (A & B & HAB & Hlast).
  rewrite HAB, <- app_assoc in Hseg. apply lseg_app_r in Hseg.
  unfold predAt. rewrite <- Hlast.
  exists (hd_or (B ++ level_of s i L2) None). split.
  - by apply lseg_hd in Hseg.
  - assert (lastRef Head (level_of s i L1) = lastRef (lastRef Head A) B) as ->.
    { by rewrite HAB, lastRef_app. }
    apply advance_spec; auto.
    + intros b Hb. apply H1. assert (b ∈ level_of s i L1) as Hb' by (rewrite HAB; set_solver).
      unfold level_of in Hb'. apply list_elem_of_filter in Hb'. tauto.
    + intros c Hc. apply H2. unfold level_of in Hc. apply list_elem_of_filter in Hc. tauto.
    + assert (length (level_of s i L1) <= length L1) by apply length_filter.
      rewrite HAB in H. rewrite !length_app in *. lia.
Qed.


Lemma splits_exists s k L : sorted_keys s L -> exists L1 L2, splits s k L L1 L2.
Proof.
  unfold sorted_keys. induction 1 as [|a l Hs IH Hall].
  - exists [], []. repeat split; set_solver.
  - destruct (key_lt (keyOf s a) k) eqn:Ha.
    + destruct IH as (L1 & L2 & -> & H1 & H2).
      exists (a :: L1), L2. repeat split; auto.
      intros b [->|Hb]%elem_of_cons; auto.
    + exists [], (a :: l). repeat split; [set_solver|].
      intros b [->|Hb]%elem_of_cons; auto.
      rewrite Forall_forall in Hall. eapply key_ge_trans; eauto.
Qed.

Section Descent.
Variables (s : SkipList) (k : string) (L L1 L2 : list nat) (fuel : nat).
Hypothesis HRep : Rep s L.
Hypothesis Hsplit : splits s k L L1 L2.
Hypothesis Hfuel : length L < fuel.

Lemma predAt_top : predAt s L1 (maxLevel s) = Head.
  Proof.
    unfold predAt. rewrite (level_of_top s L HRep); [done|].
    destruct Hsplit as (-> & _). set_solver.
  Qed.

Lemma level_step' i :
    i < maxLevel s ->
    exists nx, slot s (predAt s L1 (S i)) i = Ok nx /\
      advance fuel s k i (predAt s L1 (S i)) nx
        = Ok (predAt s L1 i, hd_or (level_of s i L2) None).
  Proof. destruct Hsplit as (HL & H1 & H2). intros Hi. eapply level_step; eauto. Qed.

Lemma descend_spec n :
    n <= maxLevel s -> forall nxt prevs, length prevs = maxLevel s ->
    exists prevs',
      descend fuel s k n (predAt s L1 n) nxt prevs = Ok prevs' /\
      length prevs' = maxLevel s /\
      forall j, prevs' !! j =
                if decide (j < n) then Some (Some (predAt s L1 j)) else prevs !! j.
  Proof.
    induction n as [|i IH]; intros Hn nxt prevs Hlen; simpl.
    - exists prevs. repeat split; auto.
    - destruct (level_step' i Hn) as (nx & Hslot & Hadv).
      rewrite Hslot. simpl. rewrite Hadv. simpl.
      unfold store. rewrite decide_True by lia. simpl.
      destruct (IH ltac:(lia) (hd_or (level_of s i L2) None)
                  (<[i:=Some (predAt s L1 i)]> prevs)) as (prevs' & Hd & Hl & Hj).
      { by rewrite length_insert. }
      exists prevs'. repeat split; auto.
      intros j. rewrite Hj. destruct (decide (j < i)).
      + rewrite decide_True by lia. done.
      + destruct (decide (j = i)) as [->|].
        * rewrite decide_True by lia. rewrite list_lookup_insert_eq by lia. done.
        * rewrite decide_False by lia. by rewrite list_lookup_insert_ne.
  Qed.

Lemma search_levels_spec n :
    n <= maxLevel s -> forall nxt,
    search_levels fuel s k n (predAt s L1 n) nxt
      = Ok (predAt s L1 0, match n with 0 => nxt | S _ => hd_or L2 None end).
  Proof.
    induction n as [|i IH]; intros Hn nxt; simpl; [done|].
    destruct (level_step' i Hn) as (nx & Hslot & Hadv).
    rewrite Hslot. simpl. rewrite Hadv. simpl.
    rewrite IH by lia. destruct i; [|done].
    rewrite (level_of_zero s L HRep); [done|].
    destruct Hsplit as (-> & _). set_solver.
  Qed.

  (** The recorded predecessors, and the cache they are stored in. *)
Lemma getPrevElementNodes_spec :
    exists prevs,
      getPrevElementNodes fuel k s = Ok (prevs, set_cache s prevs) /\
      length prevs = maxLevel s /\
      forall j, j < maxLevel s -> prevs !! j = Some (Some (predAt s L1 j)).
  Proof.
    unfold getPrevElementNodes.
    destruct (descend_spec (maxLevel s) ltac:(lia) None (prevNodesCache s))
      as (prevs & Hd & Hl & Hj).
    { apply HRep. }
    rewrite predAt_top in Hd. exists prevs. rewrite Hd. simpl. repeat split; auto.
    intros j Hjm. rewrite Hj. by rewrite decide_True.
  Qed.

  (** The level-0 predecessor and its successor, the candidate. *)
Lemma candidate_spec : slot s (predAt s L1 0) 0 = Ok (hd_or L2 None).
  Proof.
    pose proof (rep_links _ _ HRep 0 ltac:(apply HRep)) as Hseg.
    destruct Hsplit as (HL & _).
    unfold predAt. rewrite (level_of_zero s L HRep L) in Hseg by set_solver.
    rewrite (level_of_zero s L HRep L1) by set_solver.
    rewrite HL in Hseg. apply lseg_app_r in Hseg.
    by apply lseg_hd in Hseg.
  Qed.
End Descent.

(** ** The link loops of [Add] and [Remove] *)

Lemma setSlot_total' s r i v0 v :
  slot s r i = Ok v0 -> exists s', setSlot s r i v = Ok s'.
Proof.
  unfold slot, setSlot. intros H. apply bind_Ok in H as (n & Hn & H).
  rewrite Hn. simpl. apply idx_lt in H. unfold store. rewrite decide_True by done.
  simpl. destruct r as [|a]; simpl; [eauto|].
  simpl in Hn. apply bind_Ok in Hn as (e & He & _). rewrite He. simpl. eauto.
Qed.

Section LinkLoop.
Variables (prevs : list (option nodeRef)) (n : nat) (P : nat -> nodeRef).

Lemma link_level_spec i0 s v v' :
    prevs !! i0 = Some (Some (P i0)) -> P i0 <> Elem n ->
    slot s (P i0) i0 = Ok v -> slot s (Elem n) i0 = Ok v' ->
    exists s', link_level prevs n i0 s = Ok s' /\ same_frame s s' /\
      forall r j, slot s' r j =
        if decide (j = i0) then
          if decide (r = P j) then Ok (Some n)
          else if decide (r = Elem n) then slot s (P j) j
          else slot s r j
        else slot s r j.
  Proof.
    intros Hp Hne Hv Hv'.
    unfold link_level, idx. rewrite Hp. simpl. rewrite Hv. simpl.
    destruct (setSlot_total' s (Elem n) i0 v' v Hv') as (sa & Hsa).
    rewrite Hsa. simpl.
    assert (slot sa (P i0) i0 = Ok v) as Hv2.
    { rewrite (slot_setSlot _ _ _ _ _ _ _ Hsa). rewrite decide_False; [done|].
      intros [? _]. congruence. }
    destruct (setSlot_total' sa (P i0) i0 v (Some n) Hv2) as (sb & Hsb).
    exists sb. split; [done|]. split.
    { eapply same_frame_trans; eapply setSlot_frame; eauto. }
    intros r j. rewrite (slot_setSlot _ _ _ _ _ _ _ Hsb).
    rewrite (slot_setSlot _ _ _ _ _ _ _ Hsa).
    destruct (decide (j = i0)) as [->|Hj].
    - destruct (decide (r = P i0)) as [->|Hr].
      + rewrite decide_True by done. done.
      + rewrite decide_False by (intros [? _]; congruence).
        destruct (decide (r = Elem n)) as [->|Hr'].
        * rewrite decide_True by done. congruence.
        * rewrite decide_False by (intros [? _]; congruence). done.
    - rewrite decide_False by (intros [_ ?]; congruence).
      rewrite decide_False by (intros [_ ?]; congruence). done.
  Qed.

Lemma link_loop m : forall i0 s,
    (forall j, i0 <= j < i0 + m ->
       prevs !! j = Some (Some (P j)) /\ P j <> Elem n /\
       (exists v, slot s (P j) j = Ok v) /\ (exists v, slot s (Elem n) j = Ok v)) ->
    exists s', for_up m i0 (link_level prevs n) s = Ok s' /\ same_frame s s' /\
      forall r j, slot s' r j =
        if decide (i0 <= j < i0 + m) then
          if decide (r = P j) then Ok (Some n)
          else if decide (r = Elem n) then slot s (P j) j
          else slot s r j
        else slot s r j.
  Proof.
    induction m as [|m IH]; intros i0 s H; simpl.
    - exists s. split; [done|]. split; [apply same_frame_refl|].
      intros r j. case_decide; [lia|done].
    - destruct (H i0 ltac:(lia)) as (Hp & Hne & (v & Hv) & (v' & Hv')).
      destruct (link_level_spec i0 s v v' Hp Hne Hv Hv') as (sb & Hsb & Hfr & Hsb_slot).
      rewrite Hsb. simpl.
      destruct (IH (S i0) sb) as (s' & Hloop & Hframe & Hslot).
      { intros j Hj. destruct (H j ltac:(lia)) as (Hpj & Hnej & (w & Hw) & (w' & Hw')).
        repeat split; auto.
        - exists w. rewrite Hsb_slot. case_decide; [lia|done].
        - exists w'. rewrite Hsb_slot. case_decide; [lia|done]. }
      exists s'. split; [done|]. split.
      { eapply same_frame_trans; eauto. }
      intros r j. rewrite Hslot. rewrite !Hsb_slot.
      repeat case_decide; subst; try lia; try done.
  Qed.

Lemma unlink_level_spec i0 s v v' :
    prevs !! i0 = Some (Some (P i0)) ->
    slot s (P i0) i0 = Ok v -> slot s (Elem n) i0 = Ok v' ->
    exists s', unlink_level prevs n i0 s = Ok s' /\ same_frame s s' /\
      forall r j, slot s' r j =
        if decide (j = i0) then
          if decide (r = P j) then slot s (Elem n) j else slot s r j
        else slot s r j.
  Proof.
    intros Hp Hv Hv'.
    unfold unlink_level. rewrite Hv'. simpl. unfold idx. rewrite Hp. simpl.
    destruct (setSlot_total' s (P i0) i0 v v' Hv) as (sa & Hsa).
    exists sa. split; [done|]. split; [eapply setSlot_frame; eauto|].
    intros r j. rewrite (slot_setSlot _ _ _ _ _ _ _ Hsa).
    destruct (decide (j = i0)) as [->|Hj].
    - destruct (decide (r = P i0)) as [->|Hr].
      + rewrite decide_True by done. done.
      + rewrite decide_False by (intros [? _]; congruence). done.
    - rewrite decide_False by (intros [_ ?]; congruence). done.
  Qed.

  (** [Remove]: level [j] of the predecessor takes over the link of [n]. *)
Lemma unlink_loop m : forall i0 s,
    (forall j, i0 <= j < i0 + m ->
       prevs !! j = Some (Some (P j)) /\
       (exists v, slot s (P j) j = Ok v) /\ (exists v, slot s (Elem n) j = Ok v)) ->
    exists s', for_up m i0 (unlink_level prevs n) s = Ok s' /\ same_frame s s' /\
      forall r j, slot s' r j =
        if decide (i0 <= j < i0 + m) then
          if decide (r = P j) then slot s (Elem n) j else slot s r j
        else slot s r j.
  Proof.
    induction m as [|m IH]; intros i0 s H; simpl.
    - exists s. split; [done|]. split; [apply same_frame_refl|].
      intros r j. case_decide; [lia|done].
    - destruct (H i0 ltac:(lia)) as (Hp & (v & Hv) & (v' & Hv')).
      destruct (unlink_level_spec i0 s v v' Hp Hv Hv') as (sa & Hsa & Hfr & Hsa_slot).
      rewrite Hsa. simpl.
      destruct (IH (S i0) sa) as (s' & Hloop & Hframe & Hslot).
      { intros j Hj. destruct (H j ltac:(lia)) as (Hpj & (w & Hw) & (w' & Hw')).
        repeat split; auto.
        - exists w. rewrite Hsa_slot. case_decide; [lia|done].
        - exists w'. rewrite Hsa_slot. case_decide; [lia|done]. }
      exists s'. split; [done|]. split.
      { eapply same_frame_trans; eauto. }
      intros r j. rewrite Hslot. rewrite !Hsa_slot.
      repeat case_decide; subst; try lia; try done.
  Qed.
End LinkLoop.


Lemma sorted_keys_ext s s' L :
  (forall a, a ∈ L -> keyOf s' a = keyOf s a) -> sorted_keys s L -> sorted_keys s' L.
Proof.
  unfold sorted_keys. intros Hk H. induction H as [|a l Hs IH Hall]; constructor.
  - apply IH. intros b Hb. apply Hk. set_solver.
  - rewrite Forall_forall in *. intros b Hb.
    rewrite !Hk by set_solver. auto.
Qed.

Lemma level_of_ext s s' i L :
  (forall a, a ∈ L -> heightOf s' a = heightOf s a) -> level_of s' i L = level_of s i L.
Proof.
  unfold level_of. induction L as [|a L IH]; intros H; [done|].
  rewrite !filter_cons. rewrite H by set_solver. rewrite IH; [done|].
  intros b Hb. apply H. set_solver.
Qed.

Lemma find_key_ext s s' k L :
  (forall a, a ∈ L -> keyOf s' a = keyOf s a) -> find_key s' k L = find_key s k L.
Proof.
  induction L as [|a L IH]; intros H; simpl; [done|].
  rewrite H by set_solver. rewrite IH; [done|]. intros b Hb. apply H. set_solver.
Qed.

Lemma find_key_app_lt s k L1 L2 :
  (forall a, a ∈ L1 -> key_lt (keyOf s a) k = true) ->
  find_key s k (L1 ++ L2) = find_key s k L2.
Proof.
  induction L1 as [|a L1 IH]; intros H; simpl; [done|].
  destruct (String.eqb_spec (keyOf s a) k) as [He|_].
  - specialize (H a ltac:(set_solver)). rewrite He, key_lt_irrefl in H. discriminate.
  - apply IH. intros b Hb. apply H. set_solver.
Qed.

Lemma find_key_gt s k L :
  (forall a, a ∈ L -> key_lt k (keyOf s a) = true) -> find_key s k L = None.
Proof.
  induction L as [|a L IH]; intros H; simpl; [done|].
  destruct (String.eqb_spec (keyOf s a) k) as [He|_].
  - specialize (H a ltac:(set_solver)). rewrite He, key_lt_irrefl in H. discriminate.
  - apply IH. intros b Hb. apply H. set_solver.
Qed.

Lemma find_key_Some s k L a : find_key s k L = Some a -> a ∈ L /\ keyOf s a = k.
Proof.
  induction L as [|b L IH]; simpl; [discriminate|].
  destruct (String.eqb_spec (keyOf s b) k) as [He|_].
  - intros [= ->]. split; [set_solver|done].
  - intros H. apply IH in H. set_solver.
Qed.


Lemma candidate_cases s k L L1 L2 :
  sorted_keys s L -> splits s k L L1 L2 -> candidate_case s k L1 L2.
Proof.
  intros Hs (-> & H1 & H2). destruct L2 as [|c L2'].
  - apply cand_miss; [set_solver|discriminate].
  - unfold sorted_keys in Hs. apply StronglySorted_app in Hs as (_ & _ & Hs).
    apply StronglySorted_cons in Hs as [Hc _]. rewrite Forall_forall in Hc.
    pose proof (H2 c ltac:(set_solver)) as Hck.
    destruct (String.string_dec (keyOf s c) k) as [He|Hne].
    + eapply cand_hit; eauto.
      * by apply match_test_eq.
      * intros a Ha. rewrite <- He. auto.
    + apply cand_miss.
      * intros a [->|Ha]%elem_of_cons.
        -- by apply key_lt_total.
        -- eapply key_lt_trans; [apply key_lt_total; eauto|auto].
      * intros c' L' [= <- <-]. destruct (key_le (keyOf s c) k) eqn:E; [|done].
        apply match_test_eq in E; done.
Qed.

Lemma content_hit s k L L1 L2 c L2' :
  splits s k L L1 L2 -> L2 = c :: L2' -> keyOf s c = k ->
  find_key s k L = Some c.
Proof.
  intros (-> & H1 & _) -> Hc. rewrite find_key_app_lt by done. simpl.
  rewrite Hc, String.eqb_refl. done.
Qed.

Lemma content_miss s k L L1 L2 :
  splits s k L L1 L2 -> (forall a, a ∈ L2 -> key_lt k (keyOf s a) = true) ->
  find_key s k L = None.
Proof.
  intros (-> & H1 & _) H2. rewrite find_key_app_lt by done. by apply find_key_gt.
Qed.

(** ** Get *)

Lemma Get_spec s L k fuel :
  Rep s L -> length L < fuel ->
  Get fuel k s = Ok (match content s L k with
                     | Some v => (v, true)
                     | None => ([], false)
                     end).
Proof.
  intros HRep Hfuel.
  destruct (splits_exists s k L (rep_sorted _ _ HRep)) as (L1 & L2 & Hsplit).
  unfold Get.
  pose proof (search_levels_spec s k L L1 L2 fuel HRep Hsplit Hfuel (maxLevel s)
                ltac:(lia) None) as Hsearch.
  rewrite (predAt_top s k L L1 L2 fuel HRep Hsplit Hfuel) in Hsearch.
  rewrite Hsearch. simpl.
  pose proof (rep_max _ _ HRep) as Hmax.
  destruct (maxLevel s) as [|m]; [lia|].
  unfold content.
  destruct (candidate_cases s k L L1 L2 (rep_sorted _ _ HRep) Hsplit)
    as [c L2' -> Hk Hle Hgt | Hgt Hle].
  - rewrite (content_hit s k L L1 (c :: L2') c L2') by done. simpl.
    assert (c ∈ L) as Hc by (destruct Hsplit as (-> & _); set_solver).
    apply (rep_elems _ _ HRep) in Hc as [Hc _].
    destruct (lookup_lt_is_Some_2 _ _ Hc) as [e He].
    unfold getElement, valueOf. rewrite He. simpl.
    unfold keyOf in Hle. rewrite He in Hle. by rewrite Hle.
  - rewrite (content_miss s k L L1 L2) by done. simpl.
    destruct L2 as [|c L2']; simpl; [done|].
    assert (c ∈ L) as Hc by (destruct Hsplit as (-> & _); set_solver).
    apply (rep_elems _ _ HRep) in Hc as [Hc _].
    destruct (lookup_lt_is_Some_2 _ _ Hc) as [e He].
    unfold getElement. rewrite He. simpl.
    specialize (Hle c L2' eq_refl). unfold keyOf in Hle. rewrite He in Hle. by rewrite Hle.
Qed.


Section Alloc.
Variables (s : SkipList) (e0 : Element).

Lemma alloc_slot_old r i : valid s r -> slot (alloc s e0) r i = slot s r i.
  Proof.
    destruct r as [|a]; simpl; [done|]. intros Ha.
    unfold slot; simpl. unfold getElement; simpl. by rewrite lookup_app_l.
  Qed.

Lemma alloc_lookup_new : heap (alloc s e0) !! length (heap s) = Some e0.
  Proof. simpl. by rewrite list_lookup_middle. Qed.

Lemma alloc_lookup_old a : a < length (heap s) -> heap (alloc s e0) !! a = heap s !! a.
  Proof. intros Ha. simpl. by rewrite lookup_app_l. Qed.

Lemma alloc_slot_new i :
    slot (alloc s e0) (Elem (length (heap s))) i = idx (next (enode e0)) i.
  Proof. unfold slot; simpl. unfold getElement. by rewrite alloc_lookup_new. Qed.

Lemma alloc_keyOf a :
    a <= length (heap s) ->
    keyOf (alloc s e0) a = if decide (a = length (heap s)) then key e0 else keyOf s a.
  Proof.
    intros Ha. unfold keyOf. case_decide as Hd.
    - subst. by rewrite alloc_lookup_new.
    - rewrite alloc_lookup_old by lia. done.
  Qed.

Lemma alloc_heightOf a :
    a <= length (heap s) ->
    heightOf (alloc s e0) a =
      if decide (a = length (heap s)) then length (next (enode e0)) else heightOf s a.
  Proof.
    intros Ha. unfold heightOf. case_decide as Hd.
    - subst. by rewrite alloc_lookup_new.
    - rewrite alloc_lookup_old by lia. done.
  Qed.

Lemma alloc_valueOf a :
    a <= length (heap s) ->
    valueOf (alloc s e0) a = if decide (a = length (heap s)) then value e0 else valueOf s a.
  Proof.
    intros Ha. unfold valueOf. case_decide as Hd.
    - subst. by rewrite alloc_lookup_new.
    - rewrite alloc_lookup_old by lia. done.
  Qed.
End Alloc.

Lemma predAt_valid s L L1 i : Rep s L -> L1 ⊆ L -> valid s (predAt s L1 i).
Proof.
  intros HRep Hsub. unfold predAt.
  destruct (lastRef_cases Head (level_of s i L1)) as [[_ ->]|(a & Ha & ->)]; simpl; [done|].
  unfold level_of in Ha. apply list_elem_of_filter in Ha as [_ Ha].
  apply HRep. auto.
Qed.

Lemma predAt_slot s L L1 L2 i :
  Rep s L -> L = L1 ++ L2 -> i < maxLevel s ->
  slot s (predAt s L1 i) i = Ok (hd_or (level_of s i L2) None).
Proof.
  intros HRep -> Hi. pose proof (rep_links _ _ HRep i Hi) as Hseg.
  unfold level_of in Hseg. rewrite filter_app in Hseg.
  apply lseg_app_r in Hseg. by apply lseg_hd in Hseg.
Qed.

Lemma Rep_set_cache s L c : Rep s L -> length c = maxLevel s -> Rep (set_cache s c) L.
Proof. intros [] Hc. constructor; auto. Qed.

Lemma Rep_elem_lt s L a : Rep s L -> a ∈ L -> a < length (heap s).
Proof. intros H Ha. by apply H. Qed.

Lemma same_frame_valueOf s s' a : same_frame s s' -> valueOf s' a = valueOf s a.
Proof.
  intros H. pose proof (sf_value _ _ H a) as Hv. unfold valueOf.
  destruct (heap s' !! a), (heap s !! a); simpl in *; congruence.
Qed.

(** ** Add, when the key is new *)

Section AddNew.
Variables (s : SkipList) (k : string) (v : list Byte.byte) (r : draw).
Variables (L L1 L2 : list nat) (prevs : list (option nodeRef)).
Hypothesis HRep : Rep s L.
Hypothesis Hsplit : splits s k L L1 L2.
Hypothesis Hgt : forall a, a ∈ L2 -> key_lt k (keyOf s a) = true.
Hypothesis Hprevs : forall j, j < maxLevel s -> prevs !! j = Some (Some (predAt s L1 j)).

Let n := length (heap s).

Lemma Add_new_spec :
    exists lvl s',
      randLevel s r = Ok lvl /\ 1 <= lvl <= maxLevel s /\
      Add_new prevs k v r s = Ok s' /\
      Rep s' (L1 ++ n :: L2) /\
      length (heap s') = S n /\
      Length s' = (Length s + 1)%Z /\
      maxLevel s' = maxLevel s /\
      probability s' = probability s /\
      (forall a, a <= n -> keyOf s' a = if decide (a = n) then k else keyOf s a) /\
      (forall a, a <= n -> valueOf s' a = if decide (a = n) then v else valueOf s a) /\
      (forall a, a <= n -> heightOf s' a = if decide (a = n) then lvl else heightOf s a).
  Proof.
    destruct Hsplit as (HL & Hlt & Hge).
    destruct (randLevel_of_total (maxLevel s) (probTable s) r) as [lvl Hlvl].
    { apply HRep. } { apply HRep. }
    pose proof (randLevel_of_bounds _ _ _ _ (rep_max _ _ HRep) Hlvl) as Hbounds.
    exists lvl. unfold Add_new, randLevel. rewrite Hlvl. simpl.
    set (e0 := mkElement (mkNode (replicate lvl None)) k v).
    fold (alloc s e0). fold n.
    assert (forall a, a ∈ L -> a < n) as HLn by (intros a Ha; by apply HRep).
    destruct (link_loop prevs n (predAt s L1) lvl 0 (alloc s e0)) as (s3 & Hloop & Hfr & Hslot).
    { intros j Hj. split; [apply Hprevs; lia|].
      assert (valid s (predAt s L1 j)) as Hv.
      { eapply predAt_valid; eauto. rewrite HL. set_solver. }
      split; [|split].
      - intros He. rewrite He in Hv. simpl in Hv. unfold n in Hv. lia.
      - exists (hd_or (level_of s j L2) None). rewrite alloc_slot_old by done.
        eapply predAt_slot; eauto. lia.
      - exists None. unfold n. rewrite alloc_slot_new. simpl.
        apply idx_Ok. apply lookup_replicate_2. lia. }
    rewrite Hloop. simpl. exists (set_Length s3 (Length s3 + 1)).
    split; [done|]. split; [done|]. split; [done|].
    destruct Hfr.
    assert (forall a, a <= n -> keyOf s3 a = if decide (a = n) then k else keyOf s a) as Hkey.
    { intros a Ha. rewrite sf_key0. unfold n in *. by rewrite alloc_keyOf. }
    assert (forall a, a <= n -> heightOf s3 a = if decide (a = n) then lvl else heightOf s a)
      as Hheight.
    { intros a Ha. rewrite sf_height0. unfold n in *. rewrite alloc_heightOf by done.
      simpl. by rewrite length_replicate. }
    assert (forall i X, X ⊆ L -> level_of s3 i X = level_of s i X) as Hlev.
    { intros i X HX. apply level_of_ext. intros a Ha.
      rewrite Hheight by (apply HX, HLn in Ha; lia).
      apply HX, HLn in Ha. case_decide; [lia|done]. }
    assert (Rep (set_Length s3 (Length s3 + 1)) (L1 ++ n :: L2)) as HRep'.
    { constructor; simpl.
      + rewrite sf_maxLevel0. apply HRep.
      + rewrite sf_head_height0, sf_maxLevel0. apply HRep.
      + rewrite sf_cache0, sf_maxLevel0. apply HRep.
      + rewrite sf_probTable0, sf_maxLevel0. apply HRep.
      + intros a Ha. rewrite sf_heap_length0, sf_maxLevel0. simpl.
        rewrite length_app. simpl. fold n.
        assert (a = n \/ a ∈ L) as [->|HaL] by (rewrite HL; set_solver).
        * change (heightOf _ n) with (heightOf s3 n). rewrite Hheight by lia.
          rewrite decide_True by done. lia.
        * pose proof (HLn a HaL). change (heightOf _ a) with (heightOf s3 a).
          rewrite Hheight by lia. rewrite decide_False by lia.
          split; [lia|]. by apply HRep.
      + assert (sorted_keys s3 (L1 ++ n :: L2)) as Hsorted; [|exact Hsorted].
        pose proof (rep_sorted _ _ HRep) as Hs. rewrite HL in Hs.
        unfold sorted_keys in *. apply StronglySorted_app in Hs as (Hcross & Hs1 & Hs2).
        assert (forall a, a ∈ L -> keyOf s3 a = keyOf s a) as Hk.
        { intros a Ha. rewrite Hkey by (apply HLn in Ha; lia).
          apply HLn in Ha. case_decide; [lia|done]. }
        assert (keyOf s3 n = k) as Hkn by (rewrite Hkey by lia; by rewrite decide_True).
        apply StronglySorted_app. split; [|split].
        * intros a Ha b [->|Hb]%elem_of_cons.
          -- rewrite Hkn, Hk by (rewrite HL; set_solver). auto.
          -- rewrite !Hk by (rewrite HL; set_solver). auto.
        * apply (sorted_keys_ext s s3); [|exact Hs1].
          intros a Ha. apply Hk. rewrite HL. set_solver.
        * apply StronglySorted_cons. split.
          -- rewrite Forall_forall. intros b Hb.
             rewrite Hkn, Hk by (rewrite HL; set_solver). auto.
          -- apply (sorted_keys_ext s s3); [|exact Hs2].
             intros a Ha. apply Hk. rewrite HL. set_solver.
      + intros i Hi. rewrite sf_maxLevel0 in Hi. simpl in Hi.
        change (lseg (links s3 i) Head (level_of s3 i (L1 ++ n :: L2)) None).
        pose proof (rep_links _ _ HRep i Hi) as Hseg.
        unfold level_of in Hseg. rewrite HL, filter_app in Hseg.
        fold (level_of s i L1) in Hseg. fold (level_of s i L2) in Hseg.
        assert (NoDup (Head :: (Elem <$> (level_of s i L1 ++ level_of s i L2)))) as Hnd.
        { apply NoDup_nodes. unfold level_of. rewrite <- filter_app, <- HL.
          apply NoDup_filter. eapply Rep_NoDup; eauto. }
        assert (forall a, a ∈ level_of s i L1 ++ level_of s i L2 -> a < n) as Hold.
        { intros a Ha. apply HLn. unfold level_of in Ha. rewrite <- filter_app, <- HL in Ha.
          apply list_elem_of_filter in Ha. tauto. }
        assert (lseg (links (alloc s e0) i) Head (level_of s i L1 ++ level_of s i L2) None)
          as Hseg2.
        { eapply lseg_ext; [| |exact Hseg].
          - unfold links. by rewrite alloc_slot_old.
          - intros a Ha. unfold links. rewrite alloc_slot_old; [done|].
            simpl. by apply Hold. }
        unfold level_of at 1. rewrite filter_app, filter_cons.
        fold (level_of s3 i L1). fold (level_of s3 i L2).
        rewrite !Hlev by (rewrite HL; set_solver).
        rewrite Hheight by lia. rewrite (decide_True (P := n = n)) by done.
        destruct (decide (i < lvl)) as [Hil|Hil].
        * eapply (lseg_insert (links (alloc s e0) i)); eauto.
          -- intros Hn. apply Hold in Hn. lia.
          -- unfold links. rewrite Hslot. rewrite decide_True by lia.
             by rewrite decide_True.
          -- unfold links. rewrite Hslot. rewrite decide_True by lia.
             fold (predAt s L1 i). case_decide as Hd.
             ++ exfalso. assert (valid s (predAt s L1 i)) as Hv.
                { eapply predAt_valid; eauto. rewrite HL. set_solver. }
                rewrite <- Hd in Hv. simpl in Hv. unfold n in Hv. lia.
             ++ by rewrite decide_True.
          -- intros x Hx1 Hx2. unfold links. rewrite Hslot. rewrite decide_True by lia.
             fold (predAt s L1 i) in Hx1. rewrite decide_False by done.
             by rewrite decide_False.
        * eapply lseg_ext; [| |exact Hseg2].
          -- unfold links. rewrite Hslot. by rewrite decide_False by lia.
          -- intros a Ha. unfold links. rewrite Hslot. by rewrite decide_False by lia.
      + rewrite sf_Length0. simpl. rewrite (rep_len _ _ HRep), HL.
        rewrite !length_app. simpl. lia. }
    split; [exact HRep'|]. simpl.
    split. { rewrite sf_heap_length0. simpl. rewrite length_app. simpl. fold n. lia. }
    split. { by rewrite sf_Length0. }
    split. { by rewrite sf_maxLevel0. }
    split. { by rewrite sf_probability0. }
    split. { exact Hkey. }
    split; [|exact Hheight].
    assert (forall a, a <= n -> valueOf s3 a = if decide (a = n) then v else valueOf s a)
      as Hval; [|exact Hval].
    intros a Ha.
    rewrite (same_frame_valueOf (alloc s e0) s3) by (constructor; auto).
    unfold n in *. by rewrite alloc_valueOf.
  Qed.
End AddNew.

Lemma setValue_spec s a v e :
  heap s !! a = Some e ->
  exists s', setValue s a v = Ok s' /\
    (forall r i, slot s' r i = slot s r i) /\
    (forall b, keyOf s' b = keyOf s b) /\
    (forall b, heightOf s' b = heightOf s b) /\
    (forall b, valueOf s' b = if decide (b = a) then v else valueOf s b) /\
    maxLevel s' = maxLevel s /\ Length s' = Length s /\
    probability s' = probability s /\ probTable s' = probTable s /\
    prevNodesCache s' = prevNodesCache s /\ lnode s' = lnode s /\
    length (heap s') = length (heap s).
Proof.
  intros He. unfold setValue, getElement. rewrite He. simpl. eexists. split; [done|].
  assert (a < length (heap s)) as Ha by (eapply lookup_lt_Some; eauto).
  repeat split; simpl; auto.
  - intros [|b] i; unfold slot; simpl; [done|]. unfold getElement; simpl.
    destruct (decide (a = b)) as [<-|Hne].
    + rewrite list_lookup_insert_eq by done. by rewrite He.
    + by rewrite list_lookup_insert_ne.
  - intros b. unfold keyOf; simpl. destruct (decide (a = b)) as [<-|Hne].
    + rewrite list_lookup_insert_eq by done. by rewrite He.
    + by rewrite list_lookup_insert_ne.
  - intros b. unfold heightOf; simpl. destruct (decide (a = b)) as [<-|Hne].
    + rewrite list_lookup_insert_eq by done. by rewrite He.
    + by rewrite list_lookup_insert_ne.
  - intros b. unfold valueOf; simpl. destruct (decide (b = a)) as [->|Hne].
    + by rewrite list_lookup_insert_eq.
    + by rewrite list_lookup_insert_ne.
  - by rewrite length_insert.
Qed.

Lemma find_key_insert s s' k' L1 L2 n :
  keyOf s' n <> k' ->
  (forall a, a ∈ L1 ++ L2 -> keyOf s' a = keyOf s a) ->
  find_key s' k' (L1 ++ n :: L2) = find_key s k' (L1 ++ L2).
Proof.
  intros Hn. induction L1 as [|a L1 IH]; intros Hk; simpl.
  - destruct (String.eqb_spec (keyOf s' n) k'); [done|].
    apply find_key_ext. auto.
  - rewrite Hk by set_solver. rewrite IH; [done|]. intros b Hb. apply Hk. set_solver.
Qed.

(** ** Add and Remove on a represented list *)


Section Ops.
Variables (s : SkipList) (k : string) (L : list nat) (fuel : nat).
Hypothesis HRep : Rep s L.
Hypothesis Hfuel : length L < fuel.

Lemma Add_new_post v r L1 L2 prevs :
    splits s k L L1 L2 ->
    (forall a, a ∈ L2 -> key_lt k (keyOf s a) = true) ->
    length prevs = maxLevel s ->
    (forall j, j < maxLevel s -> prevs !! j = Some (Some (predAt s L1 j))) ->
    exists s' L',
      Add_new prevs k v r (set_cache s prevs) = Ok s' /\ Add_post s k v r L s' L'.
  Proof.
    intros Hsplit Hgt Hlen Hprevs.
    pose proof (Rep_set_cache s L prevs HRep Hlen) as HRep1.
    destruct (Add_new_spec (set_cache s prevs) k v r L L1 L2 prevs HRep1 Hsplit Hgt Hprevs)
      as (lvl & s' & Hlvl & Hb & Hadd & HRep' & Hheap & HLen & Hmax & Hprob & Hkey & Hval & Hh).
    simpl in *. exists s', (L1 ++ length (heap s) :: L2).
    assert (forall a, a ∈ L -> a < length (heap s)) as HLn by (intros a Ha; by apply HRep).
    pose proof Hsplit as (HL & Hlt & Hge).
    split; [done|]. split; [done|]. split.
    { split; [done|]. split; [done|].
      intros a Ha. rewrite Hkey, Hh by lia. by rewrite !decide_False by lia. }
    assert (find_key s k L = None) as Hfind by (eapply content_miss; eauto).
    split.
    - intros k'. unfold content. destruct (String.eqb_spec k' k) as [->|Hne].
      + rewrite find_key_app_lt.
        2:{ intros a Ha. assert (a < length (heap s)) as Hal.
            { apply HLn. rewrite HL. set_solver. }
            rewrite Hkey by lia. rewrite decide_False by lia. by apply Hlt. }
        simpl. rewrite Hkey by lia. rewrite decide_True by done.
        rewrite String.eqb_refl. simpl. rewrite Hval by lia. by rewrite decide_True.
      + rewrite (find_key_insert s s').
        * rewrite <- HL. destruct (find_key s k' L) as [a|] eqn:Ha; simpl; [|done].
          apply find_key_Some in Ha as [Ha _]. apply HLn in Ha.
          rewrite Hval by lia. by rewrite decide_False by lia.
        * rewrite Hkey by lia. rewrite decide_True by done. congruence.
        * intros a Ha. rewrite <- HL in Ha. apply HLn in Ha.
          rewrite Hkey by lia. by rewrite decide_False by lia.
    - rewrite Hfind. exists L1, L2, lvl. repeat split; auto.
      + rewrite Hh by lia. by rewrite decide_True.
      + rewrite Hkey by lia. by rewrite decide_True.
  Qed.

Lemma Add_spec v r :
    exists s' L', Add fuel k v r s = Ok s' /\ Add_post s k v r L s' L'.
  Proof.
    destruct (splits_exists s k L (rep_sorted _ _ HRep)) as (L1 & L2 & Hsplit).
    destruct (getPrevElementNodes_spec s k L L1 L2 fuel HRep Hsplit Hfuel)
      as (prevs & Hprev & Hlen & Hprevs).
    pose proof (rep_max _ _ HRep) as Hmax.
    assert (slot s (predAt s L1 0) 0 = Ok (hd_or L2 None)) as Hcand
      by (eapply candidate_spec; eauto).
    unfold Add. rewrite Hprev. simpl. unfold idx. rewrite (Hprevs 0) by lia. simpl.
    change (slot (set_cache s prevs) (predAt s L1 0) 0) with (slot s (predAt s L1 0) 0).
    rewrite Hcand. simpl.
    destruct (candidate_cases s k L L1 L2 (rep_sorted _ _ HRep) Hsplit)
      as [c L2' -> Hk Hle Hgt | Hgt Hle].
    - simpl. assert (c ∈ L) as Hc by (destruct Hsplit as (-> & _); set_solver).
      pose proof (Rep_elem_lt _ _ _ HRep Hc) as Hlt.
      destruct (lookup_lt_is_Some_2 _ _ Hlt) as [e He].
      unfold getElement. simpl. rewrite He. simpl.
      unfold keyOf in Hle. rewrite He in Hle. rewrite Hle.
      destruct (setValue_spec (set_cache s prevs) c v e He)
        as (s' & Hset & Hslot & Hkey & Hh & Hval & Hm & HLen & Hp & Htbl & Hcache & Hhd & Hhl).
      simpl in *. exists s', L. split; [done|].
      assert (find_key s k L = Some c) as Hfind by (eapply content_hit; eauto).
      split; [|split; [|split]].
      + destruct HRep. constructor; try congruence.
        * intros a Ha. rewrite Hhl, Hh, Hm. auto.
        * eapply sorted_keys_ext; [|exact rep_sorted0]. auto.
        * intros i Hi. rewrite (level_of_ext s s') by auto.
          eapply lseg_ext; [| |apply rep_links0; lia]; unfold links; auto.
      + split; [done|]. split; [done|]. auto.
      + intros k'. unfold content. rewrite (find_key_ext s s') by auto.
        destruct (String.eqb_spec k' k) as [->|Hne].
        * rewrite Hfind. simpl. rewrite Hval. by rewrite decide_True.
        * destruct (find_key s k' L) as [a|] eqn:Ha; simpl; [|done].
          apply find_key_Some in Ha as [_ Ha]. rewrite Hval.
          rewrite decide_False; [done|]. intros ->. unfold keyOf in Ha, Hk. congruence.
      + rewrite Hfind. auto.
    - assert (match hd_or L2 None with
              | Some a =>
                  e ← getElement (set_cache s prevs) a;
                  if key_le (key e) k then setValue (set_cache s prevs) a v
                  else Add_new prevs k v r (set_cache s prevs)
              | None => Add_new prevs k v r (set_cache s prevs)
              end = Add_new prevs k v r (set_cache s prevs)) as ->.
      { destruct L2 as [|c L2']; simpl; [done|].
        assert (c ∈ L) as Hc by (destruct Hsplit as (-> & _); set_solver).
        pose proof (Rep_elem_lt _ _ _ HRep Hc) as Hlt.
        destruct (lookup_lt_is_Some_2 _ _ Hlt) as [e He].
        unfold getElement. simpl. rewrite He. simpl.
        specialize (Hle c L2' eq_refl). unfold keyOf in Hle. rewrite He in Hle.
        by rewrite Hle. }
      eapply Add_new_post; eauto.
  Qed.
End Ops.


Section RemoveOp.
Variables (s : SkipList) (k : string) (L : list nat) (fuel : nat).
Hypothesis HRep : Rep s L.
Hypothesis Hfuel : length L < fuel.

Lemma Remove_spec :
    exists res s' L', Remove fuel k s = Ok (res, s') /\ Remove_post s k L res s' L'.
  Proof.
    destruct (splits_exists s k L (rep_sorted _ _ HRep)) as (L1 & L2 & Hsplit).
    destruct (getPrevElementNodes_spec s k L L1 L2 fuel HRep Hsplit Hfuel)
      as (prevs & Hprev & Hlen & Hprevs).
    pose proof (rep_max _ _ HRep) as Hmax.
    assert (slot s (predAt s L1 0) 0 = Ok (hd_or L2 None)) as Hcand
      by (eapply candidate_spec; eauto).
    pose proof (Rep_set_cache s L prevs HRep Hlen) as HRep1.
    unfold Remove. rewrite Hprev. simpl. unfold idx. rewrite (Hprevs 0) by lia. simpl.
    change (slot (set_cache s prevs) (predAt s L1 0) 0) with (slot s (predAt s L1 0) 0).
    rewrite Hcand. simpl.
    assert (forall a, a ∈ L -> a < length (heap s)) as HLn by (intros a Ha; by apply HRep).
    destruct (candidate_cases s k L L1 L2 (rep_sorted _ _ HRep) Hsplit)
      as [c L2' -> Hk Hle Hgt | Hgt Hle].
    - simpl. pose proof Hsplit as (HL & Hlt & Hge).
      assert (c ∈ L) as Hc by (rewrite HL; set_solver).
      pose proof (HLn c Hc) as Hclt.
      destruct (lookup_lt_is_Some_2 _ _ Hclt) as [e He].
      unfold getElement. simpl. rewrite He. simpl.
      pose proof Hle as Hle'. unfold keyOf in Hle'. rewrite He in Hle'. rewrite Hle'.
      assert (length (next (enode e)) = heightOf s c) as Hhc.
      { unfold heightOf. by rewrite He. }
      rewrite Hhc.
      assert (find_key s k L = Some c) as Hfind by (eapply content_hit; eauto).
      assert (heightOf s c <= maxLevel s) as Hcm by (by apply HRep).
      (* the chain at each level of [c] *)
      assert (forall j, j < heightOf s c ->
                lseg (links s j) Head (level_of s j L1 ++ c :: level_of s j L2') None) as Hchain.
      { intros j Hj. pose proof (rep_links _ _ HRep j ltac:(lia)) as Hseg.
        unfold level_of in Hseg. rewrite HL, filter_app, filter_cons_True in Hseg by done.
        exact Hseg. }
      destruct (unlink_loop prevs c (predAt s L1) (heightOf s c) 0 (set_cache s prevs))
        as (s3 & Hloop & Hfr & Hslot).
      { intros j Hj. split; [apply Hprevs; lia|]. split.
        - exists (hd_or (level_of s j (c :: L2')) None).
          change (slot (set_cache s prevs) (predAt s L1 j) j) with (slot s (predAt s L1 j) j).
          eapply predAt_slot; eauto. lia.
        - specialize (Hchain j ltac:(lia)). apply lseg_app_r in Hchain.
          destruct Hchain as [_ Hchain]. apply lseg_hd in Hchain. eauto. }
      rewrite Hloop. simpl.
      exists (Some c), (set_Length s3 (Length s3 - 1)), (L1 ++ L2').
      split; [done|]. destruct Hfr. simpl in *.
      assert (forall i X, level_of s3 i X = level_of s i X) as Hlev.
      { intros i X. apply level_of_ext. auto. }
      assert (forall r j, slot s3 r j =
                if decide (j < heightOf s c /\ r = predAt s L1 j) then slot s (Elem c) j
                else slot s r j) as Hslot'.
      { intros r0 j. rewrite Hslot. repeat case_decide; try done; try lia; tauto. }
      assert (Rep (set_Length s3 (Length s3 - 1)) (L1 ++ L2')) as HRep'.
      { constructor; simpl.
        - by rewrite sf_maxLevel0.
        - rewrite sf_head_height0, sf_maxLevel0. apply HRep.
        - rewrite sf_cache0, sf_maxLevel0. done.
        - rewrite sf_probTable0, sf_maxLevel0. apply HRep.
        - intros a Ha. rewrite sf_heap_length0, sf_maxLevel0.
          change (heightOf _ a) with (heightOf s3 a). rewrite sf_height0.
          apply HRep. rewrite HL. set_solver.
        - assert (sorted_keys s3 (L1 ++ L2')) as Hsorted; [|exact Hsorted].
          apply (sorted_keys_ext s s3); [auto|].
          pose proof (rep_sorted _ _ HRep) as Hs. rewrite HL in Hs.
          unfold sorted_keys in *. apply StronglySorted_app in Hs as (Hcross & Hs1 & Hs2).
          apply StronglySorted_cons in Hs2 as [_ Hs2].
          apply StronglySorted_app. repeat split; auto.
          intros a Ha b Hb. apply Hcross; set_solver.
        - intros i Hi. rewrite sf_maxLevel0 in Hi.
          change (lseg (links s3 i) Head (level_of s3 i (L1 ++ L2')) None).
          rewrite Hlev. unfold level_of. rewrite filter_app.
          fold (level_of s i L1). fold (level_of s i L2').
          pose proof (rep_links _ _ HRep i Hi) as Hseg.
          unfold level_of in Hseg. rewrite HL, filter_app, filter_cons in Hseg.
          fold (level_of s i L1) in Hseg. fold (level_of s i L2') in Hseg.
          destruct (decide (i < heightOf s c)) as [Hic|Hic].
          + eapply (lseg_remove (links s i)); [exact Hseg| | |].
            * apply NoDup_nodes.
              assert (level_of s i L1 ++ c :: level_of s i L2' = level_of s i L) as ->.
              { unfold level_of. rewrite HL, filter_app, filter_cons_True; done. }
              apply NoDup_filter. eapply Rep_NoDup; eauto.
            * unfold links. rewrite Hslot'. fold (predAt s L1 i).
              rewrite decide_True; done.
            * intros x Hx. unfold links. rewrite Hslot'. fold (predAt s L1 i) in Hx.
              rewrite decide_False; [done|]. tauto.
          + eapply lseg_ext; [| |exact Hseg].
            * unfold links. rewrite Hslot'. rewrite decide_False; [done|]. lia.
            * intros a Ha. unfold links. rewrite Hslot'. rewrite decide_False; [done|]. lia.
        - rewrite sf_Length0. rewrite (rep_len _ _ HRep), HL. rewrite !length_app. simpl. lia. }
      split; [exact HRep'|]. split; [done|]. split; [done|]. split; [done|].
      split; [done|]. split.
      { intros a. split; [apply sf_key0|]. split; [apply sf_height0|].
        apply (same_frame_valueOf (set_cache s prevs) s3). by constructor. }
      split.
      + intros k'. unfold content.
        assert (forall X, find_key (set_Length s3 (Length s3 - 1)) k' X = find_key s k' X) as Hfk.
        { intros X. apply find_key_ext. intros a _. apply sf_key0. }
        assert (forall a, valueOf (set_Length s3 (Length s3 - 1)) a = valueOf s a) as Hv.
        { intros a. apply (same_frame_valueOf (set_cache s prevs) s3). by constructor. }
        rewrite Hfk. destruct (String.eqb_spec k' k) as [->|Hne].
        * rewrite find_key_app_lt by done. rewrite find_key_gt by done. done.
        * rewrite HL. rewrite <- (find_key_insert s s k' L1 L2' c) by (auto; congruence).
          destruct (find_key s k' (L1 ++ c :: L2')); simpl; [|done]. by rewrite Hv.
      + rewrite Hfind. exists L1, L2'. split; [done|]. split; [done|].
        split; [by rewrite sf_Length0|]. split; [|done].
        intros j Hj. simpl. rewrite sf_cache0. simpl. auto.
    - assert (match hd_or L2 None with
              | Some a =>
                  e ← getElement (set_cache s prevs) a;
                  if key_le (key e) k then
                    s0 ← for_up (length (next (enode e))) 0 (unlink_level prevs a)
                         (set_cache s prevs);
                    Ok (Some a, set_Length s0 (Length s0 - 1))
                  else Ok (None, set_cache s prevs)
              | None => Ok (None, set_cache s prevs)
              end = Ok (None, set_cache s prevs)) as ->.
      { destruct L2 as [|c L2']; simpl; [done|].
        assert (c ∈ L) as Hc by (destruct Hsplit as (-> & _); set_solver).
        pose proof (HLn c Hc) as Hlt.
        destruct (lookup_lt_is_Some_2 _ _ Hlt) as [e He].
        unfold getElement. simpl. rewrite He. simpl.
        specialize (Hle c L2' eq_refl). unfold keyOf in Hle. rewrite He in Hle.
        by rewrite Hle. }
      assert (find_key s k L = None) as Hfind by (eapply content_miss; eauto).
      exists None, (set_cache s prevs), L. split; [done|].
      split; [done|]. split; [done|]. split; [done|]. split; [done|]. split; [done|].
      split; [done|]. split.
      + intros k'. unfold content.
        rewrite (find_key_ext s (set_cache s prevs)) by done.
        destruct (String.eqb_spec k' k) as [->|Hne]; [by rewrite Hfind|].
        destruct (find_key s k' L); done.
      + rewrite Hfind. done.
  Qed.
End RemoveOp.

(** ** More fuel never changes a result *)

Lemma advance_fuel_mono fuel fuel' s k i prev nxt res :
  fuel <= fuel' -> advance fuel s k i prev nxt = Ok res ->
  advance fuel' s k i prev nxt = Ok res.
Proof.
  revert fuel' prev nxt. induction fuel as [|fuel IH]; intros fuel' prev nxt Hle H;
    simpl in H; [discriminate|].
  destruct fuel' as [|fuel']; [lia|]. simpl.
  destruct nxt as [a|]; [|done].
  destruct (getElement s a) as [e| |]; simpl in *; try discriminate.
  destruct (key_lt (key e) k); [|done].
  destruct (idx (next (enode e)) i) as [nx| |]; simpl in *; try discriminate.
  apply IH; [lia|done].
Qed.

Lemma search_levels_fuel_mono fuel fuel' s k n prev nxt res :
  fuel <= fuel' -> search_levels fuel s k n prev nxt = Ok res ->
  search_levels fuel' s k n prev nxt = Ok res.
Proof.
  intros Hle. revert prev nxt. induction n as [|i IH]; intros prev nxt H; simpl in *; [done|].
  apply bind_Ok in H as (nx & Hnx & H). rewrite Hnx. simpl.
  apply bind_Ok in H as ([p' n'] & Hadv & H).
  rewrite (advance_fuel_mono _ _ _ _ _ _ _ _ Hle Hadv). simpl. auto.
Qed.

Lemma descend_fuel_mono fuel fuel' s k n prev nxt prevs res :
  fuel <= fuel' -> descend fuel s k n prev nxt prevs = Ok res ->
  descend fuel' s k n prev nxt prevs = Ok res.
Proof.
  intros Hle. revert prev nxt prevs.
  induction n as [|i IH]; intros prev nxt prevs H; simpl in *; [done|].
  apply bind_Ok in H as (nx & Hnx & H). rewrite Hnx. simpl.
  apply bind_Ok in H as ([p' n'] & Hadv & H).
  rewrite (advance_fuel_mono _ _ _ _ _ _ _ _ Hle Hadv). simpl in *.
  apply bind_Ok in H as (prevs' & Hst & H). rewrite Hst. simpl. auto.
Qed.

Lemma getPrevElementNodes_fuel_mono fuel fuel' k s res :
  fuel <= fuel' -> getPrevElementNodes fuel k s = Ok res ->
  getPrevElementNodes fuel' k s = Ok res.
Proof.
  intros Hle H. unfold getPrevElementNodes in *.
  apply bind_Ok in H as (prevs & Hd & H).
  by rewrite (descend_fuel_mono _ _ _ _ _ _ _ _ _ Hle Hd).
Qed.

Lemma exec_fuel_mono fuel fuel' op s res :
  fuel <= fuel' -> exec fuel op s = Ok res -> exec fuel' op s = Ok res.
Proof.
  intros Hle H. destruct op as [k v r|k|k|p]; simpl in *; [| | |done].
  - apply bind_Ok in H as (s' & Hadd & H). unfold Add in *.
    apply bind_Ok in Hadd as ([prevs s1] & Hp & Hadd).
    rewrite (getPrevElementNodes_fuel_mono _ _ _ _ _ Hle Hp). simpl in *.
    rewrite Hadd. done.
  - apply bind_Ok in H as ([v b] & Hget & H). unfold Get in *.
    apply bind_Ok in Hget as ([p nx] & Hs & Hget).
    rewrite (search_levels_fuel_mono _ _ _ _ _ _ _ _ Hle Hs). simpl in *.
    rewrite Hget. done.
  - apply bind_Ok in H as ([x s'] & Hrm & H). unfold Remove in *.
    apply bind_Ok in Hrm as ([prevs s1] & Hp & Hrm).
    rewrite (getPrevElementNodes_fuel_mono _ _ _ _ _ Hle Hp). simpl in *.
    rewrite Hrm. done.
Qed.

(** ** Every reachable state is represented *)

Lemma NewWithMaxLevel_Ok m s :
  NewWithMaxLevel m = Ok s <->
  (1 <= m <= 64)%Z /\
  s = mkList (mkNode (replicate (Z.to_nat m) None)) (Z.to_nat m) 0%Z DefaultProbability
             (probabilityTable DefaultProbability (Z.to_nat m))
             (replicate (Z.to_nat m) None) [].
Proof.
  unfold NewWithMaxLevel.
  destruct (m <? 1)%Z eqn:E1; destruct (m >? 64)%Z eqn:E2; simpl; split;
    try discriminate; try (intros [? _]; lia).
  - intros [= <-]. split; [lia|done].
  - intros [_ ->]. done.
Qed.

Lemma NewWithMaxLevel_Rep m s : NewWithMaxLevel m = Ok s -> Rep s [].
Proof.
  intros [Hm ->]%NewWithMaxLevel_Ok. constructor; simpl.
  - lia.
  - by rewrite length_replicate.
  - by rewrite length_replicate.
  - by rewrite probabilityTable_length.
  - intros a Ha. set_solver.
  - constructor.
  - intros i Hi. unfold links, slot. simpl. apply idx_Ok. by apply lookup_replicate_2.
  - done.
Qed.

Lemma SetProbability_Rep p s L : Rep s L -> Rep (SetProbability p s) L.
Proof.
  intros []. constructor; auto. simpl. by rewrite probabilityTable_length.
Qed.

(** One call on a represented list: it returns, and the list it leaves is
    represented again. *)
Lemma exec_Rep s L fuel op :
  Rep s L -> length L < fuel ->
  exists out s' L', exec fuel op s = Ok (out, s') /\ Rep s' L'.
Proof.
  intros HRep Hfuel. destruct op as [k v r|k|k|p]; simpl.
  - destruct (Add_spec s k L fuel HRep Hfuel v r) as (s' & L' & Hadd & HRep' & _).
    rewrite Hadd. simpl. eauto.
  - rewrite (Get_spec s L k fuel HRep Hfuel).
    destruct (content s L k); simpl; do 3 eexists; eauto.
  - destruct (Remove_spec s k L fuel HRep Hfuel) as (res & s' & L' & Hrm & HRep' & _).
    rewrite Hrm. simpl. eauto.
  - do 3 eexists. split; [done|]. by apply SetProbability_Rep.
Qed.

Lemma exec_Rep_any_fuel s L fuel op out s' :
  Rep s L -> exec fuel op s = Ok (out, s') -> exists L', Rep s' L'.
Proof.
  intros HRep H.
  destruct (exec_Rep s L (fuel `max` S (length L)) op HRep ltac:(lia))
    as (out' & s'' & L' & H' & HRep').
  apply (exec_fuel_mono fuel (fuel `max` S (length L))) in H; [|lia].
  rewrite H in H'. injection H' as -> ->. eauto.
Qed.

Lemma reachable_Rep s : reachable s -> exists L, Rep s L.
Proof.
  induction 1 as [m s Hnew|s fuel op out s' Hreach [L HRep] Hexec].
  - exists []. eapply NewWithMaxLevel_Rep; eauto.
  - eapply exec_Rep_any_fuel; eauto.
Qed.

(** The level-[i] traversal of a represented list. *)
Lemma walk_lseg s i : forall l r fuel,
  lseg (links s i) r l None -> length l <= fuel ->
  walk fuel s i (hd_or l None) = Ok l.
Proof.
  induction l as [|a l IH]; intros r fuel Hseg Hfuel; simpl in *.
  { by destruct fuel. }
  destruct fuel as [|fuel]; [lia|]. destruct Hseg as [_ Hseg]. simpl.
  pose proof (lseg_hd _ _ _ _ Hseg) as Hhd. unfold links in Hhd. rewrite Hhd. simpl.
  rewrite (IH (Elem a)); [done|done|lia].
Qed.

Lemma chain_Rep s L i : Rep s L -> i < maxLevel s -> chain s i = Ok (level_of s i L).
Proof.
  intros HRep Hi. pose proof (rep_links _ _ HRep i Hi) as Hseg.
  unfold chain. pose proof (lseg_hd _ _ _ _ Hseg) as Hhd. unfold links in Hhd.
  rewrite Hhd. change (walk (fuel_of s) s i (hd_or (level_of s i L) None) = Ok (level_of s i L)).
  eapply walk_lseg; eauto.
  unfold fuel_of. pose proof (Rep_length _ _ HRep).
  pose proof (length_filter (fun a => i < heightOf s a) L). unfold level_of. lia.
Qed.

(** ** The candidate of a descent, in any state *)

Lemma sk_advance_stop fuel : forall s k i prev nxt prev' nxt',
  advance fuel s k i prev nxt = Ok (prev', nxt') ->
  not_before s k nxt' /\
  (before_key s k prev -> before_key s k prev') /\
  (slot s prev i = Ok nxt -> slot s prev' i = Ok nxt').
Proof.
  induction fuel as [|fuel IH]; intros s k i prev nxt prev' nxt' H; simpl in H;
    [discriminate|].
  destruct nxt as [a|]; [|by injection H as <- <-].
  apply bind_Ok in H as (e & He & H). pose proof He as He'. apply getElement_Ok in He'.
  destruct (key_lt (key e) k) eqn:Hlt.
  - apply bind_Ok in H as (nx & Hnx & H). apply IH in H as (Hnb & Hbk & Hslot).
    split; [done|]. split.
    + intros _. apply Hbk. simpl. eauto.
    + intros _. apply Hslot. rewrite slot_Elem, He. simpl. done.
  - injection H as <- <-. split; [simpl; eauto|]. auto.
Qed.

Lemma sk_search_levels_stop fuel s k : forall n prev nxt p c,
  search_levels fuel s k n prev nxt = Ok (p, c) ->
  not_before s k nxt -> not_before s k c.
Proof.
  induction n as [|i IH]; intros prev nxt p c H Hnb; simpl in H.
  - by injection H as <- <-.
  - apply bind_Ok in H as (nx & Hnx & H).
    apply bind_Ok in H as ([prev1 nxt1] & Hadv & H). simpl in H.
    eapply IH; eauto. by apply sk_advance_stop in Hadv as [? _].
Qed.

Lemma sk_descend_candidate fuel s k : forall n prev nxt prevs prevs',
  descend fuel s k n prev nxt prevs = Ok prevs' ->
  before_key s k prev -> 1 <= n ->
  exists p0 c,
    prevs' !! 0 = Some (Some p0) /\ before_key s k p0 /\
    slot s p0 0 = Ok c /\ not_before s k c.
Proof.
  induction n as [|i IH]; intros prev nxt prevs prevs' H Hbk Hn; simpl in H; [lia|].
  apply bind_Ok in H as (nx & Hnx & H).
  apply bind_Ok in H as ([prev1 nxt1] & Hadv & H). simpl in H.
  apply bind_Ok in H as (prevs1 & Hst & H).
  apply sk_advance_stop in Hadv as (Hnb & Hbk1 & Hslot).
  destruct i as [|j].
  - simpl in H. injection H as <-. exists prev1, nxt1.
    pose proof (store_idx _ _ _ _ 0 Hst) as Hidx. rewrite decide_True in Hidx by done.
    apply idx_Ok in Hidx. auto.
  - eapply IH; eauto. lia.
Qed.

Lemma sk_getPrevElementNodes_candidate fuel k s prevs s1 :
  getPrevElementNodes fuel k s = Ok (prevs, s1) -> 1 <= maxLevel s ->
  s1 = set_cache s prevs /\
  exists p0 c,
    prevs !! 0 = Some (Some p0) /\ before_key s1 k p0 /\
    slot s1 p0 0 = Ok c /\ not_before s1 k c.
Proof.
  unfold getPrevElementNodes. intros H Hm.
  apply bind_Ok in H as (prevs' & Hd & H). injection H as <- <-.
  split; [done|]. eapply sk_descend_candidate in Hd; eauto. done.
Qed.

Lemma sk_Get_exact fuel k s v b :
  Get fuel k s = Ok (v, b) ->
  (b = false /\ v = []) \/
  (b = true /\ exists a e, heap s !! a = Some e /\ key e = k /\ v = value e).
Proof.
  unfold Get. intros H. apply bind_Ok in H as ([p c] & Hs & H). simpl in H.
  apply sk_search_levels_stop in Hs; [|done].
  destruct c as [a|]; [|injection H as <- <-; auto].
  apply bind_Ok in H as (e & He & H). apply getElement_Ok in He.
  destruct Hs as (e0 & He0 & Hge). rewrite He in He0. injection He0 as <-.
  destruct (key_le (key e) k) eqn:Hle; [|injection H as <- <-; auto].
  apply match_test_eq in Hle; [|done]. injection H as <- <-.
  right. split; [done|]. exists a, e. auto.
Qed.

Lemma sk_Remove_exact fuel k s a s' :
  Remove fuel k s = Ok (Some a, s') -> 1 <= maxLevel s ->
  exists e, heap s !! a = Some e /\ key e = k.
Proof.
  unfold Remove. intros H Hm.
  apply bind_Ok in H as ([prevs s1] & Hprev & H). simpl in H.
  apply sk_getPrevElementNodes_candidate in Hprev as (-> & p0 & c & Hp0 & Hbk & Hslot & Hnb);
    [|done].
  unfold idx in H. rewrite Hp0 in H. simpl in H. rewrite Hslot in H. simpl in H.
  destruct c as [b|]; [|discriminate].
  apply bind_Ok in H as (e & He & H). apply getElement_Ok in He.
  destruct (key_le (key e) k) eqn:Hle; [|discriminate].
  destruct Hnb as (e0 & He0 & Hge). rewrite He in He0. injection He0 as <-.
  apply match_test_eq in Hle; [|done].
  apply bind_Ok in H as (s2 & Hloop & H). injection H as <- <-. eauto.
Qed.

(** ** Levels of a represented list *)

Lemma level_of_succ s i L :
  level_of s (S i) L = filter (fun a => S i < heightOf s a) (level_of s i L).
Proof.
  unfold level_of. rewrite list_filter_filter. apply list_filter_iff. intros a. lia.
Qed.

Lemma level_of_sublist s i L : level_of s (S i) L `sublist_of` level_of s i L.
Proof. rewrite level_of_succ. apply sublist_filter. Qed.

Lemma sorted_keys_filter s (P : nat -> Prop) `{!forall a, Decision (P a)} L :
  sorted_keys s L -> sorted_keys s (filter P L).
Proof.
  unfold sorted_keys. induction 1 as [|a l Hs IH Hall]; [constructor|].
  rewrite filter_cons. destruct (decide (P a)); [|done].
  constructor; [done|]. rewrite Forall_forall in *. intros b Hb.
  apply Hall. apply list_elem_of_filter in Hb. tauto.
Qed.

Lemma level_of_remove s i L1 c L2 :
  NoDup (L1 ++ c :: L2) ->
  level_of s i (L1 ++ L2) = filter (fun x => x <> c) (level_of s i (L1 ++ c :: L2)).
Proof.
  intros Hnd. unfold level_of. rewrite list_filter_filter.
  rewrite !filter_app, filter_cons. rewrite decide_False by tauto.
  apply NoDup_app in Hnd as (Hnd1 & Hcross & Hnd2). apply NoDup_cons in Hnd2 as [Hc Hnd2].
  f_equal; apply filter_ext_in; intros a Ha; split; try tauto; intros Hh;
    (split; [|done]); intros ->.
  - eapply Hcross; eauto. set_solver.
  - done.
Qed.

(** ** The list refines a finite map *)

Lemma Rep_fuel s L : Rep s L -> length L < fuel_of s.
Proof. intros H. apply Rep_length in H. unfold fuel_of. lia. Qed.

Lemma exec_abs s L fuel op :
  Rep s L -> length L < fuel ->
  exists out s' L',
    exec fuel op s = Ok (out, s') /\ Rep s' L' /\
    forall k', content s' L' k' = abs_step op (content s L) k'.
Proof.
  intros HRep Hfuel. destruct op as [k v r|k|k|p]; simpl.
  - destruct (Add_spec s k L fuel HRep Hfuel v r) as (s' & L' & Hadd & HRep' & _ & Hc & _).
    rewrite Hadd. simpl. eauto 6.
  - rewrite (Get_spec s L k fuel HRep Hfuel).
    destruct (content s L k); simpl; do 3 eexists; eauto.
  - destruct (Remove_spec s k L fuel HRep Hfuel)
      as (res & s' & L' & Hrm & HRep' & _ & _ & _ & _ & _ & Hc & _).
    rewrite Hrm. simpl. eauto 6.
  - do 3 eexists. split; [done|]. split; [by apply SetProbability_Rep|].
    intros k'. unfold content. by rewrite (find_key_ext s (SetProbability p s)).
Qed.

Lemma abs_run_at ops : forall m1 m2 k,
  m1 k = m2 k -> abs_run ops m1 k = abs_run ops m2 k.
Proof.
  induction ops as [|op ops IH]; intros m1 m2 k H; simpl; [done|].
  apply IH. destruct op; simpl; try done; by rewrite H.
Qed.

Lemma abs_run_ext ops m1 m2 :
  (forall k, m1 k = m2 k) -> forall k, abs_run ops m1 k = abs_run ops m2 k.
Proof. intros H k. by apply abs_run_at. Qed.

Lemma abs_run_app ops1 ops2 m : abs_run (ops1 ++ ops2) m = abs_run ops2 (abs_run ops1 m).
Proof. revert m. induction ops1 as [|op ops1 IH]; intros m; simpl; auto. Qed.

Lemma abs_run_untouched ops m k :
  Forall (fun op => ~ writes k op) ops -> abs_run ops m k = m k.
Proof.
  intros H. revert m. induction H as [|op ops Hop Hops IH]; intros m; simpl; [done|].
  rewrite IH. destruct op as [k' v r|k'|k'|p]; simpl in *; try done.
  - destruct (String.eqb_spec k k'); [congruence|done].
  - destruct (String.eqb_spec k k'); [congruence|done].
Qed.

Lemma run_abs ops : forall s L,
  Rep s L ->
  exists s' L', run ops s = Ok s' /\ Rep s' L' /\
    forall k', content s' L' k' = abs_run ops (content s L) k'.
Proof.
  induction ops as [|op ops IH]; intros s L HRep; simpl.
  - exists s, L. auto.
  - destruct (exec_abs s L (fuel_of s) op HRep (Rep_fuel _ _ HRep))
      as (out & s1 & L1 & Hexec & HRep1 & Hc1).
    rewrite Hexec. simpl.
    destruct (IH s1 L1 HRep1) as (s' & L' & Hrun & HRep' & Hc').
    exists s', L'. split; [done|]. split; [done|].
    intros k'. rewrite Hc'. by apply abs_run_at.
Qed.

(** ** One key, one element *)

Lemma count_key_app s k A B : count_key s k (A ++ B) = count_key s k A + count_key s k B.
Proof. induction A as [|a A IH]; simpl; [done|]. rewrite IH. lia. Qed.

Lemma count_key_zero s k L : (forall a, a ∈ L -> keyOf s a <> k) -> count_key s k L = 0.
Proof.
  induction L as [|a L IH]; intros H; simpl; [done|].
  destruct (String.eqb_spec (keyOf s a) k) as [He|_].
  - exfalso. eapply H; [|exact He]. set_solver.
  - apply IH. intros b Hb. apply H. set_solver.
Qed.

Lemma count_key_found s k L c :
  sorted_keys s L -> find_key s k L = Some c -> count_key s k L = 1.
Proof.
  intros Hs Hf. destruct (splits_exists s k L Hs) as (L1 & L2 & Hsplit).
  pose proof Hsplit as (HL & Hlt & Hge).
  destruct (candidate_cases s k L L1 L2 Hs Hsplit) as [c' L2' -> Hk Hle Hgt | Hgt Hle].
  - rewrite HL, count_key_app. simpl. rewrite Hk, String.eqb_refl.
    rewrite !count_key_zero; [lia| |].
    + intros a Ha. apply Hgt in Ha. intros He. rewrite He, key_lt_irrefl in Ha. discriminate.
    + intros a Ha. apply Hlt in Ha. intros He. rewrite He, key_lt_irrefl in Ha. discriminate.
  - rewrite (content_miss s k L L1 L2) in Hf by done. discriminate.
Qed.

Lemma count_key_absent s k L :
  find_key s k L = None -> count_key s k L = 0.
Proof.
  induction L as [|a L IH]; simpl; [done|].
  destruct (String.eqb (keyOf s a) k); [discriminate|]. auto.
Qed.

(** ** Calls on reachable states return *)

Lemma sk_exec_total s op :
  reachable s -> exists out s', exec (fuel_of s) op s = Ok (out, s').
Proof.
  intros [L HRep]%reachable_Rep.
  destruct (exec_Rep s L (fuel_of s) op HRep (Rep_fuel _ _ HRep)) as (out & s' & L' & H & _).
  eauto.
Qed.

Lemma sk_run_reachable ops : forall s s', reachable s -> run ops s = Ok s' -> reachable s'.
Proof.
  induction ops as [|op ops IH]; intros s s' Hr H; simpl in H.
  - by injection H as <-.
  - apply bind_Ok in H as ([out s1] & Hexec & H). simpl in H.
    eapply IH; [|exact H]. eapply reach_step; eauto.
Qed.

Lemma find_key_None s k L : find_key s k L = None -> forall a, a ∈ L -> keyOf s a <> k.
Proof.
  induction L as [|b L IH]; simpl; [set_solver|].
  destruct (String.eqb_spec (keyOf s b) k) as [|Hne]; [discriminate|].
  intros H a [->|Ha]%elem_of_cons; auto.
Qed.

(** The number of links of an element never changes. *)
Lemma sk_exec_height s fuel op out s' :
  reachable s -> exec fuel op s = Ok (out, s') ->
  forall a, a < length (heap s) -> heightOf s' a = heightOf s a.
Proof.
  intros [L HRep]%reachable_Rep H a Ha.
  apply (exec_fuel_mono fuel (fuel `max` S (length L))) in H; [|lia].
  assert (length L < fuel `max` S (length L)) as Hfuel by lia.
  destruct op as [k v r|k|k|p]; simpl in H.
  - destruct (Add_spec s k L _ HRep Hfuel v r) as (s1 & L1 & Hadd & _ & (_ & _ & Hfr) & _).
    rewrite Hadd in H. simpl in H. injection H as <- <-. by apply Hfr.
  - apply bind_Ok in H as ([v b] & _ & H). simpl in H. by injection H as <- <-.
  - destruct (Remove_spec s k L _ HRep Hfuel)
      as (res & s1 & L1 & Hrm & _ & _ & _ & _ & _ & Hfr & _).
    rewrite Hrm in H. simpl in H. injection H as <- <-. by apply Hfr.
  - by injection H as <- <-.
Qed.

Lemma sk_run_from_reachable m ops s : sk_run_from m ops = Ok s -> reachable s.
Proof.
  unfold sk_run_from. intros H. apply bind_Ok in H as (s0 & Hnew & H).
  eapply sk_run_reachable; [|exact H]. eapply reach_new; eauto.
Qed.


End SkipListFacts.

(** * The adaptive stash list: bounds and operations *)

Module StashListFacts.
Import StashList.



Lemma st_getElement_Ok s a e : getElement s a = Ok e <-> heap s !! a = Some e.
Proof. unfold getElement. destruct (heap s !! a); split; intros H; try discriminate; congruence. Qed.

Lemma st_getNode_setNode s r n s' r' :
  setNode s r n = Ok s' ->
  getNode s' r' = if decide (r = r') then Ok n else getNode s r'.
Proof.
  destruct r as [|a]; simpl; intros H.
  - injection H as <-. destruct r'; [reflexivity|].
    destruct (decide (Head = Elem a)); [discriminate|reflexivity].
  - apply bind_Ok in H as (e & He & H). injection H as <-.
    apply st_getElement_Ok in He. destruct r' as [|a'].
    + destruct (decide (Elem a = Head)); [discriminate|reflexivity].
    + simpl. unfold getElement; simpl.
      destruct (decide (Elem a = Elem a')) as [[= <-]|Hne].
      * rewrite list_lookup_insert_eq by (eapply lookup_lt_Some; eauto). reflexivity.
      * rewrite list_lookup_insert_ne by congruence. reflexivity.
Qed.

(** Writing a node back changes that node alone. *)
Lemma st_setNode_evolves (R : elementNode -> elementNode -> Prop) s r n n' s' :
  (forall x, R x x) ->
  getNode s r = Ok n -> R n n' -> setNode s r n' = Ok s' -> evolves R s s'.
Proof.
  intros Hrefl Hn HR Hset. destruct r as [|a]; simpl in *.
  - injection Hn as <-. injection Hset as <-. constructor; simpl; auto.
    intros a e He. exists e. auto.
  - apply bind_Ok in Hn as (e & He & Hn). injection Hn as <-.
    rewrite He in Hset. simpl in Hset. injection Hset as <-.
    apply st_getElement_Ok in He.
    assert (a < length (heap s)) as Ha by (eapply lookup_lt_Some; eauto).
    constructor; simpl; auto.
    + by rewrite length_insert.
    + intros b eb Hb. destruct (decide (a = b)) as [<-|Hne].
      * rewrite list_lookup_insert_eq by done. eexists. split; [done|].
        simpl. rewrite Hb in He. injection He as ->. auto.
      * rewrite list_lookup_insert_ne by done. exists eb. auto.
Qed.

Lemma evolves_refl (R : elementNode -> elementNode -> Prop) s :
  (forall x, R x x) -> evolves R s s.
Proof. intros H. constructor; auto. intros a e He. exists e. auto. Qed.

Lemma evolves_trans (R : elementNode -> elementNode -> Prop) s1 s2 s3 :
  (forall x y z, R x y -> R y z -> R x z) ->
  evolves R s1 s2 -> evolves R s2 s3 -> evolves R s1 s3.
Proof.
  intros Htr [] []. constructor; try congruence; eauto.
  intros a e He. destruct (ev_elem0 a e He) as (e' & He' & Hk & HR).
  destruct (ev_elem1 a e' He') as (e'' & He'' & Hk' & HR').
  exists e''. repeat split; try congruence; eauto.
Qed.

Lemma evolves_mono (R R' : elementNode -> elementNode -> Prop) s s' :
  (forall x y, R x y -> R' x y) -> evolves R s s' -> evolves R' s s'.
Proof.
  intros Hsub []. constructor; auto.
  intros a e He. destruct (ev_elem0 a e He) as (e' & He' & Hk & HR).
  exists e'. auto.
Qed.

Lemma node_desc_refl n : node_desc n n.
Proof. unfold node_desc. repeat split; lia. Qed.

Lemma node_desc_trans x y z : node_desc x y -> node_desc y z -> node_desc x z.
Proof. unfold node_desc. intros (? & ? & ?) (? & ? & ?). repeat split; try congruence; lia. Qed.

Lemma node_links_refl n : node_links n n.
Proof. unfold node_links. auto. Qed.

Lemma node_links_trans x y z : node_links x y -> node_links y z -> node_links x z.
Proof. unfold node_links. intros (? & ? & ?) (? & ? & ?). repeat split; congruence. Qed.

Lemma node_links_desc x y : node_links x y -> node_desc x y.
Proof. unfold node_links, node_desc. intros (? & ? & ?). repeat split; auto; lia. Qed.

Lemma node_links_keep x y : node_links x y -> node_keep x y.
Proof. unfold node_links, node_keep. intros (? & ? & ?). auto. Qed.

Lemma node_keep_refl n : node_keep n n.
Proof. unfold node_keep. auto. Qed.

Lemma node_keep_trans x y z : node_keep x y -> node_keep y z -> node_keep x z.
Proof. unfold node_keep. intros (? & ?) (? & ?). split; congruence. Qed.

Lemma st_setSlot_links s r i v s' : setSlot s r i v = Ok s' -> evolves node_links s s'.
Proof.
  unfold setSlot. intros H. apply bind_Ok in H as (n & Hn & H).
  apply bind_Ok in H as (nx & Hnx & H). apply store_Ok in Hnx as [Hi ->].
  eapply (st_setNode_evolves node_links s r n _ s' node_links_refl Hn); [|exact H].
  unfold node_links; simpl. rewrite length_insert. auto.
Qed.

Lemma st_setSlot_evolves s r i v s' : setSlot s r i v = Ok s' -> evolves node_desc s s'.
Proof. intros H. eapply evolves_mono; [apply node_links_desc|]. eapply st_setSlot_links; eauto. Qed.

Lemma st_setVisited_keep s r b s' : setVisited s r b = Ok s' -> evolves node_keep s s'.
Proof.
  unfold setVisited. intros H. apply bind_Ok in H as (n & Hn & H).
  eapply (st_setNode_evolves node_keep s r n _ s' node_keep_refl Hn); [|exact H].
  unfold node_keep; simpl. auto.
Qed.

Lemma st_demote_evolves s i before prev nxt s' :
  demote s i before prev nxt = Ok s' -> evolves node_desc s s'.
Proof.
  unfold demote. intros H.
  apply bind_Ok in H as (s1 & H1 & H). apply bind_Ok in H as (s2 & H2 & H).
  apply bind_Ok in H as (n & Hn & H). unfold setLevel in H.
  apply bind_Ok in H as (n' & Hn' & H).
  eapply evolves_trans; [apply node_desc_trans|eapply st_setSlot_evolves; eauto|].
  eapply evolves_trans; [apply node_desc_trans|eapply st_setSlot_evolves; eauto|].
  eapply (st_setNode_evolves node_desc s2 prev n' _ s' node_desc_refl Hn'); [|exact H].
  unfold node_desc; simpl. rewrite Hn in Hn'. injection Hn' as <-. repeat split; lia.
Qed.

Lemma before_key_evolves R s s' k r : evolves R s s' -> before_key s k r -> before_key s' k r.
Proof.
  intros Hev. destruct r as [|a]; simpl; [done|]. intros (e & He & Hk).
  destruct (ev_elem _ _ _ Hev a e He) as (e' & He' & Hk' & _). exists e'. by rewrite Hk'.
Qed.

Lemma evolves_set_cache R s c : (forall x, R x x) -> evolves R s (set_cache s c).
Proof. intros H. constructor; simpl; auto. intros a e He. exists e. auto. Qed.

Lemma evolves_set_Length R s n : (forall x, R x x) -> evolves R s (set_Length s n).
Proof. intros H. constructor; simpl; auto. intros a e He. exists e. auto. Qed.

(** Link, level and flag updates leave the count and the cache alone. *)
Lemma st_setNode_Length s r n s' :
  setNode s r n = Ok s' -> Length s' = Length s /\ prevNodesCache s' = prevNodesCache s.
Proof.
  destruct r as [|a]; simpl; intros H.
  - by injection H as <-.
  - apply bind_Ok in H as (e & He & H). by injection H as <-.
Qed.

Lemma st_setSlot_Length s r i v s' :
  setSlot s r i v = Ok s' -> Length s' = Length s /\ prevNodesCache s' = prevNodesCache s.
Proof.
  unfold setSlot. intros H. apply bind_Ok in H as (n & Hn & H).
  apply bind_Ok in H as (nx & Hnx & H). eapply st_setNode_Length; eauto.
Qed.

Lemma st_demote_Length s i before prev nxt s' :
  demote s i before prev nxt = Ok s' -> Length s' = Length s.
Proof.
  unfold demote, setLevel. intros H.
  apply bind_Ok in H as (s1 & H1 & H). apply bind_Ok in H as (s2 & H2 & H).
  apply bind_Ok in H as (n & Hn & H). apply bind_Ok in H as (n' & Hn' & H).
  apply st_setSlot_Length in H1 as [H1 _]. apply st_setSlot_Length in H2 as [H2 _].
  apply st_setNode_Length in H as [H _]. congruence.
Qed.

Lemma st_advance_demote_Length fuel : forall s k i prev nxt s' prev' nxt',
  advance_demote fuel s k i prev nxt = Ok (s', prev', nxt') -> Length s' = Length s.
Proof.
  induction fuel as [|fuel IH]; intros s k i prev nxt s' prev' nxt' H; simpl in H;
    [discriminate|].
  destruct nxt as [a|]; [|by injection H as <- <- <-].
  apply bind_Ok in H as (e & He & H).
  destruct (key_lt (key e) k); [|by injection H as <- <- <-].
  apply bind_Ok in H as (nx & Hnx & H). apply bind_Ok in H as (d & Hd & H).
  destruct d.
  - apply bind_Ok in H as (s1 & Hdem & H). injection H as <- <- <-.
    eapply st_demote_Length; eauto.
  - eauto.
Qed.

Lemma st_descend_Length fuel k : forall n s prev nxt prevs prevs' s',
  descend fuel s k n prev nxt prevs = Ok (prevs', s') -> Length s' = Length s.
Proof.
  induction n as [|i IH]; intros s prev nxt prevs prevs' s' H; simpl in H.
  - by injection H as <- <-.
  - apply bind_Ok in H as (nx & Hnx & H).
    apply bind_Ok in H as ([[s1 prev1] nxt1] & Hadv & H). simpl in H.
    apply bind_Ok in H as (prevs1 & Hst & H).
    apply st_advance_demote_Length in Hadv. apply IH in H. congruence.
Qed.

(** ** The two descents *)

Lemma st_slot_Elem s a i :
  slot s (Elem a) i = (e ← getElement s a; idx (next (enode e)) i).
Proof. unfold slot; simpl. destruct (getElement s a); reflexivity. Qed.

Lemma st_demote_test_level0 s k prev nxt : demote_test s k 0 prev nxt = Ok false.
Proof. unfold demote_test. by rewrite decide_False by lia. Qed.

Lemma st_advance_demote_spec fuel : forall s k i prev nxt s' prev' nxt',
  advance_demote fuel s k i prev nxt = Ok (s', prev', nxt') ->
  evolves node_desc s s' /\
  (before_key s k prev -> before_key s' k prev') /\
  (i = 0 -> s' = s /\ not_before s k nxt' /\
            (slot s prev 0 = Ok nxt -> slot s prev' 0 = Ok nxt')).
Proof.
  induction fuel as [|fuel IH]; intros s k i prev nxt s' prev' nxt' H; simpl in H;
    [discriminate|].
  destruct nxt as [a|].
  2:{ injection H as <- <- <-. split; [apply evolves_refl, node_desc_refl|].
      split; [done|]. intros _. simpl. auto. }
  apply bind_Ok in H as (e & He & H). pose proof He as He'. apply st_getElement_Ok in He'.
  destruct (key_lt (key e) k) eqn:Hlt.
  2:{ injection H as <- <- <-. split; [apply evolves_refl, node_desc_refl|].
      split; [done|]. intros _. split; [done|]. split; [|done]. simpl. eauto. }
  apply bind_Ok in H as (nx & Hnx & H). apply bind_Ok in H as (d & Hd & H).
  assert (before_key s k (Elem a)) as Hbk by (simpl; eauto).
  destruct d.
  - apply bind_Ok in H as (s1 & Hdem & H). injection H as <- <- <-.
    pose proof (st_demote_evolves _ _ _ _ _ _ Hdem) as Hev.
    split; [done|]. split; [intros _; eapply before_key_evolves; eauto|].
    intros ->. rewrite st_demote_test_level0 in Hd. discriminate.
  - apply IH in H as (Hev & Hbk' & H0). split; [done|]. split; [auto|].
    intros ->. destruct (H0 eq_refl) as (-> & Hnb & Hslot). split; [done|]. split; [done|].
    intros _. apply Hslot. rewrite st_slot_Elem, He. simpl. done.
Qed.

Lemma st_descend_spec fuel k : forall n s prev nxt prevs prevs' s',
  descend fuel s k n prev nxt prevs = Ok (prevs', s') ->
  before_key s k prev ->
  evolves node_desc s s' /\ length prevs' = length prevs /\
  (1 <= n -> exists p0 c,
     prevs' !! 0 = Some (Some p0) /\ before_key s' k p0 /\
     slot s' p0 0 = Ok c /\ not_before s' k c).
Proof.
  induction n as [|i IH]; intros s prev nxt prevs prevs' s' H Hbk; simpl in H.
  - injection H as <- <-. split; [apply evolves_refl, node_desc_refl|]. split; [done|]. lia.
  - apply bind_Ok in H as (nx & Hnx & H).
    apply bind_Ok in H as ([[s1 prev1] nxt1] & Hadv & H). simpl in H.
    apply bind_Ok in H as (prevs1 & Hst & H).
    apply st_advance_demote_spec in Hadv as (Hev1 & Hbk1 & H0).
    specialize (Hbk1 Hbk).
    pose proof (IH _ _ _ _ _ _ H Hbk1) as (Hev2 & Hlen & Hcand).
    split; [eapply evolves_trans; eauto using node_desc_trans|].
    split; [rewrite Hlen; eapply store_length; eauto|].
    intros _. destruct i as [|j].
    + simpl in H. injection H as <- <-.
      destruct (H0 eq_refl) as (-> & Hnb & Hslot).
      exists prev1, nxt1. split; [|auto].
      pose proof (store_idx _ _ _ _ 0 Hst) as Hidx. rewrite decide_True in Hidx by done.
      by apply idx_Ok in Hidx.
    + apply Hcand. lia.
Qed.

(** After [getPrevElementNodes]: the level-0 predecessor holds a smaller key
    (or is the head), and its successor, the candidate, does not. *)
Lemma st_getPrevElementNodes_spec fuel k s prevs s1 :
  getPrevElementNodes fuel k s = Ok (prevs, s1) ->
  evolves node_desc s s1 /\ Length s1 = Length s /\
  prevNodesCache s1 = prevs /\
  (1 <= maxLevel s -> exists p0 c,
     prevs !! 0 = Some (Some p0) /\ before_key s1 k p0 /\
     slot s1 p0 0 = Ok c /\ not_before s1 k c).
Proof.
  unfold getPrevElementNodes. intros H.
  apply bind_Ok in H as ([prevs' s'] & Hd & H). simpl in H. injection H as <- <-.
  pose proof Hd as Hd'.
  apply st_descend_spec in Hd as (Hev & Hlen & Hcand); [|done].
  split; [|split; [|split; [done|]]].
  - eapply evolves_trans; [apply node_desc_trans|exact Hev|].
    apply evolves_set_cache, node_desc_refl.
  - simpl. eapply st_descend_Length; eauto.
  - intros Hm. destruct (Hcand Hm) as (p0 & c & H1 & H2 & H3 & H4). exists p0, c. auto.
Qed.

Lemma st_advance_spec fuel : forall s k i prev nxt prev' nxt',
  advance fuel s k i prev nxt = Ok (prev', nxt') -> not_before s k nxt'.
Proof.
  induction fuel as [|fuel IH]; intros s k i prev nxt prev' nxt' H; simpl in H;
    [discriminate|].
  destruct nxt as [a|]; [|by injection H as <- <-].
  apply bind_Ok in H as (e & He & H). apply st_getElement_Ok in He.
  destruct (key_lt (key e) k) eqn:Hlt.
  - apply bind_Ok in H as (nx & Hnx & H). eauto.
  - injection H as <- <-. simpl. eauto.
Qed.

Lemma st_search_levels_spec fuel s k : forall n prev nxt p c,
  search_levels fuel s k n prev nxt = Ok (p, c) ->
  not_before s k nxt -> not_before s k c.
Proof.
  induction n as [|i IH]; intros prev nxt p c H Hnb; simpl in H.
  - by injection H as <- <-.
  - apply bind_Ok in H as (nx & Hnx & H).
    apply bind_Ok in H as ([prev1 nxt1] & Hadv & H). simpl in H.
    eapply IH; eauto. eapply st_advance_spec; eauto.
Qed.

(** ** The invariant is kept *)

Lemma evolves_lookup_inv R s s' a e' :
  evolves R s s' -> heap s' !! a = Some e' ->
  exists e, heap s !! a = Some e /\ key e' = key e /\ R (enode e) (enode e').
Proof.
  intros Hev He'. assert (a < length (heap s)) as Ha.
  { rewrite <- (ev_heap_length _ _ _ Hev). eapply lookup_lt_Some; eauto. }
  destruct (lookup_lt_is_Some_2 _ _ Ha) as [e He].
  destruct (ev_elem _ _ _ Hev a e He) as (e'' & He'' & Hk & HR).
  exists e. rewrite He' in He''. injection He'' as <-. auto.
Qed.

Lemma Inv_evolves R s s' :
  (forall x y, R x y -> (level y <= level x)%Z /\ length (next y) = length (next x)) ->
  evolves R s s' -> Inv s -> Inv s'.
Proof.
  intros HR Hev [Hm Hh Ht He]. pose proof Hev as [].
  constructor.
  - congruence.
  - destruct (HR _ _ ev_head0) as [_ Hl]. congruence.
  - congruence.
  - intros a e' He'. destruct (evolves_lookup_inv _ _ _ _ _ Hev He') as (e & Hea & _ & Hr).
    destruct (HR _ _ Hr) as [Hlv Hl]. destruct (He a e Hea) as [H1 H2].
    rewrite ev_maxLevel0. split; [lia|congruence].
Qed.

Lemma node_desc_bound x y :
  node_desc x y -> (level y <= level x)%Z /\ length (next y) = length (next x).
Proof. unfold node_desc. tauto. Qed.

Lemma node_keep_bound x y :
  node_keep x y -> (level y <= level x)%Z /\ length (next y) = length (next x).
Proof. unfold node_keep. intros [-> ->]. split; [lia|done]. Qed.

Lemma node_links_bound x y :
  node_links x y -> (level y <= level x)%Z /\ length (next y) = length (next x).
Proof. intros H. by apply node_desc_bound, node_links_desc. Qed.

Lemma st_for_up_evolves R (body : nat -> StashList -> Res StashList) :
  (forall x, R x x) -> (forall x y z, R x y -> R y z -> R x z) ->
  (forall i s s', body i s = Ok s' -> evolves R s s') ->
  forall n i s s', for_up n i body s = Ok s' -> evolves R s s'.
Proof.
  intros Hrefl Htrans Hbody. induction n as [|n IH]; intros i s s' H; simpl in H.
  - injection H as <-. by apply evolves_refl.
  - apply bind_Ok in H as (s1 & H1 & H). eapply evolves_trans; eauto.
Qed.

Lemma st_link_level_links prevs a i s s' :
  link_level prevs a i s = Ok s' -> evolves node_links s s'.
Proof.
  unfold link_level. intros H.
  apply bind_Ok in H as (p & Hp & H). apply bind_Ok in H as (p' & Hp' & H).
  apply bind_Ok in H as (nx & Hnx & H). apply bind_Ok in H as (s1 & H1 & H).
  eapply evolves_trans; [apply node_links_trans| |]; eapply st_setSlot_links; eauto.
Qed.

Lemma st_unlink_level_links prevs a i s s' :
  unlink_level prevs a i s = Ok s' -> evolves node_links s s'.
Proof.
  unfold unlink_level. intros H.
  apply bind_Ok in H as (v & Hv & H). apply bind_Ok in H as (p & Hp & H).
  apply bind_Ok in H as (p' & Hp' & H). eapply st_setSlot_links; eauto.
Qed.

Lemma st_setValue_links s a v s' : setValue s a v = Ok s' -> evolves node_links s s'.
Proof.
  unfold setValue. intros H. apply bind_Ok in H as (e & He & H). injection H as <-.
  apply st_getElement_Ok in He.
  assert (a < length (heap s)) as Ha by (eapply lookup_lt_Some; eauto).
  constructor; simpl; auto using node_links_refl.
  - by rewrite length_insert.
  - intros b eb Hb. destruct (decide (a = b)) as [<-|Hne].
    + rewrite list_lookup_insert_eq by done. eexists. split; [done|]. simpl.
      rewrite Hb in He. injection He as ->. auto using node_links_refl.
    + rewrite list_lookup_insert_ne by done. exists eb. auto using node_links_refl.
Qed.

Lemma st_setLevel_Ok s a l s' :
  setLevel s (Elem a) l = Ok s' ->
  exists e, heap s !! a = Some e /\
    s' = set_heap s (<[a := mkElement (mkNode (next (enode e)) l (visited (enode e)))
                                    (key e) (value e)]> (heap s)).
Proof.
  unfold setLevel. simpl. intros H. apply bind_Ok in H as (n & Hn & H).
  apply bind_Ok in Hn as (e & He & Hn). injection Hn as <-.
  rewrite He in H. simpl in H. injection H as <-.
  apply st_getElement_Ok in He. eauto.
Qed.


Lemma levels_step_keep a s s' : evolves node_keep s s' -> levels_step a s s'.
Proof.
  intros Hev b eb Hb. destruct (ev_elem _ _ _ Hev b eb Hb) as (eb' & Hb' & Hk & Hl & _).
  exists eb'. auto.
Qed.

Lemma st_promote_spec prevs a s s' e :
  heap s !! a = Some e -> visited (enode e) = true ->
  promote prevs a s = Ok s' -> Inv s ->
  Inv s' /\ length (heap s') = length (heap s) /\ maxLevel s' = maxLevel s /\
  probTable s' = probTable s /\ levels_step a s s'.
Proof.
  intros He Hvis H HInv. unfold promote in H. unfold getElement in H. rewrite He in H.
  simpl in H.
  assert (Inv s /\ length (heap s) = length (heap s) /\ maxLevel s = maxLevel s /\
          probTable s = probTable s /\ levels_step a s s) as Hsame.
  { do 4 (split; [done|]). intros b eb Hb. exists eb. auto. }
  destruct (decide (level (enode e) < Z.of_nat (maxLevel s))%Z) as [Hlt|?];
    [|by injection H as <-].
  apply bind_Ok in H as (p & Hp & H).
  destruct (decide (p = Some Head)) as [?|?]; [by injection H as <-|].
  apply bind_Ok in H as (p' & Hp' & H). apply bind_Ok in H as (nx & Hnx & H).
  apply bind_Ok in H as (sa & Hsa & H). apply bind_Ok in H as (sb & Hsb & H).
  apply bind_Ok in H as (nd & Hn & H). apply bind_Ok in H as (sc & Hsc & H).
  assert (evolves node_keep s sc) as Hev.
  { eapply evolves_trans; [apply node_keep_trans| |].
    - eapply evolves_mono; [apply node_links_keep|]. eapply st_setSlot_links; eauto.
    - eapply evolves_trans; [apply node_keep_trans| |].
      + eapply evolves_mono; [apply node_links_keep|]. eapply st_setSlot_links; eauto.
      + destruct (visited nd).
        * eapply st_setVisited_keep; eauto.
        * injection Hsc as <-. apply evolves_refl, node_keep_refl. }
  pose proof (Inv_evolves _ _ _ node_keep_bound Hev HInv) as HInvc.
  apply st_setLevel_Ok in H as (ec & Hec & ->).
  destruct (ev_elem _ _ _ Hev a e He) as (ec' & Hec' & Hkc & Hlc & Hnc).
  rewrite Hec in Hec'. injection Hec' as <-.
  assert (a < length (heap sc)) as Ha by (eapply lookup_lt_Some; eauto).
  pose proof Hev as []. simpl. rewrite length_insert.
  split; [|split; [done|split; [done|split; [done|]]]].
  - destruct HInvc as [Hm Hh Ht Hel]. constructor; simpl; auto.
    intros b eb. destruct (decide (a = b)) as [<-|Hne].
    + rewrite list_lookup_insert_eq by done. intros [= <-]. simpl.
      destruct (Hel a ec Hec) as [_ Hlen]. split; [lia|done].
    + rewrite list_lookup_insert_ne by done. apply Hel.
  - intros b eb Hb. simpl. destruct (decide (a = b)) as [<-|Hne].
    + rewrite list_lookup_insert_eq by done. eexists. split; [done|]. simpl.
      rewrite Hb in He. injection He as ->. split; [done|]. right.
      repeat split; auto; try by rewrite Hlc.
    + rewrite list_lookup_insert_ne by done.
      destruct (ev_elem0 b eb Hb) as (eb' & Hb' & Hk & Hl & _). exists eb'. auto.
Qed.

Lemma st_Add_hit_spec prevs a v s s' :
  Add_hit prevs a v s = Ok s' -> Inv s ->
  Inv s' /\ length (heap s') = length (heap s) /\ maxLevel s' = maxLevel s /\
  probTable s' = probTable s /\ levels_step a s s'.
Proof.
  unfold Add_hit. intros H HInv.
  apply bind_Ok in H as (e & He & H). apply st_getElement_Ok in He.
  apply bind_Ok in H as (s1 & H1 & H).
  pose proof (st_setValue_links _ _ _ _ H) as Hval.
  assert (Inv s1 /\ length (heap s1) = length (heap s) /\ maxLevel s1 = maxLevel s /\
          probTable s1 = probTable s /\ levels_step a s s1) as (HI1 & Hl1 & Hm1 & Ht1 & Hs1).
  { destruct (visited (enode e)) eqn:Hvis.
    - eapply st_promote_spec; eauto.
    - pose proof (st_setVisited_keep _ _ _ _ H1) as Hev.
      split; [eapply Inv_evolves; eauto using node_keep_bound|].
      pose proof Hev as []. repeat split; auto. by apply levels_step_keep. }
  split; [eapply Inv_evolves; eauto using node_links_bound|].
  pose proof Hval as []. repeat split; try congruence.
  intros b eb Hb. destruct (Hs1 b eb Hb) as (eb1 & Hb1 & Hk1 & Hlv).
  destruct (ev_elem0 b eb1 Hb1) as (eb' & Hb' & Hk' & Hl' & _).
  exists eb'. split; [done|]. split; [congruence|]. rewrite Hl'. done.
Qed.

(** ** Add *)

Lemma st_Add_new_spec prevs k v r s s' :
  Add_new prevs k v r s = Ok s' -> Inv s ->
  Inv s' /\ length (heap s') = S (length (heap s)) /\ maxLevel s' = maxLevel s /\
  probTable s' = probTable s /\
  (forall b eb, heap s !! b = Some eb ->
     exists eb', heap s' !! b = Some eb' /\ key eb' = key eb /\
                 level (enode eb') = level (enode eb)) /\
  exists lvl e',
    randLevel s r = Ok lvl /\ 1 <= lvl <= maxLevel s /\
    heap s' !! length (heap s) = Some e' /\ key e' = k /\
    level (enode e') = Z.of_nat lvl /\ (visited (enode e') = true <-> lvl = 1) /\
    length (next (enode e')) = maxLevel s.
Proof.
  unfold Add_new. intros H HInv. apply bind_Ok in H as (lvl & Hlvl & H).
  apply bind_Ok in H as (s3 & Hloop & H). injection H as <-.
  pose proof (randLevel_of_bounds _ _ _ _ (inv_max _ HInv) Hlvl) as Hb.
  set (n0 := mkNode (replicate (maxLevel s) None) (Z.of_nat lvl) false) in *.
  set (n1 := if decide (lvl = 1) then mkNode (next n0) (level n0) true else n0) in *.
  set (s2 := set_heap s (heap s ++ [mkElement n1 k v])) in *.
  assert (level n1 = Z.of_nat lvl /\ length (next n1) = maxLevel s /\
          (visited n1 = true <-> lvl = 1)) as (Hn1l & Hn1n & Hn1v).
  { unfold n1. destruct (decide (lvl = 1)); simpl; rewrite length_replicate;
      repeat split; auto; try done; try lia. }
  assert (Inv s2) as HInv2.
  { destruct HInv as [Hm Hh Ht He]. constructor; simpl; auto.
    intros b eb Hbb. apply lookup_app_Some in Hbb as [Hbb|[Hge Hbb]]; [by apply (He b)|].
    apply list_lookup_singleton_Some in Hbb as [_ <-]. simpl. split; [lia|done]. }
  pose proof (st_for_up_evolves node_links (link_level prevs (length (heap s)))
                node_links_refl node_links_trans
                (st_link_level_links prevs (length (heap s))) _ _ _ _ Hloop) as Hev.
  pose proof (Inv_evolves _ _ _ node_links_bound Hev HInv2) as HInv3.
  pose proof Hev as []. simpl in *.
  split; [by destruct HInv3|]. split; [rewrite ev_heap_length0, length_app; simpl; lia|].
  split; [done|]. split; [done|]. split.
  - intros b eb Hbb.
    destruct (ev_elem0 b eb) as (eb' & Hb' & Hk & Hl & _).
    { by apply lookup_app_l_Some. }
    exists eb'. auto.
  - exists lvl. destruct (ev_elem0 (length (heap s)) (mkElement n1 k v))
      as (e' & He' & Hk & Hl & Hv & Hn).
    { by rewrite list_lookup_middle. }
    exists e'. simpl in *. repeat split; auto; try congruence; try lia.
    + rewrite Hv. apply Hn1v.
    + rewrite Hv. apply Hn1v.
Qed.

(** The effect of an [Add] on levels, relative to the state it started in. *)
Lemma st_Add_spec fuel k v r s s' :
  Add fuel k v r s = Ok s' -> Inv s ->
  Inv s' /\ maxLevel s' = maxLevel s /\
  (forall b eb eb', heap s !! b = Some eb -> heap s' !! b = Some eb' ->
     (level (enode eb) < level (enode eb'))%Z ->
     key eb = k /\ visited (enode eb) = true /\
     level (enode eb') = (level (enode eb) + 1)%Z) /\
  (length (heap s') = length (heap s) /\
   (exists a e, heap s !! a = Some e /\ key e = k) \/
   length (heap s') = S (length (heap s)) /\
   exists lvl e',
     randLevel s r = Ok lvl /\ 1 <= lvl <= maxLevel s /\
     heap s' !! length (heap s) = Some e' /\ key e' = k /\
     level (enode e') = Z.of_nat lvl /\ (visited (enode e') = true <-> lvl = 1) /\
     length (next (enode e')) = maxLevel s).
Proof.
  unfold Add. intros H HInv.
  apply bind_Ok in H as ([prevs s1] & Hprev & H). simpl in H.
  apply st_getPrevElementNodes_spec in Hprev as (Hev & HLen & Hcache & Hcand).
  destruct (Hcand (inv_max _ HInv)) as (p0 & c & Hp0 & Hbk & Hslot & Hnb).
  unfold idx in H. rewrite Hp0 in H. simpl in H. rewrite Hslot in H. simpl in H.
  pose proof (Inv_evolves _ _ _ node_desc_bound Hev HInv) as HInv1.
  pose proof Hev as [].
  assert (forall s', Add_new prevs k v r s1 = Ok s' ->
    Inv s' /\ maxLevel s' = maxLevel s /\
    (forall b eb eb', heap s !! b = Some eb -> heap s' !! b = Some eb' ->
       (level (enode eb) < level (enode eb'))%Z ->
       key eb = k /\ visited (enode eb) = true /\
       level (enode eb') = (level (enode eb) + 1)%Z) /\
    (length (heap s') = length (heap s) /\
     (exists a e, heap s !! a = Some e /\ key e = k) \/
     length (heap s') = S (length (heap s)) /\
     exists lvl e',
       randLevel s r = Ok lvl /\ 1 <= lvl <= maxLevel s /\
       heap s' !! length (heap s) = Some e' /\ key e' = k /\
       level (enode e') = Z.of_nat lvl /\ (visited (enode e') = true <-> lvl = 1) /\
       length (next (enode e')) = maxLevel s)) as Hnew.
  { intros s2 Hadd.
    apply st_Add_new_spec in Hadd as (HI & Hlen & Hm & Ht & Hold & lvl & e' & Hfresh); [|done].
    split; [done|]. split; [congruence|]. split.
    - intros b eb eb' Hb Hb' Hlt.
      destruct (ev_elem0 b eb Hb) as (eb1 & Hb1 & Hk1 & Hl1 & _).
      destruct (Hold b eb1 Hb1) as (eb2 & Hb2 & Hk2 & Hl2).
      rewrite Hb' in Hb2. injection Hb2 as <-. lia.
    - right. split; [congruence|]. exists lvl, e'.
      unfold randLevel in *. rewrite ev_maxLevel0, ev_probTable0, ev_heap_length0 in Hfresh.
      exact Hfresh. }
  destruct c as [a|]; [|by apply Hnew].
  apply bind_Ok in H as (e & He & H). apply st_getElement_Ok in He.
  destruct (key_le (key e) k) eqn:Hle; [|by apply Hnew].
  destruct Hnb as (e0 & He0 & Hge). rewrite He in He0. injection He0 as <-.
  apply match_test_eq in Hle; [|done].
  apply st_Add_hit_spec in H as (HI & Hlen & Hm & Ht & Hstep); [|done].
  split; [done|]. split; [congruence|]. split.
  2:{ left. split; [congruence|].
      destruct (evolves_lookup_inv _ _ _ _ _ Hev He) as (e0 & He0 & Hk0 & _).
      exists a, e0. split; [done|congruence]. }
  intros b eb eb' Hb Hb' Hlt.
  destruct (ev_elem0 b eb Hb) as (eb1 & Hb1 & Hk1 & Hl1 & Hv1 & _).
  destruct (Hstep b eb1 Hb1) as (eb2 & Hb2 & Hk2 & Hl2).
  rewrite Hb' in Hb2. injection Hb2 as <-.
  destruct Hl2 as [Hl2|(-> & Hvis & Hl2)]; [lia|].
  rewrite Hb1 in He. injection He as ->.
  split; [congruence|]. split; [congruence|]. lia.
Qed.

(** ** Get *)


Lemma mark_visited_id s a e :
  heap s !! a = Some e -> visited (enode e) = true -> mark_visited s a e = s.
Proof.
  intros He Hv. unfold mark_visited.
  assert (mkElement (mkNode (next (enode e)) (level (enode e)) true) (key e) (value e) = e)
    as ->.
  { destruct e as [[nx l vis] ke ve]. simpl in *. by subst. }
  rewrite list_insert_id by done. by destruct s.
Qed.

Lemma st_Get_spec fuel k s v b s' :
  Get fuel k s = Ok (v, b, s') ->
  (b = false /\ v = [] /\ s' = s) \/
  (b = true /\ exists a e,
     heap s !! a = Some e /\ key e = k /\ v = value e /\ s' = mark_visited s a e).
Proof.
  unfold Get. intros H. apply bind_Ok in H as ([p c] & Hs & H). simpl in H.
  apply st_search_levels_spec in Hs; [|done].
  destruct c as [a|]; [|injection H as <- <- <-; auto].
  apply bind_Ok in H as (e & He & H). apply st_getElement_Ok in He.
  destruct Hs as (e0 & He0 & Hge). rewrite He in He0. injection He0 as <-.
  destruct (key_le (key e) k) eqn:Hle; [|injection H as <- <- <-; auto].
  apply match_test_eq in Hle; [|done].
  apply bind_Ok in H as (s1 & H1 & H). injection H as <- <- <-.
  right. split; [done|]. exists a, e. repeat split; auto.
  destruct (visited (enode e)) eqn:Hvis.
  - injection H1 as <-. by rewrite mark_visited_id.
  - unfold setVisited in H1. simpl in H1. unfold getElement in H1. rewrite He in H1.
    simpl in H1. by injection H1 as <-.
Qed.

(** ** Remove *)

Lemma st_for_up_Length (body : nat -> StashList -> Res StashList) :
  (forall i s s', body i s = Ok s' -> Length s' = Length s) ->
  forall n i s s', for_up n i body s = Ok s' -> Length s' = Length s.
Proof.
  intros Hbody. induction n as [|n IH]; intros i s s' H; simpl in H.
  - by injection H as <-.
  - apply bind_Ok in H as (s1 & H1 & H). apply Hbody in H1. apply IH in H. congruence.
Qed.

Lemma st_unlink_level_Length prevs a i s s' :
  unlink_level prevs a i s = Ok s' -> Length s' = Length s.
Proof.
  unfold unlink_level. intros H.
  apply bind_Ok in H as (v & Hv & H). apply bind_Ok in H as (p & Hp & H).
  apply bind_Ok in H as (p' & Hp' & H). by apply st_setSlot_Length in H as [H _].
Qed.

Lemma st_Remove_spec fuel k s res s' :
  Remove fuel k s = Ok (res, s') -> Inv s ->
  Inv s' /\
  match res with
  | None => exists prevs, getPrevElementNodes fuel k s = Ok (prevs, s')
  | Some a =>
      Length s' = (Length s - 1)%Z /\ exists e, heap s !! a = Some e /\ key e = k
  end.
Proof.
  unfold Remove. intros H HInv.
  apply bind_Ok in H as ([prevs s1] & Hprev & H). simpl in H.
  pose proof Hprev as Hprev'.
  apply st_getPrevElementNodes_spec in Hprev as (Hev & HLen & Hcache & Hcand).
  destruct (Hcand (inv_max _ HInv)) as (p0 & c & Hp0 & Hbk & Hslot & Hnb).
  unfold idx in H. rewrite Hp0 in H. simpl in H. rewrite Hslot in H. simpl in H.
  pose proof (Inv_evolves _ _ _ node_desc_bound Hev HInv) as HInv1.
  destruct c as [a|]; [|injection H as <- <-; eauto].
  apply bind_Ok in H as (e & He & H). apply st_getElement_Ok in He.
  destruct (key_le (key e) k) eqn:Hle; [|injection H as <- <-; eauto].
  destruct Hnb as (e0 & He0 & Hge). rewrite He in He0. injection He0 as <-.
  apply match_test_eq in Hle; [|done].
  apply bind_Ok in H as (s2 & Hloop & H). injection H as <- <-.
  pose proof (st_for_up_evolves node_links (unlink_level prevs a)
                node_links_refl node_links_trans
                (st_unlink_level_links prevs a) _ _ _ _ Hloop) as Hev2.
  pose proof (st_for_up_Length (unlink_level prevs a)
                (st_unlink_level_Length prevs a) _ _ _ _ Hloop) as HLen2.
  split.
  - eapply (Inv_evolves node_links); [apply node_links_bound| |exact HInv1].
    eapply evolves_trans; [apply node_links_trans|exact Hev2|].
    apply evolves_set_Length, node_links_refl.
  - simpl. split; [congruence|].
    destruct (evolves_lookup_inv _ _ _ _ _ Hev He) as (e0 & He0 & Hk & _).
    exists e0. split; [done|congruence].
Qed.

(** Without an element of key [k] anywhere, the descent demotes nothing. *)
Section Absent.
Variables (s : StashList) (k : string).
Hypothesis Habsent : forall a e, heap s !! a = Some e -> key e <> k.

Lemma st_demote_test_absent i prev nxt d : demote_test s k i prev nxt = Ok d -> d = false.
  Proof.
    unfold demote_test. destruct (decide (0 < i)); [|by intros [= <-]].
    destruct nxt as [b|]; [|by intros [= <-]].
    intros H. apply bind_Ok in H as (eb & Heb & H). apply st_getElement_Ok in Heb.
    destruct (String.eqb_spec k (key eb)) as [->|_]; [|by injection H as <-].
    exfalso. eapply Habsent; eauto.
  Qed.

Lemma st_advance_demote_absent fuel : forall i prev nxt s' prev' nxt',
    advance_demote fuel s k i prev nxt = Ok (s', prev', nxt') -> s' = s.
  Proof.
    induction fuel as [|fuel IH]; intros i prev nxt s' prev' nxt' H; simpl in H;
      [discriminate|].
    destruct nxt as [a|]; [|by injection H as <- <- <-].
    apply bind_Ok in H as (e & He & H).
    destruct (key_lt (key e) k); [|by injection H as <- <- <-].
    apply bind_Ok in H as (nx & Hnx & H). apply bind_Ok in H as (d & Hd & H).
    apply st_demote_test_absent in Hd as ->. eauto.
  Qed.

Lemma st_descend_absent fuel : forall n prev nxt prevs prevs' s',
    descend fuel s k n prev nxt prevs = Ok (prevs', s') -> s' = s.
  Proof.
    induction n as [|i IH]; intros prev nxt prevs prevs' s' H; simpl in H.
    - by injection H as <- <-.
    - apply bind_Ok in H as (nx & Hnx & H).
      apply bind_Ok in H as ([[s1 prev1] nxt1] & Hadv & H). simpl in H.
      apply bind_Ok in H as (prevs1 & Hst & H).
      apply st_advance_demote_absent in Hadv as ->. eauto.
  Qed.

Lemma st_Remove_absent fuel res s' :
    Inv s -> Remove fuel k s = Ok (res, s') ->
    res = None /\ exists prevs, s' = set_cache s prevs.
  Proof.
    intros HInv H. pose proof H as H'.
    apply st_Remove_spec in H' as [_ Hres]; [|done].
    destruct res as [a|].
    - destruct Hres as (_ & e & He & Hk). exfalso. eapply Habsent; eauto.
    - split; [done|]. destruct Hres as (prevs & Hp). unfold getPrevElementNodes in Hp.
      apply bind_Ok in Hp as ([prevs' s1] & Hd & Hp). simpl in Hp. injection Hp as <- <-.
      apply st_descend_absent in Hd as ->. eauto.
  Qed.
End Absent.

(** ** Every reachable state keeps the bounds *)

Lemma st_NewWithMaxLevel_Ok m s :
  NewWithMaxLevel m = Ok s <->
  (1 <= m <= 64)%Z /\
  s = mkList (mkNode (replicate (Z.to_nat m) None) m false) (Z.to_nat m) 0%Z
             DefaultProbability (probabilityTable DefaultProbability (Z.to_nat m))
             (replicate (Z.to_nat m) None) [].
Proof.
  unfold NewWithMaxLevel.
  destruct (m <? 1)%Z eqn:E1; destruct (m >? 64)%Z eqn:E2; simpl; split;
    try discriminate; try (intros [? _]; lia).
  - intros [= <-]. split; [lia|done].
  - intros [_ ->]. done.
Qed.

Lemma st_NewWithMaxLevel_Inv m s : NewWithMaxLevel m = Ok s -> Inv s.
Proof.
  intros [Hm ->]%st_NewWithMaxLevel_Ok. constructor; simpl.
  - lia.
  - by rewrite length_replicate.
  - by rewrite probabilityTable_length.
  - intros a e. rewrite lookup_nil. discriminate.
Qed.

Lemma st_exec_Inv fuel op s out s' : exec fuel op s = Ok (out, s') -> Inv s -> Inv s'.
Proof.
  intros H HInv. destruct op as [k v r|k|k|p]; simpl in H.
  - apply bind_Ok in H as (s1 & Hadd & H). injection H as <- <-.
    by apply st_Add_spec in Hadd as [? _].
  - apply bind_Ok in H as ([[v b] s1] & Hget & H). simpl in H. injection H as <- <-.
    apply st_Get_spec in Hget as [(_ & _ & ->)|(_ & a & e & He & _ & _ & ->)]; [done|].
    destruct HInv as [Hm Hh Ht Hel].
    assert (a < length (heap s)) as Ha by (eapply lookup_lt_Some; eauto).
    constructor; simpl; auto.
    intros c ec. destruct (decide (a = c)) as [<-|Hne].
    + rewrite list_lookup_insert_eq by done. intros [= <-]. simpl. by apply (Hel a).
    + rewrite list_lookup_insert_ne by done. apply Hel.
  - apply bind_Ok in H as ([x s1] & Hrm & H). simpl in H. injection H as <- <-.
    by apply st_Remove_spec in Hrm as [? _].
  - injection H as <- <-. destruct HInv as [Hm Hh Ht Hel]. constructor; simpl; auto.
    by rewrite probabilityTable_length.
Qed.

Lemma st_reachable_Inv s : reachable s -> Inv s.
Proof.
  induction 1 as [m s Hnew|s fuel op out s' Hreach IH Hexec].
  - eapply st_NewWithMaxLevel_Inv; eauto.
  - eapply st_exec_Inv; eauto.
Qed.

Lemma st_run_reachable ops : forall s s', reachable s -> run ops s = Ok s' -> reachable s'.
Proof.
  induction ops as [|op ops IH]; intros s s' Hr H; simpl in H.
  - by injection H as <-.
  - apply bind_Ok in H as ([out s1] & Hexec & H). simpl in H.
    eapply IH; [|exact H]. eapply reach_step; eauto.
Qed.

Lemma st_run_from_reachable m ops s : st_run_from m ops = Ok s -> reachable s.
Proof.
  unfold st_run_from. intros H. apply bind_Ok in H as (s0 & Hnew & H).
  eapply st_run_reachable; [|exact H]. eapply reach_new; eauto.
Qed.

(** A level grows only in an [Add] of the element's own key, by one, and
    only when the element was marked visited before the call. *)
Lemma st_exec_level_up fuel op s out s' b eb eb' :
  Inv s -> exec fuel op s = Ok (out, s') ->
  heap s !! b = Some eb -> heap s' !! b = Some eb' ->
  (level (enode eb) < level (enode eb'))%Z ->
  exists v r, op = OpAdd (key eb) v r /\ visited (enode eb) = true /\
              level (enode eb') = (level (enode eb) + 1)%Z.
Proof.
  intros HInv H Hb Hb' Hlt. destruct op as [k v r|k|k|p]; simpl in H.
  - apply bind_Ok in H as (s1 & Hadd & H). injection H as <- <-.
    apply st_Add_spec in Hadd as (_ & _ & Hup & _); [|done].
    destruct (Hup b eb eb' Hb Hb' Hlt) as (<- & Hv & Hl). eauto.
  - apply bind_Ok in H as ([[v c] s1] & Hget & H). simpl in H. injection H as <- <-.
    apply st_Get_spec in Hget as [(_ & _ & ->)|(_ & a & e & He & _ & _ & ->)].
    + rewrite Hb in Hb'. injection Hb' as <-. lia.
    + exfalso. simpl in Hb'.
      assert (a < length (heap s)) as Ha by (eapply lookup_lt_Some; eauto).
      destruct (decide (a = b)) as [<-|Hne].
      * rewrite list_lookup_insert_eq in Hb' by done. injection Hb' as <-.
        rewrite Hb in He. injection He as <-. simpl in Hlt. lia.
      * rewrite list_lookup_insert_ne in Hb' by done.
        rewrite Hb in Hb'. injection Hb' as <-. lia.
  - apply bind_Ok in H as ([x s0] & Hrm & H). simpl in H. injection H as <- <-.
    exfalso. unfold Remove in Hrm.
    apply bind_Ok in Hrm as ([prevs s1] & Hprev & Hrm). simpl in Hrm.
    apply st_getPrevElementNodes_spec in Hprev as (Hev & _).
    assert (exists s2, evolves node_desc s1 s2 /\ heap s0 = heap s2) as (s2 & Hev2 & Hheap).
    { apply bind_Ok in Hrm as (p0 & _ & Hrm). apply bind_Ok in Hrm as (p0' & _ & Hrm).
      apply bind_Ok in Hrm as (c & _ & Hrm).
      destruct c as [a|].
      2:{ injection Hrm as <- <-. exists s1. split; [apply evolves_refl, node_desc_refl|done]. }
      apply bind_Ok in Hrm as (e & _ & Hrm).
      destruct (key_le (key e) k).
      2:{ injection Hrm as <- <-. exists s1. split; [apply evolves_refl, node_desc_refl|done]. }
      apply bind_Ok in Hrm as (s2 & Hloop & Hrm). injection Hrm as <- <-.
      exists s2. split; [|done]. eapply evolves_mono; [apply node_links_desc|].
      eapply (st_for_up_evolves node_links); eauto using node_links_refl, node_links_trans.
      apply st_unlink_level_links. }
    destruct (ev_elem _ _ _ Hev b eb Hb) as (eb1 & Hb1 & _ & Hl1 & _).
    destruct (ev_elem _ _ _ Hev2 b eb1 Hb1) as (eb2 & Hb2 & _ & Hl2 & _).
    rewrite Hheap, Hb2 in Hb'. injection Hb' as <-. lia.
  - injection H as <- <-. simpl in Hb'. rewrite Hb in Hb'. injection Hb' as <-. lia.
Qed.


End StashListFacts.

(** * The specification, property by property *)

Local Open Scope string_scope.
Local Open Scope list_scope.
Local Open Scope nat_scope.

Section C1.
Import SkipList SkipListFacts.

Lemma sk_Remove_ok_Rep s L k fuel : Rep s L -> length L < fuel -> sk_Remove_ok s k fuel.
Proof.
  intros HRep Hfuel.
  destruct (Remove_spec s k L fuel HRep Hfuel)
    as (res & s' & L' & Hrm & HRep' & Hres & Hmax & _ & _ & Hfr & _ & Hcase).
  exists L, res, s'. pose proof (rep_max _ _ HRep) as Hm.
  split. { rewrite (chain_Rep s L 0 HRep) by lia. by rewrite (level_of_zero s L HRep). }
  split; [done|]. rewrite <- Hres in Hcase. destruct res as [a|].
  - symmetry in Hres. apply find_key_Some in Hres as [Ha Hk].
    destruct Hcase as (L1 & L2 & HL & HL' & HLen & Hcache & Hslot).
    split; [done|]. split; [done|]. split; [done|]. split.
    + intros i Hi. exists (level_of s i L). split; [by apply chain_Rep|].
      rewrite (chain_Rep s' L' i HRep') by lia. f_equal.
      rewrite (level_of_ext s s') by (intros b _; apply Hfr).
      rewrite HL', HL. apply level_of_remove. rewrite <- HL. eapply Rep_NoDup; eauto.
    + intros r j. rewrite Hslot.
      assert (heightOf s a <= maxLevel s) by (by apply HRep).
      destruct (decide (j < heightOf s a)) as [Hj|Hj].
      * rewrite (Hcache j) by lia.
        destruct (decide (r = predAt s L1 j)) as [->|Hne].
        -- by rewrite !decide_True.
        -- rewrite !decide_False; [done| |]; intros [_ ?]; congruence.
      * rewrite !decide_False; [done| |]; tauto.
  - destruct Hcase as (-> & Hl & Hh & HLen). split; [|done].
    by apply find_key_None.
Qed.
End C1.

Section Unlinked.
Import StashList StashListFacts.
Variables (s : StashList) (k : string).
Hypothesis Hun : forall a, st_linked s a -> keyOf s a <> k.

Lemma st_slot_linked r i a : st_on_path s r -> slot s r i = Ok (Some a) -> st_linked s a.
Proof.
  destruct r as [|b]; simpl; intros Hr Hs.
  - by eapply st_linked_head.
  - by eapply st_linked_next.
Qed.

Lemma st_demote_test_unlinked i prev nxt d :
  (forall b, nxt = Some b -> st_linked s b) ->
  demote_test s k i prev nxt = Ok d -> d = false.
Proof.
  intros Hn. unfold demote_test. destruct (decide (0 < i)); [|by intros [= <-]].
  destruct nxt as [b|]; [|by intros [= <-]].
  intros H. apply bind_Ok in H as (eb & Heb & H). apply st_getElement_Ok in Heb.
  destruct (String.eqb_spec k (key eb)) as [->|_]; [|by injection H as <-].
  exfalso. apply (Hun b (Hn b eq_refl)). unfold keyOf. by rewrite Heb.
Qed.

Lemma st_advance_demote_unlinked fuel : forall i prev nxt s' prev' nxt',
  st_on_path s prev -> slot s prev i = Ok nxt ->
  advance_demote fuel s k i prev nxt = Ok (s', prev', nxt') ->
  s' = s /\ st_on_path s prev'.
Proof.
  induction fuel as [|fuel IH]; intros i prev nxt s' prev' nxt' Hp Hs H; simpl in H;
    [discriminate|].
  destruct nxt as [a|]; [|by injection H as <- <- <-].
  apply bind_Ok in H as (e & He & H).
  destruct (key_lt (key e) k); [|by injection H as <- <- <-].
  apply bind_Ok in H as (nx & Hnx & H). apply bind_Ok in H as (d & Hd & H).
  assert (st_linked s a) as Ha by (by eapply st_slot_linked).
  assert (slot s (Elem a) i = Ok nx) as Hsl.
  { unfold slot. simpl. by rewrite He. }
  apply st_demote_test_unlinked in Hd as ->.
  - by apply (IH i (Elem a) nx s' prev' nxt').
  - intros b ->. by eapply (st_slot_linked (Elem a)).
Qed.

Lemma st_descend_unlinked fuel : forall n prev nxt prevs prevs' s',
  st_on_path s prev ->
  descend fuel s k n prev nxt prevs = Ok (prevs', s') ->
  s' = s /\ forall p0, 1 <= n -> prevs' !! 0 = Some (Some p0) -> st_on_path s p0.
Proof.
  induction n as [|i IH]; intros prev nxt prevs prevs' s' Hp H; simpl in H.
  - injection H as <- <-. split; [done|]. intros; lia.
  - apply bind_Ok in H as (nx & Hnx & H).
    apply bind_Ok in H as ([[s1 prev1] nxt1] & Hadv & H). simpl in H.
    apply bind_Ok in H as (prevs1 & Hst & H).
    apply st_advance_demote_unlinked in Hadv as [-> Hp1]; [|done..].
    destruct i as [|i].
    + simpl in H. injection H as <- <-. split; [done|]. intros p0 _ H0.
      unfold store in Hst. destruct (decide (0 < length prevs)); [|discriminate].
      injection Hst as <-. rewrite list_lookup_insert_eq in H0 by done.
      by injection H0 as <-.
    + destruct (IH _ _ _ _ _ Hp1 H) as [-> Hall]. split; [done|].
      intros p0 _. apply Hall. lia.
Qed.

Lemma st_Remove_unlinked fuel res s' :
  Inv s -> Remove fuel k s = Ok (res, s') ->
  res = None /\ exists prevs, s' = set_cache s prevs.
Proof.
  intros HInv H. pose proof (inv_max _ HInv) as Hm. unfold Remove in H.
  apply bind_Ok in H as ([prevs s1] & Hg & H). simpl in H.
  pose proof Hg as Hg'.
  apply st_getPrevElementNodes_spec in Hg' as (_ & _ & _ & Hc).
  destruct (Hc Hm) as (p0 & c & Hp0 & _ & Hsl & Hnb).
  unfold getPrevElementNodes in Hg.
  apply bind_Ok in Hg as ([prevs' s0] & Hd & Hg). simpl in Hg. injection Hg as <- <-.
  apply st_descend_unlinked in Hd as [-> Hpath]; [|done].
  specialize (Hpath p0 Hm Hp0).
  unfold idx in H. rewrite Hp0 in H. simpl in H. rewrite Hsl in H. simpl in H.
  destruct c as [a|]; [|injection H as <- <-; eauto].
  apply bind_Ok in H as (e & He & H).
  destruct (key_le (key e) k) eqn:Hle; [|injection H as <- <-; eauto].
  exfalso. apply st_getElement_Ok in He.
  destruct Hnb as (e' & He' & Hlt). rewrite He in He'. injection He' as <-.
  assert (st_linked s a) as Ha.
  { apply (st_slot_linked p0 0 a Hpath). exact Hsl. }
  apply (Hun a Ha). unfold keyOf. simpl in He. rewrite He.
  by apply match_test_eq.
Qed.
End Unlinked.

Lemma st_Remove_safe_Inv s k fuel res s' :
  StashList.Inv s -> StashList.Remove fuel k s = Ok (res, s') -> st_Remove_safe s k res s'.
Proof.
  intros HInv H. split.
  - pose proof H as H'. apply StashListFacts.st_Remove_spec in H' as [_ Hres]; [|done].
    destruct res as [a|]; [done|].
    destruct Hres as (prevs & Hp).
    by apply StashListFacts.st_getPrevElementNodes_spec in Hp as (_ & ? & _).
  - intros Hun. eapply st_Remove_unlinked; eauto.
Qed.

Lemma sk_five_reachable : SkipList.reachable sk_five.
Proof. apply (SkipListFacts.sk_run_from_reachable 4 sk_five_ops). vm_compute. reflexivity. Defined.

Lemma st_two_reachable : StashList.reachable st_two.
Proof. apply (StashListFacts.st_run_from_reachable 2 st_two_ops). vm_compute. reflexivity. Defined.

Lemma st_ghost_reachable : StashList.reachable st_ghost.
Proof. apply (StashListFacts.st_run_from_reachable 2 st_ghost_ops). vm_compute. reflexivity. Defined.

Lemma st_low_reachable : StashList.reachable st_low.
Proof. apply (StashListFacts.st_run_from_reachable 2 st_low_ops). vm_compute. reflexivity. Defined.

Lemma st_one_reachable : StashList.reachable st_one.
Proof.
  apply (StashListFacts.st_run_from_reachable 2 [StashList.OpAdd "1" b1 (draw_for 1)]).
  vm_compute. reflexivity.
Defined.

(** C1 (adaptive list).  On a list of two levels holding "1" and "2", both
    drawn at level 2, [Remove "2"] returns the element of "2" and lowers the
    count, yet level 1 still links that element afterwards.  After [Add "0"]
    at level 2 a second [Remove "2"] finds nothing, and still takes the
    element of "0" off level 1 and lowers its level. *)
Theorem c1_remove_adaptive :
  st_run_from 2 st_two_ops = Ok st_two /\
  StashList.chain st_two 0 = Ok [0; 1] /\
  StashList.chain st_two 1 = Ok [0; 1] /\
  StashList.keyOf st_two 1 = "2" /\
  StashList.Remove (StashList.fuel_of st_two) "2" st_two = Ok (Some 1, st_ghost) /\
  StashList.Length st_two = 2%Z /\ StashList.Length st_ghost = 1%Z /\
  StashList.chain st_ghost 0 = Ok [0] /\
  StashList.chain st_ghost 1 = Ok [1] /\
  ~ st_Remove_unlinks st_two "2" (StashList.fuel_of st_two) /\
  st_run_from 2 st_again_ops = Ok st_again /\
  StashList.chain st_again 1 = Ok [2; 1] /\
  StashList.Remove (StashList.fuel_of st_again) "2" st_again = Ok (None, st_again_miss) /\
  StashList.chain st_again_miss 1 = Ok [1] /\
  st_level_at st_again 2 = Some 2%Z /\ st_level_at st_again_miss 2 = Some 1%Z /\
  ~ st_Remove_miss_keeps st_again "2" (StashList.fuel_of st_again).
Proof.
  assert (StashList.Remove (StashList.fuel_of st_two) "2" st_two = Ok (Some 1, st_ghost))
    as Hrm by (vm_compute; reflexivity).
  assert (StashList.chain st_ghost 1 = Ok [1]) as Hch by (vm_compute; reflexivity).
  assert (StashList.Remove (StashList.fuel_of st_again) "2" st_again
          = Ok (None, st_again_miss)) as Hrm2 by (vm_compute; reflexivity).
  do 4 (split; [vm_compute; reflexivity|]). split; [exact Hrm|].
  do 3 (split; [vm_compute; reflexivity|]). split; [exact Hch|]. split.
  { intros H. apply (H 1 st_ghost Hrm 1 [1]); [vm_compute; lia|exact Hch|].
    apply list_elem_of_singleton. reflexivity. }
  do 2 (split; [vm_compute; reflexivity|]). split; [exact Hrm2|].
  do 3 (split; [vm_compute; reflexivity|]).
  intros H. destruct (H st_again_miss Hrm2) as (Hl & _). vm_compute in Hl. discriminate.
Qed.

(** Baseline list: in every reachable state [Remove k] returns.  When no
    element holds [k] it finds nothing and leaves the head, the elements and
    the count as they were.  Otherwise it returns the element that holds
    [k], every level loses that element and nothing else, the links
    rewritten are those of the recorded predecessors below the element's
    height, each taking over the element's own link at its level, and the
    count drops by one. *)
Theorem sk_remove_unlinks s k fuel :
  SkipList.reachable s -> length (SkipList.heap s) < fuel -> sk_Remove_ok s k fuel.
Proof.
  intros [L HRep]%SkipListFacts.reachable_Rep Hfuel.
  apply (sk_Remove_ok_Rep s L); [done|].
  pose proof (SkipListFacts.Rep_length _ _ HRep). lia.
Qed.

Lemma sk_remove_unlinks_witness :
  SkipList.reachable sk_five /\ sk_Remove_ok sk_five "20" 6.
Proof.
  split; [exact sk_five_reachable|].
  apply (sk_remove_unlinks sk_five "20" 6); [exact sk_five_reachable|].
  vm_compute. lia.
Defined.

(** Adaptive list: whenever [Remove k] returns on a reachable state, the
    count drops by one exactly when an element is returned, and that element
    holds [k]; and when no element that the head reaches along links of any
    level holds [k], the call finds nothing and changes nothing but the
    scratch cache of predecessors. *)
Theorem st_remove_safe s k fuel res s' :
  StashList.reachable s -> StashList.Remove fuel k s = Ok (res, s') ->
  st_Remove_safe s k res s'.
Proof.
  intros HInv%StashListFacts.st_reachable_Inv H. eapply st_Remove_safe_Inv; eauto.
Qed.

Lemma st_remove_safe_witness :
  StashList.reachable st_two /\
  StashList.Remove 3 "2" st_two = Ok (Some 1, st_ghost) /\
  st_Remove_safe st_two "2" (Some 1) st_ghost.
Proof.
  assert (StashList.Remove 3 "2" st_two = Ok (Some 1, st_ghost)) as H
    by (vm_compute; reflexivity).
  split; [exact st_two_reachable|]. split; [exact H|].
  exact (st_remove_safe st_two "2" 3 (Some 1) st_ghost st_two_reachable H).
Defined.

Section Spin.
Import StashList.

Lemma st_advance_spins fuel :
  advance fuel st_loop "35" 1 (Elem 3) (Some 3) = OutOfFuel.
Proof. induction fuel as [|fuel IH]; [reflexivity|]. exact IH. Qed.

Lemma st_advance_demote_spins fuel :
  advance_demote fuel st_loop "35" 1 (Elem 3) (Some 3) = OutOfFuel.
Proof. induction fuel as [|fuel IH]; [reflexivity|]. exact IH. Qed.

Lemma st_search_levels_spins fuel :
  search_levels fuel st_loop "35" 3 Head None = OutOfFuel.
Proof.
  destruct fuel as [|[|fuel]]; [reflexivity..|].
  change (search_levels (S (S fuel)) st_loop "35" 3 Head None)
    with ('(prev', nxt') ← advance fuel st_loop "35" 1 (Elem 3) (Some 3);
          search_levels (S (S fuel)) st_loop "35" 1 prev' nxt').
  by rewrite st_advance_spins.
Qed.

Lemma st_descend_spins fuel :
  getPrevElementNodes fuel "35" st_loop = OutOfFuel.
Proof.
  destruct fuel as [|[|fuel]]; [reflexivity..|].
  change (getPrevElementNodes (S (S fuel)) "35" st_loop)
    with ('(prevs, s) ←
            ('(s, prev', nxt') ← advance_demote fuel st_loop "35" 1 (Elem 3) (Some 3);
             prevs' ← store [Some (Elem 0); Some (Elem 0); Some Head] 1 (Some prev');
             descend (S (S fuel)) s "35" 1 prev' nxt' prevs');
          Ok (prevs, set_cache s prevs)).
  by rewrite st_advance_demote_spins.
Qed.
End Spin.

(** Adaptive list: a call need not return.  On a list of three levels, after
    [Add] of "1", "4" and "2" at level 3 and of "3" at level 2, [Remove "2"],
    [Get "1"], [Remove "4"] and two more [Add "3"], the element of "3"
    links itself at level 1; the keys held are "1", "4", "2" and "3", and [Get "35"],
    [Remove "35"] and [Add "35"] never return. *)
Theorem st_search_spins :
  st_run_from 3 st_loop_ops = Ok st_loop /\
  StashList.slot st_loop (Elem 3) 1 = Ok (Some 3) /\
  map StashList.key (StashList.heap st_loop) = ["1"; "4"; "2"; "3"] /\
  st_never_returns st_loop (StashList.OpGet "35") /\
  st_never_returns st_loop (StashList.OpRemove "35") /\
  forall v r, st_never_returns st_loop (StashList.OpAdd "35" v r).
Proof.
  do 3 (split; [vm_compute; reflexivity|]). split; [|split].
  - intros fuel. unfold StashList.exec, StashList.Get.
    change (StashList.maxLevel st_loop) with 3. by rewrite st_search_levels_spins.
  - intros fuel. unfold StashList.exec, StashList.Remove. by rewrite st_descend_spins.
  - intros v r fuel. unfold StashList.exec, StashList.Add. by rewrite st_descend_spins.
Qed.

(** C2 (adaptive list).  After [Add "1"], [Add "2"] (both drawn at level 2)
    and [Remove "2"] on a list of two levels, level 1 links the element of
    "2" and level 0 does not: the level above is not a part of the level
    below. *)
Theorem c2_levels_adaptive :
  st_run_from 2 st_ghost_ops = Ok st_ghost /\
  StashList.chain st_ghost 0 = Ok [0] /\
  StashList.chain st_ghost 1 = Ok [1] /\
  ~ st_levels_ok st_ghost.
Proof.
  assert (StashList.chain st_ghost 0 = Ok [0]) as H0 by (vm_compute; reflexivity).
  assert (StashList.chain st_ghost 1 = Ok [1]) as H1 by (vm_compute; reflexivity).
  split; [vm_compute; reflexivity|]. split; [exact H0|]. split; [exact H1|].
  intros H. destruct (H 1) as (Li & HLi & _ & Hsub); [vm_compute; lia|].
  destruct (Hsub 0 eq_refl) as (Lj & HLj & Hin).
  rewrite H1 in HLi. rewrite H0 in HLj.
  injection HLi as <-. injection HLj as <-.
  specialize (Hin 1). rewrite !list_elem_of_singleton in Hin.
  specialize (Hin eq_refl). discriminate.
Qed.

(** Baseline list: in every reachable state each level is sorted by strictly
    increasing key and each level above the bottom is a subsequence of the
    level below. *)
Theorem sk_levels_sorted_nested s : SkipList.reachable s -> sk_levels_ok s.
Proof.
  intros [L HRep]%SkipListFacts.reachable_Rep i Hi.
  exists (SkipList.level_of s i L). split; [by apply SkipListFacts.chain_Rep|].
  split.
  - apply SkipListFacts.sorted_keys_filter, HRep.
  - intros j ->. exists (SkipList.level_of s j L).
    split; [apply SkipListFacts.chain_Rep; [done|lia]|].
    apply SkipListFacts.level_of_sublist.
Qed.

Lemma sk_levels_sorted_nested_witness :
  SkipList.reachable sk_five /\ sk_levels_ok sk_five.
Proof.
  split; [exact sk_five_reachable|].
  apply (sk_levels_sorted_nested sk_five). exact sk_five_reachable.
Defined.

(** Baseline list: the count is the number of elements on the bottom level. *)
Theorem sk_count_is_length s : SkipList.reachable s -> sk_count_ok s.
Proof.
  intros [L HRep]%SkipListFacts.reachable_Rep. exists L. split.
  - rewrite (SkipListFacts.chain_Rep s L 0 HRep) by (pose proof (SkipList.rep_max _ _ HRep); lia).
    by rewrite (SkipListFacts.level_of_zero s L HRep).
  - apply HRep.
Qed.

Lemma sk_count_is_length_witness : SkipList.reachable sk_five /\ sk_count_ok sk_five.
Proof.
  split; [exact sk_five_reachable|].
  apply (sk_count_is_length sk_five). exact sk_five_reachable.
Defined.

(** C3 (as amended).  In every reachable state of the adaptive list: no
    element's level is above [maxLevel]; a call raises an element's level
    only if it is an [Add] of the element's key that finds the element
    marked visited, and then by exactly one; and an [Add] that creates an
    element marks it visited exactly when the drawn level is 1. *)
Theorem c3_levels s : StashList.reachable s -> st_level_rules s.
Proof.
  intros HInv%StashListFacts.st_reachable_Inv. split; [|split].
  - intros a e He. by apply (StashList.inv_elem _ HInv a e).
  - intros fuel op out s' a e e' Hex He He' Hlt.
    eapply StashListFacts.st_exec_level_up; eauto.
  - intros fuel k v r s' HAdd Hlen.
    destruct (StashListFacts.st_Add_spec fuel k v r s s' HAdd HInv)
      as (_ & _ & _ & [[Hsame _]|[_ (lvl & e' & Hr & _ & He' & Hk & Hl & Hv & _)]]).
    + lia.
    + by exists lvl, e'.
Qed.

Lemma c3_levels_witness : StashList.reachable st_low /\ st_level_rules st_low.
Proof.
  split; [exact st_low_reachable|].
  apply (c3_levels st_low). exact st_low_reachable.
Defined.

(** A promotion on a single hit: "2" is created at level 1, hence marked
    visited, and the first [Add] that finds it raises it to level 2. *)
Lemma c3_levels_counterexample :
  st_run_from 2 st_low_ops = Ok st_low /\
  st_level_at st_low 1 = Some 1%Z /\
  st_visited_at st_low 1 = Some true /\
  StashList.Add (StashList.fuel_of st_low) "2" b9 (draw_for 1) st_low = Ok st_low_hit /\
  st_level_at st_low_hit 1 = Some 2%Z.
Proof. repeat split; vm_compute; reflexivity. Qed.

Lemma st_Get_ok_holds fuel k s v b s' :
  StashList.Get fuel k s = Ok (v, b, s') -> st_Get_ok s k v b s'.
Proof.
  intros H. apply StashListFacts.st_Get_spec in H
    as [(-> & -> & ->)|(-> & a & e & He & Hk & -> & ->)].
  - split; [|split; [done|discriminate]].
    do 5 (split; [done|]). intros a e He. by exists e.
  - assert (a < length (StashList.heap s)) as Ha by (by eapply lookup_lt_Some).
    split; [|split; [discriminate|]].
    + do 4 (split; [done|]). split.
      { unfold StashList.mark_visited. simpl. by rewrite length_insert. }
      intros c ec Hc. unfold StashList.mark_visited. simpl.
      destruct (decide (c = a)) as [->|Hne].
      * rewrite list_lookup_insert_eq by done. eexists. split; [done|].
        simpl. by simplify_eq.
      * rewrite list_lookup_insert_ne by done. by exists ec.
    + intros _. exists a, e. do 3 (split; [done|]). split.
      * unfold st_visited_at, StashList.mark_visited. simpl.
        by rewrite list_lookup_insert_eq.
      * intros c Hc. unfold StashList.mark_visited. simpl.
        by rewrite list_lookup_insert_ne.
Qed.

(** C4 (as amended).  [Get k] on the adaptive list walks the levels without
    touching them.  A miss returns [(nil, false)] and leaves the list as it
    was.  A hit returns the value of an element that holds [k] and sets that
    element's visited mark; nothing else changes: every link, every level,
    every key and value, the head and the count are as before. *)
Theorem c4_get fuel k s v b s' :
  StashList.Get fuel k s = Ok (v, b, s') -> st_Get_ok s k v b s'.
Proof. apply st_Get_ok_holds. Qed.

Lemma c4_get_witness :
  StashList.Get 3 "2" st_two = Ok (b2, true, StashList.mark_visited st_two 1
    (StashList.mkElement (StashList.mkNode [None; None] 2 false) "2" b2)) /\
  st_Get_ok st_two "2" b2 true (StashList.mark_visited st_two 1
    (StashList.mkElement (StashList.mkNode [None; None] 2 false) "2" b2)).
Proof.
  assert (StashList.Get 3 "2" st_two = Ok (b2, true, StashList.mark_visited st_two 1
    (StashList.mkElement (StashList.mkNode [None; None] 2 false) "2" b2))) as H
    by (vm_compute; reflexivity).
  split; [exact H|]. exact (c4_get 3 "2" st_two _ _ _ H).
Defined.

(** No [Get] demotes: there is no reachable state in which a [Get] changes a
    link or a level.  In [st_two] the descent of [Remove "2"] demotes "1",
    while [Get "2"] on the same list leaves "1" at level 2. *)
Lemma c4_get_counterexample :
  ~ (exists s fuel k, StashList.reachable s /\ st_Get_restructures s fuel k) /\
  (exists s', StashList.Get 3 "2" st_two = Ok (b2, true, s') /\
              st_level_at s' 0 = Some 2%Z) /\
  (exists prevs s', StashList.getPrevElementNodes 3 "2" st_two = Ok (prevs, s') /\
                    st_level_at s' 0 = Some 1%Z).
Proof.
  split; [|split].
  - intros (s & fuel & k & _ & v & b & s' & HGet & Hch).
    apply st_Get_ok_holds in HGet as [(Hl & _ & _ & _ & _ & Hel) _].
    destruct Hch as [Hch|(a & e & e' & He & He' & Hch)].
    + by rewrite Hl in Hch.
    + destruct (Hel a e He) as (e2 & He2 & Hn & Hlv & _).
      rewrite He' in He2. injection He2 as <-.
      destruct Hch as [Hch|Hch]; congruence.
  - eexists. split; vm_compute; reflexivity.
  - eexists _, _. split; vm_compute; reflexivity.
Qed.

Lemma sk_linked_by_height_Rep s L : SkipList.Rep s L -> sk_linked_by_height s.
Proof.
  intros HRep. pose proof (SkipList.rep_max _ _ HRep) as Hm.
  exists L. split.
  { rewrite (SkipListFacts.chain_Rep s L 0 HRep) by lia.
    by rewrite (SkipListFacts.level_of_zero s L HRep). }
  split. { intros a Ha. by apply (SkipList.rep_elems _ _ HRep). }
  intros i Hi. exists (SkipList.level_of s i L).
  split; [by apply SkipListFacts.chain_Rep|].
  intros a. unfold SkipList.level_of. rewrite list_elem_of_filter. tauto.
Qed.

(** C5 (as amended).  Baseline list: in every reachable state an element is
    linked into level [i] exactly when its [next] array is longer than [i],
    the array has between 1 and [maxLevel] entries, and no call changes the
    length of the array of an element that exists.  Adaptive list: the
    [next] array of every element has [maxLevel] entries, and the level is
    at most [maxLevel]. *)
Theorem c5_heights :
  (forall s, SkipList.reachable s ->
     sk_linked_by_height s /\
     forall fuel op out s' a,
       SkipList.exec fuel op s = Ok (out, s') -> a < length (SkipList.heap s) ->
       SkipList.heightOf s' a = SkipList.heightOf s a) /\
  (forall s, StashList.reachable s -> st_arrays_full s).
Proof.
  split.
  - intros s Hs. split.
    + destruct (SkipListFacts.reachable_Rep s Hs) as [L HRep].
      by apply (sk_linked_by_height_Rep s L).
    + intros fuel op out s' a Hex Ha. eapply SkipListFacts.sk_exec_height; eauto.
  - intros s HInv%StashListFacts.st_reachable_Inv a e He.
    destruct (StashList.inv_elem _ HInv a e He). done.
Qed.

Lemma c5_heights_witness : sk_linked_by_height sk_five /\ st_arrays_full st_one.
Proof.
  split.
  - exact (proj1 (proj1 c5_heights sk_five sk_five_reachable)).
  - exact (proj2 c5_heights st_one st_one_reachable).
Defined.

(** In the adaptive list the array is not as long as the level: the one
    element of [st_one] is at level 1 and has a [next] array of 2 entries. *)
Lemma c5_heights_counterexample :
  StashList.reachable st_one /\
  st_level_at st_one 0 = Some 1%Z /\
  (length <$> (StashList.next <$> (StashList.enode <$> StashList.heap st_one !! 0))) = Some 2 /\
  ~ st_array_is_level st_one.
Proof.
  split; [exact st_one_reachable|]. split; [vm_compute; reflexivity|].
  split; [vm_compute; reflexivity|].
  intros H. specialize (H 0 _ eq_refl). vm_compute in H. discriminate.
Qed.

(** C6 (adaptive list).  "3" is added with value [b3] and never removed or
    overwritten; it is found until [Remove "1"] runs, and lost after it. *)
Theorem c6_get_lost :
  st_run_from 2 st_mid_ops = Ok st_mid /\
  StashList.Get (StashList.fuel_of st_mid) "3" st_mid =
    Ok (b3, true, st_mid) /\
  StashList.Remove (StashList.fuel_of st_mid) "1" st_mid = Ok (Some 0, st_lost) /\
  st_run_from 2 st_lost_ops = Ok st_lost /\
  StashList.Get (StashList.fuel_of st_lost) "3" st_lost = Ok ([], false, st_lost).
Proof. repeat split; vm_compute; reflexivity. Qed.

(** C7 (adaptive list).  Two [Add]s of "3" to a reachable list that holds
    "3": the first finds the element, the second does not and creates
    another, so that the count goes from 2 to 3 and two linked elements hold
    "3". *)
Theorem c7_add_twice_dup :
  st_run_from 2 st_dup0_ops = Ok st_dup0 /\
  StashList.Add (StashList.fuel_of st_dup0) "3" b4 (draw_for 1) st_dup0 = Ok st_dup1 /\
  StashList.Add (StashList.fuel_of st_dup1) "3" b5 (draw_for 1) st_dup1 = Ok st_dup2 /\
  StashList.Length st_dup1 = 2%Z /\ StashList.Length st_dup2 = 3%Z /\
  StashList.chain st_dup2 0 = Ok [0; 3] /\ StashList.chain st_dup2 1 = Ok [2] /\
  StashList.keyOf st_dup2 2 = "3" /\ StashList.keyOf st_dup2 3 = "3".
Proof. repeat split; vm_compute; reflexivity. Qed.

(** Baseline list: a key added with value [v] and not written by the calls
    that follow is found, with [v], whatever those calls do to other keys;
    every call of the run returns. *)
Theorem sk_get_after_add s k v r ops :
  SkipList.reachable s -> Forall (fun op => ~ SkipList.writes k op) ops ->
  sk_round_trip s k v r ops.
Proof.
  intros [L HRep]%SkipListFacts.reachable_Rep Hops.
  destruct (SkipListFacts.Add_spec s k L _ HRep (SkipListFacts.Rep_fuel _ _ HRep) v r)
    as (s1 & L1 & HAdd & HRep1 & _ & Hc1 & _).
  destruct (SkipListFacts.run_abs ops s1 L1 HRep1) as (s2 & L2 & Hrun & HRep2 & Hc2).
  exists s1, s2. split; [done|]. split; [done|].
  rewrite (SkipListFacts.Get_spec s2 L2 k _ HRep2 (SkipListFacts.Rep_fuel _ _ HRep2)).
  rewrite Hc2, SkipListFacts.abs_run_untouched by done.
  rewrite Hc1. by rewrite String.eqb_refl.
Qed.

Lemma sk_get_after_add_witness :
  sk_round_trip sk_five "40" b9 (draw_for 2)
    [SkipList.OpRemove "30"; SkipList.OpAdd "50" b1 (draw_for 3); SkipList.OpGet "40"].
Proof.
  apply (sk_get_after_add sk_five "40" b9 (draw_for 2)); [exact sk_five_reachable|].
  repeat constructor; simpl; try discriminate; tauto.
Defined.

(** Baseline list: [Add k v1] followed by [Add k v2] leaves one element
    under [k] on the bottom level, [Get k] returns [v2], and the second
    [Add] changes neither the count nor the number of elements created. *)
Theorem sk_add_twice s k v1 v2 r1 r2 :
  SkipList.reachable s -> sk_add_twice_ok s k v1 v2 r1 r2.
Proof.
  intros [L HRep]%SkipListFacts.reachable_Rep.
  destruct (SkipListFacts.Add_spec s k L _ HRep (SkipListFacts.Rep_fuel _ _ HRep) v1 r1)
    as (s1 & L1 & HAdd1 & HRep1 & _ & Hc1 & _).
  destruct (SkipListFacts.Add_spec s1 k L1 _ HRep1 (SkipListFacts.Rep_fuel _ _ HRep1) v2 r2)
    as (s2 & L2 & HAdd2 & HRep2 & _ & Hc2 & Hcase).
  specialize (Hc1 k). specialize (Hc2 k). rewrite String.eqb_refl in Hc1, Hc2.
  unfold SkipList.content in Hc1, Hc2.
  destruct (SkipList.find_key s1 k L1) as [c1|] eqn:Hf1; [|discriminate].
  destruct (SkipList.find_key s2 k L2) as [c2|] eqn:Hf2; [|discriminate].
  destruct Hcase as (-> & HLen & Hheap).
  exists s1, s2, L1. do 2 (split; [done|]).
  pose proof (SkipList.rep_max _ _ HRep2) as Hm. split.
  { rewrite (SkipListFacts.chain_Rep s2 L1 0 HRep2) by lia.
    by rewrite (SkipListFacts.level_of_zero s2 L1 HRep2). }
  split. { eapply SkipListFacts.count_key_found; [apply HRep2|done]. }
  split; [|done].
  rewrite (SkipListFacts.Get_spec s2 L1 k _ HRep2 (SkipListFacts.Rep_fuel _ _ HRep2)).
  unfold SkipList.content. rewrite Hf2. simpl in *. by simplify_eq.
Qed.

Lemma sk_add_twice_witness :
  SkipList.reachable sk_five /\ sk_add_twice_ok sk_five "40" b1 b2 (draw_for 2) (draw_for 3).
Proof.
  split; [exact sk_five_reachable|].
  apply (sk_add_twice sk_five). exact sk_five_reachable.
Defined.

Lemma sk_candidate_exact_holds fuel k s prevs s1 :
  1 <= SkipList.maxLevel s ->
  SkipList.getPrevElementNodes fuel k s = Ok (prevs, s1) ->
  sk_candidate_exact k prevs s1.
Proof.
  intros Hm H.
  apply SkipListFacts.sk_getPrevElementNodes_candidate in H
    as (_ & p0 & c & Hp & Hb & Hs & Hc); [|done].
  exists p0, c. do 3 (split; [done|]). destruct c as [a|]; [|done].
  destruct Hc as (e & He & Hk). exists e. do 2 (split; [done|]).
  by apply match_test_eq.
Qed.


Lemma sk_Add_hit_exact s L fuel k v r s' :
  SkipList.Rep s L ->
  SkipList.Add fuel k v r s = Ok s' ->
  length (SkipList.heap s') = length (SkipList.heap s) ->
  exists a e, SkipList.heap s !! a = Some e /\ SkipList.key e = k.
Proof.
  intros HRep HAdd Hlen.
  assert (SkipList.exec fuel (SkipList.OpAdd k v r) s = Ok (SkipList.OutAdd, s')) as Hex
    by (simpl; by rewrite HAdd).
  apply (SkipListFacts.exec_fuel_mono fuel (fuel `max` SkipList.fuel_of s)) in Hex; [|lia].
  pose proof (SkipListFacts.Rep_fuel _ _ HRep) as Hf.
  destruct (SkipListFacts.Add_spec s k L (fuel `max` SkipList.fuel_of s) HRep
              ltac:(lia) v r) as (s2 & L2 & HAdd2 & _ & _ & _ & Hcase).
  simpl in Hex. rewrite HAdd2 in Hex. simpl in Hex. injection Hex as ->.
  destruct (SkipList.find_key s k L) as [a|] eqn:Hf1.
  - apply SkipListFacts.find_key_Some in Hf1 as [Ha Hk].
    destruct (SkipList.rep_elems _ _ HRep a Ha) as [Hlt _].
    destruct (lookup_lt_is_Some_2 _ _ Hlt) as [e He].
    exists a, e. split; [done|]. unfold SkipList.keyOf in Hk. by rewrite He in Hk.
  - destruct Hcase as (? & ? & ? & _ & _ & _ & Hh & _). lia.
Qed.

Lemma sk_match_exact_Rep s L k : SkipList.Rep s L -> sk_match_exact s k.
Proof.
  intros HRep. pose proof (SkipList.rep_max _ _ HRep) as Hm.
  split; [|split; [|split; [|split]]].
  - intros fuel prevs s1 H. by eapply sk_candidate_exact_holds.
  - intros fuel v b H.
    apply SkipListFacts.sk_Get_exact in H as [[-> ->]|[-> H]]; done.
  - intros fuel v b H Habs.
    apply SkipListFacts.sk_Get_exact in H as [[-> ->]|[-> (a & e & He & Hk & _)]]; [done|].
    by destruct (Habs a e He).
  - intros fuel a s' H. by eapply SkipListFacts.sk_Remove_exact.
  - intros fuel v r s' H Hlen. by eapply sk_Add_hit_exact.
Qed.

Lemma sk_candidate_first_Rep s L k : SkipList.Rep s L -> sk_candidate_first s k (SkipList.fuel_of s).
Proof.
  intros HRep. pose proof (SkipList.rep_max _ _ HRep) as Hm.
  pose proof (SkipListFacts.Rep_fuel _ _ HRep) as Hf.
  destruct (SkipListFacts.splits_exists s k L (SkipList.rep_sorted _ _ HRep))
    as (L1 & L2 & Hsp).
  destruct (SkipListFacts.getPrevElementNodes_spec s k L L1 L2 _ HRep Hsp Hf)
    as (prevs & Hg & _ & Hp).
  exists L1, L2, prevs, (SkipList.predAt s L1 0).
  pose proof Hsp as (HL & H1 & H2).
  split.
  { rewrite (SkipListFacts.chain_Rep s L 0 HRep) by lia.
    by rewrite (SkipListFacts.level_of_zero s L HRep), HL. }
  do 3 (split; [done|]). split; [apply Hp; lia|].
  by eapply SkipListFacts.candidate_spec.
Qed.


(** C8 (adaptive list).  On a list of two levels, after [Add "1"] and
    [Add "2"] at level 2, [Remove "2"] and [Add "3"] at level 1, the bottom
    level links the element of "1" alone, and the candidate of the descent
    for "3" is the element of "3", which hangs off the removed element of
    "2": it is not the first element of the bottom level whose key is not
    below "3".  With [Add "3"] at level 2 instead, followed by a second
    [Add "3"], level 1 links the element of "3", and the candidate of the
    descent for "3" is nil: [Get "3"] finds nothing. *)
Theorem c8_candidate_adaptive :
  st_run_from 2 st_mid_ops = Ok st_mid /\
  StashList.chain st_mid 0 = Ok [0] /\
  StashList.chain st_mid 1 = Ok [1] /\
  StashList.keyOf st_mid 0 = "1" /\ StashList.keyOf st_mid 1 = "2" /\
  StashList.keyOf st_mid 2 = "3" /\
  StashList.getPrevElementNodes (StashList.fuel_of st_mid) "3" st_mid
    = Ok ([Some (Elem 1); Some (Elem 1)], st_mid) /\
  StashList.slot st_mid (Elem 1) 0 = Ok (Some 2) /\
  ~ st_candidate_first st_mid "3" (StashList.fuel_of st_mid) /\
  st_run_from 2 st_dup0_ops = Ok st_dup0 /\
  StashList.Add (StashList.fuel_of st_dup0) "3" b4 (draw_for 1) st_dup0 = Ok st_dup1 /\
  StashList.chain st_dup1 0 = Ok [0] /\
  StashList.chain st_dup1 1 = Ok [2] /\
  StashList.keyOf st_dup1 2 = "3" /\
  StashList.Get (StashList.fuel_of st_dup1) "3" st_dup1 = Ok ([], false, st_dup1) /\
  ~ st_candidate_finds st_dup1 "3" (StashList.fuel_of st_dup1).
Proof.
  assert (StashList.chain st_mid 0 = Ok [0]) as Hch by (vm_compute; reflexivity).
  assert (StashList.getPrevElementNodes (StashList.fuel_of st_mid) "3" st_mid
          = Ok ([Some (Elem 1); Some (Elem 1)], st_mid)) as Hg by (vm_compute; reflexivity).
  assert (StashList.slot st_mid (Elem 1) 0 = Ok (Some 2)) as Hsl by (vm_compute; reflexivity).
  assert (StashList.chain st_dup1 1 = Ok [2]) as Hch1 by (vm_compute; reflexivity).
  split; [vm_compute; reflexivity|]. split; [exact Hch|].
  do 4 (split; [vm_compute; reflexivity|]). split; [exact Hg|]. split; [exact Hsl|].
  split.
  { intros (L1 & L2 & prevs & s1 & p0 & HL & _ & _ & Hg' & Hp & Hs).
    rewrite Hch in HL. rewrite Hg in Hg'. injection HL as HL. injection Hg' as <- <-.
    simpl in Hp. injection Hp as <-. rewrite Hsl in Hs. injection Hs as Hs.
    destruct L2 as [|c L2]; [discriminate|]. simpl in Hs. injection Hs as <-.
    destruct L1 as [|b [|b' L1]]; simpl in HL; discriminate. }
  do 2 (split; [vm_compute; reflexivity|]).
  split; [vm_compute; reflexivity|]. split; [exact Hch1|].
  do 2 (split; [vm_compute; reflexivity|]).
  intros H.
  destruct (H 1 [2] 2) as (prevs & s1 & p0 & Hg' & Hp & Hs);
    [vm_compute; lia|exact Hch1|by apply list_elem_of_singleton|vm_compute; reflexivity|].
  vm_compute in Hg'. injection Hg' as <- <-. simpl in Hp. injection Hp as <-.
  vm_compute in Hs. discriminate.
Qed.

(** Baseline list, every reachable state: the descent for [k] returns, and
    its candidate, the successor at level 0 of the recorded predecessor, is
    the first element of the bottom level whose key is not below [k].  So
    the test [element.key <= key] holds exactly when the candidate's key is
    [k]; [Get k] returns [true] only with the value of an element that holds
    [k], and never when no element holds [k]; [Remove k] returns only an
    element that holds [k]; and [Add k] updates in place only when an
    element holds [k]. *)
Theorem sk_match_exact_first s k :
  SkipList.reachable s ->
  sk_match_exact s k /\ sk_candidate_first s k (SkipList.fuel_of s).
Proof.
  intros [L HRep]%SkipListFacts.reachable_Rep. split.
  - by apply (sk_match_exact_Rep s L).
  - by apply (sk_candidate_first_Rep s L).
Qed.

Lemma sk_match_exact_first_witness :
  SkipList.reachable sk_five /\
  sk_match_exact sk_five "25" /\ sk_candidate_first sk_five "25" 6.
Proof.
  split; [exact sk_five_reachable|].
  exact (sk_match_exact_first sk_five "25" sk_five_reachable).
Defined.



(** C9.  For both variants [NewWithMaxLevel m] panics when [m < 1] or
    [m > 64]; for every [m] from 1 to 64 it returns an empty list of [m]
    levels whose probability is [DefaultProbability = 1 / e]; and the
    default constructors are [NewWithMaxLevel 18]. *)
Theorem c9_construction :
  (forall m, construction_ok m) /\
  SkipList.NewSkipList = SkipList.NewWithMaxLevel 18 /\
  StashList.NewStashList = StashList.NewWithMaxLevel 18 /\
  DefaultProbability = F_div (F_of_Z 1) F_E.
Proof.
  split; [|done]. intros m. unfold construction_ok.
  unfold SkipList.NewWithMaxLevel, StashList.NewWithMaxLevel.
  destruct ((m <? 1) || (m >? 64))%Z eqn:Hm.
  - split; [done|]. intros Hin.
    apply orb_true_iff in Hm as [Hm|Hm]; [apply Z.ltb_lt in Hm|apply Z.gtb_lt in Hm]; lia.
  - apply orb_false_iff in Hm as [H1 H2].
    apply Z.ltb_ge in H1. rewrite Z.gtb_ltb in H2. apply Z.ltb_ge in H2.
    split; [lia|]. intros _. eexists _, _. do 3 (split; [done|]). done.
Qed.

Lemma c9_construction_witness :
  construction_ok 0 /\ construction_ok 65 /\ construction_ok 1 /\
  construction_ok 64 /\ construction_ok 18.
Proof.
  pose proof (proj1 c9_construction) as H.
  exact (conj (H 0%Z) (conj (H 65%Z) (conj (H 1%Z) (conj (H 64%Z) (H 18%Z))))).
Defined.

(** Baseline list: every call on a reachable state returns, with fuel
    [fuel_of s], and the state it leaves is reachable. *)
Theorem sk_calls_return s op : SkipList.reachable s -> sk_call_returns s op.
Proof.
  intros Hs. destruct (SkipListFacts.sk_exec_total s op Hs) as (out & s' & Hex).
  exists out, s'. split; [done|]. by eapply SkipList.reach_step.
Qed.

Lemma sk_calls_return_witness :
  SkipList.reachable sk_five /\ sk_call_returns sk_five (SkipList.OpRemove "30").
Proof.
  split; [exact sk_five_reachable|].
  apply (sk_calls_return sk_five). exact sk_five_reachable.
Defined.

(** Both variants: in every reachable state [randLevel] returns a level
    between 1 and [maxLevel], for every value of the random draw. *)
Theorem randLevel_in_range :
  (forall s r, SkipList.reachable s -> sk_randLevel_ok s r) /\
  (forall s r, StashList.reachable s -> st_randLevel_ok s r).
Proof.
  split.
  - intros s r [L HRep]%SkipListFacts.reachable_Rep.
    pose proof (SkipList.rep_max _ _ HRep) as Hm.
    destruct (randLevel_of_total (SkipList.maxLevel s) (SkipList.probTable s) r Hm
                (SkipList.rep_tbl _ _ HRep)) as [lvl Hl].
    exists lvl. split; [done|]. by eapply randLevel_of_bounds.
  - intros s r HInv%StashListFacts.st_reachable_Inv.
    pose proof (StashList.inv_max _ HInv) as Hm.
    destruct (randLevel_of_total (StashList.maxLevel s) (StashList.probTable s) r Hm
                (StashList.inv_tbl _ HInv)) as [lvl Hl].
    exists lvl. split; [done|]. by eapply randLevel_of_bounds.
Qed.

Lemma randLevel_in_range_witness :
  sk_randLevel_ok sk_five (draw_for 3) /\ st_randLevel_ok st_two (draw_for 7).
Proof.
  split.
  - exact (proj1 randLevel_in_range sk_five (draw_for 3) sk_five_reachable).
  - exact (proj2 randLevel_in_range st_two (draw_for 7) st_two_reachable).
Defined.

(** * Further facts about the baseline list *)

Section MoreBaseline.
Import SkipList SkipListFacts.

Lemma Rep_chain0 s L : Rep s L -> lseg (links s 0) Head L None.
Proof.
  intros HRep. pose proof (rep_max _ _ HRep) as Hm.
  pose proof (rep_links _ _ HRep 0 ltac:(lia)) as H.
  by rewrite (level_of_zero s L HRep) in H.
Qed.

Lemma hd_or_None_head (l : list nat) : hd_or l None = head l.
Proof. by destruct l. Qed.

Lemma lseg_next f r : forall l i a tl,
  lseg f r l tl -> l !! i = Some a ->
  f (Elem a) = Ok (match l !! S i with Some b => Some b | None => tl end).
Proof.
  intros l. revert r. induction l as [|x l IH]; intros r i a tl H Hi; [done|].
  destruct H as [_ H]. destruct i as [|i]; simpl in *.
  - injection Hi as ->. apply lseg_hd in H. rewrite H. by destruct l.
  - by apply (IH (Elem x)).
Qed.

Lemma sk_iteration_Rep s L : Rep s L -> sk_iteration_ok s.
Proof.
  intros HRep. exists L. pose proof (Rep_chain0 s L HRep) as Hseg.
  split. { unfold Front. apply lseg_hd in Hseg. unfold links in Hseg.
           by rewrite Hseg, hd_or_None_head. }
  split. { intros i a Hi. unfold Next.
           rewrite (lseg_next (links s 0) Head L i a None Hseg Hi : slot s (Elem a) 0 = _).
           by destruct (L !! S i). }
  split; [apply HRep|]. split; [apply HRep|].
  intros k. rewrite (Get_spec s L k _ HRep (Rep_fuel _ _ HRep)).
  unfold content. by destruct (find_key s k L).
Qed.

Lemma Get_content s L k :
  Rep s L -> Get (fuel_of s) k s = Ok (get_answer (content s L k)).
Proof.
  intros HRep. rewrite (Get_spec s L k _ HRep (Rep_fuel _ _ HRep)).
  by destruct (content s L k).
Qed.

Lemma sk_run_from_abs m ops :
  (1 <= m <= 64)%Z ->
  exists s L, sk_run_from m ops = Ok s /\ Rep s L /\
    forall k, content s L k = abs_run ops no_binding k.
Proof.
  intros Hm. unfold sk_run_from.
  destruct (NewWithMaxLevel m) as [s0| |] eqn:Hnew.
  2,3: unfold NewWithMaxLevel in Hnew;
       destruct ((m <? 1)%Z || (m >? 64)%Z) eqn:E; [|discriminate];
       apply orb_true_iff in E as [E|E]; [apply Z.ltb_lt in E|apply Z.gtb_lt in E]; lia.
  pose proof (NewWithMaxLevel_Rep m s0 Hnew) as HRep0.
  destruct (run_abs ops s0 [] HRep0) as (s & L & Hrun & HRep & Hc).
  exists s, L. simpl. split; [done|]. split; [done|].
  intros k. rewrite Hc. by apply abs_run_at.
Qed.

Lemma abs_run_not_added ops : forall m k,
  k ∉ added_keys ops -> abs_run ops m k = None \/ abs_run ops m k = m k.
Proof.
  induction ops as [|op ops IH]; intros m k Hk; [by right|].
  change (abs_run (op :: ops) m k) with (abs_run ops (abs_step op m) k).
  assert ((k ∉ added_keys ops) /\ forall k' v r, op = OpAdd k' v r -> k <> k') as [Hk' Hop].
  { destruct op; simpl in Hk; try (split; [done|discriminate]).
    apply not_elem_of_cons in Hk as [Hne Hk]. split; [done|]. by intros ? ? ? [= <- _ _]. }
  destruct (IH (abs_step op m) k Hk') as [H|H]; [by left|]. rewrite H.
  destruct op as [k' v r|k'|k'|p]; simpl; try by right.
  - right. destruct (String.eqb_spec k k'); [|done]. by destruct (Hop k' v r eq_refl).
  - destruct (String.eqb_spec k k'); [by left|by right].
Qed.

Lemma find_key_is_Some s k L :
  is_Some (find_key s k L) <-> k ∈ keyOf s <$> L.
Proof.
  induction L as [|a L IH]; simpl.
  - split; [intros [? [=]]|intros H; inversion H].
  - destruct (String.eqb_spec (keyOf s a) k) as [->|Hne].
    + split; [intros _; apply list_elem_of_here|eauto].
    + rewrite IH. split; [apply list_elem_of_further|].
      intros [?|?]%elem_of_cons; [congruence|done].
Qed.

Lemma sorted_keys_NoDup_keys s L : sorted_keys s L -> NoDup (keyOf s <$> L).
Proof.
  unfold sorted_keys. induction 1 as [|a l Hs IH Hall]; simpl; constructor; auto.
  intros (b & Hb & Hin)%list_elem_of_fmap. rewrite Forall_forall in Hall.
  specialize (Hall b Hin). rewrite Hb, key_lt_irrefl in Hall. discriminate.
Qed.
End MoreBaseline.

(** Baseline list: iterating with [Front] and [Next] visits [Length]
    elements in strictly increasing key order, and [Get] finds exactly the
    keys visited, with the values stored in the elements visited. *)
Theorem sk_iteration s : SkipList.reachable s -> sk_iteration_ok s.
Proof.
  intros [L HRep]%SkipListFacts.reachable_Rep. by apply (sk_iteration_Rep s L).
Qed.

Lemma sk_iteration_witness : SkipList.reachable sk_five /\ sk_iteration_ok sk_five.
Proof.
  split; [exact sk_five_reachable|].
  apply (sk_iteration sk_five). exact sk_five_reachable.
Defined.

(** Baseline list: a list built by [NewWithMaxLevel m], [1 <= m <= 64], and
    driven through any sequence of calls answers every [Get] as the finite
    map that the sequence builds: the value of the last [Add] of the key if
    no [Remove] of the key follows it, and a miss otherwise. *)
Theorem sk_refines_map m ops : (1 <= m <= 64)%Z -> sk_is_map m ops.
Proof.
  intros Hm. destruct (sk_run_from_abs m ops Hm) as (s & L & Hrun & HRep & Hc).
  exists s. split; [done|]. intros k. by rewrite (Get_content s L k HRep), Hc.
Qed.

Lemma sk_refines_map_witness :
  sk_is_map 4 [SkipList.OpAdd "b" b1 (draw_for 2); SkipList.OpAdd "a" b2 (draw_for 1);
               SkipList.OpRemove "b"; SkipList.OpAdd "a" b3 (draw_for 3)].
Proof. apply sk_refines_map. lia. Defined.

(** Baseline list: after any sequence of calls on a new list, [Length] is
    the number of distinct keys that the sequence leaves bound. *)
Theorem sk_length_is_count m ops : (1 <= m <= 64)%Z -> sk_length_counts m ops.
Proof.
  intros Hm. destruct (sk_run_from_abs m ops Hm) as (s & L & Hrun & HRep & Hc).
  exists s. split; [done|]. rewrite (SkipList.rep_len _ _ HRep). f_equal.
  rewrite <- (length_fmap (SkipList.keyOf s) L).
  apply Permutation_length, NoDup_Permutation.
  - apply sorted_keys_NoDup_keys, HRep.
  - apply NoDup_filter, NoDup_remove_dups.
  - intros k. rewrite <- find_key_is_Some. unfold bound_keys.
    rewrite list_elem_of_filter, elem_of_remove_dups.
    specialize (Hc k). unfold SkipList.content in Hc.
    assert (is_Some (SkipList.find_key s k L) <->
            is_Some (SkipList.abs_run ops no_binding k)) as Hiff.
    { rewrite <- Hc. by rewrite fmap_is_Some. }
    rewrite Hiff. split; [|tauto]. intros HS. split; [done|].
    destruct (decide (k ∈ added_keys ops)) as [|Hn]; [done|].
    destruct (abs_run_not_added ops no_binding k Hn) as [E|E];
      rewrite E in HS; by destruct HS.
Qed.

Lemma sk_length_is_count_witness :
  sk_length_counts 4 [SkipList.OpAdd "b" b1 (draw_for 2); SkipList.OpAdd "a" b2 (draw_for 1);
                      SkipList.OpRemove "b"; SkipList.OpAdd "a" b3 (draw_for 3)].
Proof. apply sk_length_is_count. lia. Defined.

(** ** The table of powers and the level loop *)

Section Levels.

Lemma probabilityTable_from_lookup n : forall i p table j,
  probabilityTable_from n i p table !! j =
    if decide (j < length table) then table !! j
    else if decide (j < length table + n)
         then Some (F_pow p (F_of_Z (i - 1 + Z.of_nat (j - length table))))
         else None.
Proof.
  induction n as [|n IH]; intros i p table j; simpl.
  - repeat case_decide; try lia; [done|]. apply lookup_ge_None_2. lia.
  - rewrite IH, length_app. simpl.
    repeat case_decide; try lia.
    + by rewrite lookup_app_l.
    + rewrite lookup_app_r by lia.
      replace (j - length table) with 0 by lia. simpl. do 3 f_equal. lia.
    + do 3 f_equal. lia.
    + done.
Qed.

Lemma probabilityTable_lookup p m j :
  j < m -> probabilityTable p m !! j = Some (F_pow p (F_of_Z (Z.of_nat j))).
Proof.
  intros Hj. unfold probabilityTable. rewrite probabilityTable_from_lookup. simpl.
  repeat case_decide; try lia. do 3 f_equal. lia.
Qed.

Lemma randLevel_from_exact tbl r : forall gap level lvl,
  level + gap <= length tbl ->
  randLevel_from gap level tbl r = Ok lvl <->
  level <= lvl <= level + gap /\
  (forall i p, level <= i < lvl -> tbl !! i = Some p -> r p = true) /\
  (lvl < level + gap -> exists p, tbl !! lvl = Some p /\ r p = false).
Proof.
  induction gap as [|gap IH]; intros level lvl Hlen; simpl.
  - split.
    + intros [= <-]. split; [lia|]. split; [intros; lia|lia].
    + intros (H & _). f_equal. lia.
  - destruct (idx_in_range tbl level ltac:(lia)) as [p Hp]. rewrite Hp. simpl.
    apply idx_Ok in Hp. destruct (r p) eqn:Hr.
    + rewrite IH by lia. split.
      * intros (H1 & H2 & H3). split; [lia|]. split.
        -- intros i q Hi Hq. destruct (decide (i = level)) as [->|]; [congruence|].
           apply (H2 i q); [lia|done].
        -- intros H. apply H3. lia.
      * intros (H1 & H2 & H3).
        assert (lvl <> level) as Hne.
        { intros ->. destruct H3 as (q & Hq & Hrq); [lia|]. congruence. }
        split; [lia|]. split.
        -- intros i q Hi Hq. apply (H2 i q); [lia|done].
        -- intros H. apply H3. lia.
    + split.
      * intros [= <-]. split; [lia|]. split; [intros; lia|]. intros _. by exists p.
      * intros (H1 & H2 & H3). f_equal.
        destruct (decide (lvl = level)) as [|Hne]; [done|].
        assert (r p = true) by (apply (H2 level p); [lia|done]). congruence.
Qed.

Lemma randLevel_of_exact m p r lvl :
  1 <= m ->
  randLevel_of m (probabilityTable p m) r = Ok lvl <-> level_drawn m p r lvl.
Proof.
  intros Hm. unfold randLevel_of, level_drawn.
  rewrite randLevel_from_exact by (rewrite probabilityTable_length; lia).
  replace (1 + (m - 1)) with m by lia. split.
  - intros (H1 & H2 & H3). split; [done|]. split.
    + intros i Hi. apply (H2 i); [done|]. apply probabilityTable_lookup. lia.
    + intros H. destruct (H3 H) as (q & Hq & Hr).
      rewrite probabilityTable_lookup in Hq by lia. congruence.
  - intros (H1 & H2 & H3). split; [done|]. split.
    + intros i q Hi Hq. rewrite probabilityTable_lookup in Hq by lia.
      injection Hq as <-. by apply H2.
    + intros H. eexists. split; [apply probabilityTable_lookup; lia|]. by apply H3.
Qed.
End Levels.

(** ** The configuration is set by [SetProbability] alone *)

Section BaselineCfg.
Import SkipList SkipListFacts.

Lemma same_frame_cfg s s' : same_frame s s' -> sk_cfg s' = sk_cfg s.
Proof. intros []. unfold sk_cfg. congruence. Qed.

Lemma for_up_cfg (body : nat -> SkipList -> Res SkipList) :
  (forall i s s', body i s = Ok s' -> sk_cfg s' = sk_cfg s) ->
  forall n i s s', for_up n i body s = Ok s' -> sk_cfg s' = sk_cfg s.
Proof.
  intros Hbody. induction n as [|n IH]; intros i s s' H; simpl in H.
  - by injection H as <-.
  - apply bind_Ok in H as (s1 & H1 & H). rewrite (IH _ _ _ H). eauto.
Qed.

Lemma link_level_cfg prevs a i s s' : link_level prevs a i s = Ok s' -> sk_cfg s' = sk_cfg s.
Proof.
  unfold link_level. intros H.
  apply bind_Ok in H as (p & _ & H). apply bind_Ok in H as (p' & _ & H).
  apply bind_Ok in H as (nx & _ & H). apply bind_Ok in H as (s1 & H1 & H).
  apply setSlot_frame, same_frame_cfg in H1, H. congruence.
Qed.

Lemma unlink_level_cfg prevs a i s s' : unlink_level prevs a i s = Ok s' -> sk_cfg s' = sk_cfg s.
Proof.
  unfold unlink_level. intros H.
  apply bind_Ok in H as (v & _ & H). apply bind_Ok in H as (p & _ & H).
  apply bind_Ok in H as (p' & _ & H). by apply setSlot_frame, same_frame_cfg in H.
Qed.

Lemma getPrevElementNodes_cfg fuel k s prevs s1 :
  getPrevElementNodes fuel k s = Ok (prevs, s1) -> sk_cfg s1 = sk_cfg s.
Proof.
  unfold getPrevElementNodes. intros H. apply bind_Ok in H as (p & _ & H).
  by injection H as <- <-.
Qed.

Lemma setValue_cfg s a v s' : setValue s a v = Ok s' -> sk_cfg s' = sk_cfg s.
Proof.
  unfold setValue. intros H. apply bind_Ok in H as (e & _ & H). by injection H as <-.
Qed.

Lemma Add_new_cfg prevs k v r s s' : Add_new prevs k v r s = Ok s' -> sk_cfg s' = sk_cfg s.
Proof.
  unfold Add_new. intros H. apply bind_Ok in H as (lvl & _ & H).
  apply bind_Ok in H as (s1 & H1 & H). injection H as <-.
  apply (for_up_cfg _ (link_level_cfg prevs _)) in H1. done.
Qed.

Lemma Add_cfg fuel k v r s s' : Add fuel k v r s = Ok s' -> sk_cfg s' = sk_cfg s.
Proof.
  unfold Add. intros H. apply bind_Ok in H as ([prevs s1] & Hp & H). simpl in H.
  apply getPrevElementNodes_cfg in Hp.
  apply bind_Ok in H as (p0 & _ & H). apply bind_Ok in H as (p0' & _ & H).
  apply bind_Ok in H as (c & _ & H). destruct c as [a|].
  - apply bind_Ok in H as (e & _ & H). destruct (key_le (key e) k).
    + apply setValue_cfg in H. congruence.
    + apply Add_new_cfg in H. congruence.
  - apply Add_new_cfg in H. congruence.
Qed.

Lemma Remove_cfg fuel k s res s' : Remove fuel k s = Ok (res, s') -> sk_cfg s' = sk_cfg s.
Proof.
  unfold Remove. intros H. apply bind_Ok in H as ([prevs s1] & Hp & H). simpl in H.
  apply getPrevElementNodes_cfg in Hp.
  apply bind_Ok in H as (p0 & _ & H). apply bind_Ok in H as (p0' & _ & H).
  apply bind_Ok in H as (c & _ & H). destruct c as [a|].
  - apply bind_Ok in H as (e & _ & H). destruct (key_le (key e) k).
    + apply bind_Ok in H as (s2 & H2 & H). injection H as <- <-.
      apply (for_up_cfg _ (unlink_level_cfg prevs _)) in H2.
      transitivity (sk_cfg s2); [done|congruence].
    + injection H as <- <-. done.
  - injection H as <- <-. done.
Qed.

Lemma sk_reachable_table s :
  reachable s -> probTable s = probabilityTable (probability s) (maxLevel s).
Proof.
  induction 1 as [m s Hnew|s fuel op out s' Hs IH Hex].
  - apply NewWithMaxLevel_Ok in Hnew as [_ ->]. done.
  - destruct op as [k v r|k|k|p]; simpl in Hex.
    + apply bind_Ok in Hex as (s1 & H1 & Hex). injection Hex as <- <-.
      apply Add_cfg in H1. unfold sk_cfg in H1. injection H1 as -> -> ->. done.
    + apply bind_Ok in Hex as ([v b] & H1 & Hex). by injection Hex as <- <-.
    + apply bind_Ok in Hex as ([x s1] & H1 & Hex). injection Hex as <- <-.
      apply Remove_cfg in H1. unfold sk_cfg in H1. injection H1 as -> -> ->. done.
    + by injection Hex as <- <-.
Qed.

Lemma advance_SetProbability p fuel : forall s k i prev nxt,
  advance fuel (SetProbability p s) k i prev nxt = advance fuel s k i prev nxt.
Proof.
  induction fuel as [|fuel IH]; intros s k i prev nxt; simpl; [done|].
  destruct nxt as [a|]; [|done].
  change (getElement (SetProbability p s) a) with (getElement s a).
  destruct (getElement s a) as [e| |]; simpl; try done.
  destruct (key_lt (key e) k); [|done].
  destruct (idx (next (enode e)) i); simpl; try done.
Qed.

Lemma slot_SetProbability p s r i : slot (SetProbability p s) r i = slot s r i.
Proof. by destruct r. Qed.

Lemma search_levels_SetProbability p fuel s k : forall n prev nxt,
  search_levels fuel (SetProbability p s) k n prev nxt = search_levels fuel s k n prev nxt.
Proof.
  induction n as [|n IH]; intros prev nxt; simpl; [done|].
  rewrite slot_SetProbability. destruct (slot s prev n) as [nx| |]; simpl; try done.
  rewrite advance_SetProbability.
  destruct (advance fuel s k n prev nx) as [[p' n']| |]; simpl; try done.
Qed.

Lemma walk_SetProbability p s i : forall fuel c,
  walk fuel (SetProbability p s) i c = walk fuel s i c.
Proof.
  induction fuel as [|fuel IH]; intros c; destruct c as [a|]; simpl; try done.
  change (slot (SetProbability p s) (Elem a) i) with (slot s (Elem a) i).
  destruct (slot s (Elem a) i); simpl; try done. by rewrite IH.
Qed.

Lemma sk_Remove_returns_Rep s L k : Rep s L -> sk_Remove_returns s k.
Proof.
  intros HRep.
  destruct (Remove_spec s k L _ HRep (Rep_fuel _ _ HRep))
    as (res & s' & L' & Hrm & HRep' & Hres & _ & _ & Hhl & Hfr & Hc & Hcase).
  exists res, s'. split; [done|].
  split. { rewrite (Get_spec s L k _ HRep (Rep_fuel _ _ HRep)).
           unfold content. rewrite <- Hres. by destruct res. }
  split.
  { intros a ->. symmetry in Hres. rewrite Hres in Hcase.
    pose proof Hres as [Ha Hk]%find_key_Some. split; [done|].
    destruct Hcase as (L1 & L2 & HL & _ & _ & _ & Hslot).
    assert (forall j, Elem a <> predAt s L1 j) as Hne.
    { intros j Heq. pose proof (Rep_NoDup _ _ HRep) as Hnd. rewrite HL in Hnd.
      apply NoDup_app in Hnd as (_ & Hdis & _).
      unfold predAt in Heq.
      destruct (lastRef_cases Head (level_of s j L1)) as [[_ E]|(b & Hb & E)];
        rewrite E in Heq; [discriminate|]. injection Heq as ->.
      apply list_elem_of_filter in Hb as [_ Hb]. apply (Hdis b Hb). set_solver. }
    destruct (Hfr a) as (Hk' & Hh' & Hv').
    destruct (rep_elems _ _ HRep a Ha) as [Hlt _].
    destruct (lookup_lt_is_Some_2 _ _ Hlt) as [e He].
    assert (a < length (heap s')) as Hlt' by lia.
    destruct (lookup_lt_is_Some_2 _ _ Hlt') as [e' He'].
    rewrite He, He'. f_equal.
    unfold keyOf, heightOf, valueOf in Hk', Hh', Hv'. rewrite He, He' in Hk', Hh', Hv'.
    destruct e as [[nx] ke ve], e' as [[nx'] ke' ve']. simpl in *. subst.
    do 2 f_equal. apply list_eq. intros j.
    pose proof (Hslot (Elem a) j) as Hj. rewrite decide_False in Hj by (intros [_ ?]; by eapply Hne).
    unfold slot, getNode, getElement in Hj. rewrite He, He' in Hj. simpl in Hj.
    unfold idx in Hj. destruct (nx' !! j), (nx !! j); congruence. }
  split. { rewrite (Get_content s' L' k HRep'), Hc. by rewrite String.eqb_refl. }
  split. { intros k' Hne. rewrite (Get_content s' L' k' HRep'), (Get_content s L k' HRep), Hc.
           by destruct (String.eqb_spec k' k). }
  rewrite <- Hres in Hcase. destruct res as [a|].
  - by destruct Hcase as (L1 & L2 & _ & _ & -> & _).
  - destruct Hcase as (_ & _ & _ & ->). lia.
Qed.
End BaselineCfg.

(** Baseline list: [Remove k] returns an element exactly when [Get k]
    finds one; the element returned holds [k] and the value found and is
    left as it was, links included; afterwards [Get k] misses, the other keys
    answer as before, and [Length] has dropped by one on a hit and not at all
    on a miss. *)
Theorem sk_remove_returns s k : SkipList.reachable s -> sk_Remove_returns s k.
Proof.
  intros [L HRep]%SkipListFacts.reachable_Rep. by apply (sk_Remove_returns_Rep s L).
Qed.

Lemma sk_remove_returns_witness :
  SkipList.reachable sk_five /\ sk_Remove_returns sk_five "30".
Proof.
  split; [exact sk_five_reachable|].
  apply (sk_remove_returns sk_five). exact sk_five_reachable.
Defined.

(** Baseline list: [SetProbability p] installs [p] and the table of its
    powers, [p^0 .. p^(maxLevel-1)], and changes nothing else: the list stays
    reachable, and the count, every level and every answer of [Get] are as
    before. *)
Theorem sk_set_probability s p : SkipList.reachable s -> sk_SetProbability_ok s p.
Proof.
  intros Hs. unfold sk_SetProbability_ok.
  split. { eapply (SkipList.reach_step s 0 (SkipList.OpSetProbability p)); [done|]. done. }
  split; [done|]. split. { intros i Hi. simpl. by apply probabilityTable_lookup. }
  split. { simpl. apply probabilityTable_length. }
  split; [done|]. split.
  - intros i. unfold SkipList.chain. rewrite slot_SetProbability.
    destruct (SkipList.slot s Head i) as [c| |]; try done.
    exact (walk_SetProbability p s i _ c).
  - intros fuel k. unfold SkipList.Get.
    change (SkipList.maxLevel (SkipList.SetProbability p s)) with (SkipList.maxLevel s).
    rewrite search_levels_SetProbability.
    destruct (SkipList.search_levels fuel s k (SkipList.maxLevel s) Head None)
      as [[p' [a|]]| |]; simpl; try done.
Qed.

Lemma sk_set_probability_witness :
  SkipList.reachable sk_five /\ sk_SetProbability_ok sk_five (F_div (F_of_Z 1) (F_of_Z 2)).
Proof.
  split; [exact sk_five_reachable|].
  apply (sk_set_probability sk_five). exact sk_five_reachable.
Defined.

Section AdaptiveCfg.
Import StashList StashListFacts.

Lemma st_evolves_cfg R s s' : evolves R s s' -> st_cfg s' = st_cfg s.
Proof. intros []. unfold st_cfg. congruence. Qed.

Lemma st_for_up_cfg (body : nat -> StashList -> Res StashList) :
  (forall i s s', body i s = Ok s' -> st_cfg s' = st_cfg s) ->
  forall n i s s', for_up n i body s = Ok s' -> st_cfg s' = st_cfg s.
Proof.
  intros Hbody. induction n as [|n IH]; intros i s s' H; simpl in H.
  - by injection H as <-.
  - apply bind_Ok in H as (s1 & H1 & H). rewrite (IH _ _ _ H). eauto.
Qed.

Lemma st_setLevel_cfg s r l s' : setLevel s r l = Ok s' -> st_cfg s' = st_cfg s.
Proof.
  unfold setLevel. intros H. apply bind_Ok in H as (n & Hn & H).
  destruct r as [|a]; simpl in H.
  - by injection H as <-.
  - apply bind_Ok in H as (e & _ & H). by injection H as <-.
Qed.

Lemma st_promote_cfg prevs a s s' : promote prevs a s = Ok s' -> st_cfg s' = st_cfg s.
Proof.
  unfold promote. intros H. apply bind_Ok in H as (e & _ & H).
  destruct (decide (level (enode e) < Z.of_nat (maxLevel s))%Z) as [_|_];
    [|by injection H as <-].
  apply bind_Ok in H as (p & _ & H).
  destruct (decide (p = Some Head)) as [_|_]; [by injection H as <-|].
  apply bind_Ok in H as (p' & _ & H). apply bind_Ok in H as (nx & _ & H).
  apply bind_Ok in H as (s1 & Hs1 & H). apply bind_Ok in H as (s2 & Hs2 & H).
  apply bind_Ok in H as (n & _ & H). apply bind_Ok in H as (s3 & Hs3 & H).
  apply st_setSlot_evolves, st_evolves_cfg in Hs1, Hs2. apply st_setLevel_cfg in H.
  assert (st_cfg s3 = st_cfg s2) as E3.
  { destruct (visited n); [by apply st_setVisited_keep, st_evolves_cfg in Hs3|].
    by injection Hs3 as <-. }
  congruence.
Qed.

Lemma st_Add_hit_cfg prevs a v s s' : Add_hit prevs a v s = Ok s' -> st_cfg s' = st_cfg s.
Proof.
  unfold Add_hit. intros H. apply bind_Ok in H as (e & _ & H).
  apply bind_Ok in H as (s1 & H1 & H).
  apply st_setValue_links, st_evolves_cfg in H.
  assert (st_cfg s1 = st_cfg s) as E1.
  { destruct (visited (enode e)); [by apply st_promote_cfg in H1|].
    by apply st_setVisited_keep, st_evolves_cfg in H1. }
  congruence.
Qed.

Lemma st_Add_new_cfg prevs k v r s s' : Add_new prevs k v r s = Ok s' -> st_cfg s' = st_cfg s.
Proof.
  unfold Add_new. intros H. apply bind_Ok in H as (lvl & _ & H).
  apply bind_Ok in H as (s1 & H1 & H). injection H as <-.
  apply (st_for_up_cfg (link_level prevs (length (heap s)))) in H1; [done|].
  intros i x y Hxy. by apply st_link_level_links, st_evolves_cfg in Hxy.
Qed.

Lemma st_getPrevElementNodes_cfg fuel k s prevs s1 :
  getPrevElementNodes fuel k s = Ok (prevs, s1) -> st_cfg s1 = st_cfg s.
Proof. intros H. apply st_getPrevElementNodes_spec in H as [H _]. by eapply st_evolves_cfg. Qed.

Lemma st_Add_cfg fuel k v r s s' : Add fuel k v r s = Ok s' -> st_cfg s' = st_cfg s.
Proof.
  unfold Add. intros H. apply bind_Ok in H as ([prevs s1] & Hp & H). simpl in H.
  apply st_getPrevElementNodes_cfg in Hp.
  apply bind_Ok in H as (p0 & _ & H). apply bind_Ok in H as (p0' & _ & H).
  apply bind_Ok in H as (c & _ & H). destruct c as [a|].
  - apply bind_Ok in H as (e & _ & H). destruct (key_le (key e) k).
    + apply st_Add_hit_cfg in H. congruence.
    + apply st_Add_new_cfg in H. congruence.
  - apply st_Add_new_cfg in H. congruence.
Qed.

Lemma st_Get_cfg fuel k s v b s' : Get fuel k s = Ok (v, b, s') -> st_cfg s' = st_cfg s.
Proof.
  intros H. apply st_Get_spec in H as [(_ & _ & ->)|(_ & a & e & _ & _ & _ & ->)]; done.
Qed.

Lemma st_Remove_cfg fuel k s res s' : Remove fuel k s = Ok (res, s') -> st_cfg s' = st_cfg s.
Proof.
  unfold Remove. intros H. apply bind_Ok in H as ([prevs s1] & Hp & H). simpl in H.
  apply st_getPrevElementNodes_cfg in Hp.
  apply bind_Ok in H as (p0 & _ & H). apply bind_Ok in H as (p0' & _ & H).
  apply bind_Ok in H as (c & _ & H). destruct c as [a|].
  - apply bind_Ok in H as (e & _ & H). destruct (key_le (key e) k).
    + apply bind_Ok in H as (s2 & H2 & H). injection H as <- <-.
      apply (st_for_up_cfg (unlink_level prevs a)) in H2.
      * transitivity (st_cfg s2); [done|congruence].
      * intros i x y Hxy. by apply st_unlink_level_links, st_evolves_cfg in Hxy.
    + injection H as <- <-. done.
  - injection H as <- <-. done.
Qed.

Lemma st_reachable_table s :
  reachable s -> probTable s = probabilityTable (probability s) (maxLevel s).
Proof.
  induction 1 as [m s Hnew|s fuel op out s' Hs IH Hex].
  - apply st_NewWithMaxLevel_Ok in Hnew as [_ ->]. done.
  - destruct op as [k v r|k|k|p]; simpl in Hex.
    + apply bind_Ok in Hex as (s1 & H1 & Hex). injection Hex as <- <-.
      apply st_Add_cfg in H1. unfold st_cfg in H1. injection H1 as -> -> ->. done.
    + apply bind_Ok in Hex as ([[v b] s1] & H1 & Hex). injection Hex as <- <-.
      apply st_Get_cfg in H1. unfold st_cfg in H1. injection H1 as -> -> ->. done.
    + apply bind_Ok in Hex as ([x s1] & H1 & Hex). injection Hex as <- <-.
      apply st_Remove_cfg in H1. unfold st_cfg in H1. injection H1 as -> -> ->. done.
    + by injection Hex as <- <-.
Qed.
End AdaptiveCfg.

(** Both variants: in every reachable state the table is that of the powers
    of the current probability, so [randLevel] returns [lvl] exactly when
    the draw is below [p^1 .. p^(lvl-1)] and, unless [lvl] is [maxLevel], not
    below [p^lvl].  [Add], [Get] and [Remove] never change the table. *)
Theorem randLevel_exact :
  (forall s, SkipList.reachable s -> sk_randLevel_exact s) /\
  (forall s, StashList.reachable s -> st_randLevel_exact s).
Proof.
  split.
  - intros s Hs. pose proof (sk_reachable_table s Hs) as Ht. split; [done|].
    destruct (SkipListFacts.reachable_Rep s Hs) as [L HRep].
    intros r lvl. unfold SkipList.randLevel. rewrite Ht.
    apply randLevel_of_exact, HRep.
  - intros s Hs. pose proof (st_reachable_table s Hs) as Ht. split; [done|].
    pose proof (StashListFacts.st_reachable_Inv s Hs) as HInv.
    intros r lvl. unfold StashList.randLevel. rewrite Ht.
    apply randLevel_of_exact, HInv.
Qed.

Lemma randLevel_exact_witness : sk_randLevel_exact sk_five /\ st_randLevel_exact st_two.
Proof.
  split.
  - exact (proj1 randLevel_exact sk_five sk_five_reachable).
  - exact (proj2 randLevel_exact st_two st_two_reachable).
Defined.

(** * The sanity check passes on every reachable list *)

Section Sanity.
Import SkipList SkipListFacts SkipListTest.

Lemma key_lt_le a b : key_lt a b = true -> key_le a b = true.
Proof.
  intros H. apply key_le_spec. apply key_lt_spec in H. rewrite H. discriminate.
Qed.

Lemma slot_Elem_inv s a k v :
  slot s (Elem a) k = Ok v ->
  exists e, heap s !! a = Some e /\ idx (next (enode e)) k = Ok v.
Proof.
  unfold slot. intros H. apply bind_Ok in H as (n & Hn & H). simpl in Hn.
  apply bind_Ok in Hn as (e & He & Hn). injection Hn as <-.
  apply getElement_Ok in He. eauto.
Qed.

Lemma sanity_walk_lseg s k : forall l a fuel cnt,
  lseg (links s k) (Elem a) l None ->
  sorted_keys s (a :: l) ->
  (forall b, b ∈ a :: l -> k < heightOf s b) ->
  length l < fuel ->
  sanity_walk fuel s k a cnt = Ok (Pass, (cnt + Z.of_nat (length l))%Z).
Proof.
  induction l as [|b l IH]; intros a fuel cnt Hseg Hsort Hh Hfuel;
    (destruct fuel as [|fuel]; [simpl in Hfuel; lia|]);
    unfold sanity_walk; fold sanity_walk; simpl in Hseg.
  - apply slot_Elem_inv in Hseg as (e & He & Hi).
    rewrite (proj2 (getElement_Ok s a e) He). simpl. rewrite Hi. simpl. do 2 f_equal. lia.
  - destruct Hseg as [Ha Hseg]. apply slot_Elem_inv in Ha as (e & He & Hi).
    rewrite (proj2 (getElement_Ok s a e) He). simpl. rewrite Hi. simpl.
    pose proof (lseg_hd _ _ _ _ Hseg) as Hb. apply slot_Elem_inv in Hb as (eb & Heb & _).
    rewrite (proj2 (getElement_Ok s b eb) Heb). simpl.
    apply StronglySorted_inv in Hsort as [Hsort Hall].
    rewrite Forall_forall in Hall. specialize (Hall b ltac:(set_solver)).
    unfold keyOf in Hall. rewrite He, Heb in Hall.
    rewrite (key_lt_le _ _ Hall). simpl.
    pose proof (Hh a ltac:(set_solver)) as Hha. unfold heightOf in Hha. rewrite He in Hha.
    rewrite decide_False by lia.
    rewrite (IH b fuel (cnt + 1)%Z); [| done | done | intros; apply Hh; set_solver | simpl in Hfuel; lia].
    do 2 f_equal. simpl length. lia.
Qed.

Lemma sanity_level_Rep s L k :
  Rep s L -> k < maxLevel s ->
  sanity_level (fuel_of s) s k (hd_or (level_of s k L) None) = Ok Pass.
Proof.
  intros HRep Hk. pose proof (rep_links _ _ HRep k Hk) as Hseg.
  assert (forall b, b ∈ level_of s k L -> b ∈ L /\ k < heightOf s b) as Hin.
  { intros b Hb. by apply list_elem_of_filter in Hb as [? ?]. }
  assert (sorted_keys s (level_of s k L)) as Hsort
    by apply sorted_keys_filter, HRep.
  assert (k = 0 -> level_of s k L = L) as Hzero.
  { intros ->. by apply (level_of_zero s L HRep). }
  assert (length (level_of s k L) <= length L) as Hlen by apply length_filter.
  pose proof (Rep_fuel _ _ HRep) as Hfuel.
  remember (fuel_of s) as fuel eqn:Ef. clear Ef.
  destruct (level_of s k L) as [|a l] eqn:E; [done|]. simpl hd_or. simpl in Hseg.
  destruct Hseg as [_ Hseg].
  destruct (Hin a ltac:(set_solver)) as [HaL Hha].
  destruct (rep_elems _ _ HRep a HaL) as [Hlt _].
  destruct (lookup_lt_is_Some_2 _ _ Hlt) as [e He].
  unfold sanity_level. rewrite (proj2 (getElement_Ok s a e) He). simpl.
  unfold heightOf in Hha. rewrite He in Hha. rewrite decide_False by lia.
  rewrite (sanity_walk_lseg s k l a fuel 1%Z Hseg Hsort); [|intros; by apply Hin|simpl in Hlen; lia].
  simpl. destruct (decide (k = 0)) as [Hk0|]; [|done].
  rewrite decide_False; [done|]. intros Hne. apply Hne.
  rewrite (rep_len _ _ HRep), <- (Hzero Hk0). simpl length. lia.
Qed.

Lemma sanity_levels_Rep s L : Rep s L -> forall n vs,
  n + length vs = maxLevel s ->
  (forall j v, vs !! j = Some v -> v = hd_or (level_of s (n + j) L) None) ->
  sanity_levels (fuel_of s) s n vs = Ok Pass.
Proof.
  intros HRep n vs. revert n. induction vs as [|v vs IH]; intros n Hn Hvs; simpl; [done|].
  rewrite (Hvs 0 v eq_refl). replace (n + 0) with n by lia.
  rewrite (sanity_level_Rep s L n HRep) by (simpl in Hn; lia). simpl.
  apply IH; [simpl in Hn; lia|].
  intros j w Hj. rewrite (Hvs (S j) w Hj). f_equal. f_equal. lia.
Qed.

Lemma checkSanity_Rep s L : Rep s L -> checkSanity (fuel_of s) s = Ok Pass.
Proof.
  intros HRep. unfold checkSanity. apply (sanity_levels_Rep s L HRep).
  - by rewrite (rep_head _ _ HRep).
  - intros j v Hj. simpl.
    assert (j < maxLevel s) as Hlt.
    { rewrite <- (rep_head _ _ HRep). by eapply lookup_lt_Some. }
    pose proof (lseg_hd _ _ _ _ (rep_links _ _ HRep j Hlt)) as Hhd.
    unfold links, slot in Hhd. simpl in Hhd. unfold idx in Hhd. rewrite Hj in Hhd.
    by injection Hhd.
Qed.
End Sanity.

(** Baseline list: [checkSanity], the invariant check of the test suite,
    runs to its end on every reachable list: it never calls [t.Fatal], never
    indexes a [next] array out of range, and its walks end. *)
Theorem sk_checkSanity_passes s :
  SkipList.reachable s ->
  SkipListTest.checkSanity (SkipList.fuel_of s) s = Ok SkipListTest.Pass.
Proof.
  intros [L HRep]%SkipListFacts.reachable_Rep. by apply (checkSanity_Rep s L).
Qed.

Lemma sk_checkSanity_passes_witness :
  SkipList.reachable sk_five /\
  SkipListTest.checkSanity (SkipList.fuel_of sk_five) sk_five = Ok SkipListTest.Pass.
Proof.
  split; [exact sk_five_reachable|].
  apply (sk_checkSanity_passes sk_five). exact sk_five_reachable.
Defined.

(** * The keys of package util *)

Section UtilFacts.
Import Util.

Lemma digit_code d : (0 <= d <= 9)%Z -> nat_of_ascii (digit d) = 48 + Z.to_nat d.
Proof. intros H. unfold digit. apply nat_ascii_embedding. lia. Qed.

Lemma digit_is_digit d : (0 <= d <= 9)%Z -> is_digit (digit d).
Proof. intros H. unfold is_digit. rewrite digit_code by done. lia. Qed.

Lemma decimal_value_app l1 : forall a l2,
  decimal_value a (l1 ++ l2) = decimal_value (decimal_value a l1) l2.
Proof. induction l1 as [|c l1 IH]; intros a l2; simpl; [done|apply IH]. Qed.

Lemma decimal_value_linear l : forall a,
  decimal_value a l = (a * 10 ^ Z.of_nat (length l) + decimal_value 0 l)%Z.
Proof.
  induction l as [|c l IH]; intros a; simpl length; simpl decimal_value.
  - simpl. lia.
  - rewrite IH. rewrite (IH (0 * 10 + _)%Z).
    rewrite Nat2Z.inj_succ, Z.pow_succ_r by lia. lia.
Qed.

Lemma decimal_value_bound l :
  Forall is_digit l -> (0 <= decimal_value 0 l < 10 ^ Z.of_nat (length l))%Z.
Proof.
  induction 1 as [|c l Hc Hl IH]; simpl length; simpl decimal_value; [simpl; lia|].
  rewrite decimal_value_linear. rewrite Nat2Z.inj_succ, Z.pow_succ_r by lia.
  unfold is_digit in Hc. nia.
Qed.

Lemma decimal_value_zeros n a : decimal_value a (replicate n "0"%char) = (a * 10 ^ Z.of_nat n)%Z.
Proof.
  revert a. induction n as [|n IH]; intros a; simpl replicate; simpl decimal_value.
  - simpl. lia.
  - rewrite IH. rewrite Nat2Z.inj_succ, Z.pow_succ_r by lia.
    change (Z.of_nat (nat_of_ascii "0")) with 48%Z. lia.
Qed.

(** The digit loop: the digits of [u], as many as [u] needs. *)
Lemma digits_acc_spec : forall fuel u acc,
  (0 <= u < 10 ^ Z.of_nat (S fuel))%Z ->
  exists d, digits_acc (S fuel) u acc = d ++ acc /\
    Forall is_digit d /\ 1 <= length d /\
    (forall a, decimal_value a d = (a * 10 ^ Z.of_nat (length d) + u)%Z) /\
    (forall j, 1 <= j -> (u < 10 ^ Z.of_nat j)%Z -> length d <= j).
Proof.
  induction fuel as [|fuel IH]; intros u acc Hu.
  - assert (u < 10)%Z as Hlt by (change (10 ^ Z.of_nat 1)%Z with 10%Z in Hu; lia).
    simpl. destruct (Z.leb_spec 10 u); [lia|].
    exists [digit u]. split; [done|]. split; [apply Forall_singleton, digit_is_digit; lia|].
    split; [simpl; lia|]. split.
    + intros a. simpl. rewrite digit_code by lia. lia.
    + intros j Hj _. simpl. lia.
  - change (digits_acc (S (S fuel)) u acc) with
      (if (10 <=? u)%Z then digits_acc (S fuel) (u / 10) (digit (u mod 10) :: acc)
       else digit u :: acc).
    destruct (Z.leb_spec 10 u) as [Hge|Hlt].
    + assert (0 <= u / 10 < 10 ^ Z.of_nat (S fuel))%Z as Hq.
      { rewrite (Nat2Z.inj_succ (S fuel)), Z.pow_succ_r in Hu by lia.
        split; [apply Z.div_pos; lia|apply Z.div_lt_upper_bound; lia]. }
      destruct (IH (u / 10)%Z (digit (u mod 10) :: acc) Hq) as (d & Hd & Hdig & Hlen & Hval & Hmin).
      pose proof (Z.mod_pos_bound u 10 ltac:(lia)) as Hm.
      exists (d ++ [digit (u mod 10)]). split; [by rewrite Hd, <- app_assoc|].
      split. { apply Forall_app. split; [done|]. apply Forall_singleton, digit_is_digit. lia. }
      split; [rewrite length_app; simpl; lia|]. split.
      * intros a. rewrite decimal_value_app, Hval. cbn [decimal_value].
        rewrite digit_code by lia. rewrite length_app. cbn [length].
        replace (Z.of_nat (length d + 1)) with (Z.of_nat (length d) + 1)%Z by lia.
        rewrite Z.pow_add_r, Z.pow_1_r by lia.
        pose proof (Z.div_mod u 10 ltac:(lia)). lia.
      * intros j Hj Huj. rewrite length_app. simpl.
        destruct j as [|j]; [lia|]. destruct j as [|j].
        { change (10 ^ Z.of_nat 1)%Z with 10%Z in Huj. lia. }
        assert (length d <= S j); [|lia]. apply Hmin; [lia|].
        rewrite (Nat2Z.inj_succ (S j)), Z.pow_succ_r in Huj by lia.
        apply Z.div_lt_upper_bound; lia.
    + exists [digit u]. split; [done|].
      split; [apply Forall_singleton, digit_is_digit; lia|].
      split; [simpl; lia|]. split.
      * intros a. simpl. rewrite digit_code by lia. lia.
      * intros j Hj _. simpl. lia.
Qed.

Lemma digits_spec u :
  (0 <= u <= 2 ^ 63)%Z ->
  Forall is_digit (digits u) /\ 1 <= length (digits u) <= 20 /\
  decimal_value 0 (digits u) = u /\
  (forall j, 1 <= j -> (u < 10 ^ Z.of_nat j)%Z -> length (digits u) <= j).
Proof.
  intros Hu. unfold digits.
  destruct (digits_acc_spec 19 u []) as (d & Hd & Hdig & Hlen & Hval & Hmin).
  { change (10 ^ Z.of_nat 20)%Z with 100000000000000000000%Z.
    change (2 ^ 63)%Z with 9223372036854775808%Z in Hu. lia. }
  rewrite Hd, app_nil_r. split; [done|]. split.
  - split; [done|]. apply Hmin; [lia|].
    change (10 ^ Z.of_nat 20)%Z with 100000000000000000000%Z.
    change (2 ^ 63)%Z with 9223372036854775808%Z in Hu. lia.
  - split; [|done]. rewrite Hval. lia.
Qed.

Lemma is_digit_zero_char : is_digit "0"%char.
Proof. unfold is_digit. change (nat_of_ascii "0") with 48. lia. Qed.

Lemma Forall_replicate_digit n : Forall is_digit (replicate n "0"%char).
Proof. apply Forall_replicate. apply is_digit_zero_char. Qed.

(** The formatted number: in range, it denotes [n], holds no NUL and is at
    most 21 characters long. *)
Lemma Sprintf_07d_spec n :
  (MinInt <= n <= MaxInt)%Z ->
  signed_value (Sprintf_07d n) = n /\
  Forall (fun c => c <> zero) (Sprintf_07d n) /\
  length (Sprintf_07d n) <= 21.
Proof.
  unfold MinInt, MaxInt. intros Hn.
  assert (0 <= Z.abs n <= 2 ^ 63)%Z as Hu by lia.
  destruct (digits_spec _ Hu) as (Hdig & Hlen & Hval & _).
  assert (forall c, is_digit c -> c <> zero /\ c <> "-"%char) as Hnz.
  { intros c Hc. unfold is_digit in Hc. split; intros ->.
    - change (nat_of_ascii zero) with 0 in Hc. lia.
    - change (nat_of_ascii "-") with 45 in Hc. lia. }
  unfold Sprintf_07d. destruct (Z.ltb_spec n 0) as [Hneg|Hpos].
  - assert (Forall is_digit (replicate (6 - length (digits (Z.abs n))) "0"%char ++ digits (Z.abs n)))
      as Hall by (apply Forall_app; split; [apply Forall_replicate_digit|done]).
    split; [|split].
    + unfold signed_value. rewrite decimal_value_app, decimal_value_zeros.
      rewrite decimal_value_linear, Hval. lia.
    + constructor; [done|]. eapply Forall_impl; [exact Hall|]. intros c Hc. by apply Hnz.
    + simpl. rewrite length_app, length_replicate. lia.
  - assert (Forall is_digit (replicate (7 - length (digits (Z.abs n))) "0"%char ++ digits (Z.abs n)))
      as Hall by (apply Forall_app; split; [apply Forall_replicate_digit|done]).
    split; [|split].
    + assert (signed_value (replicate (7 - length (digits (Z.abs n))) "0"%char ++ digits (Z.abs n))
              = decimal_value 0 (replicate (7 - length (digits (Z.abs n))) "0"%char ++ digits (Z.abs n)))
        as ->.
      { destruct (replicate _ _ ++ _) as [|c l] eqn:E; [done|].
        apply Forall_cons in Hall as [Hc _]. apply Hnz in Hc as [_ Hc].
        unfold signed_value. destruct c as [[] [] [] [] [] [] [] []]; try done. }
      rewrite decimal_value_app, decimal_value_zeros, decimal_value_linear, Hval. lia.
    + eapply Forall_impl; [exact Hall|]. intros c Hc. by apply Hnz.
    + rewrite length_app, length_replicate. lia.
Qed.

(** Below 10^7 the formatted number is seven digits. *)
Lemma Sprintf_07d_small n :
  (0 <= n < 10000000)%Z ->
  Forall is_digit (Sprintf_07d n) /\ length (Sprintf_07d n) = 7 /\
  decimal_value 0 (Sprintf_07d n) = n.
Proof.
  intros Hn. assert (0 <= Z.abs n <= 2 ^ 63)%Z as Hu.
  { change (2 ^ 63)%Z with 9223372036854775808%Z. lia. }
  destruct (digits_spec _ Hu) as (Hdig & Hlen & Hval & Hmin).
  assert (length (digits (Z.abs n)) <= 7) as H7.
  { apply Hmin; [lia|]. change (10 ^ Z.of_nat 7)%Z with 10000000%Z. lia. }
  unfold Sprintf_07d. destruct (Z.ltb_spec n 0) as [Hneg|Hpos]; [lia|].
  split; [apply Forall_app; split; [apply Forall_replicate_digit|done]|].
  split; [rewrite length_app, length_replicate; lia|].
  rewrite decimal_value_app, decimal_value_zeros, decimal_value_linear, Hval. lia.
Qed.

Lemma fixed64_length l : length (fixed64 l) = 64.
Proof.
  unfold fixed64. case_decide.
  - rewrite length_take. lia.
  - rewrite length_app, length_replicate. lia.
Qed.

Lemma fixed64_short l :
  length l <= 64 -> fixed64 l = l ++ replicate (64 - length l) zero.
Proof. intros H. unfold fixed64. by rewrite decide_False by lia. Qed.

Lemma string_length_of_list l : String.length (string_of_list_ascii l) = length l.
Proof. induction l as [|c l IH]; simpl; [done|by rewrite IH]. Qed.

Lemma string_of_list_ascii_inj l1 l2 :
  string_of_list_ascii l1 = string_of_list_ascii l2 -> l1 = l2.
Proof.
  intros H. apply (f_equal list_ascii_of_string) in H.
  by rewrite !list_ascii_of_string_of_list_ascii in H.
Qed.

(** Padding with NUL loses nothing of a string that holds none. *)
Lemma pad_inj (l1 : list ascii) : forall l2 n1 n2,
  Forall (fun c => c <> zero) l1 -> Forall (fun c => c <> zero) l2 ->
  l1 ++ replicate n1 zero = l2 ++ replicate n2 zero -> l1 = l2.
Proof.
  induction l1 as [|c l1 IH]; intros l2 n1 n2 H1 H2 E.
  - destruct l2 as [|c2 l2]; [done|]. apply Forall_cons in H2 as [Hc _].
    destruct n1; simpl in E; [discriminate|]. injection E as E _. congruence.
  - apply Forall_cons in H1 as [Hc H1]. destruct l2 as [|c2 l2].
    + destruct n2; simpl in E; [discriminate|]. injection E as E _. congruence.
    + apply Forall_cons in H2 as [_ H2]. simpl in E. injection E as -> E.
      f_equal. by eapply IH.
Qed.

Lemma GetFixedLengthKey_inj m n :
  (MinInt <= m <= MaxInt)%Z -> (MinInt <= n <= MaxInt)%Z ->
  GetFixedLengthKey m = GetFixedLengthKey n -> m = n.
Proof.
  intros Hm Hn E. unfold GetFixedLengthKey in E. apply string_of_list_ascii_inj in E.
  destruct (Sprintf_07d_spec m Hm) as (Hvm & Hzm & Hlm).
  destruct (Sprintf_07d_spec n Hn) as (Hvn & Hzn & Hln).
  rewrite !fixed64_short in E by (rewrite length_app; simpl; lia).
  rewrite <- !app_assoc in E. apply app_inv_head in E.
  apply pad_inj in E; [|done|done]. congruence.
Qed.

Lemma ascii_compare_nat c1 c2 :
  Ascii.compare c1 c2 = Nat.compare (nat_of_ascii c1) (nat_of_ascii c2).
Proof.
  unfold Ascii.compare, nat_of_ascii. by rewrite N2Nat.inj_compare.
Qed.

(** Digit strings of one length compare as the numbers they denote. *)
Lemma compare_digits : forall l1 l2 a t1 t2,
  Forall is_digit l1 -> Forall is_digit l2 -> length l1 = length l2 ->
  (decimal_value a l1 < decimal_value a l2)%Z ->
  String.compare (string_of_list_ascii (l1 ++ t1)) (string_of_list_ascii (l2 ++ t2)) = Lt.
Proof.
  induction l1 as [|c1 l1 IH]; intros l2 a t1 t2 H1 H2 Hlen Hlt;
    destruct l2 as [|c2 l2]; try discriminate.
  - simpl in Hlt. lia.
  - apply Forall_cons in H1 as [Hc1 H1]. apply Forall_cons in H2 as [Hc2 H2].
    simpl in Hlen. injection Hlen as Hlen. simpl.
    rewrite ascii_compare_nat. simpl in Hlt.
    destruct (Nat.compare_spec (nat_of_ascii c1) (nat_of_ascii c2)) as [E|E|E].
    + rewrite E in Hlt. by eapply IH.
    + done.
    + exfalso. rewrite (decimal_value_linear l1), (decimal_value_linear l2) in Hlt.
      pose proof (decimal_value_bound l1 H1). pose proof (decimal_value_bound l2 H2).
      rewrite Hlen in *. nia.
Qed.

Lemma compare_prefix p l1 l2 :
  String.compare (string_of_list_ascii (p ++ l1)) (string_of_list_ascii (p ++ l2)) =
  String.compare (string_of_list_ascii l1) (string_of_list_ascii l2).
Proof.
  induction p as [|c p IH]; simpl; [done|].
  rewrite ascii_compare_nat, Nat.compare_refl. apply IH.
Qed.

Lemma GetFixedLengthKey_lt m n :
  (0 <= m < 10000000)%Z -> (0 <= n < 10000000)%Z -> (m < n)%Z ->
  key_lt (GetFixedLengthKey m) (GetFixedLengthKey n) = true.
Proof.
  intros Hm Hn Hlt. apply key_lt_spec. unfold GetFixedLengthKey.
  destruct (Sprintf_07d_small m Hm) as (Hdm & Hlm & Hvm).
  destruct (Sprintf_07d_small n Hn) as (Hdn & Hln & Hvn).
  rewrite !fixed64_short by (rewrite length_app; simpl; lia).
  rewrite <- !app_assoc, compare_prefix.
  apply (compare_digits _ _ 0%Z); try done; lia.
Qed.

Lemma util_keys_ok_holds m n : util_keys_ok m n.
Proof.
  split. { unfold GetFixedLengthKey. by rewrite string_length_of_list, fixed64_length. }
  split. { unfold GetFixedLengthValue. by rewrite length_fmap, fixed64_length. }
  split. { unfold GetFixedLengthValue, GetFixedLengthKey, list_byte_of_string.
           by rewrite list_ascii_of_string_of_list_ascii. }
  split.
  { intros Hn. destruct (Sprintf_07d_spec n Hn) as (_ & _ & Hl).
    unfold GetFixedLengthValue, GetKey.
    rewrite fixed64_short by (rewrite length_app; simpl; lia).
    by rewrite fmap_app, fmap_replicate, length_fmap. }
  split; [apply GetFixedLengthKey_inj|].
  intros Hm Hn. split.
  - intros H. destruct (Z.lt_trichotomy m n) as [|[->|Hgt]]; [done| |].
    + by rewrite key_lt_irrefl in H.
    + pose proof (GetFixedLengthKey_lt n m Hn Hm Hgt) as H'.
      apply key_lt_asym in H'. congruence.
  - by apply GetFixedLengthKey_lt.
Qed.
End UtilFacts.

(** Package util: [GetFixedLengthKey n] is 64 bytes long and
    [GetFixedLengthValue n] is the same 64 bytes, which are those of
    [GetKey n] followed by NUL bytes; distinct numbers give
    distinct keys; and from 0 up to 9999999 the keys are ordered, as Go
    strings, as the numbers are.  The order stops there:
    [GetFixedLengthKey 10000000] is below [GetFixedLengthKey 9999999]. *)
Theorem util_keys :
  (forall m n, util_keys_ok m n) /\
  key_lt (Util.GetFixedLengthKey 10000000) (Util.GetFixedLengthKey 9999999) = true.
Proof. split; [apply util_keys_ok_holds|]. vm_compute. reflexivity. Qed.

Lemma util_keys_witness : util_keys_ok 41 42.
Proof. exact (proj1 util_keys 41%Z 42%Z). Defined.
(** * The adaptive list while nothing is removed: proofs *)


(** * The baseline image of the adaptive list *)

Section Erase.

Lemma erase_lookup s a :
  SkipList.heap (erase s) !! a = erase_elem <$> StashList.heap s !! a.
Proof. unfold erase. simpl. apply list_lookup_fmap. Qed.

Lemma erase_keyOf s a : SkipList.keyOf (erase s) a = StashList.keyOf s a.
Proof.
  unfold SkipList.keyOf, StashList.keyOf. rewrite erase_lookup.
  by destruct (StashList.heap s !! a).
Qed.

Lemma erase_valueOf s a :
  SkipList.valueOf (erase s) a =
  match StashList.heap s !! a with Some e => StashList.value e | None => [] end.
Proof.
  unfold SkipList.valueOf. rewrite erase_lookup. by destruct (StashList.heap s !! a).
Qed.

Lemma erase_heap_length s : length (SkipList.heap (erase s)) = length (StashList.heap s).
Proof. unfold erase. simpl. apply length_fmap. Qed.

Lemma st_levelOf_eq s a e :
  StashList.heap s !! a = Some e ->
  st_levelOf s a = Z.to_nat (StashList.level (StashList.enode e)) `min`
                   length (StashList.next (StashList.enode e)).
Proof.
  intros He. unfold st_levelOf, SkipList.heightOf. rewrite erase_lookup, He. simpl.
  apply length_take.
Qed.

Lemma idx_take {A} (l : list A) n i v : idx (take n l) i = Ok v -> idx l i = Ok v.
Proof.
  unfold idx. destruct (take n l !! i) as [x|] eqn:E; [|discriminate].
  intros [= <-]. apply lookup_take_Some in E as [E _]. by rewrite E.
Qed.

Lemma erase_getElement s a e' :
  SkipList.getElement (erase s) a = Ok e' ->
  exists e, StashList.heap s !! a = Some e /\ e' = erase_elem e.
Proof.
  intros H. apply SkipListFacts.getElement_Ok in H. rewrite erase_lookup in H.
  destruct (StashList.heap s !! a) as [e|]; [|discriminate]. injection H as <-. eauto.
Qed.

(** A link of the image is a link of the list. *)
Lemma erase_slot s r i v :
  SkipList.slot (erase s) r i = Ok v -> StashList.slot s r i = Ok v.
Proof.
  unfold SkipList.slot, StashList.slot. intros H.
  apply bind_Ok in H as (n & Hn & H). destruct r as [|a]; simpl in *.
  - by injection Hn as <-.
  - apply bind_Ok in Hn as (e' & He' & Hn). injection Hn as <-.
    apply erase_getElement in He' as (e & He & ->).
    unfold StashList.getElement. rewrite He. simpl. simpl in H. by eapply idx_take.
Qed.

Lemma lseg_sim (f g : nodeRef -> Res (option nat)) :
  (forall x v, f x = Ok v -> g x = Ok v) ->
  forall l r tl, lseg f r l tl -> lseg g r l tl.
Proof.
  intros Hfg. induction l as [|a l IH]; intros r tl H; simpl in *.
  - by apply Hfg.
  - destruct H as [H1 H2]. split; [by apply Hfg|by apply IH].
Qed.

Lemma erase_lseg s i l r tl :
  lseg (SkipList.links (erase s) i) r l tl -> lseg (st_links s i) r l tl.
Proof. apply lseg_sim. intros x v. apply erase_slot. Qed.

Lemma erase_advance k i s : forall fuel prev nxt res,
  SkipList.advance fuel (erase s) k i prev nxt = Ok res ->
  StashList.advance fuel s k i prev nxt = Ok res.
Proof.
  induction fuel as [|fuel IH]; intros prev nxt res H; simpl in *; [discriminate|].
  destruct nxt as [a|]; [|done].
  apply bind_Ok in H as (e' & He' & H). apply erase_getElement in He' as (e & He & ->).
  unfold StashList.getElement. rewrite He. simpl. simpl in H.
  destruct (key_lt (StashList.key e) k); [|done].
  apply bind_Ok in H as (nx & Hnx & H). apply idx_take in Hnx. rewrite Hnx. simpl.
  by apply IH.
Qed.

Lemma erase_search_levels k s fuel : forall n prev nxt res,
  SkipList.search_levels fuel (erase s) k n prev nxt = Ok res ->
  StashList.search_levels fuel s k n prev nxt = Ok res.
Proof.
  induction n as [|n IH]; intros prev nxt res H; simpl in *; [done|].
  apply bind_Ok in H as (nx & Hnx & H). apply erase_slot in Hnx. rewrite Hnx. simpl.
  apply bind_Ok in H as ([p c] & Hadv & H). apply erase_advance in Hadv.
  rewrite Hadv. simpl. by apply IH.
Qed.

Lemma erase_mark_visited s a e :
  StashList.heap s !! a = Some e -> erase (StashList.mark_visited s a e) = erase s.
Proof.
  intros He. unfold erase, StashList.mark_visited. simpl. f_equal.
  rewrite list_fmap_insert. apply list_insert_id.
  rewrite list_lookup_fmap, He. done.
Qed.

Lemma Inv_mark_visited s a e :
  StashList.heap s !! a = Some e -> StashList.Inv s ->
  StashList.Inv (StashList.mark_visited s a e).
Proof.
  intros He [Hm Hh Ht Hel]. constructor; try done.
  intros b eb. unfold StashList.mark_visited. simpl.
  destruct (decide (b = a)) as [->|Hne].
  - rewrite list_lookup_insert_eq by (by eapply lookup_lt_Some).
    intros [= <-]. simpl. by apply (Hel a e).
  - rewrite list_lookup_insert_ne by done. apply Hel.
Qed.

(** [Get] on the list is [Get] on the image; it leaves the image as it is. *)
Lemma erase_Get fuel k s v b :
  SkipList.Get fuel k (erase s) = Ok (v, b) ->
  exists s', StashList.Get fuel k s = Ok (v, b, s') /\ erase s' = erase s /\
    (StashList.Inv s -> StashList.Inv s') /\
    length (StashList.heap s') = length (StashList.heap s).
Proof.
  unfold SkipList.Get, StashList.Get. intros H.
  apply bind_Ok in H as ([p c] & Hs & H). apply erase_search_levels in Hs.
  change (SkipList.maxLevel (erase s)) with (StashList.maxLevel s) in Hs.
  rewrite Hs. simpl in *. destruct c as [a|]; [|injection H as <- <-; eauto].
  apply bind_Ok in H as (e' & He' & H). apply erase_getElement in He' as (e & He & ->).
  unfold StashList.getElement. rewrite He. simpl in *.
  destruct (key_le (StashList.key e) k); [|injection H as <- <-; eauto].
  injection H as <- <-. destruct (StashList.visited (StashList.enode e)) eqn:Hv; simpl.
  - eauto.
  - unfold StashList.setVisited. simpl. unfold StashList.getElement. rewrite He. simpl.
    eexists. split; [done|].
    change (erase (StashList.mark_visited s a e) = erase s /\
            (StashList.Inv s -> StashList.Inv (StashList.mark_visited s a e)) /\
            length (StashList.heap (StashList.mark_visited s a e)) = length (StashList.heap s)).
    split; [by apply erase_mark_visited|]. split; [by apply Inv_mark_visited|].
    unfold StashList.mark_visited. simpl. apply length_insert.
Qed.
End Erase.


(** ** The primitive updates, seen on the image *)

Section ErasePrim.
Import StashList StashListFacts.

Lemma st_same_refl s : st_same s s.
Proof. constructor; auto. intros a e e' H1 H2. congruence. Qed.

Lemma st_same_trans s1 s2 s3 : st_same s1 s2 -> st_same s2 s3 -> st_same s1 s3.
Proof.
  intros [] []. constructor; try congruence.
  intros a e e3 H1 H3.
  assert (a < length (heap s2)) as Hlt.
  { rewrite ss_heap0. by eapply lookup_lt_Some. }
  destruct (lookup_lt_is_Some_2 _ _ Hlt) as [e2 H2].
  rewrite (ss_len1 a e2 e3 H2 H3). eauto.
Qed.

(** The heap after a store into the node of an element. *)
Lemma st_setNode_heap s a n s' :
  setNode s (Elem a) n = Ok s' ->
  exists e, heap s !! a = Some e /\ lnode s' = lnode s /\
    heap s' = <[a := mkElement n (key e) (value e)]> (heap s) /\
    st_cfg s' = st_cfg s /\ Length s' = Length s /\ prevNodesCache s' = prevNodesCache s.
Proof.
  simpl. intros H. apply bind_Ok in H as (e & He & H). injection H as <-.
  apply st_getElement_Ok in He. exists e. done.
Qed.

Lemma st_setNode_head s n s' :
  setNode s Head n = Ok s' ->
  lnode s' = n /\ heap s' = heap s /\
  st_cfg s' = st_cfg s /\ Length s' = Length s /\ prevNodesCache s' = prevNodesCache s.
Proof. simpl. intros [= <-]. done. Qed.

Lemma st_keyOf_insert s a e n b :
  heap s !! a = Some e ->
  (match <[a := mkElement n (key e) (value e)]> (heap s) !! b with
   | Some e' => key e' | None => EmptyString end) = keyOf s b.
Proof.
  intros He. unfold keyOf. destruct (decide (b = a)) as [->|Hne].
  - rewrite list_lookup_insert_eq by (by eapply lookup_lt_Some). by rewrite He.
  - by rewrite list_lookup_insert_ne.
Qed.


Lemma st_same_heap_eq s s' :
  heap s' = heap s -> st_cfg s' = st_cfg s -> Length s' = Length s ->
  prevNodesCache s' = prevNodesCache s ->
  length (next (lnode s')) = length (next (lnode s)) -> st_same s s'.
Proof.
  intros Hh Hc HL Hp Hl. constructor; try done.
  - by rewrite Hh.
  - intros a. unfold keyOf. by rewrite Hh.
  - intros a. unfold st_valueOf. by rewrite Hh.
  - intros a e e'. rewrite Hh. congruence.
Qed.

Lemma st_same_insert s s' a e n :
  heap s !! a = Some e ->
  heap s' = <[a := mkElement n (key e) (value e)]> (heap s) ->
  length (next n) = length (next (enode e)) ->
  lnode s' = lnode s -> st_cfg s' = st_cfg s -> Length s' = Length s ->
  prevNodesCache s' = prevNodesCache s -> st_same s s'.
Proof.
  intros He Hh Hn Hl Hc HL Hp.
  assert (a < length (heap s)) as Ha by (by eapply lookup_lt_Some).
  constructor; try done.
  - by rewrite Hh, length_insert.
  - by rewrite Hl.
  - intros b. unfold keyOf at 1. rewrite Hh. by apply st_keyOf_insert.
  - intros b. unfold st_valueOf. rewrite Hh. destruct (decide (b = a)) as [->|Hne].
    + rewrite list_lookup_insert_eq by done. by rewrite He.
    + by rewrite list_lookup_insert_ne.
  - intros b eb eb' Hb. rewrite Hh. destruct (decide (b = a)) as [->|Hne].
    + rewrite list_lookup_insert_eq by done. intros [= <-]. simpl. congruence.
    + rewrite list_lookup_insert_ne by done. congruence.
Qed.

(** A store into a [next] array. *)
Lemma st_setSlot_obs s r i v s' :
  setSlot s r i v = Ok s' ->
  st_same s s' /\
  (forall x j, SkipList.slot (erase s') x j =
     if decide (x = r /\ j = i /\ st_reach s r i) then Ok v
     else SkipList.slot (erase s) x j) /\
  (forall a, st_levelOf s' a = st_levelOf s a) /\
  (forall a, st_levelField s' a = st_levelField s a) /\
  (forall a, st_visitedOf s' a = st_visitedOf s a) /\
  (forall a j, st_raw s' a j =
     if decide (r = Elem a /\ j = i) then Ok v else st_raw s a j).
Proof.
  unfold setSlot. intros H. apply bind_Ok in H as (n & Hn & H).
  apply bind_Ok in H as (nx & Hnx & H). apply store_Ok in Hnx as [Hi ->].
  destruct r as [|a].
  - simpl in Hn. injection Hn as <-. apply st_setNode_head in H as (Hl & Hh & Hc & HL & Hp).
    split. { apply st_same_heap_eq; try done. rewrite Hl. simpl. by rewrite length_insert. }
    split.
    { intros x j.
      destruct (decide (x = Head /\ j = i /\ st_reach s Head i)) as [(-> & -> & Hr)|Hneg].
      - unfold SkipList.slot. simpl. rewrite Hl. simpl. unfold idx.
        by rewrite list_lookup_insert_eq.
      - unfold SkipList.slot. destruct x as [|b]; simpl.
        + rewrite Hl. simpl. unfold idx. rewrite list_lookup_insert_ne; [done|].
          intros <-. apply Hneg. done.
        + unfold SkipList.getElement. by rewrite !erase_lookup, Hh. }
    split. { intros a. unfold st_levelOf, SkipList.heightOf. by rewrite !erase_lookup, Hh. }
    split. { intros a. unfold st_levelField. by rewrite Hh. }
    split. { intros a. unfold st_visitedOf. by rewrite Hh. }
    intros a j. unfold st_raw. rewrite Hh.
    destruct (decide (Head = Elem a /\ j = i)) as [[? _]|_]; [discriminate|done].
  - simpl in Hn. apply bind_Ok in Hn as (e & He & Hn). injection Hn as <-.
    apply st_getElement_Ok in He.
    apply st_setNode_heap in H as (e0 & He0 & Hl & Hh & Hc & HL & Hp).
    rewrite He in He0. injection He0 as <-.
    assert (a < length (heap s)) as Ha by (by eapply lookup_lt_Some).
    split. { eapply (st_same_insert s s' a e); try done. simpl. by rewrite length_insert. }
    split.
    { intros x j.
      assert (st_levelOf s a = Z.to_nat (level (enode e)) `min` length (next (enode e)))
        as Hlv by (by apply st_levelOf_eq).
      destruct (decide (x = Elem a /\ j = i /\ st_reach s (Elem a) i)) as [(-> & -> & Hr)|Hneg].
      - simpl in Hr. unfold SkipList.slot. simpl. unfold SkipList.getElement.
        rewrite erase_lookup, Hh, list_lookup_insert_eq by done. simpl. unfold idx.
        rewrite lookup_take_lt by lia. by rewrite list_lookup_insert_eq.
      - unfold SkipList.slot. destruct x as [|b]; simpl; [by rewrite Hl|].
        unfold SkipList.getElement. rewrite !erase_lookup, Hh.
        destruct (decide (b = a)) as [->|Hne]; [|by rewrite list_lookup_insert_ne].
        rewrite list_lookup_insert_eq by done. rewrite He. simpl. unfold idx.
        destruct (decide (j < Z.to_nat (level (enode e)))) as [Hj|Hj].
        + rewrite !lookup_take_lt by done.
          rewrite list_lookup_insert_ne; [done|]. intros <-. apply Hneg.
          split; [done|]. split; [done|]. simpl. lia.
        + by rewrite !lookup_take_ge by lia. }
    split.
    { intros b. unfold st_levelOf, SkipList.heightOf. rewrite !erase_lookup, Hh.
      destruct (decide (b = a)) as [->|Hne].
      - rewrite list_lookup_insert_eq by done. rewrite He. simpl.
        by rewrite !length_take, length_insert.
      - by rewrite list_lookup_insert_ne. }
    split.
    { intros b. unfold st_levelField. rewrite Hh. destruct (decide (b = a)) as [->|Hne].
      - rewrite list_lookup_insert_eq by done. by rewrite He.
      - by rewrite list_lookup_insert_ne. }
    split.
    { intros b. unfold st_visitedOf. rewrite Hh. destruct (decide (b = a)) as [->|Hne].
      - rewrite list_lookup_insert_eq by done. by rewrite He.
      - by rewrite list_lookup_insert_ne. }
    intros b j. unfold st_raw. rewrite Hh.
    destruct (decide (Elem a = Elem b /\ j = i)) as [[[= <-] ->]|Hneg].
    + rewrite list_lookup_insert_eq by done. simpl. unfold idx.
      by rewrite list_lookup_insert_eq.
    + destruct (decide (b = a)) as [->|Hne]; [|by rewrite list_lookup_insert_ne].
      rewrite list_lookup_insert_eq by done. rewrite He. simpl. unfold idx.
      rewrite list_lookup_insert_ne; [done|]. intros <-. by apply Hneg.
Qed.

(** A store into the [level] field of an element. *)
Lemma st_setLevel_obs s a l s' :
  setLevel s (Elem a) l = Ok s' ->
  st_same s s' /\
  (forall x j, SkipList.slot (erase s') x j =
     if decide (x = Elem a)
     then (if decide (j < Z.to_nat l) then st_raw s a j else Panic index_out_of_range)
     else SkipList.slot (erase s) x j) /\
  (forall b, st_levelField s' b = if decide (b = a) then l else st_levelField s b) /\
  (forall b, st_visitedOf s' b = st_visitedOf s b) /\
  (forall b j, st_raw s' b j = st_raw s b j) /\
  lnode s' = lnode s.
Proof.
  intros H. apply st_setLevel_Ok in H as (e & He & ->).
  assert (a < length (heap s)) as Ha by (by eapply lookup_lt_Some).
  split. { by eapply (st_same_insert s _ a e). }
  split.
  { intros x j. destruct (decide (x = Elem a)) as [->|Hne].
    - unfold SkipList.slot. simpl. unfold SkipList.getElement.
      rewrite erase_lookup. simpl. rewrite list_lookup_insert_eq by done. simpl.
      unfold st_raw. rewrite He. unfold idx.
      destruct (decide (j < Z.to_nat l)).
      + by rewrite lookup_take_lt.
      + by rewrite lookup_take_ge by lia.
    - unfold SkipList.slot. destruct x as [|b]; simpl; [done|].
      unfold SkipList.getElement. rewrite !erase_lookup. simpl.
      rewrite list_lookup_insert_ne; [done|]. intros ->. done. }
  split.
  { intros b. unfold st_levelField. simpl. destruct (decide (b = a)) as [->|Hne].
    - by rewrite list_lookup_insert_eq.
    - by rewrite list_lookup_insert_ne. }
  split.
  { intros b. unfold st_visitedOf. simpl. destruct (decide (b = a)) as [->|Hne].
    - rewrite list_lookup_insert_eq by done. by rewrite He.
    - by rewrite list_lookup_insert_ne. }
  split; [|done].
  intros b j. unfold st_raw. simpl. destruct (decide (b = a)) as [->|Hne].
  - rewrite list_lookup_insert_eq by done. by rewrite He.
  - by rewrite list_lookup_insert_ne.
Qed.

(** The [visited] flag is no part of the image. *)
Lemma st_setVisited_obs s r b s' :
  setVisited s r b = Ok s' ->
  erase s' = erase s /\ st_same s s' /\
  (forall a, st_levelField s' a = st_levelField s a) /\
  (forall a j, st_raw s' a j = st_raw s a j).
Proof.
  unfold setVisited. intros H. apply bind_Ok in H as (n & Hn & H). destruct r as [|a].
  - simpl in Hn. injection Hn as <-. apply st_setNode_head in H as (Hl & Hh & Hc & HL & Hp).
    unfold st_cfg in Hc. injection Hc as Hc1 Hc2 Hc3.
    split. { unfold erase. rewrite Hl, Hh, HL, Hp, Hc1, Hc2, Hc3. done. }
    split. { apply st_same_heap_eq; try done; [unfold st_cfg; congruence|by rewrite Hl]. }
    split; intros a; [unfold st_levelField|intros j; unfold st_raw]; by rewrite Hh.
  - simpl in Hn. apply bind_Ok in Hn as (e & He & Hn). injection Hn as <-.
    apply st_getElement_Ok in He.
    apply st_setNode_heap in H as (e0 & He0 & Hl & Hh & Hc & HL & Hp).
    rewrite He in He0. injection He0 as <-.
    assert (a < length (heap s)) as Ha by (by eapply lookup_lt_Some).
    unfold st_cfg in Hc. injection Hc as Hc1 Hc2 Hc3.
    split. { unfold erase. rewrite Hl, Hh, HL, Hp, Hc1, Hc2, Hc3. f_equal.
             rewrite list_fmap_insert. apply list_insert_id.
             rewrite list_lookup_fmap, He. done. }
    split. { eapply (st_same_insert s s' a e); try done. unfold st_cfg; congruence. }
    split.
    + intros c. unfold st_levelField. rewrite Hh. destruct (decide (c = a)) as [->|Hne].
      * rewrite list_lookup_insert_eq by done. by rewrite He.
      * by rewrite list_lookup_insert_ne.
    + intros c j. unfold st_raw. rewrite Hh. destruct (decide (c = a)) as [->|Hne].
      * rewrite list_lookup_insert_eq by done. by rewrite He.
      * by rewrite list_lookup_insert_ne.
Qed.

(** Stores succeed on the nodes there are, below [maxLevel]. *)
Lemma st_setSlot_total s r i v :
  Inv s -> (match r with Head => True | Elem a => a < length (heap s) end) ->
  i < maxLevel s -> exists s', setSlot s r i v = Ok s'.
Proof.
  intros HInv Hr Hi. unfold setSlot. destruct r as [|a]; simpl.
  - unfold store. rewrite decide_True by (rewrite (inv_head _ HInv); lia). simpl. eauto.
  - destruct (lookup_lt_is_Some_2 _ _ Hr) as [e He].
    unfold getElement. rewrite He. simpl. unfold store.
    destruct (inv_elem _ HInv a e He) as [_ Hl].
    rewrite decide_True by lia. simpl. eauto.
Qed.

Lemma st_setLevel_total s a l :
  a < length (heap s) -> exists s', setLevel s (Elem a) l = Ok s'.
Proof.
  intros Ha. destruct (lookup_lt_is_Some_2 _ _ Ha) as [e He].
  unfold setLevel. simpl. unfold getElement. rewrite He. simpl. eauto.
Qed.
End ErasePrim.


(** ** The walk of one level, with its demotion *)

Section Walk.
Import StashList StashListFacts.

Lemma st_links_Elem s i a v :
  st_links s i (Elem a) = Ok v ->
  exists e, heap s !! a = Some e /\ idx (next (enode e)) i = Ok v.
Proof.
  unfold st_links. rewrite st_slot_Elem. intros H. apply bind_Ok in H as (e & He & H).
  apply st_getElement_Ok in He. eauto.
Qed.

Lemma keyOf_lookup s a e : heap s !! a = Some e -> keyOf s a = key e.
Proof. intros H. unfold keyOf. by rewrite H. Qed.

Lemma demotes_nil s k i C : demotes s k i [] C = false.
Proof. done. Qed.

Lemma demotes_cons s k i b b' B C :
  demotes s k i (b :: b' :: B) C = demotes s k i (b' :: B) C.
Proof. unfold demotes. by rewrite last_cons_cons. Qed.

Lemma removelast_cons2 {A} (b b' : A) B :
  removelast (b :: b' :: B) = b :: removelast (b' :: B).
Proof. done. Qed.

Lemma st_walk s k i C : forall B r fuel,
  lseg (st_links s i) r (B ++ C) None ->
  (forall b, b ∈ B -> key_lt (keyOf s b) k = true) ->
  (forall c, c ∈ C -> key_lt (keyOf s c) k = false) ->
  length B < fuel ->
  advance_demote fuel s k i r (hd_or (B ++ C) None) =
    if demotes s k i B C
    then s' ← demote s i (lastRef r (removelast B)) (lastRef r B) (hd_or C None);
         Ok (s', lastRef r B, hd_or C None)
    else Ok (s, lastRef r B, hd_or C None).
Proof.
  induction B as [|b B IH]; intros r fuel Hseg HB HC Hfuel;
    (destruct fuel as [|fuel]; [simpl in Hfuel; lia|]).
  - rewrite demotes_nil. simpl in *. destruct C as [|c C]; simpl in *; [done|].
    destruct Hseg as [_ Hseg]. apply lseg_hd in Hseg.
    apply st_links_Elem in Hseg as (e & He & _).
    unfold getElement. rewrite He. simpl.
    specialize (HC c ltac:(set_solver)). rewrite (keyOf_lookup _ _ _ He) in HC.
    by rewrite HC.
  - match goal with |- _ = ?R => remember R as RHS eqn:HR end.
    simpl in Hseg. destruct Hseg as [_ Hseg].
    pose proof (lseg_hd _ _ _ _ Hseg) as Hhd.
    apply st_links_Elem in Hhd as (e & He & Hnx).
    change (advance_demote (S fuel) s k i r (hd_or ((b :: B) ++ C) None)) with
      (e0 ← getElement s b;
       if key_lt (key e0) k then
         nxt ← idx (next (enode e0)) i;
         d ← demote_test s k i (Elem b) nxt;
         if d : bool then s' ← demote s i r (Elem b) nxt; Ok (s', Elem b, nxt)
         else advance_demote fuel s k i (Elem b) nxt
       else Ok (s, r, Some b)).
    unfold getElement. rewrite He. simpl.
    pose proof (HB b ltac:(set_solver)) as Hb. rewrite (keyOf_lookup _ _ _ He) in Hb.
    rewrite Hb, Hnx. simpl.
    destruct B as [|b' B].
    + (* the last step: the node after is the candidate *)
      simpl hd_or. simpl lastRef in HR. simpl removelast in HR.
      assert (demote_test s k i (Elem b) (hd_or C None) = Ok (demotes s k i [b] C)) as Ht.
      { unfold demote_test, demotes. simpl last.
        destruct C as [|c C]; simpl hd_or.
        - by destruct (decide (0 < i)).
        - destruct (decide (0 < i)) as [Hi|Hi].
          + rewrite bool_decide_eq_true_2 by done. simpl.
            simpl in Hseg. destruct Hseg as [_ Hseg]. apply lseg_hd in Hseg.
            apply st_links_Elem in Hseg as (ec & Hec & _).
            unfold getElement. rewrite Hec. simpl.
            rewrite (keyOf_lookup _ _ _ Hec).
            destruct (String.eqb k (key ec)); [|done]. simpl.
            unfold st_visitedOf. rewrite He. done.
          + by rewrite bool_decide_eq_false_2. }
      simpl in Ht. rewrite Ht. simpl.
      destruct (demotes s k i [b] C) eqn:Hd; [by subst RHS|].
      assert (length (@nil nat) < fuel) as Hf by (simpl in *; lia).
      pose proof (IH (Elem b) fuel Hseg ltac:(set_solver) HC Hf) as HIH.
      rewrite demotes_nil in HIH. simpl in HIH. subst RHS. by rewrite HIH.
    + (* not the last step: the node after holds a key below [k] *)
      assert (demote_test s k i (Elem b) (Some b') = Ok false) as Ht.
      { unfold demote_test. destruct (decide (0 < i)); [|done].
        simpl in Hseg. destruct Hseg as [_ Hseg]. apply lseg_hd in Hseg.
        apply st_links_Elem in Hseg as (eb' & Heb' & _).
        unfold getElement. rewrite Heb'. simpl.
        pose proof (HB b' ltac:(set_solver)) as Hb'.
        rewrite (keyOf_lookup _ _ _ Heb') in Hb'.
        destruct (String.eqb_spec k (key eb')) as [->|_]; [|done].
        rewrite key_lt_irrefl in Hb'. discriminate. }
      simpl hd_or. rewrite Ht. simpl.
      rewrite demotes_cons, removelast_cons2 in HR.
      assert (length (b' :: B) < fuel) as Hf by (simpl in *; lia).
      assert (forall x, x ∈ b' :: B -> key_lt (keyOf s x) k = true) as HB'
        by (intros x Hx; apply HB; set_solver).
      pose proof (IH (Elem b) fuel Hseg HB' HC Hf) as HIH.
      simpl hd_or in HIH. rewrite HIH. subst RHS. done.
Qed.
End Walk.

(** ** Levels of a represented adaptive list *)

Section Image.
Import StashList StashListFacts.

Lemma StRep_lookup s L a e : StRep s L -> heap s !! a = Some e -> a ∈ L.
Proof. intros H He. apply (strep_all _ _ H). by eapply lookup_lt_Some. Qed.

Lemma StRep_elem_lt s L a : StRep s L -> a ∈ L -> a < length (heap s).
Proof.
  intros H Ha. rewrite <- erase_heap_length.
  apply (SkipListFacts.Rep_elem_lt (erase s) L a); [apply H|done].
Qed.

Lemma st_level_exact s L a e :
  StRep s L -> heap s !! a = Some e ->
  level (enode e) = Z.of_nat (st_levelOf s a) /\
  1 <= st_levelOf s a <= maxLevel s /\ length (next (enode e)) = maxLevel s.
Proof.
  intros HR He. pose proof (StRep_lookup _ _ _ _ HR He) as Ha.
  destruct (SkipList.rep_elems _ _ (strep_rep _ _ HR) a Ha) as [_ Hh].
  fold (st_levelOf s a) in Hh. change (SkipList.maxLevel (erase s)) with (maxLevel s) in Hh.
  destruct (inv_elem _ (strep_inv _ _ HR) a e He) as [Hl Hn].
  rewrite (st_levelOf_eq s a e He) in *. lia.
Qed.

Lemma st_levelField_eq s a e : heap s !! a = Some e -> st_levelField s a = level (enode e).
Proof. intros He. unfold st_levelField. by rewrite He. Qed.

Lemma st_raw_slot s a j :
  j < st_levelOf s a -> SkipList.slot (erase s) (Elem a) j = st_raw s a j.
Proof.
  unfold st_levelOf, SkipList.heightOf. rewrite erase_lookup. intros Hj.
  unfold SkipList.slot, st_raw. simpl. unfold SkipList.getElement. rewrite erase_lookup.
  destruct (heap s !! a) as [e|]; simpl in *; [|lia].
  rewrite length_take in Hj. unfold idx. by rewrite lookup_take_lt by lia.
Qed.

Lemma st_setLevel_levelOf s a l s' e :
  setLevel s (Elem a) l = Ok s' -> heap s !! a = Some e ->
  forall b, st_levelOf s' b =
    if decide (b = a) then Z.to_nat l `min` length (next (enode e)) else st_levelOf s b.
Proof.
  intros H He b. apply st_setLevel_Ok in H as (e0 & He0 & ->).
  rewrite He in He0. injection He0 as <-.
  unfold st_levelOf, SkipList.heightOf. rewrite !erase_lookup. simpl.
  destruct (decide (b = a)) as [->|Hne].
  - rewrite list_lookup_insert_eq by (by eapply lookup_lt_Some). simpl.
    by rewrite length_take.
  - by rewrite list_lookup_insert_ne.
Qed.

Lemma st_same_cfg s s' :
  st_same s s' ->
  maxLevel s' = maxLevel s /\ probability s' = probability s /\ probTable s' = probTable s.
Proof. intros H. pose proof (ss_cfg _ _ H) as Hc. unfold st_cfg in Hc. by injection Hc. Qed.

Lemma st_setSlot_Inv s r i v s' : setSlot s r i v = Ok s' -> Inv s -> Inv s'.
Proof.
  intros H. eapply Inv_evolves; [apply node_desc_bound|]. by eapply st_setSlot_evolves.
Qed.

(** The demotion of an element of level [i + 1], seen on the image. *)
Lemma st_demote_obs s L i before d nxt :
  StRep s L -> i < maxLevel s ->
  st_valid s before -> st_reach s before i -> before <> Elem d ->
  d < length (heap s) -> st_levelOf s d = S i ->
  exists s', demote s i before (Elem d) nxt = Ok s' /\ st_same s s' /\ Inv s' /\
    (forall x j, SkipList.slot (erase s') x j =
       if decide (x = Elem d) then
         (if decide (j < i) then SkipList.slot (erase s) (Elem d) j
          else Panic index_out_of_range)
       else if decide (x = before /\ j = i) then Ok nxt
       else SkipList.slot (erase s) x j) /\
    (forall a, st_levelOf s' a = if decide (a = d) then i else st_levelOf s a) /\
    (forall a, st_visitedOf s' a = st_visitedOf s a).
Proof.
  intros HR Hi Hval Hreach Hne Hd Hlv.
  pose proof (strep_inv _ _ HR) as HInv.
  destruct (st_setSlot_total s before i nxt HInv Hval Hi) as [s1 H1].
  pose proof (st_setSlot_obs _ _ _ _ _ H1) as (Hs1 & Hsl1 & Hlo1 & Hlf1 & Hvo1 & Hraw1).
  pose proof (st_setSlot_Inv _ _ _ _ _ H1 HInv) as HInv1.
  pose proof (st_same_cfg _ _ Hs1) as (Hm1 & _ & _).
  assert (d < length (heap s1)) as Hd1 by (by rewrite (ss_heap _ _ Hs1)).
  destruct (st_setSlot_total s1 (Elem d) i None HInv1 Hd1 ltac:(lia)) as [s2 H2].
  pose proof (st_setSlot_obs _ _ _ _ _ H2) as (Hs2 & Hsl2 & Hlo2 & Hlf2 & Hvo2 & Hraw2).
  pose proof (st_setSlot_Inv _ _ _ _ _ H2 HInv1) as HInv2.
  pose proof (st_same_cfg _ _ Hs2) as (Hm2 & _ & _).
  assert (d < length (heap s2)) as Hd2 by (by rewrite (ss_heap _ _ Hs2)).
  destruct (lookup_lt_is_Some_2 _ _ Hd) as [e He].
  destruct (lookup_lt_is_Some_2 _ _ Hd2) as [e2 He2].
  destruct (st_level_exact _ _ _ _ HR He) as (Hle & _ & _).
  assert (level (enode e2) = Z.of_nat (S i)) as Hl2.
  { rewrite <- (st_levelField_eq _ _ _ He2), Hlf2, Hlf1, (st_levelField_eq _ _ _ He).
    by rewrite Hle, Hlv. }
  destruct (st_setLevel_total s2 d (level (enode e2) - 1) Hd2) as [s3 H3].
  pose proof (st_setLevel_obs _ _ _ _ H3) as (Hs3 & Hsl3 & Hlf3 & Hvo3 & Hraw3 & Hln3).
  pose proof (st_setLevel_levelOf _ _ _ _ _ H3 He2) as Hlo3.
  assert (demote s i before (Elem d) nxt = Ok s3) as Hdem.
  { unfold demote. rewrite H1. simpl. rewrite H2. simpl.
    unfold getElement. rewrite He2. simpl. exact H3. }
  exists s3. split; [done|].
  split. { eapply st_same_trans; [|exact Hs3]. eapply st_same_trans; eauto. }
  split. { eapply Inv_evolves; [apply node_desc_bound| |exact HInv].
           by eapply st_demote_evolves. }
  assert (Z.to_nat (level (enode e2) - 1) = i) as Hti by lia.
  split; [|split].
  - intros x j. rewrite Hsl3, Hti. destruct (decide (x = Elem d)) as [->|Hx].
    + destruct (decide (j < i)) as [Hj|Hj]; [|done].
      rewrite Hraw2. rewrite decide_False by lia.
      rewrite Hraw1. rewrite decide_False by (intros [? _]; done).
      symmetry. apply st_raw_slot. lia.
    + rewrite Hsl2. rewrite decide_False by tauto. rewrite Hsl1.
      destruct (decide (x = before /\ j = i)) as [[-> ->]|Hn].
      * by rewrite decide_True.
      * rewrite decide_False; [done|]. tauto.
  - intros a. rewrite Hlo3. destruct (decide (a = d)) as [->|Ha].
    + destruct (inv_elem _ HInv2 d e2 He2) as [_ Hlen]. lia.
    + by rewrite Hlo2, Hlo1.
  - intros a. by rewrite Hvo3, Hvo2, Hvo1.
Qed.
End Image.

(** ** A demotion keeps the image well formed *)

Section DemoteImage.
Import StashList StashListFacts.

Lemma filter_all {A} (P : A -> Prop) `{!forall a, Decision (P a)} (l : list A) :
  (forall a, a ∈ l -> P a) -> filter P l = l.
Proof.
  induction l as [|x l IH]; intros Hall; [done|].
  rewrite filter_cons_True by (apply Hall; set_solver).
  f_equal. apply IH. intros a Ha. apply Hall. set_solver.
Qed.

Lemma filter_iff_in {A} (P Q : A -> Prop) `{!forall a, Decision (P a)}
    `{!forall a, Decision (Q a)} (l : list A) :
  (forall a, a ∈ l -> (P a <-> Q a)) -> filter P l = filter Q l.
Proof.
  induction l as [|x l IH]; intros Hpq; [done|].
  rewrite !filter_cons. rewrite IH by (intros a Ha; apply Hpq; set_solver).
  pose proof (Hpq x ltac:(set_solver)) as Hx.
  destruct (decide (P x)) as [Hp|Hp], (decide (Q x)) as [Hq|Hq]; tauto || done.
Qed.

Lemma filter_drop_one (d : nat) X Y :
  d ∉ X -> d ∉ Y -> filter (fun x => x <> d) (X ++ d :: Y) = X ++ Y.
Proof.
  intros HX HY. rewrite filter_app, filter_cons. rewrite decide_False by tauto.
  f_equal; apply filter_all; intros a Ha ->; done.
Qed.

(** The levels after the height of [d] drops from [i + 1] to [i]. *)
Lemma level_of_lower E E' (d i : nat) L :
  (forall a, SkipList.heightOf E' a = if decide (a = d) then i else SkipList.heightOf E a) ->
  SkipList.heightOf E d = S i ->
  forall j, SkipList.level_of E' j L =
    if decide (j = i) then filter (fun x => x <> d) (SkipList.level_of E j L)
    else SkipList.level_of E j L.
Proof.
  intros Hh Hd j. unfold SkipList.level_of. destruct (decide (j = i)) as [->|Hj].
  - rewrite list_filter_filter. apply list_filter_iff. intros a. rewrite Hh.
    destruct (decide (a = d)) as [->|]; [lia|tauto].
  - apply list_filter_iff. intros a. rewrite Hh.
    destruct (decide (a = d)) as [->|]; [lia|done].
Qed.

Lemma st_demote_image s L i X d Y :
  StRep s L -> 0 < i -> i < maxLevel s ->
  SkipList.level_of (erase s) i L = X ++ d :: Y ->
  st_levelOf s d = S i ->
  exists s', demote s i (lastRef Head X) (Elem d) (hd_or Y None) = Ok s' /\
    StRep s' L /\ st_same s s' /\
    (forall a, st_levelOf s' a = if decide (a = d) then i else st_levelOf s a) /\
    (forall a, st_visitedOf s' a = st_visitedOf s a).
Proof.
  intros HR Hi0 Hi HX Hlv.
  pose proof (strep_rep _ _ HR) as HRep. pose proof (strep_inv _ _ HR) as HInv.
  pose proof (SkipListFacts.Rep_NoDup _ _ HRep) as HndL.
  assert (NoDup (X ++ d :: Y)) as Hnd by (rewrite <- HX; by apply NoDup_filter).
  assert (forall a, a ∈ X ++ d :: Y -> a ∈ L /\ i < st_levelOf s a) as Hsub.
  { intros a Ha. rewrite <- HX in Ha. unfold SkipList.level_of in Ha.
    apply list_elem_of_filter in Ha. tauto. }
  pose proof Hnd as Hnd'.
  apply NoDup_app in Hnd' as (HndX & Hcross & HndY). apply NoDup_cons in HndY as [HdY HndY].
  assert (d ∉ X) as HdX by (intros Hin; apply (Hcross d Hin); set_solver).
  assert (d ∈ L) as HdL by (apply Hsub; set_solver).
  pose proof (StRep_elem_lt _ _ _ HR HdL) as Hd.
  assert (st_valid s (lastRef Head X) /\ st_reach s (lastRef Head X) i /\
          lastRef Head X <> Elem d) as (Hval & Hreach & Hne).
  { destruct (lastRef_cases Head X) as [[_ ->]|(a & Ha & ->)]; simpl.
    - split; [done|]. split; [|done]. by rewrite (inv_head _ HInv).
    - destruct (Hsub a ltac:(set_solver)) as [HaL Hai].
      split; [by eapply StRep_elem_lt|]. split; [done|]. intros [= ->]. done. }
  destruct (st_demote_obs s L i (lastRef Head X) d (hd_or Y None) HR Hi Hval Hreach Hne Hd Hlv)
    as (s' & Hdem & Hsame & HInv' & Hsl & Hlo & Hvo).
  exists s'. split; [done|]. split; [|done].
  pose proof (st_same_cfg _ _ Hsame) as (Hm & Hp & Ht).
  constructor; [|done|].
  2:{ intros a. rewrite (ss_heap _ _ Hsame). apply HR. }
  assert (forall j, SkipList.level_of (erase s') j L =
            if decide (j = i) then X ++ Y else SkipList.level_of (erase s) j L) as Hlev.
  { intros j. rewrite (level_of_lower (erase s) (erase s') d i L); [|exact Hlo|exact Hlv].
    destruct (decide (j = i)) as [->|]; [|done]. rewrite HX. by apply filter_drop_one. }
  destruct HRep. constructor.
  - change (1 <= maxLevel s'). rewrite Hm. exact rep_max.
  - change (length (next (lnode s')) = maxLevel s'). apply HInv'.
  - change (length (prevNodesCache s') = maxLevel s').
    rewrite (ss_cache _ _ Hsame), Hm. exact rep_cache.
  - change (length (probTable s') = maxLevel s'). rewrite Ht, Hm. exact rep_tbl.
  - intros a Ha. rewrite erase_heap_length, (ss_heap _ _ Hsame).
    change (SkipList.maxLevel (erase s')) with (maxLevel s'). rewrite Hm.
    destruct (rep_elems a Ha) as [H1 H2]. rewrite erase_heap_length in H1. split; [done|].
    fold (st_levelOf s' a). rewrite Hlo. destruct (decide (a = d)); [lia|]. exact H2.
  - eapply SkipListFacts.sorted_keys_ext; [|exact rep_sorted].
    intros a _. rewrite !erase_keyOf. apply Hsame.
  - intros j Hj. change (SkipList.maxLevel (erase s')) with (maxLevel s') in Hj.
    rewrite Hm in Hj. pose proof (rep_links j Hj) as Hseg. rewrite Hlev.
    destruct (decide (j = i)) as [->|Hji].
    + rewrite HX in Hseg.
      set (g' := fun x => if decide (x = lastRef Head X) then Ok (hd_or Y None)
                          else SkipList.links (erase s) i x).
      assert (lseg g' Head (X ++ Y) None) as Hseg'.
      { eapply lseg_remove; [exact Hseg| | |].
        - by apply SkipListFacts.NoDup_nodes.
        - unfold g'. rewrite decide_True by done. symmetry.
          apply lseg_app_r in Hseg. simpl in Hseg. destruct Hseg as [_ Hseg].
          by apply lseg_hd in Hseg.
        - intros x Hx. unfold g'. by rewrite decide_False. }
      assert (forall x, x <> Elem d -> SkipList.links (erase s') i x = g' x) as Hg.
      { intros x Hx. unfold SkipList.links, g'. rewrite Hsl. rewrite decide_False by done.
        destruct (decide (x = lastRef Head X)) as [->|Hxb].
        - by rewrite decide_True.
        - rewrite decide_False; [done|tauto]. }
      eapply lseg_ext; [| |exact Hseg'].
      * by apply Hg.
      * intros a Ha. apply Hg. intros [= ->]. set_solver.
    + eapply lseg_ext; [| |exact Hseg].
      * unfold SkipList.links. rewrite Hsl. rewrite decide_False by done.
        rewrite decide_False; [done|]. intros [_ ?]. done.
      * intros a Ha. unfold SkipList.links. rewrite Hsl.
        destruct (decide (Elem a = Elem d)) as [[= ->]|Hxd].
        -- unfold SkipList.level_of in Ha. apply list_elem_of_filter in Ha as [Ha _].
           fold (st_levelOf s d) in Ha. rewrite decide_True by lia. done.
        -- rewrite decide_False; [done|]. intros [_ ?]. done.
  - change (Length s' = Z.of_nat (length L)). rewrite (ss_Length _ _ Hsame). exact rep_len.
Qed.
End DemoteImage.

(** ** One level of the descent *)

Section DescentImage.
Import StashList StashListFacts.

Lemma level_split_strong E i r l :
  exists A B, SkipList.level_of E i l = A ++ B /\
    lastRef r A = lastRef r (SkipList.level_of E (S i) l) /\
    forall b, b ∈ B -> SkipList.heightOf E b = S i.
Proof.
  unfold SkipList.level_of. induction l as [|x l IH] using rev_ind.
  - exists [], []. split; [done|]. split; [done|]. set_solver.
  - destruct IH as (A & B & HAB & Hlast & HB). rewrite !filter_app.
    destruct (decide (S i < SkipList.heightOf E x)) as [Hx|Hx].
    + exists (filter (fun a => i < SkipList.heightOf E a) l ++ [x]), [].
      rewrite (filter_cons_True _ x) by lia.
      rewrite (filter_cons_True _ x) by done. simpl.
      rewrite app_nil_r. split; [done|]. split; [by rewrite !lastRef_snoc|set_solver].
    + rewrite (filter_cons_False (fun a => S i < SkipList.heightOf E a) x) by done.
      simpl. rewrite app_nil_r.
      destruct (decide (i < SkipList.heightOf E x)) as [Hx'|Hx'].
      * exists A, (B ++ [x]). rewrite (filter_cons_True _ x) by done. simpl.
        rewrite HAB. split; [by rewrite <- app_assoc|]. split; [done|].
        intros b [Hb|Hb]%elem_of_app; [by apply HB|].
        apply list_elem_of_singleton in Hb as ->. lia.
      * exists A, B. rewrite (filter_cons_False _ x) by done. simpl.
        by rewrite app_nil_r.
Qed.

Lemma level_of_app E i X Y :
  SkipList.level_of E i (X ++ Y) = SkipList.level_of E i X ++ SkipList.level_of E i Y.
Proof. unfold SkipList.level_of. apply filter_app. Qed.

Lemma level_of_elem E i X a :
  a ∈ SkipList.level_of E i X <-> i < SkipList.heightOf E a /\ a ∈ X.
Proof. unfold SkipList.level_of. by rewrite list_elem_of_filter. Qed.

Lemma st_level_step s L L1 L2 k i P fuel :
  StRep s L -> L = L1 ++ L2 ->
  (forall a, a ∈ L1 -> key_lt (keyOf s a) k = true) ->
  (forall a, a ∈ L2 -> key_lt (keyOf s a) k = false) ->
  i < maxLevel s -> length L < fuel ->
  st_arrives s L1 i P ->
  exists nx s', slot s P i = Ok nx /\
    advance_demote fuel s k i P nx =
      Ok (s', SkipList.predAt (erase s) L1 i,
          hd_or (SkipList.level_of (erase s) i L2) None) /\
    StRep s' L /\ st_same s s' /\ (forall a, st_visitedOf s' a = st_visitedOf s a) /\
    (s' = s \/
     0 < i /\ exists d c, c ∈ L2 /\ keyOf s c = k /\ i < st_levelOf s c /\
       d ∈ L1 /\ st_levelOf s d = S i /\
       (forall a, st_levelOf s' a = if decide (a = d) then i else st_levelOf s a) /\
       Elem d <> P /\ st_visitedOf s d = false /\
       SkipList.predAt (erase s) L1 i = Elem d).
Proof.
  intros HR -> H1 H2 Hi Hfuel (A & B & HAB & -> & HB).
  pose proof (strep_rep _ _ HR) as HRep.
  pose proof (SkipList.rep_links _ _ HRep i Hi) as Hseg.
  rewrite level_of_app in Hseg.
  remember (SkipList.level_of (erase s) i L2) as C eqn:HC.
  rewrite HAB, <- app_assoc in Hseg.
  pose proof (lseg_app_r _ _ _ _ _ Hseg) as HsegP. apply erase_lseg in HsegP.
  assert (forall b, b ∈ B -> b ∈ L1) as HBL1.
  { intros b Hb. assert (b ∈ SkipList.level_of (erase s) i L1) as Hb'
      by (rewrite HAB; set_solver).
    apply level_of_elem in Hb'. tauto. }
  assert (forall c, c ∈ C -> c ∈ L2 /\ i < st_levelOf s c) as HCL2.
  { intros c Hc. rewrite HC in Hc. apply level_of_elem in Hc. tauto. }
  assert (length B < fuel) as HfB.
  { assert (length (SkipList.level_of (erase s) i L1) <= length L1) as Hl
      by apply length_filter.
    rewrite HAB in Hl. rewrite !length_app in *. lia. }
  pose proof (st_walk s k i C B (lastRef Head A) fuel HsegP
                (fun b Hb => H1 b (HBL1 b Hb))
                (fun c Hc => H2 c (proj1 (HCL2 c Hc))) HfB) as Hwalk.
  assert (SkipList.predAt (erase s) L1 i = lastRef (lastRef Head A) B) as HP.
  { unfold SkipList.predAt. by rewrite HAB, lastRef_app. }
  exists (hd_or (B ++ C) None).
  assert (slot s (lastRef Head A) i = Ok (hd_or (B ++ C) None)) as Hslot
    by (by apply lseg_hd in HsegP).
  destruct (demotes s k i B C) eqn:Hdem.
  - unfold demotes in Hdem. destruct (last B) as [d|] eqn:Hlast; [|done].
    destruct C as [|c C']; [done|].
    apply andb_true_iff in Hdem as [Hdem Hvis]. apply andb_true_iff in Hdem as [Hi0 Hk].
    apply bool_decide_eq_true in Hi0. apply String.eqb_eq in Hk.
    apply last_Some in Hlast as [B0 ->].
    rewrite removelast_last, lastRef_snoc in Hwalk.
    rewrite <- lastRef_app in Hwalk. rewrite lastRef_snoc in HP.
    assert (SkipList.level_of (erase s) i (L1 ++ L2) = (A ++ B0) ++ d :: c :: C') as HX.
    { rewrite level_of_app, HAB, <- HC. by rewrite <- !app_assoc. }
    destruct (st_demote_image s (L1 ++ L2) i (A ++ B0) d (c :: C') HR Hi0 Hi HX
                (HB d ltac:(set_solver)))
      as (s' & Hd & HR' & Hsame & Hlo & Hvo).
    exists s'. split; [done|]. split.
    { rewrite Hwalk. simpl hd_or in *. rewrite Hd. simpl. by rewrite HP. }
    split; [done|]. split; [done|]. split; [done|]. right. split; [done|].
    exists d, c. destruct (HCL2 c ltac:(set_solver)) as [Hc1 Hc2].
    split; [done|]. split; [done|]. split; [done|].
    split; [apply HBL1; set_solver|]. split; [apply HB; set_solver|].
    split; [done|]. split; [|split; [by apply negb_true_iff|done]].
    assert (NoDup (A ++ B0 ++ [d])) as Hnd.
    { rewrite <- HAB. apply NoDup_filter.
      pose proof (SkipListFacts.Rep_NoDup _ _ HRep) as HndL.
      by apply NoDup_app in HndL as (HndL & _). }
    apply NoDup_app in Hnd as (_ & Hcross & _).
    destruct (lastRef_cases Head A) as [[_ ->]|(a & Ha & ->)]; [done|].
    intros [= ->]. apply (Hcross a Ha). set_solver.
  - exists s. split; [done|]. split; [by rewrite Hwalk, HP|].
    split; [done|]. split; [apply st_same_refl|]. split; [done|by left].
Qed.
End DescentImage.

(** ** The whole descent *)

Section DescendImage.
Import StashList StashListFacts.

Lemma st_lowers_refl s L1 hb : st_lowers s s L1 hb.
Proof. intros a. by left. Qed.

Lemma st_lowers_trans s1 s2 s3 L1 hb :
  st_lowers s1 s2 L1 hb -> st_lowers s2 s3 L1 hb -> st_lowers s1 s3 L1 hb.
Proof.
  intros H12 H23 a.
  destruct (H12 a) as [E1|(? & ?)], (H23 a) as [E2|(? & ?)];
    [left; lia|right..]; (split; [done|lia]).
Qed.

Lemma sorted_keys_inj E L a b :
  SkipList.sorted_keys E L -> a ∈ L -> b ∈ L ->
  SkipList.keyOf E a = SkipList.keyOf E b -> a = b.
Proof.
  unfold SkipList.sorted_keys. induction 1 as [|x l Hs IH Hall]; intros Ha Hb Hk.
  - inversion Ha.
  - rewrite Forall_forall in Hall.
    apply elem_of_cons in Ha as [->|Ha]; apply elem_of_cons in Hb as [->|Hb]; auto.
    + specialize (Hall b Hb). rewrite Hk, key_lt_irrefl in Hall. discriminate.
    + specialize (Hall a Ha). rewrite Hk, key_lt_irrefl in Hall. discriminate.
Qed.

Lemma StRep_split_disjoint s L1 L2 a :
  StRep s (L1 ++ L2) -> a ∈ L1 -> a ∈ L2 -> False.
Proof.
  intros HR H1 H2. pose proof (SkipListFacts.Rep_NoDup _ _ (strep_rep _ _ HR)) as Hnd.
  apply NoDup_app in Hnd as (_ & Hcross & _). by apply (Hcross a).
Qed.

Lemma st_arrives_top s L L1 :
  StRep s L -> L1 ⊆ L -> st_arrives s L1 (maxLevel s - 1) Head.
Proof.
  intros HR Hsub. exists [], (SkipList.level_of (erase s) (maxLevel s - 1) L1).
  split; [done|]. split; [done|]. intros b Hb. apply level_of_elem in Hb as [Hb HbL].
  destruct (SkipList.rep_elems _ _ (strep_rep _ _ HR) b (Hsub b HbL)) as [_ Hh].
  pose proof (SkipList.rep_max _ _ (strep_rep _ _ HR)) as Hm.
  change (SkipList.maxLevel (erase s)) with (maxLevel s) in *.
  fold (st_levelOf s b) in *. lia.
Qed.

Lemma st_arrives_next s s' L1 i :
  (s' = s \/ exists d, st_levelOf s d = S (S i) /\
     forall a, st_levelOf s' a = if decide (a = d) then S i else st_levelOf s a) ->
  st_arrives s' L1 i (SkipList.predAt (erase s) L1 (S i)).
Proof.
  intros Hch. destruct (level_split_strong (erase s) i Head L1) as (A & B & HAB & Hlast & HB).
  exists A, B. destruct Hch as [->|(d & Hd & Hlo)]; [done|]. split; [|split].
  - rewrite <- HAB. unfold SkipList.level_of. apply list_filter_iff. intros a.
    fold (st_levelOf s' a). fold (st_levelOf s a). rewrite Hlo.
    destruct (decide (a = d)) as [->|]; [lia|done].
  - done.
  - intros b Hb. rewrite Hlo. destruct (decide (b = d)); [done|]. by apply HB.
Qed.

Lemma level_of_lowers s s' L L1 hb j :
  StRep s L -> StRep s' L -> L1 ⊆ L -> st_lowers s s' L1 hb -> hb <= j \/ j = 0 ->
  SkipList.level_of (erase s') j L1 = SkipList.level_of (erase s) j L1.
Proof.
  intros HR HR' Hsub Hlow Hj. unfold SkipList.level_of. apply filter_iff_in. intros a Ha.
  fold (st_levelOf s' a). fold (st_levelOf s a).
  destruct (Hlow a) as [->|(_ & Hlt)]; [done|].
  destruct (SkipList.rep_elems _ _ (strep_rep _ _ HR') a (Hsub a Ha)) as [_ Hh].
  fold (st_levelOf s' a) in Hh. lia.
Qed.

Lemma st_descend_image k L L1 L2 fuel hb : forall n s P nxt prevs,
  StRep s L -> L = L1 ++ L2 ->
  (forall a, a ∈ L1 -> key_lt (keyOf s a) k = true) ->
  (forall a, a ∈ L2 -> key_lt (keyOf s a) k = false) ->
  length L < fuel ->
  (forall c, c ∈ L2 -> keyOf s c = k -> st_levelOf s c <= hb) ->
  n <= maxLevel s -> length prevs = maxLevel s ->
  match n with 0 => True | S i => st_arrives s L1 i P end ->
  exists prevs' s', descend fuel s k n P nxt prevs = Ok (prevs', s') /\
    StRep s' L /\ st_same s s' /\ (forall a, st_visitedOf s' a = st_visitedOf s a) /\
    length prevs' = maxLevel s /\ st_lowers s s' L1 hb /\
    (forall j, n <= j -> prevs' !! j = prevs !! j) /\
    (forall j, j < n -> hb <= j \/ j = 0 ->
       prevs' !! j = Some (Some (SkipList.predAt (erase s') L1 j))) /\
    ((forall c, c ∈ L2 -> keyOf s c <> k) -> s' = s) /\
    st_demoted s s' L1 hb n P.
Proof.
  induction n as [|i IH]; intros s P nxt prevs HR HL H1 H2 Hfuel Hhb Hn Hlen Harr.
  - exists prevs, s. split; [done|]. split; [done|]. split; [apply st_same_refl|].
    split; [done|]. split; [done|]. split; [apply st_lowers_refl|].
    split; [done|]. split; [intros; lia|]. split; [done|]. intros a. by left.
  - destruct (st_level_step s L L1 L2 k i P fuel HR HL H1 H2 Hn Hfuel Harr)
      as (nx & s1 & Hslot & Hadv & HR1 & Hsame1 & Hvo1 & Hch).
    pose proof (st_same_cfg _ _ Hsame1) as (Hm1 & _ & _).
    assert (st_lowers s s1 L1 hb) as Hlow1.
    { destruct Hch as [->|(Hi0 & d & c & Hc & Hck & Hci & Hd & Hdl & Hlo & _)];
        [apply st_lowers_refl|].
      intros a. rewrite Hlo. destruct (decide (a = d)) as [->|]; [right|by left].
      split; [done|]. specialize (Hhb c Hc Hck). lia. }
    assert (forall c, c ∈ L2 -> st_levelOf s1 c = st_levelOf s c) as HL2same.
    { intros c Hc. destruct (Hlow1 c) as [|[Hc1 _]]; [done|]. exfalso.
      subst L. by eapply StRep_split_disjoint. }
    destruct (IH s1 (SkipList.predAt (erase s) L1 i)
                (hd_or (SkipList.level_of (erase s) i L2) None)
                (<[i := Some (SkipList.predAt (erase s) L1 i)]> prevs))
      as (prevs' & s' & Hd & HR' & Hsame' & Hvo' & Hlen' & Hlow' & Hge & Hlt & Hmiss & HD').
    + done.
    + done.
    + intros a Ha. rewrite (ss_key _ _ Hsame1). auto.
    + intros a Ha. rewrite (ss_key _ _ Hsame1). auto.
    + done.
    + intros c Hc Hk. rewrite HL2same by done. apply Hhb; [done|].
      by rewrite <- (ss_key _ _ Hsame1).
    + lia.
    + rewrite length_insert. lia.
    + destruct i as [|i']; [done|]. apply st_arrives_next.
      destruct Hch as [->|(Hi0 & d & c & Hc & Hck & Hci & Hd & Hdl & Hlo & _)]; [by left|].
      right. by exists d.
    + exists prevs', s'. split.
      { change (descend fuel s k (S i) P nxt prevs) with
          (nx ← slot s P i;
           '(s, prev', nxt') ← advance_demote fuel s k i P nx;
           prevs' ← store prevs i (Some prev');
           descend fuel s k i prev' nxt' prevs').
        rewrite Hslot. simpl. rewrite Hadv. simpl.
        unfold store. rewrite decide_True by lia. simpl. exact Hd. }
      split; [done|]. split; [by eapply st_same_trans|].
      split; [intros a; by rewrite Hvo', Hvo1|]. split; [lia|].
      assert (st_lowers s s' L1 hb) as Hlow by (by eapply st_lowers_trans).
      split; [done|]. split; [|split].
      * intros j Hj. rewrite Hge by lia. apply list_lookup_insert_ne. lia.
      * intros j Hj Hjb. destruct (decide (j = i)) as [->|Hji].
        -- rewrite Hge by lia. rewrite list_lookup_insert_eq by lia.
           unfold SkipList.predAt.
           rewrite (level_of_lowers s s' L L1 hb i); try done.
           subst L. set_solver.
        -- apply Hlt; [lia|done].
      * split.
        { intros Hno. assert (s1 = s) as ->.
          { destruct Hch as [->|(Hi0 & d & c & Hc & Hck & _)]; [done|].
            by destruct (Hno c Hc). }
          by apply Hmiss. }
        intros a. destruct (HD' a) as [E'|(Ha1 & Ha2 & Ha3 & Ha4 & Ha5 & Ha6)].
        -- rewrite E'.
           destruct Hch as [->|(Hi0 & d & c & Hc & Hck & Hci & HdL & Hdl & Hlo & HdP & Hdv & _)];
             [by left|].
           rewrite Hlo. destruct (decide (a = d)) as [->|]; [right|by left].
           split; [done|]. split; [done|]. split; [lia|].
           specialize (Hhb c Hc Hck). split; [lia|]. split; [|done]. intros _. exact HdP.
        -- destruct Hch as [->|(Hi0 & d & c & Hc & Hck & Hci & HdL & Hdl & Hlo & HdP & Hdv & HPd)].
           { right. split; [done|]. split; [done|]. split; [lia|]. split; [done|].
             split; [intros; lia|done]. }
           rewrite Hlo in Ha2, Ha3, Ha4, Ha5. destruct (decide (a = d)) as [->|Hne].
           { exfalso. apply Ha5; [lia|]. by rewrite HPd. }
           right. split; [done|]. split; [done|]. split; [lia|]. split; [done|].
           split; [intros; lia|]. by rewrite <- Hvo1.
Qed.

Lemma StRep_set_cache s L c : StRep s L -> length c = maxLevel s -> StRep (set_cache s c) L.
Proof.
  intros [HRep HInv Hall] Hc. constructor.
  - by apply (SkipListFacts.Rep_set_cache (erase s) L c).
  - destruct HInv. by constructor.
  - done.
Qed.

(** [getPrevElementNodes]: the predecessors recorded, and what the
    demotions on the way have changed. *)
Lemma st_getPrevElementNodes_image s L L1 L2 k fuel hb :
  StRep s L -> L = L1 ++ L2 ->
  (forall a, a ∈ L1 -> key_lt (keyOf s a) k = true) ->
  (forall a, a ∈ L2 -> key_lt (keyOf s a) k = false) ->
  length L < fuel ->
  (forall c, c ∈ L2 -> keyOf s c = k -> st_levelOf s c <= hb) ->
  exists prevs s1, getPrevElementNodes fuel k s = Ok (prevs, set_cache s1 prevs) /\
    StRep s1 L /\ st_same s s1 /\ (forall a, st_visitedOf s1 a = st_visitedOf s a) /\
    length prevs = maxLevel s /\ st_lowers s s1 L1 hb /\
    (forall j, j < maxLevel s -> hb <= j \/ j = 0 ->
       prevs !! j = Some (Some (SkipList.predAt (erase s1) L1 j))) /\
    ((forall c, c ∈ L2 -> keyOf s c <> k) -> s1 = s) /\
    (forall a, st_levelOf s1 a = st_levelOf s a \/
       (a ∈ L1 /\ S (st_levelOf s1 a) = st_levelOf s a /\ st_levelOf s a <= hb /\
        st_visitedOf s a = false)).
Proof.
  intros HR HL H1 H2 Hfuel Hhb.
  pose proof (SkipList.rep_max _ _ (strep_rep _ _ HR)) as Hm.
  pose proof (SkipList.rep_cache _ _ (strep_rep _ _ HR)) as Hc.
  change (SkipList.maxLevel (erase s)) with (maxLevel s) in *.
  change (SkipList.prevNodesCache (erase s)) with (prevNodesCache s) in *.
  destruct (st_descend_image k L L1 L2 fuel hb (maxLevel s) s Head None (prevNodesCache s)
              HR HL H1 H2 Hfuel Hhb ltac:(lia) Hc)
    as (prevs & s1 & Hd & HR1 & Hsame & Hvo & Hlen & Hlow & _ & Hlt & Hmiss & HD).
  { destruct (maxLevel s) as [|m] eqn:Em; [lia|].
    replace m with (maxLevel s - 1) by lia. apply (st_arrives_top s L); [done|].
    subst L. set_solver. }
  exists prevs, s1. unfold getPrevElementNodes. rewrite Hd. simpl.
  split; [done|]. split; [done|]. split; [done|]. split; [done|]. split; [done|].
  split; [done|]. split; [done|]. split; [done|].
  intros a. destruct (HD a) as [E|(Ha1 & Ha2 & _ & Ha4 & _ & Ha6)]; [by left|by right].
Qed.
End DescendImage.

(** ** Updates of the list as updates of the image *)

Section EraseSim.
Import StashList StashListFacts.

Lemma erase_setSlot s r i v E' :
  SkipList.setSlot (erase s) r i v = Ok E' ->
  exists s', setSlot s r i v = Ok s' /\ erase s' = E'.
Proof.
  unfold SkipList.setSlot, setSlot. intros H.
  apply bind_Ok in H as (n & Hn & H). apply bind_Ok in H as (nx & Hnx & H).
  apply store_Ok in Hnx as [Hi ->]. destruct r as [|a].
  - simpl in Hn. injection Hn as <-. simpl in H. injection H as <-. simpl in Hi.
    simpl. unfold store. rewrite decide_True by done. simpl. eauto.
  - simpl in Hn. apply bind_Ok in Hn as (e' & He' & Hn). injection Hn as <-.
    pose proof He' as He''. apply erase_getElement in He'' as (e & He & ->).
    simpl in H. rewrite He' in H. simpl in H. injection H as <-.
    simpl in Hi. rewrite length_take in Hi.
    simpl. unfold getElement. rewrite He. simpl.
    unfold store. rewrite decide_True by lia. simpl. eexists. split; [done|].
    unfold erase. simpl. f_equal. rewrite list_fmap_insert. f_equal.
    unfold erase_elem, erase_node. simpl. f_equal. f_equal.
    apply take_insert_lt. lia.
Qed.

Lemma erase_link_level prevs a i s E' :
  SkipList.link_level prevs a i (erase s) = Ok E' ->
  exists s', link_level prevs a i s = Ok s' /\ erase s' = E'.
Proof.
  unfold SkipList.link_level, link_level. intros H.
  apply bind_Ok in H as (p & Hp & H). rewrite Hp. simpl.
  apply bind_Ok in H as (p' & Hp' & H).
  destruct p as [p0|]; [|discriminate]. simpl in Hp'. injection Hp' as <-. simpl.
  apply bind_Ok in H as (nx & Hnx & H). rewrite (erase_slot _ _ _ _ Hnx). simpl.
  apply bind_Ok in H as (E1 & H1 & H).
  apply erase_setSlot in H1 as (s1 & H1 & <-). rewrite H1. simpl.
  by apply erase_setSlot.
Qed.

Lemma erase_for_up (body : nat -> SkipList.SkipList -> Res SkipList.SkipList)
    (body' : nat -> StashList -> Res StashList) :
  (forall i s E', body i (erase s) = Ok E' -> exists s', body' i s = Ok s' /\ erase s' = E') ->
  forall n i s E', for_up n i body (erase s) = Ok E' ->
    exists s', for_up n i body' s = Ok s' /\ erase s' = E'.
Proof.
  intros Hb. induction n as [|n IH]; intros i s E' H; simpl in *.
  - injection H as <-. eauto.
  - apply bind_Ok in H as (E1 & H1 & H). apply Hb in H1 as (s1 & H1 & <-).
    rewrite H1. simpl. by apply IH.
Qed.

Lemma erase_Add_new prevs k v r s E' :
  1 <= maxLevel s ->
  SkipList.Add_new prevs k v r (erase s) = Ok E' ->
  exists s', Add_new prevs k v r s = Ok s' /\ erase s' = E'.
Proof.
  unfold SkipList.Add_new, Add_new. intros Hm H.
  apply bind_Ok in H as (lvl & Hlvl & H).
  change (SkipList.randLevel (erase s) r) with (randLevel s r) in Hlvl.
  rewrite Hlvl. simpl.
  pose proof (randLevel_of_bounds _ _ _ _ Hm Hlvl) as Hb.
  apply bind_Ok in H as (E2 & Hloop & H). injection H as <-.
  rewrite erase_heap_length in Hloop.
  match type of Hloop with for_up _ _ _ ?E1 = _ =>
    match goal with |- context [for_up lvl 0 _ ?s1] =>
      assert (E1 = erase s1) as HE1 end end.
  { unfold erase. simpl. f_equal. rewrite fmap_app. simpl. f_equal. f_equal.
    unfold erase_elem, erase_node.
    destruct (decide (lvl = 1)); simpl; rewrite Nat2Z.id, take_replicate;
      do 3 f_equal; lia. }
  rewrite HE1 in Hloop.
  apply (erase_for_up _ (link_level prevs (length (heap s))) (erase_link_level prevs _))
    in Hloop as (s2 & Hloop & <-).
  rewrite Hloop. simpl. eauto.
Qed.

Lemma erase_setValue s a v E' :
  SkipList.setValue (erase s) a v = Ok E' ->
  exists s', setValue s a v = Ok s' /\ erase s' = E' /\
    (forall b, st_visitedOf s' b = st_visitedOf s b).
Proof.
  unfold SkipList.setValue, setValue. intros H.
  apply bind_Ok in H as (e' & He' & H). apply erase_getElement in He' as (e & He & ->).
  injection H as <-. unfold getElement. rewrite He. simpl. eexists. split; [done|].
  split.
  - unfold erase. simpl. f_equal. by rewrite list_fmap_insert.
  - intros b. unfold st_visitedOf. simpl. destruct (decide (b = a)) as [->|Hne].
    + rewrite list_lookup_insert_eq by (by eapply lookup_lt_Some). by rewrite He.
    + by rewrite list_lookup_insert_ne.
Qed.
End EraseSim.

(** ** A promotion keeps the image well formed *)

Section PromoteImage.
Import StashList StashListFacts.

Lemma st_setVisited_total s r b : st_valid s r -> exists s', setVisited s r b = Ok s'.
Proof.
  intros Hr. unfold setVisited. destruct r as [|a]; simpl; [eauto|].
  destruct (lookup_lt_is_Some_2 _ _ Hr) as [e He]. unfold getElement. rewrite He.
  simpl. eauto.
Qed.

Lemma st_getNode_total s r : st_valid s r -> exists n, getNode s r = Ok n.
Proof.
  intros Hr. destruct r as [|a]; simpl; [eauto|].
  destruct (lookup_lt_is_Some_2 _ _ Hr) as [e He]. unfold getElement. rewrite He.
  simpl. eauto.
Qed.

Lemma erase_levelOf s s' : erase s' = erase s -> forall a, st_levelOf s' a = st_levelOf s a.
Proof. intros H a. unfold st_levelOf. by rewrite H. Qed.

Lemma st_valid_same s s' r : st_same s s' -> st_valid s r -> st_valid s' r.
Proof. intros H. destruct r; simpl; [done|]. by rewrite (ss_heap _ _ H). Qed.

Lemma st_reach_same s s' r i :
  st_same s s' -> (forall a, st_levelOf s' a = st_levelOf s a) ->
  st_reach s r i -> st_reach s' r i.
Proof. intros H Hl. destruct r; simpl; [by rewrite (ss_head _ _ H)|by rewrite Hl]. Qed.

Lemma st_setVisited_Inv s r b s' : setVisited s r b = Ok s' -> Inv s -> Inv s'.
Proof.
  intros H. eapply Inv_evolves; [apply node_keep_bound|]. by eapply st_setVisited_keep.
Qed.

Lemma st_setLevel_Inv s a l s' :
  setLevel s (Elem a) l = Ok s' -> (l <= Z.of_nat (maxLevel s))%Z -> Inv s -> Inv s'.
Proof.
  intros H Hl [Hm Hh Ht Hel]. apply st_setLevel_Ok in H as (e & He & ->).
  constructor; try done. intros b eb. simpl.
  destruct (decide (b = a)) as [->|Hne].
  - rewrite list_lookup_insert_eq by (by eapply lookup_lt_Some).
    intros [= <-]. simpl. split; [done|]. by apply (Hel a e).
  - rewrite list_lookup_insert_ne by done. apply Hel.
Qed.

(** The link and level updates of a promotion, seen on the image. *)
Lemma st_promote_obs s L c P nx :
  StRep s L -> c < length (heap s) -> st_levelOf s c < maxLevel s ->
  st_valid s P -> st_reach s P (st_levelOf s c) -> P <> Elem c ->
  exists s',
    (s1 ← setSlot s (Elem c) (st_levelOf s c) nx;
     s2 ← setSlot s1 P (st_levelOf s c) (Some c);
     n ← getNode s2 P;
     s3 ← (if visited n then setVisited s2 P false else Ok s2);
     setLevel s3 (Elem c) (Z.of_nat (st_levelOf s c) + 1)) = Ok s' /\
    st_same s s' /\ Inv s' /\
    (forall x j, SkipList.slot (erase s') x j =
       if decide (x = Elem c) then
         (if decide (j < st_levelOf s c) then SkipList.slot (erase s) (Elem c) j
          else if decide (j = st_levelOf s c) then Ok nx
          else Panic index_out_of_range)
       else if decide (x = P /\ j = st_levelOf s c) then Ok (Some c)
       else SkipList.slot (erase s) x j) /\
    (forall a, st_levelOf s' a = if decide (a = c) then S (st_levelOf s c) else st_levelOf s a).
Proof.
  intros HR Hc Hh Hval Hreach Hne. set (h := st_levelOf s c) in *.
  pose proof (strep_inv _ _ HR) as HInv.
  destruct (st_setSlot_total s (Elem c) h nx HInv Hc Hh) as [s1 H1].
  pose proof (st_setSlot_obs _ _ _ _ _ H1) as (Hs1 & Hsl1 & Hlo1 & Hlf1 & Hvo1 & Hraw1).
  pose proof (st_setSlot_Inv _ _ _ _ _ H1 HInv) as HInv1.
  pose proof (st_same_cfg _ _ Hs1) as (Hm1 & _ & _).
  pose proof (st_valid_same _ _ _ Hs1 Hval) as Hval1.
  destruct (st_setSlot_total s1 P h (Some c) HInv1 Hval1 ltac:(lia)) as [s2 H2].
  pose proof (st_setSlot_obs _ _ _ _ _ H2) as (Hs2 & Hsl2 & Hlo2 & Hlf2 & Hvo2 & Hraw2).
  pose proof (st_setSlot_Inv _ _ _ _ _ H2 HInv1) as HInv2.
  pose proof (st_same_cfg _ _ Hs2) as (Hm2 & _ & _).
  pose proof (st_valid_same _ _ _ Hs2 Hval1) as Hval2.
  destruct (st_getNode_total s2 P Hval2) as [n Hn].
  assert (exists s3, (if visited n then setVisited s2 P false else Ok s2) = Ok s3 /\
            erase s3 = erase s2 /\ st_same s2 s3 /\
            (forall a j, st_raw s3 a j = st_raw s2 a j) /\ Inv s3)
    as (s3 & H3 & He3 & Hs3 & Hraw3 & HInv3).
  { destruct (visited n).
    - destruct (st_setVisited_total s2 P false Hval2) as [s3 H3]. exists s3.
      pose proof (st_setVisited_obs _ _ _ _ H3) as (He & Hs & _ & Hr).
      split; [done|]. split; [done|]. split; [done|]. split; [done|].
      by eapply st_setVisited_Inv.
    - exists s2. split; [done|]. split; [done|]. split; [apply st_same_refl|]. done. }
  pose proof (st_same_cfg _ _ Hs3) as (Hm3 & _ & _).
  assert (c < length (heap s3)) as Hc3.
  { by rewrite (ss_heap _ _ Hs3), (ss_heap _ _ Hs2), (ss_heap _ _ Hs1). }
  destruct (st_setLevel_total s3 c (Z.of_nat h + 1) Hc3) as [s4 H4].
  pose proof (st_setLevel_obs _ _ _ _ H4) as (Hs4 & Hsl4 & Hlf4 & Hvo4 & Hraw4 & Hln4).
  destruct (lookup_lt_is_Some_2 _ _ Hc3) as [e3 He3c].
  pose proof (st_setLevel_levelOf _ _ _ _ _ H4 He3c) as Hlo4.
  exists s4. split.
  { rewrite H1. simpl. rewrite H2. simpl. rewrite Hn. simpl. rewrite H3. simpl. exact H4. }
  split.
  { eapply st_same_trans; [|exact Hs4]. eapply st_same_trans; [|exact Hs3].
    eapply st_same_trans; eauto. }
  split. { eapply st_setLevel_Inv; [exact H4| |done]. lia. }
  assert (Z.to_nat (Z.of_nat h + 1) = S h) as Hth by lia.
  split.
  - intros x j. rewrite Hsl4, Hth. destruct (decide (x = Elem c)) as [->|Hx].
    + destruct (decide (j < h)) as [Hj|Hj].
      * rewrite decide_True by lia. rewrite Hraw3, Hraw2.
        rewrite decide_False by (intros [? _]; done).
        rewrite Hraw1. rewrite decide_False by lia. symmetry. by apply st_raw_slot.
      * destruct (decide (j = h)) as [->|Hjh].
        -- rewrite decide_True by lia. rewrite Hraw3, Hraw2.
           rewrite decide_False by (intros [? _]; done).
           rewrite Hraw1. by rewrite decide_True.
        -- by rewrite decide_False by lia.
    + rewrite He3, Hsl2. rewrite Hsl1.
      assert (st_reach s1 P h) as Hr1 by (by apply (st_reach_same s s1)).
      destruct (decide (x = P /\ j = h)) as [[-> ->]|Hn'].
      * by rewrite decide_True.
      * rewrite decide_False by tauto. rewrite decide_False; [done|]. tauto.
  - intros a. rewrite Hlo4. destruct (decide (a = c)) as [->|Ha].
    + destruct (inv_elem _ HInv3 c e3 He3c) as [_ Hlen]. lia.
    + by rewrite (erase_levelOf s2 s3 He3), Hlo2, Hlo1.
Qed.
End PromoteImage.

Section PromoteRep.
Import StashList StashListFacts.

Lemma level_of_cons E j c X :
  SkipList.level_of E j (c :: X) =
    if decide (j < SkipList.heightOf E c) then c :: SkipList.level_of E j X
    else SkipList.level_of E j X.
Proof. unfold SkipList.level_of. by rewrite filter_cons. Qed.

(** The levels after the height of [c] grows from [h] to [h + 1]. *)
Lemma level_of_raise E E' (c h : nat) L1 L2 :
  c ∉ L1 -> c ∉ L2 ->
  (forall a, SkipList.heightOf E' a = if decide (a = c) then S h else SkipList.heightOf E a) ->
  SkipList.heightOf E c = h ->
  forall j, SkipList.level_of E' j (L1 ++ c :: L2) =
    if decide (j = h) then SkipList.level_of E j L1 ++ c :: SkipList.level_of E j L2
    else SkipList.level_of E j (L1 ++ c :: L2).
Proof.
  intros H1 H2 Hh Hc j.
  assert (forall X, c ∉ X -> SkipList.level_of E' j X = SkipList.level_of E j X) as Hsame.
  { intros X HX. unfold SkipList.level_of. apply filter_iff_in. intros a Ha. rewrite Hh.
    rewrite decide_False; [done|]. intros ->. done. }
  rewrite !level_of_app, !level_of_cons, (Hsame L1 H1), (Hsame L2 H2), Hh, Hc.
  destruct (decide (c = c)) as [_|]; [|done].
  destruct (decide (j = h)) as [->|Hj].
  - by rewrite decide_True by lia.
  - destruct (decide (j < S h)), (decide (j < h)); try lia; done.
Qed.

Lemma st_promote_image s L L1 c L2' prevs :
  StRep s L -> L = L1 ++ c :: L2' ->
  (st_levelOf s c < maxLevel s ->
     prevs !! st_levelOf s c =
       Some (Some (SkipList.predAt (erase s) L1 (st_levelOf s c)))) ->
  exists s', promote prevs c s = Ok s' /\ StRep s' L /\ st_same s s' /\
    (forall a, a <> c -> st_levelOf s' a = st_levelOf s a) /\
    st_levelOf s c <= st_levelOf s' c <= S (st_levelOf s c).
Proof.
  intros HR HL Hprevs.
  pose proof (strep_rep _ _ HR) as HRep. pose proof (strep_inv _ _ HR) as HInv.
  assert (c ∈ L) as HcL by (subst L; set_solver).
  pose proof (StRep_elem_lt _ _ _ HR HcL) as Hc.
  destruct (lookup_lt_is_Some_2 _ _ Hc) as [e He].
  destruct (st_level_exact _ _ _ _ HR He) as (Hle & Hhb & Hlen).
  remember (st_levelOf s c) as h eqn:Eh.
  assert (exists s', Ok s = Ok s' /\ StRep s' L /\ st_same s s' /\
            (forall a, a <> c -> st_levelOf s' a = st_levelOf s a) /\
            h <= st_levelOf s' c <= S h) as Hskip.
  { exists s. split; [done|]. split; [done|]. split; [apply st_same_refl|].
    split; [done|]. rewrite <- Eh. lia. }
  unfold promote. unfold getElement. rewrite He. simpl. rewrite Hle.
  destruct (decide (Z.of_nat h < Z.of_nat (maxLevel s))%Z) as [Hlt|Hge]; [|exact Hskip].
  assert (h < maxLevel s) as Hh by lia. specialize (Hprevs Hh).
  unfold idxZ. rewrite decide_True by lia. rewrite !Nat2Z.id. unfold idx.
  rewrite Hprevs. simpl.
  remember (SkipList.predAt (erase s) L1 h) as P eqn:EP.
  destruct (decide (Some P = Some Head)) as [HP|HP]; [exact Hskip|].
  pose proof (SkipListFacts.Rep_NoDup _ _ HRep) as HndL.
  assert ((c ∉ L1) /\ (c ∉ L2')) as [HcL1 HcL2].
  { rewrite HL in HndL. apply NoDup_app in HndL as (_ & Hcross & Hnd2).
    apply NoDup_cons in Hnd2 as [Hc2 _]. split; [|done].
    intros Hin. apply (Hcross c Hin). set_solver. }
  assert (st_valid s P /\ st_reach s P h /\ P <> Elem c) as (Hval & Hreach & Hne).
  { rewrite EP. unfold SkipList.predAt.
    destruct (lastRef_cases Head (SkipList.level_of (erase s) h L1)) as [[_ HH]|(p & Hp & HH)].
    - exfalso. apply HP. rewrite EP. unfold SkipList.predAt. by rewrite HH.
    - rewrite HH. apply level_of_elem in Hp as [Hp1 Hp2]. simpl.
      split; [eapply StRep_elem_lt; [done|]; subst L; set_solver|].
      split; [done|]. intros [= ->]. done. }
  assert (SkipList.slot (erase s) P h =
          Ok (hd_or (SkipList.level_of (erase s) h L2') None)) as HslotE.
  { rewrite EP.
    rewrite (SkipListFacts.predAt_slot (erase s) L L1 (c :: L2') h HRep HL Hh).
    rewrite level_of_cons. fold (st_levelOf s c). rewrite <- Eh.
    by rewrite decide_False by lia. }
  rewrite (erase_slot _ _ _ _ HslotE). simpl.
  destruct (st_promote_obs s L c P (hd_or (SkipList.level_of (erase s) h L2') None) HR Hc
              ltac:(rewrite <- Eh; done) Hval ltac:(rewrite <- Eh; done) Hne)
    as (s' & Hprom & Hsame & HInv' & Hsl & Hlo).
  rewrite <- Eh in Hprom, Hsl, Hlo. exists s'. split; [exact Hprom|].
  split; [|split; [done|split]].
  2:{ intros a Ha. rewrite Hlo. by rewrite decide_False. }
  2:{ rewrite Hlo. rewrite decide_True by done. lia. }
  pose proof (st_same_cfg _ _ Hsame) as (Hm & Hp & Ht).
  constructor; [|done|].
  2:{ intros a. rewrite (ss_heap _ _ Hsame). apply HR. }
  assert (forall j, SkipList.level_of (erase s') j L =
            if decide (j = h)
            then SkipList.level_of (erase s) h L1 ++ c :: SkipList.level_of (erase s) h L2'
            else SkipList.level_of (erase s) j L) as Hlev.
  { intros j. rewrite HL.
    rewrite (level_of_raise (erase s) (erase s') c h L1 L2' HcL1 HcL2 Hlo (eq_sym Eh)).
    by destruct (decide (j = h)) as [->|]. }
  assert (SkipList.level_of (erase s) h L =
          SkipList.level_of (erase s) h L1 ++ SkipList.level_of (erase s) h L2') as HlevE.
  { rewrite HL, level_of_app, level_of_cons. fold (st_levelOf s c). rewrite <- Eh.
    by rewrite decide_False by lia. }
  destruct HRep. constructor.
  - change (1 <= maxLevel s'). rewrite Hm. exact rep_max.
  - change (length (next (lnode s')) = maxLevel s'). apply HInv'.
  - change (length (prevNodesCache s') = maxLevel s').
    rewrite (ss_cache _ _ Hsame), Hm. exact rep_cache.
  - change (length (probTable s') = maxLevel s'). rewrite Ht, Hm. exact rep_tbl.
  - intros a Ha. rewrite erase_heap_length, (ss_heap _ _ Hsame).
    change (SkipList.maxLevel (erase s')) with (maxLevel s'). rewrite Hm.
    destruct (rep_elems a Ha) as [H1 H2]. rewrite erase_heap_length in H1. split; [done|].
    fold (st_levelOf s' a). rewrite Hlo. destruct (decide (a = c)); [lia|]. exact H2.
  - eapply SkipListFacts.sorted_keys_ext; [|exact rep_sorted].
    intros a _. rewrite !erase_keyOf. apply Hsame.
  - intros j Hj. change (SkipList.maxLevel (erase s')) with (maxLevel s') in Hj.
    rewrite Hm in Hj. pose proof (rep_links j Hj) as Hseg. rewrite Hlev.
    destruct (decide (j = h)) as [->|Hji].
    + rewrite HlevE in Hseg.
      assert (NoDup (SkipList.level_of (erase s) h L)) as Hnd by (by apply NoDup_filter).
      assert (c ∉ SkipList.level_of (erase s) h L) as Hcn.
      { intros Hin. apply level_of_elem in Hin as [Hin _].
        fold (st_levelOf s c) in Hin. lia. }
      rewrite HlevE in Hnd, Hcn.
      assert (lastRef Head (SkipList.level_of (erase s) h L1) = P) as HPl by (by rewrite EP).
      eapply lseg_insert; [exact Hseg| | | | | |].
      * by apply SkipListFacts.NoDup_nodes.
      * done.
      * done.
      * rewrite HPl. unfold SkipList.links. rewrite Hsl. rewrite decide_False by done.
        by rewrite decide_True.
      * rewrite HPl. unfold SkipList.links. rewrite Hsl. rewrite decide_True by done.
        rewrite decide_False by lia. rewrite decide_True by done. by rewrite HslotE.
      * rewrite HPl. intros x Hx1 Hx2. unfold SkipList.links. rewrite Hsl.
        rewrite decide_False by done. rewrite decide_False; [done|]. tauto.
    + eapply lseg_ext; [| |exact Hseg].
      * unfold SkipList.links. rewrite Hsl. rewrite decide_False by done.
        rewrite decide_False; [done|]. intros [_ ?]. done.
      * intros a Ha. unfold SkipList.links. rewrite Hsl.
        destruct (decide (Elem a = Elem c)) as [[= ->]|Hxd].
        -- apply level_of_elem in Ha as [Ha _]. fold (st_levelOf s c) in Ha.
           rewrite <- Eh in Ha. rewrite decide_True by lia. done.
        -- rewrite decide_False; [done|]. intros [_ ?]. done.
  - change (Length s' = Z.of_nat (length L)). rewrite (ss_Length _ _ Hsame). exact rep_len.
Qed.
End PromoteRep.

(** ** [Add] on a represented adaptive list *)

Section AddImage.
Import StashList StashListFacts.

Lemma Rep_transport E E' L :
  SkipList.Rep E L ->
  SkipList.maxLevel E' = SkipList.maxLevel E ->
  length (SkipList.next (SkipList.lnode E')) = length (SkipList.next (SkipList.lnode E)) ->
  length (SkipList.prevNodesCache E') = length (SkipList.prevNodesCache E) ->
  length (SkipList.probTable E') = length (SkipList.probTable E) ->
  length (SkipList.heap E') = length (SkipList.heap E) ->
  SkipList.Length E' = SkipList.Length E ->
  (forall r i, SkipList.slot E' r i = SkipList.slot E r i) ->
  (forall b, SkipList.keyOf E' b = SkipList.keyOf E b) ->
  (forall b, SkipList.heightOf E' b = SkipList.heightOf E b) ->
  SkipList.Rep E' L.
Proof.
  intros [] Hm Hh Hc Ht Hl HL Hslot Hkey Hht. constructor; try congruence.
  - intros a Ha. rewrite Hl, Hht, Hm. auto.
  - eapply SkipListFacts.sorted_keys_ext; [|exact rep_sorted]. auto.
  - intros i Hi. rewrite (SkipListFacts.level_of_ext E E') by auto.
    eapply lseg_ext; [| |apply rep_links; lia]; unfold SkipList.links; auto.
Qed.

Lemma st_valueOf_erase s a : SkipList.valueOf (erase s) a = st_valueOf s a.
Proof. apply erase_valueOf. Qed.

Lemma st_setValue_Inv s a v s' : setValue s a v = Ok s' -> Inv s -> Inv s'.
Proof.
  intros H. eapply Inv_evolves; [apply node_links_bound|]. by eapply st_setValue_links.
Qed.

Lemma st_setValue_image s L c v :
  StRep s L -> c ∈ L ->
  exists s', setValue s c v = Ok s' /\ StRep s' L /\
    (forall a, keyOf s' a = keyOf s a) /\
    (forall a, st_valueOf s' a = if decide (a = c) then v else st_valueOf s a) /\
    (forall a, st_levelOf s' a = st_levelOf s a) /\
    Length s' = Length s /\ length (heap s') = length (heap s).
Proof.
  intros HR Hc. pose proof (strep_rep _ _ HR) as HRep.
  pose proof (SkipListFacts.Rep_elem_lt _ _ _ HRep Hc) as Hlt.
  destruct (lookup_lt_is_Some_2 _ _ Hlt) as [e' He'].
  destruct (SkipListFacts.setValue_spec (erase s) c v e' He')
    as (E' & Hset & Hslot & Hkey & Hh & Hval & Hm & HLen & Hp & Htbl & Hcache & Hhd & Hhl).
  destruct (erase_setValue _ _ _ _ Hset) as (s' & Hs' & <- & Hvo).
  exists s'. split; [done|].
  assert (length (heap s') = length (heap s)) as Hheap
    by (by rewrite <- !erase_heap_length).
  split; [|split; [|split; [|split; [|split]]]].
  - constructor.
    + eapply (Rep_transport (erase s)); try done; congruence.
    + eapply st_setValue_Inv; [exact Hs'|apply HR].
    + intros a. rewrite Hheap. apply HR.
  - intros a. by rewrite <- !erase_keyOf.
  - intros a. by rewrite <- !st_valueOf_erase.
  - intros a. apply Hh.
  - done.
  - done.
Qed.

(** The first half of the path of [Add] that finds the key. *)
Lemma st_touch_image s L L1 c L2' prevs e :
  StRep s L -> L = L1 ++ c :: L2' -> heap s !! c = Some e ->
  (st_levelOf s c < maxLevel s ->
     prevs !! st_levelOf s c =
       Some (Some (SkipList.predAt (erase s) L1 (st_levelOf s c)))) ->
  exists s', (if visited (enode e) then promote prevs c s
              else setVisited s (Elem c) true) = Ok s' /\
    StRep s' L /\ st_same s s'.
Proof.
  intros HR HL He Hprevs. destruct (visited (enode e)).
  - destruct (st_promote_image s L L1 c L2' prevs HR HL Hprevs)
      as (s' & Hp & HR' & Hsame & _). eauto.
  - assert (st_valid s (Elem c)) as Hv by (simpl; by eapply lookup_lt_Some).
    destruct (st_setVisited_total s (Elem c) true Hv) as [s' Hs'].
    pose proof (st_setVisited_obs _ _ _ _ Hs') as (He' & Hsame & _).
    exists s'. split; [done|]. split; [|done]. constructor.
    + rewrite He'. apply HR.
    + eapply st_setVisited_Inv; [exact Hs'|apply HR].
    + intros a. rewrite (ss_heap _ _ Hsame). apply HR.
Qed.

Lemma st_Add_image s L k v r fuel :
  StRep s L -> length L < fuel ->
  exists s' L', Add fuel k v r s = Ok s' /\ StRep s' L' /\
    (forall k', SkipList.content (erase s') L' k' =
       if String.eqb k' k then Some v else SkipList.content (erase s) L k').
Proof.
  intros HR Hfuel. pose proof (strep_rep _ _ HR) as HRep.
  pose proof (SkipList.rep_max _ _ HRep) as Hmax.
  change (SkipList.maxLevel (erase s)) with (maxLevel s) in Hmax.
  destruct (SkipListFacts.splits_exists (erase s) k L (SkipList.rep_sorted _ _ HRep))
    as (L1 & L2 & Hsplit).
  pose proof Hsplit as (HL & H1 & H2).
  assert (forall a, a ∈ L1 -> key_lt (keyOf s a) k = true) as H1'
    by (intros a Ha; rewrite <- erase_keyOf; auto).
  assert (forall a, a ∈ L2 -> key_lt (keyOf s a) k = false) as H2'
    by (intros a Ha; rewrite <- erase_keyOf; auto).
  destruct (SkipListFacts.candidate_cases (erase s) k L L1 L2
              (SkipList.rep_sorted _ _ HRep) Hsplit) as [c L2' HL2 Hk Hle Hgt | Hgt Hle].
  - (* the key is present *)
    assert (c ∈ L2) as HcL2 by (rewrite HL2; set_solver).
    assert (c ∈ L) as HcL by (rewrite HL; set_solver).
    assert (forall c', c' ∈ L2 -> keyOf s c' = k -> st_levelOf s c' <= st_levelOf s c) as Hhb.
    { intros c' Hc' Hk'. assert (c' = c) as ->; [|done].
      apply (sorted_keys_inj (erase s) L); [apply HRep|rewrite HL; set_solver|done|].
      rewrite erase_keyOf. congruence. }
    destruct (st_getPrevElementNodes_image s L L1 L2 k fuel (st_levelOf s c)
                HR HL H1' H2' Hfuel Hhb)
      as (prevs & s1 & Hg & HR1 & Hsame & Hvo & Hlen & Hlow & Hpre & _).
    pose proof (st_same_cfg _ _ Hsame) as (Hm1 & _ & _).
    assert (st_levelOf s1 c = st_levelOf s c) as Hlc.
    { destruct (Hlow c) as [|[Hc1 _]]; [done|]. exfalso.
      rewrite HL in HR. by eapply StRep_split_disjoint. }
    assert (StRep (set_cache s1 prevs) L) as HR2 by (apply StRep_set_cache; [done|lia]).
    pose proof (strep_rep _ _ HR2) as HRep2.
    assert (SkipList.splits (erase (set_cache s1 prevs)) k L L1 L2) as Hsplit2.
    { split; [done|]. split; intros a Ha; rewrite erase_keyOf;
        change (keyOf (set_cache s1 prevs) a) with (keyOf s1 a);
        rewrite (ss_key _ _ Hsame); auto. }
    pose proof (SkipListFacts.candidate_spec _ k L L1 L2 fuel HRep2 Hsplit2 Hfuel) as Hcand.
    apply erase_slot in Hcand.
    pose proof (StRep_elem_lt _ _ _ HR2 HcL) as Hclt.
    destruct (lookup_lt_is_Some_2 _ _ Hclt) as [e2 He2].
    assert (key e2 = k) as Hke2.
    { rewrite <- Hk, erase_keyOf, <- (ss_key _ _ Hsame).
      change (keyOf s1 c) with (keyOf (set_cache s1 prevs) c).
      symmetry. by apply keyOf_lookup. }
    destruct (st_touch_image (set_cache s1 prevs) L L1 c L2' prevs e2 HR2
                ltac:(by rewrite HL, HL2) He2) as (s3 & Ht & HR3 & Hsame3).
    { intros Hlt. change (st_levelOf (set_cache s1 prevs) c) with (st_levelOf s1 c) in *.
      change (maxLevel (set_cache s1 prevs)) with (maxLevel s1) in Hlt.
      rewrite Hpre; [done|lia|left; lia]. }
    destruct (st_setValue_image s3 L c v HR3 HcL)
      as (s' & Hsv & HR' & Hkey' & Hval' & _ & _ & _).
    exists s', L. split.
    { unfold Add. rewrite Hg. simpl. unfold idx. rewrite (Hpre 0) by (lia || (right; done)).
      simpl.
      change (SkipList.predAt (erase (set_cache s1 prevs)) L1 0)
        with (SkipList.predAt (erase s1) L1 0) in Hcand.
      rewrite Hcand, HL2. simpl. unfold getElement. rewrite He2. simpl.
      rewrite Hke2. assert (key_le k k = true) as -> by (rewrite <- Hk at 1; exact Hle).
      unfold Add_hit. unfold getElement. rewrite He2. simpl. rewrite Ht. simpl. exact Hsv. }
    split; [done|].
    assert (forall a, keyOf s' a = keyOf s a) as Hkeys.
    { intros a. rewrite Hkey', (ss_key _ _ Hsame3).
      change (keyOf (set_cache s1 prevs) a) with (keyOf s1 a). apply Hsame. }
    assert (forall a, st_valueOf s' a = if decide (a = c) then v else st_valueOf s a) as Hvals.
    { intros a. rewrite Hval'. destruct (decide (a = c)); [done|].
      rewrite (ss_value _ _ Hsame3).
      change (st_valueOf (set_cache s1 prevs) a) with (st_valueOf s1 a). apply Hsame. }
    assert (SkipList.find_key (erase s) k L = Some c) as Hfind
      by (eapply SkipListFacts.content_hit; eauto).
    intros k'. unfold SkipList.content.
    rewrite (SkipListFacts.find_key_ext (erase s) (erase s'))
      by (intros a _; by rewrite !erase_keyOf).
    destruct (String.eqb_spec k' k) as [->|Hne].
    + rewrite Hfind. simpl. rewrite st_valueOf_erase, Hvals. by rewrite decide_True.
    + destruct (SkipList.find_key (erase s) k' L) as [a|] eqn:Ha; simpl; [|done].
      apply SkipListFacts.find_key_Some in Ha as [_ Ha].
      rewrite !st_valueOf_erase, Hvals. rewrite decide_False; [done|].
      intros ->. congruence.
  - (* the key is absent *)
    assert (forall c, c ∈ L2 -> keyOf s c <> k) as Hno.
    { intros c Hc Hkc. specialize (Hgt c Hc). rewrite erase_keyOf, Hkc in Hgt.
      by rewrite key_lt_irrefl in Hgt. }
    destruct (st_getPrevElementNodes_image s L L1 L2 k fuel 0 HR HL H1' H2' Hfuel)
      as (prevs & s1 & Hg & HR1 & Hsame & Hvo & Hlen & Hlow & Hpre & Hmiss & _).
    { intros c Hc Hkc. by destruct (Hno c Hc). }
    rewrite (Hmiss Hno) in *. clear Hmiss.
    destruct (SkipListFacts.Add_new_post (erase s) k L fuel HRep Hfuel v r L1 L2 prevs
                Hsplit Hgt Hlen) as (E' & L' & Hnew & Hpost).
    { intros j Hj. apply Hpre; [done|left; lia]. }
    destruct (erase_Add_new prevs k v r (set_cache s prevs) E' Hmax Hnew)
      as (s' & Hnew' & <-).
    assert (Add fuel k v r s = Ok s') as HAdd.
    { pose proof (SkipListFacts.candidate_spec _ k L L1 L2 fuel HRep Hsplit Hfuel) as Hcand.
      apply erase_slot in Hcand.
      unfold Add. rewrite Hg. simpl. unfold idx. rewrite (Hpre 0) by (lia || (left; lia)).
      simpl. change (slot (set_cache s prevs) (SkipList.predAt (erase s) L1 0) 0)
        with (slot s (SkipList.predAt (erase s) L1 0) 0).
      rewrite Hcand. destruct L2 as [|c L2']; simpl; [done|].
      assert (c ∈ L) as Hc by (rewrite HL; set_solver).
      pose proof (StRep_elem_lt _ _ _ HR Hc) as Hlt.
      destruct (lookup_lt_is_Some_2 _ _ Hlt) as [e He].
      unfold getElement. simpl. rewrite He. simpl.
      specialize (Hle c L2' eq_refl). rewrite erase_keyOf, (keyOf_lookup _ _ _ He) in Hle.
      by rewrite Hle. }
    exists s', L'. split; [done|].
    destruct Hpost as (HRep' & _ & Hcontent & Hcase).
    split; [|done]. constructor; [done| |].
    + eapply (st_exec_Inv fuel (OpAdd k v r) s OutAdd s'); [|apply HR].
      simpl. by rewrite HAdd.
    + rewrite (SkipListFacts.content_miss (erase s) k L L1 L2 Hsplit Hgt) in Hcase.
      destruct Hcase as (L1' & L2' & lvl & HL' & -> & _ & Hhl & _).
      rewrite !erase_heap_length in Hhl. rewrite erase_heap_length.
      intros a Ha. rewrite Hhl in Ha.
      destruct (decide (a = length (heap s))) as [->|Hne]; [set_solver|].
      assert (a ∈ L) as HaL by (apply HR; lia).
      rewrite HL' in HaL. set_solver.
Qed.
End AddImage.

(** ** Calls and runs on a represented adaptive list *)

Section RunImage.
Import StashList StashListFacts.

Lemma StRep_fuel s L : StRep s L -> length L < fuel_of s.
Proof.
  intros HR. pose proof (SkipListFacts.Rep_length _ _ (strep_rep _ _ HR)) as Hl.
  rewrite erase_heap_length in Hl. unfold fuel_of. lia.
Qed.

Lemma st_Get_image s L k fuel :
  StRep s L -> length L < fuel ->
  exists s', Get fuel k s = Ok (get_answer (SkipList.content (erase s) L k), s') /\
    StRep s' L /\ erase s' = erase s.
Proof.
  intros HR Hfuel.
  pose proof (SkipListFacts.Get_spec (erase s) L k fuel (strep_rep _ _ HR) Hfuel) as HG.
  assert (SkipList.Get fuel k (erase s) =
          Ok (get_answer (SkipList.content (erase s) L k))) as HG'.
  { rewrite HG. by destruct (SkipList.content (erase s) L k). }
  destruct (get_answer (SkipList.content (erase s) L k)) as [v b].
  destruct (erase_Get fuel k s v b HG') as (s' & Hget & He & HInv & Hh).
  exists s'. split; [done|]. split; [|done]. constructor.
  - rewrite He. apply HR.
  - apply HInv, HR.
  - intros a. rewrite Hh. apply HR.
Qed.

Lemma st_SetProbability_image p s L : StRep s L -> StRep (SetProbability p s) L.
Proof.
  intros HR. constructor.
  - apply (SkipListFacts.SetProbability_Rep p (erase s) L), HR.
  - eapply (st_exec_Inv 0 (OpSetProbability p) s OutSet); [done|apply HR].
  - apply HR.
Qed.

Lemma st_NewWithMaxLevel_StRep m s : NewWithMaxLevel m = Ok s -> StRep s [].
Proof.
  intros H. pose proof (st_NewWithMaxLevel_Inv m s H) as HInv.
  apply st_NewWithMaxLevel_Ok in H as [Hm ->]. constructor; [|done|].
  - apply (SkipListFacts.NewWithMaxLevel_Rep m).
    unfold SkipList.NewWithMaxLevel.
    assert (((m <? 1) || (m >? 64))%Z = false) as ->; [|done].
    apply orb_false_iff. split; [apply Z.ltb_ge|rewrite Z.gtb_ltb; apply Z.ltb_ge]; lia.
  - simpl. intros a Ha. lia.
Qed.

Lemma st_exec_image s L fuel op :
  StRep s L -> length L < fuel -> is_Remove op = false ->
  exists out s' L', exec fuel op s = Ok (out, s') /\ StRep s' L' /\
    forall k, SkipList.content (erase s') L' k =
              st_abs_step op (SkipList.content (erase s) L) k.
Proof.
  intros HR Hfuel Hop. destruct op as [k v r|k|k|p]; [| | discriminate|].
  - destruct (st_Add_image s L k v r fuel HR Hfuel) as (s' & L' & HAdd & HR' & Hc).
    exists OutAdd, s', L'. split; [simpl; by rewrite HAdd|]. split; [done|].
    intros k'. apply Hc.
  - destruct (st_Get_image s L k fuel HR Hfuel) as (s' & HGet & HR' & He).
    destruct (get_answer (SkipList.content (erase s) L k)) as [v b].
    exists (OutGet v b), s', L. simpl. rewrite HGet. simpl.
    split; [done|]. split; [done|]. intros k'. by rewrite He.
  - exists OutSet, (SetProbability p s), L. split; [done|].
    split; [by apply st_SetProbability_image|]. intros k'. simpl.
    unfold SkipList.content.
    rewrite (SkipListFacts.find_key_ext (erase s) (erase (SetProbability p s)))
      by (intros; reflexivity).
    by destruct (SkipList.find_key (erase s) k' L).
Qed.

Lemma st_abs_run_at ops : forall m1 m2 k,
  (forall k', m1 k' = m2 k') -> st_abs_run ops m1 k = st_abs_run ops m2 k.
Proof.
  induction ops as [|op ops IH]; intros m1 m2 k H; simpl; [done|].
  apply IH. intros k'. destruct op; simpl; rewrite ?H; done.
Qed.

Lemma st_run_image ops : forall s L,
  StRep s L -> no_Remove ops = true ->
  exists s' L', run ops s = Ok s' /\ StRep s' L' /\
    forall k, SkipList.content (erase s') L' k =
              st_abs_run ops (SkipList.content (erase s) L) k.
Proof.
  induction ops as [|op ops IH]; intros s L HR Hops.
  - exists s, L. done.
  - simpl in Hops. apply andb_true_iff in Hops as [Hop Hops].
    apply negb_true_iff in Hop.
    destruct (st_exec_image s L (fuel_of s) op HR (StRep_fuel _ _ HR) Hop)
      as (out & s1 & L1 & Hex & HR1 & Hc1).
    destruct (IH s1 L1 HR1 Hops) as (s' & L' & Hrun & HR' & Hc).
    exists s', L'. split; [|split; [done|]].
    + simpl. rewrite Hex. simpl. exact Hrun.
    + intros k. rewrite Hc. simpl. by apply st_abs_run_at.
Qed.

Lemma st_run_from_image m ops :
  (1 <= m <= 64)%Z -> no_Remove ops = true ->
  exists s L, st_run_from m ops = Ok s /\ StRep s L /\
    forall k, SkipList.content (erase s) L k = st_abs_run ops no_binding k.
Proof.
  intros Hm Hops. unfold st_run_from.
  destruct (NewWithMaxLevel m) as [s0| |] eqn:Hnew.
  2,3: unfold NewWithMaxLevel in Hnew;
       destruct ((m <? 1)%Z || (m >? 64)%Z) eqn:E; [|discriminate];
       apply orb_true_iff in E as [E|E]; [apply Z.ltb_lt in E|apply Z.gtb_lt in E]; lia.
  pose proof (st_NewWithMaxLevel_StRep m s0 Hnew) as HR0.
  destruct (st_run_image ops s0 [] HR0 Hops) as (s & L & Hrun & HR & Hc).
  exists s, L. simpl. split; [done|]. split; [done|].
  intros k. rewrite Hc. by apply st_abs_run_at.
Qed.

(** The chains of the list are the levels of the image. *)
Lemma st_chain_walk s i : forall l r fuel,
  lseg (st_links s i) r l None -> length l <= fuel ->
  walk fuel s i (hd_or l None) = Ok l.
Proof.
  induction l as [|a l IH]; intros r fuel Hseg Hfuel; simpl in *.
  { by destruct fuel. }
  destruct fuel as [|fuel]; [lia|]. destruct Hseg as [_ Hseg]. simpl.
  pose proof (lseg_hd _ _ _ _ Hseg) as Hhd. unfold st_links in Hhd. rewrite Hhd. simpl.
  rewrite (IH (Elem a)); [done|done|lia].
Qed.

Lemma st_chain_image s L i :
  StRep s L -> i < maxLevel s -> chain s i = Ok (SkipList.level_of (erase s) i L).
Proof.
  intros HR Hi. pose proof (SkipList.rep_links _ _ (strep_rep _ _ HR) i Hi) as Hseg.
  apply erase_lseg in Hseg.
  unfold chain. pose proof (lseg_hd _ _ _ _ Hseg) as Hhd. unfold st_links in Hhd.
  rewrite Hhd.
  change (walk (fuel_of s) s i (hd_or (SkipList.level_of (erase s) i L) None) =
          Ok (SkipList.level_of (erase s) i L)).
  eapply st_chain_walk; eauto.
  pose proof (StRep_fuel _ _ HR).
  pose proof (length_filter (fun a => i < SkipList.heightOf (erase s) a) L).
  unfold SkipList.level_of. lia.
Qed.

Lemma st_sorted_image s L :
  SkipList.sorted_keys (erase s) L ->
  StronglySorted (fun a b => key_lt (keyOf s a) (keyOf s b) = true) L.
Proof.
  unfold SkipList.sorted_keys. induction 1 as [|a l Hs IH Hall]; constructor; auto.
  rewrite Forall_forall in *. intros b Hb. rewrite <- !erase_keyOf. auto.
Qed.

Lemma st_linked_by_level_image s L : StRep s L -> st_linked_by_level s.
Proof.
  intros HR. pose proof (strep_rep _ _ HR) as HRep.
  pose proof (SkipList.rep_max _ _ HRep) as Hm.
  change (SkipList.maxLevel (erase s)) with (maxLevel s) in Hm.
  exists L. split.
  { rewrite (st_chain_image s L 0 HR) by lia.
    by rewrite (SkipListFacts.level_of_zero (erase s) L HRep). }
  split.
  { apply st_sorted_image, HRep. }
  split; [apply HR|]. split.
  { intros a e He. destruct (st_level_exact _ _ _ _ HR He) as (Hl & Hb & _). lia. }
  intros i Hi. exists (SkipList.level_of (erase s) i L).
  split; [by apply st_chain_image|]. split; [apply sublist_filter|].
  intros a e He. destruct (st_level_exact _ _ _ _ HR He) as (Hl & Hb & _).
  rewrite level_of_elem. fold (st_levelOf s a). rewrite Hl.
  pose proof (StRep_lookup _ _ _ _ HR He). split; [lia|]. intros ?. split; [lia|done].
Qed.

Lemma StronglySorted_next {A} (R : A -> A -> Prop) l :
  StronglySorted R l -> forall n a b, l !! n = Some a -> l !! S n = Some b -> R a b.
Proof.
  induction 1 as [|x l Hs IH Hall]; intros n a b Ha Hb; [done|].
  destruct n as [|n]; simpl in *.
  - injection Ha as <-. rewrite Forall_forall in Hall. apply Hall.
    by eapply list_elem_of_lookup_2.
  - by eapply IH.
Qed.

Lemma st_levels_ok_image s L : StRep s L -> st_levels_ok s.
Proof.
  intros HR i Hi. pose proof (strep_rep _ _ HR) as HRep.
  exists (SkipList.level_of (erase s) i L). split; [by apply st_chain_image|]. split.
  - intros n a b Ha Hb.
    pose proof (SkipListFacts.sorted_keys_filter (erase s)
                  (fun a => i < SkipList.heightOf (erase s) a) L
                  (SkipList.rep_sorted _ _ HRep)) as Hs.
    fold (SkipList.level_of (erase s) i L) in Hs. unfold SkipList.sorted_keys in Hs.
    pose proof (StronglySorted_next _ _ Hs n a b Ha Hb) as Hab. simpl in Hab.
    rewrite !erase_keyOf in Hab. apply key_lt_spec in Hab. apply key_le_spec. congruence.
  - intros j ->. exists (SkipList.level_of (erase s) j L).
    split; [apply st_chain_image; [done|lia]|].
    intros a Ha. apply level_of_elem in Ha as [Ha1 Ha2]. apply level_of_elem.
    split; [lia|done].
Qed.

Lemma st_abs_run_bound ops : forall m k,
  no_Remove ops = true ->
  (is_Some (st_abs_run ops m k) <-> k ∈ st_added_keys ops \/ is_Some (m k)).
Proof.
  induction ops as [|op ops IH]; intros m k Hops; simpl.
  - split; [by right|]. intros [H|H]; [inversion H|done].
  - simpl in Hops. apply andb_true_iff in Hops as [Hop Hops].
    rewrite (IH _ k Hops). destruct op as [k' v r|k'|k'|p]; simpl in *; try discriminate.
    + destruct (String.eqb_spec k k') as [->|Hne].
      * split; [intros _; left; apply list_elem_of_here|eauto].
      * rewrite elem_of_cons. tauto.
    + done.
    + done.
Qed.
End RunImage.

Section Grown.
Import StashList StashListFacts.

Lemma st_heap_length_image s L : StRep s L -> length (heap s) = length L.
Proof.
  intros HR. pose proof (strep_rep _ _ HR) as HRep.
  pose proof (SkipListFacts.Rep_length _ _ HRep) as Hle.
  rewrite erase_heap_length in Hle. apply Nat.le_antisymm; [|done].
  assert (seq 0 (length (heap s)) ⊆ L) as Hsub.
  { intros a Ha. apply elem_of_seq in Ha. apply HR. lia. }
  pose proof (submseteq_length _ _ (NoDup_submseteq _ _ (NoDup_seq 0 _) Hsub)) as Hl.
  by rewrite length_seq in Hl.
Qed.

Lemma find_key_self E L a :
  SkipList.sorted_keys E L -> a ∈ L ->
  SkipList.find_key E (SkipList.keyOf E a) L = Some a.
Proof.
  intros Hs Ha.
  destruct (SkipList.find_key E (SkipList.keyOf E a) L) as [a'|] eqn:Hf.
  - apply SkipListFacts.find_key_Some in Hf as [Ha' Hk]. f_equal.
    by apply (sorted_keys_inj E L).
  - assert (is_Some (SkipList.find_key E (SkipList.keyOf E a) L)) as [? Hx].
    { apply find_key_is_Some. apply list_elem_of_fmap. eauto. }
    congruence.
Qed.

Lemma st_iteration_image s L : StRep s L -> st_iteration_ok s.
Proof.
  intros HR. pose proof (strep_rep _ _ HR) as HRep. exists L.
  pose proof (Rep_chain0 _ _ HRep) as Hseg. apply erase_lseg in Hseg.
  split. { unfold Front. apply lseg_hd in Hseg. unfold st_links in Hseg.
           by rewrite Hseg, hd_or_None_head. }
  split. { intros i a Hi. unfold Next.
           rewrite (lseg_next (st_links s 0) Head L i a None Hseg Hi : slot s (Elem a) 0 = _).
           by destruct (L !! S i). }
  split; [apply st_sorted_image, HRep|]. split; [apply HRep|]. split.
  - intros a e Ha He.
    destruct (st_Get_image s L (key e) (fuel_of s) HR (StRep_fuel _ _ HR)) as (s' & HG & _).
    exists s'. rewrite HG. unfold SkipList.content.
    rewrite <- (keyOf_lookup _ _ _ He), <- erase_keyOf.
    rewrite (find_key_self _ _ _ (SkipList.rep_sorted _ _ HRep) Ha). simpl.
    rewrite st_valueOf_erase. unfold st_valueOf. by rewrite He.
  - intros k Hk.
    destruct (st_Get_image s L k (fuel_of s) HR (StRep_fuel _ _ HR)) as (s' & HG & _).
    exists s'. rewrite HG. unfold SkipList.content.
    destruct (SkipList.find_key (erase s) k L) as [a|] eqn:Hf; [|done].
    apply SkipListFacts.find_key_Some in Hf as [Ha Hka].
    rewrite erase_keyOf in Hka. by destruct (Hk a Ha).
Qed.
End Grown.

(** Adaptive list: a list built by [NewWithMaxLevel m], [1 <= m <= 64], and
    driven through any sequence of [Add], [Get] and [SetProbability] calls
    runs to completion and then answers every [Get] as the finite map that
    the sequence builds: the value of the last [Add] of the key, or a miss
    if the key was never added.  The demotions and promotions on the way
    lose no key. *)
Theorem st_refines_map m ops :
  (1 <= m <= 64)%Z -> no_Remove ops = true -> st_is_map m ops.
Proof.
  intros Hm Hops. destruct (st_run_from_image m ops Hm Hops) as (s & L & Hrun & HR & Hc).
  exists s. split; [done|]. intros k.
  destruct (st_Get_image s L k (StashList.fuel_of s) HR (StRep_fuel _ _ HR)) as (s' & HG & _).
  exists s'. by rewrite HG, Hc.
Qed.

Lemma st_refines_map_witness :
  st_is_map 3 [StashList.OpAdd "1" b1 (draw_for 3); StashList.OpAdd "2" b2 (draw_for 2);
               StashList.OpAdd "2" b3 (draw_for 1); StashList.OpGet "1";
               StashList.OpAdd "2" b4 (draw_for 1); StashList.OpAdd "3" b5 (draw_for 1)].
Proof. apply st_refines_map; [lia|reflexivity]. Defined.

(** Adaptive list, after any sequence of [Add], [Get] and [SetProbability]
    calls on a new list: every element created is on the bottom chain, which
    is in strictly increasing key order; every [level] field is between 1
    and [maxLevel]; level [i] links exactly the elements whose [level] field
    is above [i], in the order of the bottom chain; hence neighbours of a
    level are in key order and each level is contained in the one below. *)
Theorem st_levels_without_remove m ops :
  (1 <= m <= 64)%Z -> no_Remove ops = true ->
  exists s, st_run_from m ops = Ok s /\ st_linked_by_level s /\ st_levels_ok s.
Proof.
  intros Hm Hops. destruct (st_run_from_image m ops Hm Hops) as (s & L & Hrun & HR & _).
  exists s. split; [done|]. split.
  - by apply (st_linked_by_level_image s L).
  - by apply (st_levels_ok_image s L).
Qed.

Lemma st_levels_without_remove_witness :
  exists s,
    st_run_from 3 [StashList.OpAdd "1" b1 (draw_for 3); StashList.OpAdd "2" b2 (draw_for 2);
                   StashList.OpAdd "2" b3 (draw_for 1); StashList.OpGet "1";
                   StashList.OpAdd "2" b4 (draw_for 1); StashList.OpAdd "3" b5 (draw_for 1)]
      = Ok s /\ st_linked_by_level s /\ st_levels_ok s.
Proof. apply st_levels_without_remove; [lia|reflexivity]. Defined.

(** Adaptive list: after any sequence of [Add], [Get] and [SetProbability]
    calls on a new list, [Length] is the number of distinct keys added, and
    so is the number of elements created: [Add] creates an element only for
    a key that is not there. *)
Theorem st_length_is_count m ops :
  (1 <= m <= 64)%Z -> no_Remove ops = true -> st_length_counts m ops.
Proof.
  intros Hm Hops. destruct (st_run_from_image m ops Hm Hops) as (s & L & Hrun & HR & Hc).
  exists s. split; [done|]. pose proof (strep_rep _ _ HR) as HRep.
  assert (length L = length (remove_dups (st_added_keys ops))) as Hlen.
  { rewrite <- (length_fmap (SkipList.keyOf (erase s)) L).
    apply Permutation_length, NoDup_Permutation.
    - apply sorted_keys_NoDup_keys, HRep.
    - apply NoDup_remove_dups.
    - intros k. rewrite <- find_key_is_Some, elem_of_remove_dups.
      specialize (Hc k). unfold SkipList.content in Hc.
      assert (is_Some (SkipList.find_key (erase s) k L) <->
              is_Some (st_abs_run ops no_binding k)) as Hiff.
      { rewrite <- Hc. by rewrite fmap_is_Some. }
      rewrite Hiff, (st_abs_run_bound ops no_binding k Hops).
      split; [|by left]. intros [H|[? H]]; [done|discriminate]. }
  split.
  - rewrite <- Hlen. apply (SkipList.rep_len _ _ HRep).
  - rewrite <- Hlen. by apply st_heap_length_image.
Qed.

Lemma st_length_is_count_witness :
  st_length_counts 3 [StashList.OpAdd "1" b1 (draw_for 3); StashList.OpAdd "2" b2 (draw_for 2);
                      StashList.OpAdd "2" b3 (draw_for 1); StashList.OpGet "1";
                      StashList.OpAdd "2" b4 (draw_for 1); StashList.OpAdd "3" b5 (draw_for 1)].
Proof. apply st_length_is_count; [lia|reflexivity]. Defined.

(** Adaptive list, after any sequence of [Add], [Get] and [SetProbability]
    calls on a new list: the loop over [Front] and [Next] visits [Length]
    elements in strictly increasing key order, [Get] of the key of an
    element visited returns the value stored in it, and [Get] of any other
    key misses. *)
Theorem st_iteration m ops :
  (1 <= m <= 64)%Z -> no_Remove ops = true ->
  exists s, st_run_from m ops = Ok s /\ st_iteration_ok s.
Proof.
  intros Hm Hops. destruct (st_run_from_image m ops Hm Hops) as (s & L & Hrun & HR & _).
  exists s. split; [done|]. by apply (st_iteration_image s L).
Qed.

Lemma st_iteration_witness :
  exists s,
    st_run_from 3 [StashList.OpAdd "1" b1 (draw_for 3); StashList.OpAdd "2" b2 (draw_for 2);
                   StashList.OpAdd "2" b3 (draw_for 1); StashList.OpGet "1";
                   StashList.OpAdd "2" b4 (draw_for 1); StashList.OpAdd "3" b5 (draw_for 1)]
      = Ok s /\ st_iteration_ok s.
Proof. apply st_iteration; [lia|reflexivity]. Defined.

Section DescentRule.
Import StashList StashListFacts.

Lemma st_visitedOf_eq s a e : heap s !! a = Some e -> st_visitedOf s a = visited (enode e).
Proof. intros He. unfold st_visitedOf. by rewrite He. Qed.

Lemma st_valueOf_eq s a e : heap s !! a = Some e -> st_valueOf s a = value e.
Proof. intros He. unfold st_valueOf. by rewrite He. Qed.

Lemma st_descent_image s L k : StRep s L -> st_descent_ok s k.
Proof.
  intros HR. pose proof (strep_rep _ _ HR) as HRep.
  pose proof (StRep_fuel _ _ HR) as Hfuel.
  destruct (SkipListFacts.splits_exists (erase s) k L (SkipList.rep_sorted _ _ HRep))
    as (L1 & L2 & Hsplit).
  pose proof Hsplit as (HL & H1 & H2).
  assert (forall a, a ∈ L1 -> key_lt (keyOf s a) k = true) as H1'
    by (intros a Ha; rewrite <- erase_keyOf; auto).
  assert (forall a, a ∈ L2 -> key_lt (keyOf s a) k = false) as H2'
    by (intros a Ha; rewrite <- erase_keyOf; auto).
  assert (exists hb,
            (forall c', c' ∈ L2 -> keyOf s c' = k -> st_levelOf s c' <= hb) /\
            (1 <= hb -> exists c, c ∈ L /\ keyOf s c = k /\ hb = st_levelOf s c))
    as (hb & Hhb & Hhb').
  { destruct (SkipListFacts.candidate_cases (erase s) k L L1 L2
                (SkipList.rep_sorted _ _ HRep) Hsplit) as [c L2' HL2 Hk Hle Hgt | Hgt Hle].
    - exists (st_levelOf s c).
      assert (c ∈ L) as HcL by (rewrite HL, HL2; set_solver). split.
      + intros c' Hc' Hk'. assert (c' = c) as ->; [|done].
        apply (sorted_keys_inj (erase s) L); [apply HRep|rewrite HL; set_solver|done|].
        rewrite erase_keyOf. congruence.
      + intros _. exists c. rewrite <- erase_keyOf. done.
    - exists 0. split; [|lia]. intros c Hc Hkc. specialize (Hgt c Hc).
      rewrite erase_keyOf, Hkc in Hgt. by rewrite key_lt_irrefl in Hgt. }
  destruct (st_getPrevElementNodes_image s L L1 L2 k (fuel_of s) hb HR HL H1' H2' Hfuel Hhb)
    as (prevs & s1 & Hg & HR1 & Hsame & Hvo & Hlen & Hlow & Hpre & Hmiss & HD).
  pose proof (st_same_cfg _ _ Hsame) as (Hm1 & _ & _).
  assert (StRep (set_cache s1 prevs) L) as HR2 by (apply StRep_set_cache; [done|lia]).
  exists prevs, (set_cache s1 prevs). split; [done|]. split; [done|]. split; [done|].
  split; [apply Hsame|]. split; [apply Hsame|]. split; [apply Hsame|].
  split; [|split; [|split]].
  - intros a e He. assert (a < length (heap s1)) as Ha1.
    { rewrite (ss_heap _ _ Hsame). by eapply lookup_lt_Some. }
    destruct (lookup_lt_is_Some_2 _ _ Ha1) as [e' He']. exists e'. split; [done|].
    split. { rewrite <- (keyOf_lookup _ _ _ He'), <- (keyOf_lookup _ _ _ He). apply Hsame. }
    split. { rewrite <- (st_valueOf_eq _ _ _ He'), <- (st_valueOf_eq _ _ _ He). apply Hsame. }
    split. { rewrite <- (st_visitedOf_eq _ _ _ He'), <- (st_visitedOf_eq _ _ _ He). apply Hvo. }
    destruct (st_level_exact _ _ _ _ HR He) as (Hl & Hb & _).
    destruct (st_level_exact _ _ _ _ HR1 He') as (Hl' & Hb' & _).
    destruct (HD a) as [E|(Ha & Hdrop & Hle & Hvis)]; [left; lia|right].
    split; [lia|]. split; [by rewrite <- (st_visitedOf_eq _ _ _ He)|].
    split; [rewrite <- (keyOf_lookup _ _ _ He); by apply H1'|].
    destruct (Hhb' ltac:(lia)) as (c & HcL & Hkc & ->).
    pose proof (StRep_elem_lt _ _ _ HR HcL) as Hclt.
    destruct (lookup_lt_is_Some_2 _ _ Hclt) as [ec Hec]. exists c, ec.
    split; [done|]. split; [by rewrite <- (keyOf_lookup _ _ _ Hec)|].
    destruct (st_level_exact _ _ _ _ HR Hec) as (Hlc & _ & _). lia.
  - intros Hno. rewrite Hmiss; [done|]. intros c Hc Hkc.
    assert (c ∈ L) as HcL by (rewrite HL; set_solver).
    pose proof (StRep_elem_lt _ _ _ HR HcL) as Hclt.
    destruct (lookup_lt_is_Some_2 _ _ Hclt) as [ec Hec].
    apply (Hno c ec Hec). by rewrite <- (keyOf_lookup _ _ _ Hec).
  - by apply (st_linked_by_level_image _ L).
  - intros k'.
    destruct (st_Get_image s L k' (fuel_of s) HR Hfuel) as (sa & HGa & _).
    destruct (st_Get_image _ L k' _ HR2 (StRep_fuel _ _ HR2)) as (sb & HGb & _).
    assert (SkipList.content (erase (set_cache s1 prevs)) L k' =
            SkipList.content (erase s) L k') as Hc.
    { unfold SkipList.content.
      rewrite (SkipListFacts.find_key_ext (erase s) (erase (set_cache s1 prevs))).
      2:{ intros a _. rewrite !erase_keyOf.
          change (keyOf (set_cache s1 prevs) a) with (keyOf s1 a). apply Hsame. }
      destruct (SkipList.find_key (erase s) k' L) as [a|]; simpl; [|done].
      rewrite !st_valueOf_erase.
      change (st_valueOf (set_cache s1 prevs) a) with (st_valueOf s1 a).
      by rewrite (ss_value _ _ Hsame). }
    rewrite Hc in HGb.
    destruct (get_answer (SkipList.content (erase s) L k')) as [v b].
    by exists v, b, sa, sb.
Qed.
End DescentRule.

(** Adaptive list, after any sequence of [Add], [Get] and [SetProbability]
    calls on a new list: the search [getPrevElementNodes(k)] returns and
    caches the predecessors; it keeps [Length], the settings and every key,
    value and visited flag; it leaves each level as it is or lowers it by
    exactly one, and lowers only the level of an unvisited element with a
    key below [k], no higher than that of the element holding [k]; if no
    element holds [k] no node changes.  Afterwards the levels are still
    well formed and every [Get] answers as before. *)
Theorem st_descent m ops k :
  (1 <= m <= 64)%Z -> no_Remove ops = true ->
  exists s, st_run_from m ops = Ok s /\ st_descent_ok s k.
Proof.
  intros Hm Hops. destruct (st_run_from_image m ops Hm Hops) as (s & L & Hrun & HR & _).
  exists s. split; [done|]. by apply (st_descent_image s L).
Qed.

Lemma st_descent_witness :
  exists s,
    st_run_from 3 [StashList.OpAdd "1" b1 (draw_for 3); StashList.OpAdd "2" b2 (draw_for 2);
                   StashList.OpAdd "3" b3 (draw_for 3)] = Ok s /\
    st_descent_ok s "3".
Proof. apply st_descent; [lia|reflexivity]. Defined.

(** * The lists of the benchmarks *)

Section BenchFacts.
Import Bench.

Lemma for_up_add {St} (body : nat -> St -> Res St) : forall a b i l,
  for_up (a + b) i body l = (l' ← for_up a i body l; for_up b (i + a) body l').
Proof.
  induction a as [|a IH]; intros b i l; simpl.
  - by rewrite Nat.add_0_r.
  - destruct (body i l) as [l1| |]; simpl; [|done..].
    rewrite IH. by replace (S i + a) with (i + S a) by lia.
Qed.

Lemma value_or_panic_Filled b : value_or_panic (Util.Filled b) = Ok (b <$> seq 0 64).
Proof. reflexivity. Qed.

Lemma value_or_panic_Failed err : value_or_panic (Util.Failed err) = Panic err.
Proof. reflexivity. Qed.

Lemma first_failure_None rounds : forall n i,
  first_failure rounds i n = None ->
  forall j, i <= j < i + n -> exists b, bytes_read (rounds j) = Util.Filled b.
Proof.
  induction n as [|n IH]; intros i H j Hj; [lia|]. simpl in H.
  destruct (bytes_read (rounds i)) as [b|err] eqn:E; [|discriminate].
  destruct (decide (j = i)) as [->|Hne]; [eauto|]. apply (IH (S i) H). lia.
Qed.

Lemma first_failure_Some rounds : forall n i err,
  first_failure rounds i n = Some err ->
  exists a b, n = a + S b /\ first_failure rounds i a = None /\
    bytes_read (rounds (i + a)) = Util.Failed err.
Proof.
  induction n as [|n IH]; intros i err H; [discriminate|]. simpl in H.
  destruct (bytes_read (rounds i)) as [b|err'] eqn:E.
  - destruct (IH (S i) err H) as (a & b' & -> & Ha & Hf).
    exists (S a), b'. split; [done|]. split.
    + simpl. by rewrite E.
    + by replace (i + S a) with (S i + a) by lia.
  - injection H as <-. exists 0, n. split; [done|]. split; [done|].
    by rewrite Nat.add_0_r.
Qed.

Lemma key_of_round_inj (a b : nat) :
  (Z.of_nat a <= Util.MaxInt)%Z -> (Z.of_nat b <= Util.MaxInt)%Z ->
  Util.GetFixedLengthKey (Z.of_nat a) = Util.GetFixedLengthKey (Z.of_nat b) -> a = b.
Proof.
  intros Ha Hb E. apply Nat2Z.inj. apply GetFixedLengthKey_inj; [| |done];
    unfold Util.MinInt, Util.MaxInt in *; lia.
Qed.

Lemma length_by_keys E L (ks : list string) :
  SkipList.sorted_keys E L -> NoDup ks ->
  (forall k, is_Some (SkipList.find_key E k L) <-> k ∈ ks) -> length L = length ks.
Proof.
  intros Hs Hnd Hk. rewrite <- (length_fmap (SkipList.keyOf E) L).
  apply Permutation_length, NoDup_Permutation.
  - by apply sorted_keys_NoDup_keys.
  - done.
  - intros k. by rewrite <- find_key_is_Some.
Qed.

Lemma round_keys_NoDup n :
  (Z.of_nat n <= Util.MaxInt + 1)%Z ->
  NoDup ((fun j => Util.GetFixedLengthKey (Z.of_nat j)) <$> seq 0 n).
Proof.
  intros Hn. apply NoDup_fmap_2_strong; [|apply NoDup_seq].
  intros a b Ha Hb. apply elem_of_seq in Ha, Hb. apply key_of_round_inj; lia.
Qed.

(** *** The baseline list *)

Lemma sk_rounds_run rounds : forall n i l,
  first_failure rounds i n = None ->
  for_up n i (skiplist_round rounds) l = SkipList.run (sk_round_ops rounds i n) l.
Proof.
  induction n as [|n IH]; intros i l H; [done|]. simpl in H.
  destruct (bytes_read (rounds i)) as [b|err] eqn:E; [|discriminate].
  change (sk_round_ops rounds i (S n)) with
    (SkipList.OpAdd (Util.GetFixedLengthKey (Z.of_nat i)) (round_value (rounds i))
                    (level_draw (rounds i)) :: sk_round_ops rounds (S i) n).
  change (for_up (S n) i (skiplist_round rounds) l) with
    (l' ← (val ← value_or_panic (bytes_read (rounds i));
           SkipList.Add (SkipList.fuel_of l) (Util.GetFixedLengthKey (Z.of_nat i)) val
                        (level_draw (rounds i)) l);
     for_up n (S i) (skiplist_round rounds) l').
  unfold round_value. rewrite E, value_or_panic_Filled.
  change (SkipList.run (?op :: ?ops) l) with
    ('(_, s') ← SkipList.exec (SkipList.fuel_of l) op l; SkipList.run ops s').
  cbn [SkipList.exec mbind Res_bind].
  destruct (SkipList.Add _ _ _ _ l) as [l1| |]; cbn; [|done..]. by apply IH.
Qed.

Lemma sk_round_ops_other rounds k : forall n i m,
  (forall j, i <= j < i + n -> k <> Util.GetFixedLengthKey (Z.of_nat j)) ->
  SkipList.abs_run (sk_round_ops rounds i n) m k = m k.
Proof.
  induction n as [|n IH]; intros i m Hk; [done|].
  change (sk_round_ops rounds i (S n)) with
    (SkipList.OpAdd (Util.GetFixedLengthKey (Z.of_nat i)) (round_value (rounds i))
                    (level_draw (rounds i)) :: sk_round_ops rounds (S i) n).
  simpl. rewrite IH by (intros j Hj; apply Hk; lia). simpl.
  destruct (String.eqb_spec k (Util.GetFixedLengthKey (Z.of_nat i))) as [->|]; [|done].
  by destruct (Hk i ltac:(lia)).
Qed.

Lemma sk_round_ops_found rounds : forall n i m j,
  i <= j < i + n -> (Z.of_nat (i + n) <= Util.MaxInt + 1)%Z ->
  SkipList.abs_run (sk_round_ops rounds i n) m (Util.GetFixedLengthKey (Z.of_nat j)) =
    Some (round_value (rounds j)).
Proof.
  induction n as [|n IH]; intros i m j Hj Hb; [lia|].
  change (sk_round_ops rounds i (S n)) with
    (SkipList.OpAdd (Util.GetFixedLengthKey (Z.of_nat i)) (round_value (rounds i))
                    (level_draw (rounds i)) :: sk_round_ops rounds (S i) n).
  simpl. destruct (decide (j = i)) as [->|Hne].
  - rewrite sk_round_ops_other.
    + simpl. by rewrite String.eqb_refl.
    + intros j' Hj' E. apply key_of_round_inj in E; lia.
  - apply IH; lia.
Qed.

Lemma initSkiplist_ok_holds num rounds :
  (num <= Util.MaxInt)%Z -> initSkiplist_ok num rounds.
Proof.
  intros Hnum. unfold initSkiplist_ok, initSkiplist, SkipList.NewSkipList.
  destruct (SkipList.NewWithMaxLevel DefaultMaxLevel) as [l0| |] eqn:Hnew; [|done..].
  pose proof (SkipListFacts.NewWithMaxLevel_Rep _ _ Hnew) as HRep0. simpl.
  destruct (first_failure rounds 0 (Z.to_nat num)) as [err|] eqn:Hff.
  - apply first_failure_Some in Hff as (a & b & -> & Ha & Hf).
    rewrite for_up_add, (sk_rounds_run rounds a 0 l0 Ha).
    destruct (SkipListFacts.run_abs (sk_round_ops rounds 0 a) l0 [] HRep0)
      as (l1 & L1 & Hrun & _). rewrite Hrun. simpl in Hf.
    change ((l' ← (val ← value_or_panic (bytes_read (rounds a));
                   SkipList.Add (SkipList.fuel_of l1) (Util.GetFixedLengthKey (Z.of_nat a))
                                val (level_draw (rounds a)) l1);
             for_up b (S a) (skiplist_round rounds) l') = Panic err).
    by rewrite Hf, value_or_panic_Failed.
  - rewrite (sk_rounds_run rounds _ 0 l0 Hff).
    assert (Z.of_nat (Z.to_nat num) <= Util.MaxInt + 1)%Z as Hn
      by (unfold Util.MaxInt in *; lia).
    remember (Z.to_nat num) as n eqn:En.
    destruct (SkipListFacts.run_abs (sk_round_ops rounds 0 n) l0 [] HRep0)
      as (l & L & Hrun & HRep & Hc).
    assert (forall k, SkipList.content l L k =
                      SkipList.abs_run (sk_round_ops rounds 0 n) no_binding k) as Hc'.
    { intros k. rewrite Hc. by apply SkipListFacts.abs_run_at. }
    exists l. split; [done|]. split; [|split].
    + rewrite (SkipList.rep_len _ _ HRep).
      rewrite (length_by_keys l L _ (SkipList.rep_sorted _ _ HRep) (round_keys_NoDup n Hn)).
      { rewrite length_fmap, length_seq. lia. }
      intros k. unfold SkipList.content in Hc'.
      assert (is_Some (SkipList.find_key l k L) <->
              is_Some (SkipList.abs_run (sk_round_ops rounds 0 n) no_binding k)) as ->.
      { rewrite <- Hc'. by rewrite fmap_is_Some. }
      destruct (decide (k ∈ (fun j => Util.GetFixedLengthKey (Z.of_nat j)) <$> seq 0 n))
        as [Hin|Hnin].
      * split; [done|]. intros _. apply list_elem_of_fmap in Hin as (j & -> & Hj).
        apply elem_of_seq in Hj. rewrite sk_round_ops_found by lia. done.
      * split; [|done]. rewrite sk_round_ops_other; [by intros [? ?]|].
        intros j Hj ->. apply Hnin. apply list_elem_of_fmap. exists j.
        split; [done|]. apply elem_of_seq. lia.
    + intros z Hz. rewrite (Get_content l L _ HRep), Hc'.
      rewrite <- (Z2Nat.id z) at 1 by lia. rewrite sk_round_ops_found by lia. done.
    + intros k Hk. rewrite (Get_content l L _ HRep), Hc'.
      rewrite sk_round_ops_other; [done|]. intros j Hj. apply Hk. lia.
Qed.

(** *** The adaptive list *)

Lemma st_rounds_run rounds : forall n i l,
  first_failure rounds i n = None ->
  for_up n i (stashlist_round rounds) l = StashList.run (st_round_ops rounds i n) l.
Proof.
  induction n as [|n IH]; intros i l H; [done|]. simpl in H.
  destruct (bytes_read (rounds i)) as [b|err] eqn:E; [|discriminate].
  change (st_round_ops rounds i (S n)) with
    (StashList.OpAdd (Util.GetFixedLengthKey (Z.of_nat i)) (round_value (rounds i))
                     (level_draw (rounds i)) :: st_round_ops rounds (S i) n).
  change (for_up (S n) i (stashlist_round rounds) l) with
    (l' ← (val ← value_or_panic (bytes_read (rounds i));
           StashList.Add (StashList.fuel_of l) (Util.GetFixedLengthKey (Z.of_nat i)) val
                         (level_draw (rounds i)) l);
     for_up n (S i) (stashlist_round rounds) l').
  unfold round_value. rewrite E, value_or_panic_Filled.
  change (StashList.run (?op :: ?ops) l) with
    ('(_, s') ← StashList.exec (StashList.fuel_of l) op l; StashList.run ops s').
  cbn [StashList.exec mbind Res_bind].
  destruct (StashList.Add _ _ _ _ l) as [l1| |]; cbn; [|done..]. by apply IH.
Qed.

Lemma st_round_ops_no_Remove rounds n i : no_Remove (st_round_ops rounds i n) = true.
Proof.
  unfold no_Remove, st_round_ops. apply forallb_forall. intros op Hop.
  apply in_map_iff in Hop as (j & <- & _). done.
Qed.

Lemma st_round_ops_other rounds k : forall n i m,
  (forall j, i <= j < i + n -> k <> Util.GetFixedLengthKey (Z.of_nat j)) ->
  st_abs_run (st_round_ops rounds i n) m k = m k.
Proof.
  induction n as [|n IH]; intros i m Hk; [done|].
  change (st_round_ops rounds i (S n)) with
    (StashList.OpAdd (Util.GetFixedLengthKey (Z.of_nat i)) (round_value (rounds i))
                     (level_draw (rounds i)) :: st_round_ops rounds (S i) n).
  simpl. rewrite IH by (intros j Hj; apply Hk; lia). simpl.
  destruct (String.eqb_spec k (Util.GetFixedLengthKey (Z.of_nat i))) as [->|]; [|done].
  by destruct (Hk i ltac:(lia)).
Qed.

Lemma st_round_ops_found rounds : forall n i m j,
  i <= j < i + n -> (Z.of_nat (i + n) <= Util.MaxInt + 1)%Z ->
  st_abs_run (st_round_ops rounds i n) m (Util.GetFixedLengthKey (Z.of_nat j)) =
    Some (round_value (rounds j)).
Proof.
  induction n as [|n IH]; intros i m j Hj Hb; [lia|].
  change (st_round_ops rounds i (S n)) with
    (StashList.OpAdd (Util.GetFixedLengthKey (Z.of_nat i)) (round_value (rounds i))
                     (level_draw (rounds i)) :: st_round_ops rounds (S i) n).
  simpl. destruct (decide (j = i)) as [->|Hne].
  - rewrite st_round_ops_other.
    + simpl. by rewrite String.eqb_refl.
    + intros j' Hj' E. apply key_of_round_inj in E; lia.
  - apply IH; lia.
Qed.

Lemma initStashlist_ok_holds num rounds :
  (num <= Util.MaxInt)%Z -> initStashlist_ok num rounds.
Proof.
  intros Hnum. unfold initStashlist_ok, initStashlist, StashList.NewStashList.
  destruct (StashList.NewWithMaxLevel DefaultMaxLevel) as [l0| |] eqn:Hnew; [|done..].
  pose proof (st_NewWithMaxLevel_StRep _ _ Hnew) as HR0. simpl.
  destruct (first_failure rounds 0 (Z.to_nat num)) as [err|] eqn:Hff.
  - apply first_failure_Some in Hff as (a & b & -> & Ha & Hf).
    rewrite for_up_add, (st_rounds_run rounds a 0 l0 Ha).
    destruct (st_run_image (st_round_ops rounds 0 a) l0 [] HR0
                (st_round_ops_no_Remove _ _ _)) as (l1 & L1 & Hrun & _).
    rewrite Hrun. simpl in Hf.
    change ((l' ← (val ← value_or_panic (bytes_read (rounds a));
                   StashList.Add (StashList.fuel_of l1) (Util.GetFixedLengthKey (Z.of_nat a))
                                 val (level_draw (rounds a)) l1);
             for_up b (S a) (stashlist_round rounds) l') = Panic err).
    by rewrite Hf, value_or_panic_Failed.
  - rewrite (st_rounds_run rounds _ 0 l0 Hff).
    assert (Z.of_nat (Z.to_nat num) <= Util.MaxInt + 1)%Z as Hn
      by (unfold Util.MaxInt in *; lia).
    remember (Z.to_nat num) as n eqn:En.
    destruct (st_run_image (st_round_ops rounds 0 n) l0 [] HR0
                (st_round_ops_no_Remove _ _ _)) as (l & L & Hrun & HR & Hc).
    pose proof (strep_rep _ _ HR) as HRep.
    assert (forall k, SkipList.content (erase l) L k =
                      st_abs_run (st_round_ops rounds 0 n) no_binding k) as Hc'.
    { intros k. rewrite Hc. by apply st_abs_run_at. }
    exists l. split; [done|]. split; [|split].
    + change (StashList.Length l) with (SkipList.Length (erase l)).
      rewrite (SkipList.rep_len _ _ HRep).
      rewrite (length_by_keys (erase l) L _ (SkipList.rep_sorted _ _ HRep)
                 (round_keys_NoDup n Hn)).
      { rewrite length_fmap, length_seq. lia. }
      intros k. unfold SkipList.content in Hc'.
      assert (is_Some (SkipList.find_key (erase l) k L) <->
              is_Some (st_abs_run (st_round_ops rounds 0 n) no_binding k)) as ->.
      { rewrite <- Hc'. by rewrite fmap_is_Some. }
      destruct (decide (k ∈ (fun j => Util.GetFixedLengthKey (Z.of_nat j)) <$> seq 0 n))
        as [Hin|Hnin].
      * split; [done|]. intros _. apply list_elem_of_fmap in Hin as (j & -> & Hj).
        apply elem_of_seq in Hj. rewrite st_round_ops_found by lia. done.
      * split; [|done]. rewrite st_round_ops_other; [by intros [? ?]|].
        intros j Hj ->. apply Hnin. apply list_elem_of_fmap. exists j.
        split; [done|]. apply elem_of_seq. lia.
    + intros z Hz.
      destruct (st_Get_image l L (Util.GetFixedLengthKey z) (StashList.fuel_of l) HR
                  (StRep_fuel _ _ HR)) as (l' & HG & _).
      exists l'. rewrite HG, Hc'.
      rewrite <- (Z2Nat.id z) at 1 by lia. rewrite st_round_ops_found by lia. done.
    + intros k Hk.
      destruct (st_Get_image l L k (StashList.fuel_of l) HR (StRep_fuel _ _ HR))
        as (l' & HG & _).
      exists l'. rewrite HG, Hc'.
      rewrite st_round_ops_other; [done|]. intros j Hj. apply Hk. lia.
Qed.
End BenchFacts.

(** Benchmark set-up, baseline list: [initSkiplist(num)] panics with the
    error of the first [rand.Read] that fails; if none fails it returns a
    list with [Length = num] (0 for a negative [num]) in which [Get] finds
    [GetFixedLengthKey(n)] for every [0 <= n < num], with the 64 bytes read
    in round [n], and finds no other key. *)
Theorem bench_initSkiplist num rounds :
  (num <= Util.MaxInt)%Z -> initSkiplist_ok num rounds.
Proof. apply initSkiplist_ok_holds. Qed.

Lemma bench_initSkiplist_witness :
  initSkiplist_ok 3 (fun n => Bench.mkRound (Util.Filled (fun _ => Byte.x2a)) (draw_for (S n))).
Proof. apply bench_initSkiplist. unfold Util.MaxInt. lia. Defined.

(** Benchmark set-up, adaptive list: [initStashlist(num)] panics with the
    error of the first [rand.Read] that fails; if none fails it returns a
    list with [Length = num] (0 for a negative [num]) in which [Get] finds
    [GetFixedLengthKey(n)] for every [0 <= n < num], with the 64 bytes read
    in round [n], and finds no other key. *)
Theorem bench_initStashlist num rounds :
  (num <= Util.MaxInt)%Z -> initStashlist_ok num rounds.
Proof. apply initStashlist_ok_holds. Qed.

Lemma bench_initStashlist_witness :
  initStashlist_ok 3 (fun n => Bench.mkRound (Util.Filled (fun _ => Byte.x2a)) (draw_for (S n))).
Proof. apply bench_initStashlist. unfold Util.MaxInt. lia. Defined.
